(** * go-art: an adaptive radix tree, embedded and verified

    A shallow embedding of [art_node.go] and [art_tree.go].  Go pointers
    into the tree are owned uniquely (no node has two parents), so a node
    is a value and an in-place write through a slot pointer is the
    replacement of the slot's content.  A panic (index out of range, nil
    dereference) is [None] in the option monad.  The operations take a
    key as the bytes it holds; the last part of the model takes it as a
    slice, a window on an array that the tree or the caller holds. *)

From Stdlib Require Import ZArith Lia.
From Stdlib.Strings Require Import Byte String.
From stdpp Require Import base option list sorting.

Local Open Scope Z_scope.

(** ** Bytes and Go slices *)

Definition b2z (b : byte) : Z := Z.of_N (Byte.to_N b).

(** [byte(i)] and [uint8(i)]: the low eight bits. *)
Definition u8 (z : Z) : Z := z mod 256.

Definition z2b (z : Z) : byte :=
  match Byte.of_N (Z.to_N (u8 z)) with
  | Some b => b
  | None => x00
  end.

#[global] Instance byte_eq_dec : EqDecision byte.
Proof.
  intros a b. destruct (N.eq_dec (Byte.to_N a) (Byte.to_N b)) as [H|H].
  - left. apply (f_equal Byte.of_N) in H. rewrite !Byte.of_to_N in H. congruence.
  - right. congruence.
Defined.

Definition len {A} (l : list A) : Z := Z.of_nat (length l).

(** [l[i]] as a read; out of range panics. *)
Definition aget {A} (l : list A) (i : Z) : option A :=
  if decide (0 ≤ i) then l !! Z.to_nat i else None.

(** [l[i] = x]; out of range panics. *)
Definition aset {A} (l : list A) (i : Z) (x : A) : option (list A) :=
  if decide (0 ≤ i < len l) then Some (<[Z.to_nat i := x]> l) else None.

(** [l[i:]]; panics unless [0 <= i <= len(l)]. *)
Definition asuffix {A} (l : list A) (i : Z) : option (list A) :=
  if decide (0 ≤ i ≤ len l) then Some (drop (Z.to_nat i) l) else None.

(** [make([]T, n)] *)
Definition make {A} (n : nat) (zero : A) : list A := replicate n zero.

(** [memcpy] of art_tree.go: bounded by both lengths, never panics. *)
Fixpoint memcpy_from (fuel : nat) (i : Z) (dest src : list byte) (numBytes : Z)
  : list byte :=
  match fuel with
  | O => dest
  | S fuel' =>
      if decide (i < numBytes ∧ i < len src ∧ i < len dest) then
        match aget src i with
        | Some b => memcpy_from fuel' (i + 1) (<[Z.to_nat i := b]> dest) src numBytes
        | None => dest
        end
      else dest
  end.

Definition memcpy (dest src : list byte) (numBytes : Z) : list byte :=
  memcpy_from (length dest) 0 dest src numBytes.

(** [memcpy(dest[off:], src, numBytes)]: the destination is a window of
    [dest] starting at [off]; the caller guarantees [off <= len(dest)]. *)
Definition memcpy_at (dest : list byte) (off : Z) (src : list byte) (numBytes : Z)
  : option (list byte) :=
  w ← asuffix dest off;
  Some (take (Z.to_nat off) dest ++ memcpy w src numBytes).

(** [memmove] of art_tree.go: [dest[i] = src[i]] for [i < numBytes], no
    bounds guard.  The source is read through [src], which sees the
    current state of [dest]: at one call site the source is a later window
    of the destination's own backing array. *)
Fixpoint memmove_from (fuel : nat) (i : Z) (dest : list byte)
    (src : list byte → Z → option byte) (numBytes : Z) : option (list byte) :=
  match fuel with
  | O => Some dest
  | S fuel' =>
      if decide (i < numBytes) then
        b ← src dest i;
        dest' ← aset dest i b;
        memmove_from fuel' (i + 1) dest' src numBytes
      else Some dest
  end.

Definition memmove (dest : list byte) (src : list byte → Z → option byte)
    (numBytes : Z) : option (list byte) :=
  memmove_from (Z.to_nat numBytes) 0 dest src numBytes.

(** Go's [sort.Search(n, f)] (standard library): binary search for the
    least index in [0, n) at which [f] holds. *)
Fixpoint sort_Search_loop (fuel : nat) (i j : Z) (f : Z → option bool) : option Z :=
  match fuel with
  | O => Some i
  | S fuel' =>
      if decide (i < j) then
        let h := (i + j) / 2 in
        fh ← f h;
        if (fh : bool) then sort_Search_loop fuel' i h f
        else sort_Search_loop fuel' (h + 1) j f
      else Some i
  end.

Definition sort_Search (n : Z) (f : Z → option bool) : option Z :=
  sort_Search_loop (Z.to_nat n) 0 n f.

(** [bytes.Index(key, []byte{0})]: the position of the first zero byte, -1 if none. *)
Fixpoint bytes_Index0 (key : list byte) : Z :=
  match key with
  | [] => -1
  | b :: key' =>
      if decide (b = x00) then 0
      else let r := bytes_Index0 key' in if decide (r < 0) then -1 else r + 1
  end.

(** [ensureNullTerminatedKey] *)
Definition ensureNullTerminatedKey (key : list byte) : list byte :=
  let index := bytes_Index0 key in
  if decide (index < 0) then key ++ [x00] else key.

(** ** Nodes (art_node.go) *)

Inductive NodeType := NODE4 | NODE16 | NODE48 | NODE256 | LEAF.

#[global] Instance NodeType_eq_dec : EqDecision NodeType.
Proof. solve_decision. Defined.

Definition NODE4MIN := 2.
Definition NODE4MAX := 4.
Definition NODE16MIN := 5.
Definition NODE16MAX := 16.
Definition NODE48MIN := 17.
Definition NODE48MAX := 48.
Definition NODE256MIN := 49.
Definition NODE256MAX := 256.
Definition MAX_PREFIX_LEN := 10.

(** Combinators that apply a function at a list position.  The function
    is bound outside the recursion so that recursive calls on children
    pass the termination check. *)
Definition at_nat {A B} (f : A → B) : list A → nat → option B :=
  fix go (l : list A) (i : nat) {struct l} : option B :=
    match l, i with
    | [], _ => None
    | x :: _, O => Some (f x)
    | _ :: l', S i' => go l' i'
    end.

Definition at_index {A B} (f : A → B) (l : list A) (i : Z) : option B :=
  if decide (0 ≤ i) then at_nat f l (Z.to_nat i) else None.

Definition map_list {A B} (f : A → B) : list A → list B :=
  fix go (l : list A) : list B :=
    match l with
    | [] => []
    | x :: l' => f x :: go l'
    end.

(** [for i := start; i < start+count; i++ { body }] over a state, with panics. *)
Fixpoint for_loop {S} (count : nat) (i : Z) (body : Z → S → option S) (s : S)
  : option S :=
  match count with
  | O => Some s
  | S count' => s' ← body i s; for_loop count' (i + 1) body s'
  end.

Section Art.

(** The payload type behind Go's [interface{}]; [None] is [nil]. *)
Context {V : Type}.

(** [ArtNode] of art_node.go.  The field [keySize] is never read nor
    written by the package and is left out.  A nil slice is [[]], a nil
    child pointer is [None]. *)
#[local] Unset Elimination Schemes.
Inductive ArtNode := mkArtNode {
  keys : list byte;
  children : list (option ArtNode);
  prefix : list byte;
  prefixLen : Z;
  size : Z;                       (* uint8 *)
  key : list byte;
  value : option V;
  nodeType : NodeType
}.
#[local] Set Elimination Schemes.

Definition set_keys (n : ArtNode) (ks : list byte) : ArtNode :=
  mkArtNode ks (children n) (prefix n) (prefixLen n) (size n) (key n) (value n) (nodeType n).
Definition set_children (n : ArtNode) (cs : list (option ArtNode)) : ArtNode :=
  mkArtNode (keys n) cs (prefix n) (prefixLen n) (size n) (key n) (value n) (nodeType n).
Definition set_prefix (n : ArtNode) (p : list byte) : ArtNode :=
  mkArtNode (keys n) (children n) p (prefixLen n) (size n) (key n) (value n) (nodeType n).
Definition set_prefixLen (n : ArtNode) (l : Z) : ArtNode :=
  mkArtNode (keys n) (children n) (prefix n) l (size n) (key n) (value n) (nodeType n).
Definition set_size (n : ArtNode) (s : Z) : ArtNode :=
  mkArtNode (keys n) (children n) (prefix n) (prefixLen n) s (key n) (value n) (nodeType n).

Definition NewLeafNode (k : list byte) (v : option V) : ArtNode :=
  mkArtNode [] [] [] 0 0 k v LEAF.

Definition NewNode4 : ArtNode :=
  mkArtNode (make 4 x00) (make 4 None) (make 10 x00) 0 0 [] None NODE4.

Definition NewNode16 : ArtNode :=
  mkArtNode (make 16 x00) (make 16 None) (make 10 x00) 0 0 [] None NODE16.

Definition NewNode48 : ArtNode :=
  mkArtNode (make 256 x00) (make 48 None) (make 10 x00) 0 0 [] None NODE48.

Definition NewNode256 : ArtNode :=
  mkArtNode [] (make 256 None) (make 10 x00) 0 0 [] None NODE256.

Definition MinSize (n : ArtNode) : Z :=
  match nodeType n with
  | NODE4 => NODE4MIN
  | NODE16 => NODE16MIN
  | NODE48 => NODE48MIN
  | NODE256 => NODE256MIN
  | LEAF => 0
  end.

Definition MaxSize (n : ArtNode) : Z :=
  match nodeType n with
  | NODE4 => NODE4MAX
  | NODE16 => NODE16MAX
  | NODE48 => NODE48MAX
  | NODE256 => NODE256MAX
  | LEAF => 0
  end.

(** [uint16(n.size) == uint16(n.MaxSize())] *)
Definition IsFull (n : ArtNode) : bool := bool_decide (size n = MaxSize n).

Definition IsLeaf (n : ArtNode) : bool := bool_decide (nodeType n = LEAF).

Definition IsMatch (n : ArtNode) (k : list byte) : bool :=
  if decide (nodeType n ≠ LEAF) then false else bool_decide (key n = k).

(** [copyMeta]: size, prefix (the slice itself) and prefixLen. *)
Definition copyMeta (n other : ArtNode) : ArtNode :=
  mkArtNode (keys n) (children n) (prefix other) (prefixLen other) (size other)
            (key n) (value n) (nodeType n).

(** [Minimum] on a non-nil receiver.  The outer option is a panic, the
    inner one a nil result. *)
Fixpoint first_nonzero (fuel : nat) (i : Z) (ks : list byte) : option Z :=
  match fuel with
  | O => None
  | S fuel' =>
      k ← aget ks i;
      if decide (k = x00) then first_nonzero fuel' (i + 1) ks else Some i
  end.

Fixpoint first_nonnil {A} (fuel : nat) (i : Z) (cs : list (option A)) : option Z :=
  match fuel with
  | O => None
  | S fuel' =>
      c ← aget cs i;
      match c with
      | None => first_nonnil fuel' (i + 1) cs
      | Some _ => Some i
      end
  end.

Fixpoint Minimum (n : ArtNode) : option (option ArtNode) :=
  let sub := fun c : option ArtNode =>
               match c with
               | Some c' => Minimum c'
               | None => Some None
               end in
  match nodeType n with
  | LEAF => Some (Some n)
  | NODE4 | NODE16 => r ← at_index sub (children n) 0; r
  | NODE48 =>
      i ← first_nonzero (S (length (keys n))) 0 (keys n);
      k ← aget (keys n) i;
      r ← at_index sub (children n) (b2z k - 1); r
  | NODE256 =>
      i ← first_nonnil (S (length (children n))) 0 (children n);
      r ← at_index sub (children n) i; r
  end.

(** [n.Minimum().key]: a nil result is dereferenced, which panics. *)
Definition Minimum_key (n : ArtNode) : option (list byte) :=
  m ← Minimum n; m' ← m; Some (key m').

(** [PrefixMismatch] *)
Fixpoint PrefixMismatch_from (fuel : nat) (n : ArtNode) (k : list byte)
    (depth index : Z) (pfx : list byte) : option Z :=
  match fuel with
  | O => Some index
  | S fuel' =>
      if decide (index < prefixLen n ∧ depth + index < len k) then
        kb ← aget k (depth + index);
        pb ← aget pfx index;
        if decide (kb = pb) then
          pfx' ← (if decide (index = MAX_PREFIX_LEN - 1)
                  then mk ← Minimum_key n; asuffix mk depth
                  else Some pfx);
          PrefixMismatch_from fuel' n k depth (index + 1) pfx'
        else Some index
      else Some index
  end.

Definition PrefixMismatch (n : ArtNode) (k : list byte) (depth : Z) : option Z :=
  PrefixMismatch_from (Z.to_nat (prefixLen n)) n k depth 0 (prefix n).

(** [Index]; the result -1 stands for an absent key. *)
Fixpoint Index4_from (fuel : nat) (i : Z) (n : ArtNode) (k : byte) : option Z :=
  match fuel with
  | O => Some (-1)
  | S fuel' =>
      if decide (i < size n) then
        ki ← aget (keys n) i;
        if decide (ki = k) then Some i else Index4_from fuel' (u8 (i + 1)) n k
      else Some (-1)
  end.

Definition Index (n : ArtNode) (k : byte) : option Z :=
  match nodeType n with
  | NODE4 => Index4_from 256 0 n k
  | NODE16 =>
      index ← sort_Search (size n)
                (fun i => ki ← aget (keys n) (u8 i); Some (bool_decide (b2z k ≤ b2z ki)));
      if decide (index < len (keys n)) then
        ki ← aget (keys n) index;
        if decide (ki = k) then Some index else Some (-1)
      else Some (-1)
  | NODE48 =>
      ki ← aget (keys n) (b2z k);
      let index := b2z ki in
      if decide (index > 0) then Some (index - 1) else Some (-1)
  | NODE256 => Some (b2z k)
  | LEAF => Some (-1)
  end.

(** [FindChild] on a non-nil receiver.  The slot pointer [&n.children[i]]
    is the index [Some i]; the address of the local nil is [None]. *)
Definition FindChild (n : ArtNode) (k : byte) : option (option Z) :=
  match nodeType n with
  | NODE4 | NODE16 | NODE48 =>
      index ← Index n k;
      if decide (0 ≤ index) then
        _ ← aget (children n) index; Some (Some index)
      else Some None
  | NODE256 =>
      child ← aget (children n) (b2z k);
      match child with
      | Some _ => Some (Some (b2z k))
      | None => Some None
      end
  | LEAF => Some None
  end.

(** The first loop of [AddChild] for NODE4: the first position whose key
    is greater than [k]. *)
Fixpoint AddChild4_index (fuel : nat) (index : Z) (n : ArtNode) (k : byte) : option Z :=
  match fuel with
  | O => Some index
  | S fuel' =>
      if decide (index < size n) then
        ki ← aget (keys n) index;
        if decide (b2z k < b2z ki) then Some index
        else AddChild4_index fuel' (u8 (index + 1)) n k
      else Some index
  end.

(** The shifting loop shared by NODE4 and NODE16:
    [for i := n.size; i > index; i-- { if n.keys[i-1] > key { ... } }]. *)
Fixpoint AddChild_shift (fuel : nat) (i index : Z) (k : byte)
    (ks : list byte) (cs : list (option ArtNode))
  : option (list byte * list (option ArtNode)) :=
  match fuel with
  | O => Some (ks, cs)
  | S fuel' =>
      if decide (i > index) then
        ki ← aget ks (i - 1);
        if decide (b2z ki > b2z k) then
          ks' ← aset ks i ki;
          ci ← aget cs (i - 1);
          cs' ← aset cs i ci;
          AddChild_shift fuel' (u8 (i - 1)) index k ks' cs'
        else AddChild_shift fuel' (u8 (i - 1)) index k ks cs
      else Some (ks, cs)
  end.

(** The slot search of NODE48:
    [for i := 0; i < len(children); i++ { if children[index] != nil { index++ } }]. *)
Definition first_free (cs : list (option ArtNode)) : option Z :=
  for_loop (length cs) 0
    (fun _ index => c ← aget cs index;
                    Some (match c with Some _ => index + 1 | None => index end)) 0.

(** The insertion proper, once the node is known not to be full. *)
Definition AddChild_sorted (n : ArtNode) (index : Z) (k : byte) (node : ArtNode)
  : option ArtNode :=
  '(ks, cs) ← AddChild_shift 256 (size n) index k (keys n) (children n);
  ks' ← aset ks index k;
  cs' ← aset cs index (Some node);
  Some (set_size (set_children (set_keys n ks') cs') (u8 (size n + 1))).

Definition AddChild48_place (n : ArtNode) (k : byte) (node : ArtNode) : option ArtNode :=
  index ← first_free (children n);
  cs' ← aset (children n) index (Some node);
  ks' ← aset (keys n) (b2z k) (z2b (index + 1));
  Some (set_size (set_children (set_keys n ks') cs') (u8 (size n + 1))).

(** [grow] *)
Definition grow (n : ArtNode) : option ArtNode :=
  match nodeType n with
  | NODE4 =>
      let other := copyMeta NewNode16 n in
      for_loop (Z.to_nat (size n)) 0
        (fun i other =>
           ki ← aget (keys n) i; ks' ← aset (keys other) i ki;
           ci ← aget (children n) i; cs' ← aset (children other) i ci;
           Some (set_children (set_keys other ks') cs')) other
  | NODE16 =>
      let other := copyMeta NewNode48 n in
      for_loop (Z.to_nat (size n)) 0
        (fun i other =>
           child ← aget (children n) i;
           match child with
           | Some _ =>
               index ← first_free (children other);
               cs' ← aset (children other) index child;
               ki ← aget (keys n) i;
               ks' ← aset (keys other) (b2z ki) (z2b (index + 1));
               Some (set_children (set_keys other ks') cs')
           | None => Some other
           end) other
  | NODE48 =>
      let other := copyMeta NewNode256 n in
      for_loop (length (keys n)) 0
        (fun i other =>
           slot ← FindChild n (z2b i);
           child ← match slot with
                   | Some j => aget (children n) j
                   | None => Some None
                   end;
           match child with
           | Some _ =>
               cs' ← aset (children other) (b2z (z2b i)) child;
               Some (set_children other cs')
           | None => Some other
           end) other
  | NODE256 => Some n
  | LEAF => Some n
  end.

(** [AddChild].  The recursion of the source ([n.grow(); n.AddChild(key,
    node)]) climbs the node types and is unrolled from the largest down. *)
Definition AddChild256 (n : ArtNode) (k : byte) (node : ArtNode) : option ArtNode :=
  if IsFull n then Some n
  else
    cs' ← aset (children n) (b2z k) (Some node);
    Some (set_size (set_children n cs') (u8 (size n + 1))).

Definition AddChild48 (n : ArtNode) (k : byte) (node : ArtNode) : option ArtNode :=
  if IsFull n then n' ← grow n; AddChild256 n' k node
  else AddChild48_place n k node.

Definition AddChild16 (n : ArtNode) (k : byte) (node : ArtNode) : option ArtNode :=
  if IsFull n then n' ← grow n; AddChild48 n' k node
  else
    index ← sort_Search (size n)
              (fun i => ki ← aget (keys n) (u8 i); Some (bool_decide (b2z k ≤ b2z ki)));
    AddChild_sorted n (u8 index) k node.

Definition AddChild4 (n : ArtNode) (k : byte) (node : ArtNode) : option ArtNode :=
  if IsFull n then n' ← grow n; AddChild16 n' k node
  else
    index ← AddChild4_index 256 0 n k;
    AddChild_sorted n index k node.

Definition AddChild (n : ArtNode) (k : byte) (node : ArtNode) : option ArtNode :=
  match nodeType n with
  | NODE4 => AddChild4 n k node
  | NODE16 => AddChild16 n k node
  | NODE48 => AddChild48 n k node
  | NODE256 => AddChild256 n k node
  | LEAF => Some n
  end.

(** [shrink] *)
Definition shrink (n : ArtNode) : option ArtNode :=
  match nodeType n with
  | NODE4 =>
      c ← aget (children n) 0;
      other ← c;
      if negb (IsLeaf other) then
        let currentPrefixLen := prefixLen n in
        '(npfx, currentPrefixLen) ←
          (if decide (currentPrefixLen < MAX_PREFIX_LEN) then
             k0 ← aget (keys n) 0;
             p ← aset (prefix n) currentPrefixLen k0;
             Some (p, currentPrefixLen + 1)
           else Some (prefix n, currentPrefixLen));
        '(npfx, currentPrefixLen) ←
          (if decide (currentPrefixLen < MAX_PREFIX_LEN) then
             let childPrefixLen :=
               Z.min (prefixLen other) (MAX_PREFIX_LEN - currentPrefixLen) in
             p ← memcpy_at npfx currentPrefixLen (prefix other) childPrefixLen;
             Some (p, currentPrefixLen + childPrefixLen)
           else Some (npfx, currentPrefixLen));
        let opfx := memcpy (prefix other) npfx (Z.min currentPrefixLen MAX_PREFIX_LEN) in
        Some (set_prefixLen (set_prefix other opfx) (prefixLen other + (prefixLen n + 1)))
      else Some (copyMeta other n)
  | NODE16 =>
      let other := set_size (copyMeta NewNode4 n) 0 in
      for_loop (length (keys other)) 0
        (fun i other =>
           ki ← aget (keys n) i; ks' ← aset (keys other) i ki;
           ci ← aget (children n) i; cs' ← aset (children other) i ci;
           Some (set_size (set_children (set_keys other ks') cs') (u8 (size other + 1))))
        other
  | NODE48 =>
      let other := set_size (copyMeta NewNode16 n) 0 in
      for_loop (length (keys n)) 0
        (fun i other =>
           ki ← aget (keys n) (u8 i);
           if decide (b2z ki > 0) then
             child ← aget (children n) (b2z ki - 1);
             match child with
             | Some _ =>
                 cs' ← aset (children other) (size other) child;
                 ks' ← aset (keys other) (size other) (z2b i);
                 Some (set_size (set_children (set_keys other ks') cs') (u8 (size other + 1)))
             | None => Some other
             end
           else Some other) other
  | NODE256 =>
      let other := set_size (copyMeta NewNode48 n) 0 in
      for_loop (length (children n)) 0
        (fun i other =>
           child ← aget (children n) (u8 i);
           match child with
           | Some _ =>
               cs' ← aset (children other) (size other) child;
               ks' ← aset (keys other) (u8 i) (z2b (size other + 1));
               Some (set_size (set_children (set_keys other ks') cs') (u8 (size other + 1)))
           | None => Some other
           end) other
  | LEAF => Some n
  end.

(** The compaction loop of [RemoveChild] for NODE4 and NODE16:
    [for i := uint8(idx); i < n.size-1; i++ { ... }]. *)
Fixpoint RemoveChild_shift (fuel : nat) (i bound : Z)
    (ks : list byte) (cs : list (option ArtNode))
  : option (list byte * list (option ArtNode)) :=
  match fuel with
  | O => Some (ks, cs)
  | S fuel' =>
      if decide (i < bound) then
        ki ← aget ks (u8 (i + 1)); ks' ← aset ks i ki;
        ci ← aget cs (u8 (i + 1)); cs' ← aset cs i ci;
        RemoveChild_shift fuel' (u8 (i + 1)) bound ks' cs'
      else Some (ks, cs)
  end.

(** [RemoveChild] *)
Definition RemoveChild (n : ArtNode) (k : byte) : option ArtNode :=
  n' ← match nodeType n with
       | NODE4 | NODE16 =>
           idx ← Index n k;
           ks ← aset (keys n) idx x00;
           cs ← aset (children n) idx None;
           '(ks, cs) ← (if decide (0 ≤ idx)
                        then RemoveChild_shift 256 (u8 idx) (u8 (size n - 1)) ks cs
                        else Some (ks, cs));
           ks ← aset ks (u8 (size n - 1)) x00;
           cs ← aset cs (u8 (size n - 1)) None;
           Some (set_size (set_children (set_keys n ks) cs) (u8 (size n - 1)))
       | NODE48 =>
           idx ← Index n k;
           if decide (0 ≤ idx) then
             child ← aget (children n) idx;
             match child with
             | Some _ =>
                 cs ← aset (children n) idx None;
                 ks ← aset (keys n) (b2z k) x00;
                 Some (set_size (set_children (set_keys n ks) cs) (u8 (size n - 1)))
             | None => Some n
             end
           else Some n
       | NODE256 =>
           idx ← Index n k;
           child ← aget (children n) idx;
           match child with
           | Some _ =>
               cs ← aset (children n) idx None;
               Some (set_size (set_children n cs) (u8 (size n - 1)))
           | None => Some n
           end
       | LEAF => Some n
       end;
  if decide (size n' < MinSize n') then shrink n' else Some n'.

(** [LongestCommonPrefix] *)
Fixpoint LongestCommonPrefix_from (fuel : nat) (i limit : Z) (k1 k2 : list byte)
    (depth : Z) : option Z :=
  match fuel with
  | O => Some i
  | S fuel' =>
      if decide (i < limit) then
        a ← aget k1 (depth + i);
        b ← aget k2 (depth + i);
        if decide (a ≠ b) then Some i
        else LongestCommonPrefix_from fuel' (i + 1) limit k1 k2 depth
      else Some i
  end.

Definition LongestCommonPrefix (n other : ArtNode) (depth : Z) : option Z :=
  let limit := Z.min (len (key n)) (len (key other)) - depth in
  LongestCommonPrefix_from (Z.to_nat limit) 0 limit (key n) (key other) depth.

(** [Maximum] on a non-nil receiver. *)
Fixpoint last_nonzero (fuel : nat) (i : Z) (ks : list byte) : option Z :=
  match fuel with
  | O => None
  | S fuel' =>
      k ← aget ks i;
      if decide (k = x00) then last_nonzero fuel' (i - 1) ks else Some i
  end.

Fixpoint last_nonnil {A} (fuel : nat) (i : Z) (cs : list (option A)) : option Z :=
  match fuel with
  | O => Some i
  | S fuel' =>
      if decide (i > 0) then
        c ← aget cs (u8 i);
        match c with
        | None => last_nonnil fuel' (i - 1) cs
        | Some _ => Some i
        end
      else Some i
  end.

Fixpoint Maximum (n : ArtNode) : option (option ArtNode) :=
  let sub := fun c : option ArtNode =>
               match c with
               | Some c' => Maximum c'
               | None => Some None
               end in
  match nodeType n with
  | LEAF => Some (Some n)
  | NODE4 | NODE16 => r ← at_index sub (children n) (u8 (size n - 1)); r
  | NODE48 =>
      i ← last_nonzero (S (length (keys n))) (len (keys n) - 1) (keys n);
      k ← aget (keys n) i;
      r ← at_index sub (children n) (b2z k - 1); r
  | NODE256 =>
      i ← last_nonnil (length (children n)) (len (children n) - 1) (children n);
      r ← at_index sub (children n) i; r
  end.

(** ** The tree (art_tree.go) *)

(** [ArtTree]; its [size] field is [tree_size] here, the node's field
    keeping the name. *)
Record ArtTree := mkArtTree {
  root : option ArtNode;
  tree_size : Z
}.

Definition NewArtTree : ArtTree := mkArtTree None 0.

(** [searchHelper] on a non-nil node; a nil node answers nil at once. *)
Fixpoint searchHelper (current : ArtNode) (k : list byte) (depth : Z)
  : option (option ArtNode) :=
  let maxKeyIndex := len k - 1 in
  let descend := fun depth : Z =>
    kb ← aget k depth;
    slot ← FindChild current kb;
    match slot with
    | None => Some None
    | Some i =>
        r ← at_index (fun c : option ArtNode =>
                        match c with
                        | Some c' => searchHelper c' k (depth + 1)
                        | None => Some None
                        end) (children current) i;
        r
    end in
  if decide (depth > maxKeyIndex) then Some (Some current)
  else if IsLeaf current && bool_decide (len k ≤ len (key current))
          && bool_decide (k = take (length k) (key current))
  then Some (Some current)
  else
    prefixMismatch ← PrefixMismatch current k depth;
    if decide (prefixMismatch = prefixLen current) then
      let depth := depth + prefixLen current in
      if decide (depth > maxKeyIndex) then Some (Some current)
      else descend depth
    else if decide (prefixMismatch = len k - depth) then Some (Some current)
    else Some None.

Definition searchFrom (start : option ArtNode) (k : list byte) : option (option ArtNode) :=
  match start with
  | Some current => searchHelper current k 0
  | None => Some None
  end.

(** [Search]: the outer option is a panic, the inner one the returned
    interface value. *)
Definition Search (t : ArtTree) (k : list byte) : option (option V) :=
  let k := ensureNullTerminatedKey k in
  foundNode ← searchFrom (root t) k;
  match foundNode with
  | Some n => if IsMatch n k then Some (value n) else Some None
  | None => Some None
  end.

(** The split of a compressed path in [insertHelper].  The node [current]
    is stored in [newNode4] by pointer before its prefix is rewritten, so
    the child of the new node is the rewritten [current]. *)
Definition insert_split (current : ArtNode) (k : list byte) (v : option V)
    (depth mismatch : Z) : option ArtNode :=
  let newNode4 := set_prefixLen NewNode4 mismatch in
  let newNode4 := set_prefix newNode4 (memcpy (prefix newNode4) (prefix current) mismatch) in
  '(b, current') ←
    (if decide (prefixLen current < MAX_PREFIX_LEN) then
       b ← aget (prefix current) mismatch;
       let current' := set_prefixLen current (prefixLen current - (mismatch + 1)) in
       _ ← asuffix (prefix current') (mismatch + 1);
       p ← memmove (prefix current') (fun d j => aget d (mismatch + 1 + j))
             (Z.min (prefixLen current') MAX_PREFIX_LEN);
       Some (b, set_prefix current' p)
     else
       let current' := set_prefixLen current (prefixLen current - (mismatch + 1)) in
       minKey ← Minimum_key current';
       b ← aget minKey (depth + mismatch);
       src ← asuffix minKey (depth + mismatch + 1);
       p ← memmove (prefix current') (fun _ j => aget src j)
             (Z.min (prefixLen current') MAX_PREFIX_LEN);
       Some (b, set_prefix current' p));
  newNode4 ← AddChild newNode4 b current';
  let newLeafNode := NewLeafNode k v in
  kb ← aget k (depth + mismatch);
  AddChild newNode4 kb newLeafNode.

(** [insertHelper] on a non-nil node.  It returns the new content of the
    slot [currentRef] and the tree's size. *)
Fixpoint insertHelper (current : ArtNode) (k : list byte) (v : option V)
    (depth : Z) (tsize : Z) : option (ArtNode * Z) :=
  if IsLeaf current then
    if IsMatch current k then Some (current, tsize)
    else
      let newLeafNode := NewLeafNode k v in
      limit ← LongestCommonPrefix current newLeafNode depth;
      let newNode4 := set_prefixLen NewNode4 limit in
      ksuf ← asuffix k depth;
      let newNode4 :=
        set_prefix newNode4
          (memcpy (prefix newNode4) ksuf (Z.min (prefixLen newNode4) MAX_PREFIX_LEN)) in
      b1 ← aget (key current) (depth + prefixLen newNode4);
      newNode4 ← AddChild newNode4 b1 current;
      b2 ← aget k (depth + prefixLen newNode4);
      newNode4 ← AddChild newNode4 b2 newLeafNode;
      Some (newNode4, tsize + 1)
  else
    step ← (if decide (prefixLen current ≠ 0) then
              mismatch ← PrefixMismatch current k depth;
              if decide (mismatch ≠ prefixLen current) then
                newNode4 ← insert_split current k v depth mismatch;
                Some (inl (newNode4, tsize + 1))
              else Some (inr (depth + prefixLen current))
            else Some (inr depth));
    match step with
    | inl r => Some r
    | inr depth =>
        kb ← aget k depth;
        next ← FindChild current kb;
        let add :=
          n' ← AddChild current kb (NewLeafNode k v);
          Some (n', tsize + 1) in
        match next with
        | Some i =>
            r ← at_index (fun c : option ArtNode =>
                            match c with
                            | Some c' => Some (insertHelper c' k v (depth + 1) tsize)
                            | None => None
                            end) (children current) i;
            match r with
            | Some rec =>
                '(c', tsize') ← rec;
                cs' ← aset (children current) i (Some c');
                Some (set_children current cs', tsize')
            | None => add
            end
        | None => add
        end
    end.

(** [Insert] *)
Definition Insert (t : ArtTree) (k : list byte) (v : option V) : option ArtTree :=
  let k := ensureNullTerminatedKey k in
  match root t with
  | None => Some (mkArtTree (Some (NewLeafNode k v)) (tree_size t + 1))
  | Some current =>
      '(r, s) ← insertHelper current k v 0 (tree_size t);
      Some (mkArtTree (Some r) s)
  end.

(** What [removeHelper] finds in the slot [next]. *)
Inductive remove_next (A : Type) :=
  | next_nil
  | next_match
  | next_recurse (r : A).
Arguments next_nil {A}.
Arguments next_match {A}.
Arguments next_recurse {A} r.

(** [removeHelper] on a non-nil node: the new content of [currentRef]
    and the tree's size. *)
Fixpoint removeHelper (current : ArtNode) (k : list byte) (depth : Z) (tsize : Z)
  : option (option ArtNode * Z) :=
  if IsLeaf current && IsMatch current k then Some (None, tsize - 1)
  else
    step ← (if decide (prefixLen current ≠ 0) then
              mismatch ← PrefixMismatch current k depth;
              if decide (mismatch ≠ prefixLen current) then Some None
              else Some (Some (depth + prefixLen current))
            else Some (Some depth));
    match step with
    | None => Some (Some current, tsize)
    | Some depth =>
        kb ← aget k depth;
        next ← FindChild current kb;
        match next with
        | None => Some (Some current, tsize)
        | Some i =>
            r ← at_index (fun c : option ArtNode =>
                            match c with
                            | None => next_nil
                            | Some c' =>
                                if IsLeaf c' && IsMatch c' k then next_match
                                else next_recurse (removeHelper c' k (depth + 1) tsize)
                            end) (children current) i;
            match r with
            | next_nil => Some (Some current, tsize)
            | next_match =>
                n' ← RemoveChild current kb;
                Some (Some n', tsize - 1)
            | next_recurse rec =>
                '(slot', tsize') ← rec;
                cs' ← aset (children current) i slot';
                Some (Some (set_children current cs'), tsize')
            end
        end
    end.

(** [Remove] *)
Definition Remove (t : ArtTree) (k : list byte) : option ArtTree :=
  let k := ensureNullTerminatedKey k in
  match root t with
  | None => Some t
  | Some current =>
      '(r, s) ← removeHelper current k 0 (tree_size t);
      Some (mkArtTree r s)
  end.

(** Joins the sends of successive recursive calls; a panic in one of them
    is a panic of the whole. *)
Fixpoint concat_sends (rs : list (option (list ArtNode))) : option (list ArtNode) :=
  match rs with
  | [] => Some []
  | r :: rs' => l ← r; l' ← concat_sends rs'; Some (l ++ l')
  end.

(** [eachHelper] on a non-nil node: the sequence of nodes sent on the
    channel [dest]. *)
Fixpoint eachHelper (current : ArtNode) : option (list ArtNode) :=
  let sub := fun next : option ArtNode =>
               match next with
               | Some next' => eachHelper next'
               | None => Some []
               end in
  rest ←
    (if decide (nodeType current = NODE48) then
       for_loop (length (keys current)) 0
         (fun i sent =>
            index ← aget (keys current) (u8 i);
            if decide (b2z index > 0) then
              r ← at_index sub (children current) (b2z index - 1);
              l ← r;
              Some (sent ++ l)
            else Some sent) []
     else concat_sends (map_list sub (children current)));
  Some (current :: rest).

(** [EachChanFrom]: the nodes received from the channel, in order. *)
Definition EachChanFrom (start : option ArtNode) : option (list ArtNode) :=
  match start with
  | Some current => eachHelper current
  | None => Some []
  end.

(** [Each]: the sequence of nodes handed to the callback. *)
Definition Each (t : ArtTree) : option (list ArtNode) := EachChanFrom (root t).

(** [EachChanResultFrom]: the leaves among the nodes, as (key, value). *)
Definition EachChanResultFrom (start : option ArtNode)
  : option (list (list byte * option V)) :=
  nodes ← EachChanFrom start;
  Some (map (fun n : ArtNode => (key n, value n))
            (filter (fun n : ArtNode => Is_true (IsLeaf n)) nodes)).

(** [PrefixSearch] *)
Definition PrefixSearch (t : ArtTree) (k : list byte) : option (list (option V)) :=
  start ← searchFrom (root t) k;
  res ← EachChanResultFrom start;
  Some (map snd res).

(** [EachChan], [EachChanResult] and [PrefixSearchChan]: what the returned
    channel delivers until it is closed. *)
Definition EachChan (t : ArtTree) : option (list ArtNode) := EachChanFrom (root t).

Definition EachChanResult (t : ArtTree) : option (list (list byte * option V)) :=
  EachChanResultFrom (root t).

Definition PrefixSearchChan (t : ArtTree) (k : list byte)
  : option (list (list byte * option V)) :=
  start ← searchFrom (root t) k;
  EachChanResultFrom start.

(** [Value] *)
Definition Value (n : ArtNode) : option V :=
  if decide (nodeType n ≠ LEAF) then None else value n.

(** The exported operations as a transition system on the tree. *)
Inductive Op :=
  | OpInsert (k : list byte) (v : option V)
  | OpRemove (k : list byte)
  | OpSearch (k : list byte)
  | OpPrefixSearch (k : list byte)
  | OpEach.

Definition step (t : ArtTree) (o : Op) : option ArtTree :=
  match o with
  | OpInsert k v => Insert t k v
  | OpRemove k => Remove t k
  | OpSearch k => _ ← Search t k; Some t
  | OpPrefixSearch k => _ ← PrefixSearch t k; Some t
  | OpEach => _ ← Each t; Some t
  end.

Fixpoint run (t : ArtTree) (ops : list Op) : option ArtTree :=
  match ops with
  | [] => Some t
  | o :: ops' => t' ← step t o; run t' ops'
  end.

(** ** Key slices and the arrays behind them

    A Go slice is a window on a backing array, and [append] writes
    through it into the array when the capacity allows.  The one
    [append] of the package to a slice it was handed is that of
    [ensureNullTerminatedKey].  The byte arrays a caller can hold are its
    own and, through [Result.Key], the key arrays of the leaves; each
    leaf has a key array of its own, made by [NewLeafNode]. *)

Definition set_key (n : ArtNode) (k : list byte) : ArtNode :=
  mkArtNode (keys n) (children n) (prefix n) (prefixLen n) (size n) k (value n) (nodeType n).

(** A backing array: the key array of the leaf reached from the root
    through the given child slots, or the [a]-th array of the caller. *)
Inductive Loc :=
  | LeafKey (path : list Z)
  | Own (a : nat).

(** A slice: its array, the offset of its first byte, [len] and [cap]. *)
Record Slice := mkSlice {
  s_base : Loc;
  s_off : Z;
  s_len : Z;
  s_cap : Z
}.

(** The memory: the tree and the arrays of the caller. *)
Record Mem := mkMem {
  m_tree : ArtTree;
  m_own : list (list byte)
}.

Fixpoint node_at (n : ArtNode) (path : list Z) : option ArtNode :=
  match path with
  | [] => Some n
  | i :: path' => c ← aget (children n) i; c' ← c; node_at c' path'
  end.

(** The write [array[i] = b] into the key array of the leaf at [path]. *)
Fixpoint poke_key (n : ArtNode) (path : list Z) (i : Z) (b : byte) : option ArtNode :=
  match path with
  | [] =>
      if IsLeaf n then k ← aset (key n) i b; Some (set_key n k) else None
  | j :: path' =>
      c ← aget (children n) j; c' ← c;
      c'' ← poke_key c' path' i b;
      cs ← aset (children n) j (Some c'');
      Some (set_children n cs)
  end.

Definition mem_array (m : Mem) (l : Loc) : option (list byte) :=
  match l with
  | LeafKey path =>
      r ← root (m_tree m); n ← node_at r path;
      if IsLeaf n then Some (key n) else None
  | Own a => m_own m !! a
  end.

Definition mem_store (m : Mem) (l : Loc) (i : Z) (b : byte) : option Mem :=
  match l with
  | LeafKey path =>
      r ← root (m_tree m); r' ← poke_key r path i b;
      Some (mkMem (mkArtTree (Some r') (tree_size (m_tree m))) (m_own m))
  | Own a =>
      arr ← m_own m !! a; arr' ← aset arr i b;
      Some (mkMem (m_tree m) (<[a := arr']> (m_own m)))
  end.

(** The bytes that a slice holds. *)
Definition slice_bytes (m : Mem) (s : Slice) : option (list byte) :=
  arr ← mem_array m (s_base s);
  if decide (0 ≤ s_off s ∧ 0 ≤ s_len s ∧ s_off s + s_len s ≤ len arr)
  then Some (take (Z.to_nat (s_len s)) (drop (Z.to_nat (s_off s)) arr))
  else None.

(** [s[lo:hi]]; panics unless [0 <= lo <= hi <= cap(s)]. *)
Definition reslice (s : Slice) (lo hi : Z) : option Slice :=
  if decide (0 ≤ lo ∧ lo ≤ hi ∧ hi ≤ s_cap s)
  then Some (mkSlice (s_base s) (s_off s + lo) (hi - lo) (s_cap s - lo))
  else None.

(** The [Key] of the [Result] that [EachChanResultFrom] sends for the
    leaf at [path]: the leaf's [key] itself, which [NewLeafNode] made by
    [make([]byte, len(key))], so that its capacity is its length. *)
Definition Result_Key (m : Mem) (path : list Z) : option Slice :=
  arr ← mem_array m (LeafKey path);
  Some (mkSlice (LeafKey path) 0 (len arr) (len arr)).

(** [append(s, byte(0))]: in place when the capacity allows, otherwise
    into a new array, of whose spare capacity nothing makes use. *)
Definition append_zero (m : Mem) (s : Slice) : option (Mem * Slice) :=
  if decide (s_len s < s_cap s) then
    m' ← mem_store m (s_base s) (s_off s + s_len s) x00;
    Some (m', mkSlice (s_base s) (s_off s) (s_len s + 1) (s_cap s))
  else
    bs ← slice_bytes m s;
    Some (mkMem (m_tree m) (m_own m ++ [bs ++ [x00]]),
          mkSlice (Own (length (m_own m))) 0 (s_len s + 1) (s_len s + 1)).

(** [ensureNullTerminatedKey] on a slice. *)
Definition ensureNullTerminatedKey_slice (m : Mem) (s : Slice) : option (Mem * Slice) :=
  bs ← slice_bytes m s;
  let index := bytes_Index0 bs in
  if decide (index < 0) then append_zero m s else Some (m, s).

(** [Search] on a key slice: the memory afterwards and the result. *)
Definition Search_slice (m : Mem) (s : Slice) : option (Mem * option V) :=
  '(m', s') ← ensureNullTerminatedKey_slice m s;
  k ← slice_bytes m' s';
  foundNode ← searchFrom (root (m_tree m')) k;
  match foundNode with
  | Some n => if IsMatch n k then Some (m', value n) else Some (m', None)
  | None => Some (m', None)
  end.

End Art.

Arguments ArtNode V : clear implicits.
Arguments ArtTree V : clear implicits.
Arguments Op V : clear implicits.
Arguments Mem V : clear implicits.
Arguments next_nil {A}.
Arguments next_match {A}.
Arguments next_recurse {A} r.

(** * The abstract view of nodes and trees *)

(** ** The abstract view of a node *)

Definition memcpy_count (dest src : list byte) (numBytes : Z) : nat :=
  Z.to_nat (Z.min numBytes (Z.min (len src) (len dest))).

(** The 256 byte values in ascending order. *)
Definition all_bytes : list byte := (fun i => z2b (Z.of_nat i)) <$> seq 0 256.

Definition byte_lt (a b : byte) : Prop := b2z a < b2z b.

#[global] Instance byte_lt_dec a b : Decision (byte_lt a b).
Proof. unfold byte_lt. apply _. Defined.

(** The table of a partial function on bytes, in ascending byte order. *)
Definition tab {A} (f : byte → option A) : list (byte * A) :=
  omap (fun b => (fun x => (b, x)) <$> f b) all_bytes.

Definition key_lt {A} (x y : byte * A) : Prop := byte_lt x.1 y.1.

Fixpoint alookup {A} (b : byte) (l : list (byte * A)) : option A :=
  match l with
  | [] => None
  | (b', x) :: l' => if decide (b' = b) then Some x else alookup b l'
  end.

Definition opt_list {A} (o : option A) : list A :=
  match o with Some x => [x] | None => [] end.

(** The length of the longest common prefix of two byte strings. *)
Fixpoint lcp (a b : list byte) : nat :=
  match a, b with
  | x :: a', y :: b' => if decide (x = y) then S (lcp a' b') else O
  | _, _ => O
  end.

(** The lexicographic order on byte strings ([bytes.Compare] < 0). *)
Fixpoint lex_lt (a b : list byte) : Prop :=
  match a, b with
  | [], [] => False
  | [], _ :: _ => True
  | _ :: _, [] => False
  | x :: a', y :: b' => byte_lt x y ∨ (x = y ∧ lex_lt a' b')
  end.

(** Neither string is a prefix of the other. *)
Definition diverge (a b : list byte) : Prop :=
  ¬ a `prefix_of` b ∧ ¬ b `prefix_of` a.

Definition tab_entry {A} (f : byte → option A) (b : byte) : option (byte * A) :=
  (fun x => (b, x)) <$> f b.

Section spec.
Context {V : Type}.
Abbreviation Node := (ArtNode V).

(** The child that the code finds under a byte. *)
Definition child (n : Node) (b : byte) : option Node :=
  match FindChild n b with
  | Some (Some i) =>
      match aget (children n) i with
      | Some c => c
      | None => None
      end
  | _ => None
  end.

(** The body of [eachHelper] at one child slot. *)
Definition each_sub (next : option Node) : option (list Node) :=
  match next with
  | Some next' => eachHelper next'
  | None => Some []
  end.

Definition is_sorted_type (n : Node) : Prop :=
  nodeType n = NODE4 ∨ nodeType n = NODE16.

(** A loop over the entries of a table, threading a state that may panic. *)
Definition fold_tab {St X} (g : byte → X → St → option St) (s : St)
    (l : list (byte * X)) : option St :=
  foldl (fun acc e => acc ≫= g e.1 e.2) (Some s) l.

Definition kids (n : Node) : list (byte * Node) := tab (child n).

Definition count (n : Node) : Z := len (kids n).

(** NODE4 and NODE16: the first [size] keys are strictly ascending and
    carry the children [es]; the other child slots are nil. *)
Definition sorted_view (cap : nat) (n : Node) (es : list (byte * Node))
    (rest : list byte) : Prop :=
  keys n = es.*1 ++ rest ∧ length (keys n) = cap ∧
  children n = (Some <$> es.*2) ++ replicate (cap - length es) None ∧
  (length es ≤ cap)%nat ∧
  size n = len es ∧
  StronglySorted key_lt es.

Definition sorted_shape (cap : nat) (n : Node) : Prop :=
  ∃ es rest, sorted_view cap n es rest.

(** NODE48: the key array maps a byte to one plus the slot of its child,
    injectively. *)
Definition n48_core (n : Node) : Prop :=
  length (keys n) = 256%nat ∧ length (children n) = 48%nat ∧
  (∀ b idx, aget (keys n) (b2z b) = Some idx → idx ≠ x00 →
     ∃ c, aget (children n) (b2z idx - 1) = Some (Some c)) ∧
  (∀ b b' idx, aget (keys n) (b2z b) = Some idx → aget (keys n) (b2z b') = Some idx →
     idx ≠ x00 → b = b').

(** The number of occupied child slots. *)
Definition occupied (n : Node) : Z := len (omap id (children n)).

Definition n48_shape (n : Node) : Prop :=
  n48_core n ∧ size n = count n ∧ size n = occupied n.

Definition n256_shape (n : Node) : Prop :=
  length (children n) = 256%nat ∧ size n = u8 (count n).

Definition node_ok (n : Node) : Prop :=
  length (prefix n) = 10%nat ∧ 0 ≤ prefixLen n ∧
  match nodeType n with
  | NODE4 => sorted_shape 4 n
  | NODE16 => sorted_shape 16 n
  | NODE48 => n48_shape n
  | NODE256 => n256_shape n
  | LEAF => False
  end.

(** The compressed path [q] of a node, of which the node stores the length
    and the first ten bytes. *)
Definition pfx_ok (q : list byte) (n : Node) : Prop :=
  len q = prefixLen n ∧ take 10 q = take (length q) (prefix n).

(** Well-formed subtrees.  [wf p n]: every leaf below [n] has a key that
    starts with the path [p] consumed above [n]; an inner node carries a
    compressed path [q] of which it stores the first ten bytes.  Leaves
    keep whatever [prefix], [prefixLen] and [size] they were given. *)
Inductive wf : list byte → Node → Prop :=
  | wf_leaf p n :
      nodeType n = LEAF → p `prefix_of` key n → children n = [] → wf p n
  | wf_inner p q n :
      node_ok n → MinSize n ≤ count n →
      pfx_ok q n →
      (∀ b c, child n b = Some c → wf (p ++ q ++ [b]) c) →
      wf p n.

(** The leaves that [eachHelper] sends, and their (key, value) pairs. *)
Definition leaves (n : Node) : list Node :=
  filter (fun x : Node => Is_true (IsLeaf x)) (default [] (eachHelper n)).

Definition kv (n : Node) : list (list byte * option V) :=
  (fun l : Node => (key l, value l)) <$> leaves n.

(** The stored (key, value) pairs of a tree in enumeration order. *)
Definition contents (t : ArtTree V) : list (list byte * option V) :=
  match root t with
  | Some r => kv r
  | None => []
  end.

(** The invariant of a tree between two exported operations. *)
Definition Inv (t : ArtTree V) : Prop :=
  match root t with
  | None => tree_size t = 0
  | Some r => wf [] r ∧ tree_size t = len (kv r)
  end.

End spec.

(** ** Loop bodies, loop invariants and the effects of the tree operations *)

(** The prefix that [shrink] leaves in the only child of a NODE4. *)
Definition merged_prefix (P0 : list byte) (l : Z) (b : byte) (P1 : list byte) (l' : Z)
  : list byte :=
  if decide (l < 10) then
    let cpl := Z.min l' (9 - l) in
    take (Z.to_nat l) P0 ++ [b] ++ take (Z.to_nat cpl) P1 ++ drop (Z.to_nat (l + 1 + cpl)) P1
  else P0.

(** A key as the tree stores it for a caller's key without zero byte. *)
Definition terminated (kk : list byte) : Prop :=
  ∃ k0, ¬ (x00 ∈ k0) ∧ kk = k0 ++ [x00].

Section views.
Context {V : Type}.
Abbreviation Node := (ArtNode V).

Definition grow16_body (n : Node) (i : Z) (other : Node) : option Node :=
  child ← aget (children n) i;
  match child with
  | Some _ =>
      index ← first_free (children other);
      cs' ← aset (children other) index child;
      ki ← aget (keys n) i;
      ks' ← aset (keys other) (b2z ki) (z2b (index + 1));
      Some (set_children (set_keys other ks') cs')
  | None => Some other
  end.

Definition inv48 (n : Node) (done : list (byte * Node)) (other : Node) : Prop :=
  n48_core other ∧ nodeType other = NODE48 ∧
  (∀ b, child other b = alookup b done) ∧ occupied other = len done ∧
  prefix other = prefix n ∧ prefixLen other = prefixLen n ∧ size other = size n.

Definition grow48_step (b : byte) (c : Node) (other : Node) : option Node :=
  cs' ← aset (children other) (b2z b) (Some c);
  Some (set_children other cs').

Definition inv256 (n : Node) (done : list (byte * Node)) (other : Node) : Prop :=
  nodeType other = NODE256 ∧ length (children other) = 256%nat ∧
  (∀ b, child other b = alookup b done) ∧
  prefix other = prefix n ∧ prefixLen other = prefixLen n ∧ size other = size n.

Definition shrink48_step (b : byte) (c : Node) (other : Node) : option Node :=
  cs' ← aset (children other) (size other) (Some c);
  ks' ← aset (keys other) (size other) b;
  Some (set_size (set_children (set_keys other ks') cs') (u8 (size other + 1))).

Definition inv16 (n : Node) (done : list (byte * Node)) (other : Node) : Prop :=
  nodeType other = NODE16 ∧ (∃ rest, sorted_view 16 other done rest) ∧
  prefix other = prefix n ∧ prefixLen other = prefixLen n.

Definition shrink256_step (b : byte) (c : Node) (other : Node) : option Node :=
  cs' ← aset (children other) (size other) (Some c);
  ks' ← aset (keys other) (b2z b) (z2b (size other + 1));
  Some (set_size (set_children (set_keys other ks') cs') (u8 (size other + 1))).

Definition inv48s (n : Node) (done : list (byte * Node)) (other : Node) : Prop :=
  n48_core other ∧ nodeType other = NODE48 ∧
  (∀ b, child other b = alookup b done) ∧
  children other = (Some <$> done.*2) ++ replicate (48 - length done) None ∧
  size other = len done ∧
  prefix other = prefix n ∧ prefixLen other = prefixLen n.

Definition search_sub (k : list byte) (depth : Z) (c : option Node)
  : option (option Node) :=
  match c with
  | Some c' => searchHelper c' k depth
  | None => Some None
  end.

(** A stored key that obstructs the insertion of [k]: one of the two is a
    proper prefix of the other. *)
Definition conflict (k : list byte) (n : Node) : Prop :=
  ∃ l, l ∈ leaves n ∧ key l ≠ k ∧ (key l `prefix_of` k ∨ k `prefix_of` key l).

Definition insert_sub (k : list byte) (v : option V) (depth tsize : Z)
    (c : option Node) : option (option (Node * Z)) :=
  match c with
  | Some c' => Some (insertHelper c' k v depth tsize)
  | None => None
  end.

(** What [insertHelper] does to a well-formed subtree reached along [p]:
    nothing if the key is stored, one more leaf otherwise; it panics only
    on a stored key that is a proper prefix or extension of the new one. *)
Definition insert_post (p : list byte) (n : Node) (k : list byte) (v : option V)
    (s : Z) (r : option (Node * Z)) : Prop :=
  match r with
  | Some (n', s') =>
      (n' = n ∧ s' = s ∧ ∃ l, l ∈ leaves n ∧ key l = k)
      ∨ (s' = s + 1 ∧ wf p n' ∧ (∀ l, l ∈ leaves n → key l ≠ k)
         ∧ leaves n' ≡ₚ NewLeafNode k v :: leaves n)
  | None => conflict k n
  end.

Definition remove_sub (k : list byte) (depth tsize : Z) (c : option Node)
  : remove_next (option (option Node * Z)) :=
  match c with
  | None => next_nil
  | Some c' =>
      if IsLeaf c' && IsMatch c' k then next_match
      else next_recurse (removeHelper c' k depth tsize)
  end.

(** What [removeHelper] does to a well-formed subtree when it returns:
    nothing, or one leaf with the key less. *)
Definition remove_post (p : list byte) (n : Node) (k : list byte) (s : Z)
    (r : option (option Node * Z)) : Prop :=
  match r with
  | Some (r', s') =>
      (r' = Some n ∧ s' = s)
      ∨ (s' = s - 1
         ∧ (∃ vl, kv n ≡ₚ (k, vl) :: from_option kv [] r')
         ∧ match r' with
           | Some n' => wf p n'
           | None => nodeType n = LEAF ∧ key n = k
           end)
  | None => True
  end.


(** The order of the stored pairs: by key. *)
Definition kv_lt {A} (x y : list byte * A) : Prop := lex_lt x.1 y.1.

(** The pair that the tree stores for an inserted pair whose key has no zero byte. *)
Definition stored_pair {A} (e : list byte * A) : list byte * A := (e.1 ++ [x00], e.2).

Definition inserts (kvs : list (list byte * option V)) : list (Op V) :=
  (fun e => OpInsert e.1 e.2) <$> kvs.

(** Leaves as [NewLeafNode] makes them: the prefix length is zero. *)
Definition fresh {V} (n : ArtNode V) : Prop := ∀ l, l ∈ leaves n → prefixLen l = 0.

Definition fresh_tree {V} (t : ArtTree V) : Prop :=
  match root t with Some r => fresh r | None => True end.

(** The pairs whose key starts with [k]. *)
Definition with_prefix {A} (k : list byte) (l : list (list byte * A)) : list (list byte * A) :=
  filter (fun e => k `prefix_of` e.1) l.

End views.

(** ** Concrete inputs *)

Definition bytes_of (s : string) : list byte := list_byte_of_string s.

(** The single-byte keys 0x00, 0x01, ... *)
Definition single_keys (n : nat) : list (list byte) :=
  (fun i => [z2b (Z.of_nat i)]) <$> seq 0 n.

Section examples.
Context {V : Type}.

Definition insert_all (ks : list (list byte)) : list (Op V) :=
  (fun k => OpInsert k None) <$> ks.

Definition root_type (t : option (ArtTree V)) : option NodeType :=
  t ← t; r ← root t; Some (nodeType r).

(** Pre-order: a node, then the traversals of its children in the
    ascending order of their key bytes. *)
#[local] Unset Elimination Schemes.
Inductive preorder : ArtNode V → list (ArtNode V) → Prop :=
  | preorder_leaf n : nodeType n = LEAF → preorder n [n]
  | preorder_inner n subs :
      nodeType n ≠ LEAF →
      Forall2 (fun e s => preorder e.2 s) (kids n) subs →
      preorder n (n :: concat subs).
#[local] Set Elimination Schemes.

End examples.

(** The trees of the worked examples. *)
Definition example_ops : list (Op string) :=
  [OpInsert (bytes_of "a") (Some "a"%string); OpInsert (bytes_of "aa") (Some "aa"%string)].

Definition example_tree : ArtTree string :=
  Eval vm_compute in default NewArtTree (run NewArtTree example_ops).

Definition round_trip_ops : list (Op string) :=
  [OpInsert (bytes_of "a") (Some "a"%string); OpInsert (bytes_of "aa") (Some "aa"%string);
   OpRemove (bytes_of "a")].

Definition round_trip_tree : ArtTree string :=
  Eval vm_compute in default NewArtTree (run NewArtTree round_trip_ops).


Definition example_root : ArtNode string :=
  Eval vm_compute in default NewNode4 (root example_tree).

Definition example_nodes : list (ArtNode string) :=
  Eval vm_compute in default [] (Each example_tree).

Definition example_tree_b : ArtTree string :=
  Eval vm_compute in
    default NewArtTree (Insert example_tree (bytes_of "b") (Some "b"%string)).

Definition zero_ops : list (Op string) := [OpInsert [x00] None].

Definition zero_tree : ArtTree string :=
  Eval vm_compute in default NewArtTree (run NewArtTree zero_ops).

Definition abc_ops : list (Op string) :=
  insert_all [bytes_of "a"; bytes_of "b"; bytes_of "c"].

Definition abc_tree : ArtTree string :=
  Eval vm_compute in default NewArtTree (run NewArtTree abc_ops).

Definition abc_node : ArtNode string :=
  Eval vm_compute in default NewNode4 (root abc_tree).

Definition abcd_ops : list (Op string) :=
  insert_all [bytes_of "a"; bytes_of "b"; bytes_of "c"; bytes_of "d"].

Definition abcd_tree : ArtTree string :=
  Eval vm_compute in default NewArtTree (run NewArtTree abcd_ops).

(** A full NODE4, and the NODE16 with four children that [grow] makes of it. *)
Definition abcd_node : ArtNode string :=
  Eval vm_compute in default NewNode4 (root abcd_tree).

Definition abcd_node16 : ArtNode string :=
  Eval vm_compute in default NewNode16 (grow abcd_node).

(** A NODE4 whose only child is an inner node. *)
Definition lone_parent : ArtNode string :=
  mkArtNode [z2b 120; x00; x00; x00] [Some abc_node; None; None; None]
            (make 10 x00) 0 1 [] None NODE4.

Definition swapped_pairs : list (list byte * option string) :=
  [(bytes_of "b", Some "1"%string); (bytes_of "a", Some "2"%string)].

Definition ordered_pairs : list (list byte * option string) :=
  [(bytes_of "a", Some "2"%string); (bytes_of "b", Some "1"%string)].

Definition prefix_ops : list (Op string) :=
  [OpInsert (bytes_of "ab") (Some "1"%string); OpInsert (bytes_of "ac") (Some "2"%string);
   OpInsert (bytes_of "b") (Some "3"%string)].

Definition prefix_tree : ArtTree string :=
  Eval vm_compute in default NewArtTree (run NewArtTree prefix_ops).

(** * Proofs *)

Lemma b2z_range b : 0 ≤ b2z b < 256.
Proof. unfold b2z. pose proof (Byte.to_N_bounded b). lia. Qed.

Lemma b2z_inj a b : b2z a = b2z b → a = b.
Proof.
  unfold b2z. intros H. apply N2Z.inj in H.
  apply (f_equal Byte.of_N) in H. rewrite !Byte.of_to_N in H. congruence.
Qed.

Lemma z2b_b2z b : z2b (b2z b) = b.
Proof.
  unfold z2b, u8. pose proof (b2z_range b). rewrite Z.mod_small by lia.
  unfold b2z. rewrite N2Z.id, Byte.of_to_N. done.
Qed.

Lemma b2z_z2b z : b2z (z2b z) = u8 z.
Proof.
  unfold z2b. assert (0 ≤ u8 z < 256) by (unfold u8; apply Z.mod_pos_bound; lia).
  destruct (Byte.of_N (Z.to_N (u8 z))) as [b|] eqn:E.
  - apply Byte.to_of_N in E. unfold b2z. rewrite E. lia.
  - apply Byte.of_N_None_iff in E. lia.
Qed.

Lemma u8_small z : 0 ≤ z < 256 → u8 z = z.
Proof. intros. unfold u8. by apply Z.mod_small. Qed.

Lemma b2z_x00 : b2z x00 = 0.
Proof. reflexivity. Qed.

Lemma b2z_zero b : b2z b = 0 ↔ b = x00.
Proof. split; [intros H; apply b2z_inj; by rewrite H|intros ->; done]. Qed.

Lemma bind_Some {A B} (x : A) (f : A → option B) : Some x ≫= f = f x.
Proof. done. Qed.

Ltac obind := repeat (rewrite bind_Some; cbv beta iota).

Section arrays.
Context {A : Type}.
Implicit Types l : list A.

Lemma len_nonneg l : 0 ≤ len l.
Proof. unfold len. lia. Qed.

Lemma aget_Some l i x : aget l i = Some x ↔ 0 ≤ i ∧ l !! Z.to_nat i = Some x.
Proof.
  unfold aget. case_decide; split; try done; tauto.
Qed.

Lemma aget_nat l (i : nat) : aget l (Z.of_nat i) = l !! i.
Proof. unfold aget. case_decide; [by rewrite Nat2Z.id|lia]. Qed.

Lemma aget_lt l i x : aget l i = Some x → 0 ≤ i < len l.
Proof.
  intros [? H]%aget_Some. apply lookup_lt_Some in H. unfold len. lia.
Qed.

Lemma aget_is_Some l i : 0 ≤ i < len l → is_Some (aget l i).
Proof.
  intros. unfold aget. case_decide; [|lia]. apply lookup_lt_is_Some.
  unfold len in *. lia.
Qed.

Lemma aset_Some l i x l' :
  aset l i x = Some l' ↔ 0 ≤ i < len l ∧ l' = <[Z.to_nat i := x]> l.
Proof.
  unfold aset. case_decide; split; try done.
  - intros [= <-]. done.
  - intros [_ ->]. done.
  - tauto.
Qed.

Lemma aset_ok l i x :
  0 ≤ i < len l → aset l i x = Some (<[Z.to_nat i := x]> l).
Proof. intros. unfold aset. by rewrite decide_True. Qed.

Lemma aset_nat l (i : nat) x :
  (i < length l)%nat → aset l (Z.of_nat i) x = Some (<[i := x]> l).
Proof. intros. unfold aset, len. case_decide; [by rewrite Nat2Z.id|lia]. Qed.

Lemma asuffix_Some l i l' :
  asuffix l i = Some l' ↔ 0 ≤ i ≤ len l ∧ l' = drop (Z.to_nat i) l.
Proof.
  unfold asuffix. case_decide; split; try done.
  - intros [= <-]. done.
  - intros [_ ->]. done.
  - tauto.
Qed.

Lemma at_nat_fmap {B} (f : A → B) l i : at_nat f l i = f <$> l !! i.
Proof. revert i. induction l; intros [|i]; simpl; auto. Qed.

Lemma at_index_fmap {B} (f : A → B) l i : at_index f l i = f <$> aget l i.
Proof. unfold at_index, aget. case_decide; [apply at_nat_fmap|done]. Qed.

Lemma map_list_fmap {B} (f : A → B) l : map_list f l = f <$> l.
Proof. induction l; simpl; [done|by f_equal]. Qed.

End arrays.

(** memcpy closed form *)

Lemma memcpy_from_spec fuel (i : nat) dest src numBytes :
  (memcpy_count dest src numBytes - i ≤ fuel)%nat →
  (i ≤ memcpy_count dest src numBytes)%nat →
  memcpy_from fuel (Z.of_nat i) dest src numBytes =
    take i dest ++ take (memcpy_count dest src numBytes - i) (drop i src)
      ++ drop (memcpy_count dest src numBytes) dest.
Proof.
  revert i dest. induction fuel as [|fuel IH]; intros i dest Hf Hi; simpl.
  - replace (_ - i)%nat with 0%nat by lia. simpl.
    assert (i = memcpy_count dest src numBytes) as <- by lia.
    by rewrite take_drop.
  - assert (∀ b, memcpy_count (<[i:=b]> dest) src numBytes = memcpy_count dest src numBytes) as Hm.
    { intros b. unfold memcpy_count, len. by rewrite length_insert. }
    set (m := memcpy_count dest src numBytes) in *.
    assert (m = Z.to_nat (Z.min numBytes (Z.min (len src) (len dest)))) as Hmdef by done.
    case_decide as Hc.
    + rewrite aget_nat. destruct (src !! i) as [b|] eqn:Eb.
      2:{ apply lookup_ge_None in Eb. unfold len in *. lia. }
      replace (Z.of_nat i + 1) with (Z.of_nat (S i)) by lia.
      rewrite Nat2Z.id.
      rewrite IH; rewrite ?Hm; try (unfold len in *; lia).
      assert (i < length dest)%nat by (unfold len in *; lia).
      rewrite (take_S_r _ _ b) by (apply list_lookup_insert_eq; lia).
      rewrite take_insert_ge by lia. rewrite drop_insert_lt by (unfold len in *; lia).
      replace (m - i)%nat with (S (m - S i)) by (unfold len in *; lia).
      rewrite (drop_S src b i) by done. simpl. by rewrite <- app_assoc.
    + assert (i = m) as -> by (unfold len in *; lia).
      replace (m - m)%nat with 0%nat by lia. simpl. by rewrite take_drop.
Qed.

Lemma memcpy_spec dest src numBytes :
  memcpy dest src numBytes =
    take (memcpy_count dest src numBytes) src ++ drop (memcpy_count dest src numBytes) dest.
Proof.
  unfold memcpy.
  pose proof (memcpy_from_spec (length dest) 0 dest src numBytes) as H.
  change (Z.of_nat 0) with 0 in H.
  rewrite H; [by rewrite Nat.sub_0_r, drop_0|unfold memcpy_count, len; lia|lia].
Qed.

Lemma memcpy_length dest src numBytes : length (memcpy dest src numBytes) = length dest.
Proof.
  rewrite memcpy_spec. rewrite length_app, length_take, length_drop.
  unfold memcpy_count, len. lia.
Qed.

(** ** Tables over the bytes *)

Lemma all_bytes_lookup (i : nat) :
  (i < 256)%nat → all_bytes !! i = Some (z2b (Z.of_nat i)).
Proof.
  intros. unfold all_bytes. rewrite list_lookup_fmap, lookup_seq_lt by done. done.
Qed.

Lemma all_bytes_length : length all_bytes = 256%nat.
Proof. reflexivity. Qed.

Lemma all_bytes_elem b : b ∈ all_bytes.
Proof.
  apply list_elem_of_lookup. exists (Z.to_nat (b2z b)).
  pose proof (b2z_range b). rewrite all_bytes_lookup by lia.
  rewrite Z2Nat.id by lia. by rewrite z2b_b2z.
Qed.

Lemma bytes_seq_sorted (s n : nat) :
  (s + n ≤ 256)%nat →
  StronglySorted byte_lt ((fun i => z2b (Z.of_nat i)) <$> seq s n).
Proof.
  revert s. induction n as [|n IH]; intros s Hs; simpl; constructor.
  - apply IH. lia.
  - apply Forall_forall. intros b [i [-> Hi]]%list_elem_of_fmap.
    apply elem_of_seq in Hi. unfold byte_lt.
    rewrite !b2z_z2b, !u8_small by lia. lia.
Qed.

Lemma all_bytes_sorted : StronglySorted byte_lt all_bytes.
Proof. apply bytes_seq_sorted. lia. Qed.

Lemma byte_lt_irrefl a : ¬ byte_lt a a.
Proof. unfold byte_lt. lia. Qed.

Lemma byte_lt_trans a b c : byte_lt a b → byte_lt b c → byte_lt a c.
Proof. unfold byte_lt. lia. Qed.

Lemma byte_lt_total a b : byte_lt a b ∨ a = b ∨ byte_lt b a.
Proof.
  unfold byte_lt. destruct (Z.lt_trichotomy (b2z a) (b2z b)) as [?|[?%b2z_inj|?]]; auto.
Qed.

Lemma all_bytes_split b :
  ∃ l1 l2, all_bytes = l1 ++ b :: l2 ∧
           Forall (fun a => byte_lt a b) l1 ∧ Forall (byte_lt b) l2.
Proof.
  pose proof (all_bytes_elem b) as (l1 & l2 & E)%list_elem_of_split.
  exists l1, l2. split; [done|].
  pose proof all_bytes_sorted as S. rewrite E in S.
  apply StronglySorted_app in S as (Hc & _ & S2).
  apply StronglySorted_cons in S2 as [S2 _]. split; [|done].
  apply Forall_forall. intros a Ha. apply Hc; [done|]. left.
Qed.

Lemma omap_length_le {B C} (h : B → option C) (l : list B) :
  (length (omap h l) ≤ length l)%nat.
Proof.
  induction l as [|x l IH]; csimpl; [done|]. destruct (h x); simpl; lia.
Qed.

Section tab.
Context {A : Type}.
Implicit Types f g : byte → option A.

Lemma tab_unfold f : tab f = omap (tab_entry f) all_bytes.
Proof. done. Qed.

Lemma elem_of_tab f b x : (b, x) ∈ tab f ↔ f b = Some x.
Proof.
  rewrite tab_unfold, list_elem_of_omap. unfold tab_entry. split.
  - intros (b' & _ & H). destruct (f b') eqn:E; simplify_eq/=. done.
  - intros H. exists b. split; [apply all_bytes_elem|]. by rewrite H.
Qed.

Lemma omap_entry_fst_Forall (P : byte → Prop) f (l : list byte) :
  Forall P l → Forall (fun e => P e.1) (omap (tab_entry f) l).
Proof.
  intros H. apply Forall_forall. intros [b x] (b' & Hb & E)%list_elem_of_omap.
  unfold tab_entry in E. destruct (f b'); simplify_eq/=.
  eapply Forall_forall in H; eauto.
Qed.

Lemma omap_entry_sorted f (l : list byte) :
  StronglySorted byte_lt l → StronglySorted key_lt (omap (tab_entry f) l).
Proof.
  induction 1 as [|b l Hs IH Hb]; csimpl; [constructor|].
  destruct (tab_entry f b) as [e|] eqn:E; [|done].
  constructor; [done|].
  unfold tab_entry in E. destruct (f b); simplify_eq/=.
  apply (omap_entry_fst_Forall (byte_lt b)). done.
Qed.

Lemma tab_sorted f : StronglySorted key_lt (tab f).
Proof. apply omap_entry_sorted, all_bytes_sorted. Qed.

Lemma omap_entry_ext f g (l : list byte) :
  (∀ b, b ∈ l → f b = g b) → omap (tab_entry f) l = omap (tab_entry g) l.
Proof.
  induction l as [|b l IH]; intros H; csimpl; [done|].
  rewrite IH by (intros; apply H; by right).
  assert (tab_entry f b = tab_entry g b) as ->; [|done].
  unfold tab_entry. rewrite H; [done|left].
Qed.

Lemma tab_ext f g : (∀ b, f b = g b) → tab f = tab g.
Proof. intros. apply omap_entry_ext. auto. Qed.

(** The table around one byte: the part before and the part after do not
    depend on the value at that byte. *)
Lemma tab_split f b :
  ∃ l1 l2,
    Forall (fun e => byte_lt e.1 b) l1 ∧ Forall (fun e => byte_lt b e.1) l2 ∧
    ∀ g, (∀ b', b' ≠ b → g b' = f b') →
         tab g = l1 ++ opt_list ((fun x => (b, x)) <$> g b) ++ l2.
Proof.
  destruct (all_bytes_split b) as (bs1 & bs2 & E & H1 & H2).
  exists (omap (tab_entry f) bs1), (omap (tab_entry f) bs2).
  split; [by apply (omap_entry_fst_Forall (fun a => byte_lt a b))|].
  split; [by apply (omap_entry_fst_Forall (byte_lt b))|].
  intros g Hg. rewrite tab_unfold, E, omap_app. csimpl.
  f_equal.
  - apply omap_entry_ext. intros b' Hb'. apply Hg. intros ->.
    eapply Forall_forall in H1; eauto. by apply byte_lt_irrefl in H1.
  - assert (omap (tab_entry g) bs2 = omap (tab_entry f) bs2) as ->.
    { apply omap_entry_ext. intros b' Hb'. apply Hg. intros ->.
      eapply Forall_forall in H2; eauto. by apply byte_lt_irrefl in H2. }
    unfold tab_entry at 1. by destruct (g b).
Qed.

Lemma key_lt_NoDup (l : list (byte * A)) : StronglySorted key_lt l → NoDup l.
Proof.
  induction 1 as [|e l Hs IH He]; constructor; [|done].
  intros Hin. eapply Forall_forall in He; eauto. by apply byte_lt_irrefl in He.
Qed.

Lemma key_lt_unique (l1 l2 : list (byte * A)) :
  StronglySorted key_lt l1 → StronglySorted key_lt l2 →
  (∀ e, e ∈ l1 ↔ e ∈ l2) → l1 = l2.
Proof.
  intros S1 S2 H.
  assert (AntiSymm (=) (@key_lt A)).
  { intros x y Hx Hy. unfold key_lt, byte_lt in *. lia. }
  apply (StronglySorted_unique key_lt); [done..|].
  apply NoDup_Permutation; auto using key_lt_NoDup.
Qed.

Lemma alookup_elem (l : list (byte * A)) b x :
  StronglySorted key_lt l → alookup b l = Some x ↔ (b, x) ∈ l.
Proof.
  induction 1 as [|[b' x'] l Hs IH He]; simpl.
  - split; [done|]. by intros ?%elem_of_nil.
  - case_decide as Hb.
    + subst. split; [intros [= ->]; left|].
      intros [E|Hin]%elem_of_cons; [congruence|].
      eapply Forall_forall in He; eauto. by apply byte_lt_irrefl in He.
    + rewrite IH. split; [by right|].
      intros [E|Hin]%elem_of_cons; [congruence|done].
Qed.

Lemma tab_alookup (l : list (byte * A)) :
  StronglySorted key_lt l → tab (fun b => alookup b l) = l.
Proof.
  intros Hs. apply key_lt_unique; [apply tab_sorted|done|].
  intros [b x]. by rewrite elem_of_tab, alookup_elem.
Qed.

Lemma tab_length_le f : (length (tab f) ≤ 256)%nat.
Proof.
  rewrite tab_unfold. etrans; [apply omap_length_le|]. unfold all_bytes.
  by rewrite length_fmap, length_seq.
Qed.

End tab.

#[global] Opaque all_bytes.

(** ** Loops over the sorted arrays of NODE4 and NODE16 *)

Lemma sort_Search_loop_spec (f : Z → option bool) (t : Z) fuel i j :
  0 ≤ i ≤ t → t ≤ j →
  (∀ h, i ≤ h < j → f h = Some (bool_decide (t ≤ h))) →
  (Z.to_nat (j - i) ≤ fuel)%nat →
  sort_Search_loop fuel i j f = Some t.
Proof.
  revert i j. induction fuel as [|fuel IH]; intros i j Hi Hj Hf Hfuel; simpl.
  - f_equal. lia.
  - case_decide as Hlt; [|f_equal; lia].
    assert (i ≤ (i + j) / 2 < j) as Hh.
    { split; [apply Z.div_le_lower_bound; lia|apply Z.div_lt_upper_bound; lia]. }
    rewrite Hf by done. simpl. case_bool_decide.
    + apply IH; try lia. intros; apply Hf; lia.
    + apply IH; try lia. intros; apply Hf; lia.
Qed.

Lemma sort_Search_spec (f : Z → option bool) (n t : Z) :
  0 ≤ t ≤ n →
  (∀ h, 0 ≤ h < n → f h = Some (bool_decide (t ≤ h))) →
  sort_Search n f = Some t.
Proof.
  intros. unfold sort_Search. apply sort_Search_loop_spec; try lia. done.
Qed.

Section shift.
Context {A : Type}.
Implicit Types cs : list A.

Lemma aget_app_l {B} (l1 l2 : list B) (i : Z) :
  0 ≤ i < len l1 → aget (l1 ++ l2) i = aget l1 i.
Proof.
  intros. unfold aget. case_decide; [|done]. apply lookup_app_l. unfold len in *. lia.
Qed.

Lemma aget_app_r {B} (l1 l2 : list B) (i : Z) :
  len l1 ≤ i → aget (l1 ++ l2) i = aget l2 (i - len l1).
Proof.
  intros. pose proof (len_nonneg l1). unfold aget. rewrite !decide_True by lia.
  rewrite lookup_app_r by (unfold len in *; lia). f_equal. unfold len in *. lia.
Qed.

Lemma aget_middle {B} (l1 l2 : list B) x (i : Z) :
  i = len l1 → aget (l1 ++ x :: l2) i = Some x.
Proof.
  intros ->. unfold aget, len. case_decide; [|lia]. rewrite Nat2Z.id.
  by rewrite list_lookup_middle.
Qed.

Lemma aset_middle {B} (l1 l2 : list B) x y (i : Z) :
  i = len l1 → aset (l1 ++ x :: l2) i y = Some (l1 ++ y :: l2).
Proof.
  intros ->. unfold aset, len. rewrite length_app. simpl.
  case_decide; [|lia]. rewrite Nat2Z.id. f_equal.
  replace (length l1) with (length l1 + 0)%nat at 1 by lia.
  by rewrite insert_app_r.
Qed.

Lemma len_app {B} (l1 l2 : list B) : len (l1 ++ l2) = len l1 + len l2.
Proof. unfold len. rewrite length_app. lia. Qed.

Lemma len_cons {B} (x : B) l : len (x :: l) = 1 + len l.
Proof. unfold len. simpl. lia. Qed.

Lemma len_nil {B} : len (@nil B) = 0.
Proof. done. Qed.

Lemma AddChild_shift_spec {V} (k : byte) (M : list byte) :
  ∀ fuel (L R : list byte) x (cL cM cR : list (option (ArtNode V))) y,
    Forall (byte_lt k) M → length cM = length M → length cL = length L →
    len L + len M ≤ 255 → (length M ≤ fuel)%nat →
    AddChild_shift fuel (len L + len M) (len L) k (L ++ M ++ x :: R) (cL ++ cM ++ y :: cR)
    = Some (L ++ hd x M :: M ++ R, cL ++ hd y cM :: cM ++ cR).
Proof.
  induction M as [|m M IH] using rev_ind; intros fuel L R x cL cM cR y HM HcM HcL Hle Hfuel.
  - destruct cM; [|done]. rewrite len_nil, Z.add_0_r. simpl.
    destruct fuel; simpl; [done|]. rewrite decide_False by lia. done.
  - destruct (decide (cM = [])) as [->|Hne].
    { rewrite length_app in HcM. simpl in HcM. lia. }
    destruct (exists_last Hne) as (cM' & c & ->).
    rewrite (length_app cM'), (length_app M) in HcM. rewrite length_app in Hfuel. simpl in *.
    destruct fuel as [|fuel]; [lia|]. simpl.
    rewrite len_app, len_cons, len_nil in Hle.
    rewrite len_app, len_cons, len_nil.
    pose proof (len_nonneg L). pose proof (len_nonneg M).
    rewrite decide_True by lia.
    replace (len L + (len M + (1 + 0)) - 1) with (len (L ++ M)) by (rewrite len_app; lia).
    rewrite <- !app_assoc. simpl.
    rewrite (app_assoc L M), aget_middle by done. simpl.
    apply Forall_app in HM as [HM Hm%Forall_inv].
    rewrite decide_True by (unfold byte_lt in Hm; lia).
    assert (len (cL ++ cM') = len (L ++ M)) as Hcl.
    { unfold len. rewrite !length_app. lia. }
    replace (len L + (len M + (1 + 0))) with (len ((L ++ M) ++ [m]))
      by (rewrite !len_app, len_cons, len_nil; lia).
    change (m :: x :: R) with ([m] ++ x :: R).
    rewrite (app_assoc (L ++ M) [m]).
    rewrite aset_middle by done. simpl.
    rewrite (app_assoc cL cM'), aget_middle by done. simpl.
    change (c :: y :: cR) with ([c] ++ y :: cR).
    rewrite (app_assoc (cL ++ cM') [c]).
    rewrite aset_middle
      by (rewrite (len_app (cL ++ cM')), (len_app (L ++ M)), Hcl; done).
    simpl. rewrite u8_small by (rewrite len_app; lia).
    rewrite <- !app_assoc. simpl. rewrite len_app.
    rewrite IH; try done; try lia.
    f_equal. f_equal.
    + f_equal. destruct M; simpl; [done|]. done.
    + f_equal. clear. destruct cM'; done.
Qed.

End shift.

Section sorted.
Context {V : Type}.
Abbreviation Node := (ArtNode V).
Implicit Types n : Node.
Implicit Types es : list (byte * Node).

Lemma sorted_split es (k : byte) :
  StronglySorted key_lt es →
  ∃ l1 l2, es = l1 ++ l2 ∧ Forall (fun e => byte_lt e.1 k) l1
           ∧ Forall (fun e => ¬ byte_lt e.1 k) l2.
Proof.
  induction 1 as [|e es Hs IH He].
  - exists [], []. by repeat constructor.
  - destruct (decide (byte_lt e.1 k)) as [Hlt|Hge].
    + destruct IH as (l1 & l2 & -> & H1 & H2).
      exists (e :: l1), l2. split; [done|]. split; [by constructor|done].
    + exists [], (e :: es). split; [done|]. split; [constructor|].
      constructor; [done|]. eapply Forall_impl; [exact He|].
      intros e' He' Hlt. apply Hge. unfold key_lt in He'.
      eapply byte_lt_trans; eauto.
Qed.

Lemma alookup_app {A} (b : byte) (l1 l2 : list (byte * A)) :
  alookup b (l1 ++ l2) = match alookup b l1 with Some x => Some x | None => alookup b l2 end.
Proof.
  induction l1 as [|[b' x] l1 IH]; simpl; [done|]. by case_decide.
Qed.

Lemma alookup_None_lt {A} (b : byte) (l : list (byte * A)) :
  Forall (fun e => byte_lt e.1 b) l → alookup b l = None.
Proof.
  induction 1 as [|[b' x] l Hb Hl IH]; simpl; [done|].
  rewrite decide_False; [done|]. intros ->. by apply byte_lt_irrefl in Hb.
Qed.

Lemma alookup_None_gt {A} (b : byte) (l : list (byte * A)) :
  Forall (fun e => byte_lt b e.1) l → alookup b l = None.
Proof.
  induction 1 as [|[b' x] l Hb Hl IH]; simpl; [done|].
  rewrite decide_False; [done|]. intros ->. by apply byte_lt_irrefl in Hb.
Qed.

Lemma alookup_None_notin {A} (b : byte) (l : list (byte * A)) :
  alookup b l = None ↔ b ∉ l.*1.
Proof.
  induction l as [|[b' x] l IH]; simpl.
  - split; [intros _ ?%elem_of_nil; done|done].
  - case_decide; subst.
    + split; [done|]. intros H. destruct H. left.
    + rewrite IH. rewrite not_elem_of_cons.
      split; [intros ?; split; [congruence|done]|by intros [_ ?]].
Qed.

(** A sorted list around a byte that may or may not be in it. *)
Lemma sorted_around es (k : byte) :
  StronglySorted key_lt es →
  ∃ l1 l2, es = l1 ++ opt_list ((fun c => (k, c)) <$> alookup k es) ++ l2
           ∧ Forall (fun e => byte_lt e.1 k) l1
           ∧ Forall (fun e => byte_lt k e.1) l2.
Proof.
  intros Hs. destruct (sorted_split es k Hs) as (l1 & l2 & -> & H1 & H2).
  rewrite alookup_app, (alookup_None_lt _ _ H1).
  apply StronglySorted_app in Hs as (_ & _ & Hs2).
  destruct l2 as [|[b c] l2]; simpl.
  - exists l1, []. by rewrite app_nil_r.
  - apply Forall_cons in H2 as [Hb H2]. simpl in Hb.
    apply StronglySorted_cons in Hs2 as [Hbl Hs2].
    case_decide as Hk.
    + subst. exists l1, l2. simpl. done.
    + exists l1, ((b, c) :: l2). rewrite alookup_None_gt; simpl; [split; [done|]|].
      * split; [done|]. constructor.
        { simpl. destruct (byte_lt_total b k) as [?|[?|?]]; done. }
        eapply Forall_impl; [exact Hbl|]. intros e He.
        unfold key_lt in He. simpl in He.
        destruct (byte_lt_total b k) as [?|[?|?]]; try done.
        eapply byte_lt_trans; eauto.
      * eapply Forall_impl; [exact Hbl|]. intros e He.
        unfold key_lt in He. simpl in He.
        destruct (byte_lt_total b k) as [?|[?|?]]; try done.
        eapply byte_lt_trans; eauto.
Qed.

End sorted.

Section sorted_nodes.
Context {V : Type}.
Abbreviation Node := (ArtNode V).
Implicit Types n : Node.
Implicit Types es : list (byte * Node).

Lemma Index4_from_found n (k : byte) (l1 : list byte) :
  ∀ fuel (pre l2 : list byte),
    keys n = pre ++ l1 ++ k :: l2 →
    len pre + len l1 < size n → size n ≤ 256 →
    k ∉ l1 → (length l1 < fuel)%nat →
    Index4_from fuel (len pre) n k = Some (len pre + len l1).
Proof.
  induction l1 as [|a l1 IH]; intros fuel pre l2 Hk Hsz Hsz' Hnot Hfuel.
  - destruct fuel; [simpl in *; lia|]. simpl.
    rewrite len_nil in *. rewrite decide_True by lia.
    rewrite Hk. simpl. rewrite aget_middle by done. simpl.
    rewrite decide_True by done. f_equal; lia.
  - destruct fuel; [simpl in *; lia|]. simpl.
    rewrite len_cons in *. pose proof (len_nonneg pre). pose proof (len_nonneg l1).
    rewrite decide_True by lia.
    rewrite Hk. simpl. rewrite aget_middle by done. simpl.
    apply not_elem_of_cons in Hnot as [Hne Hnot].
    rewrite decide_False by done.
    rewrite u8_small by lia.
    replace (len pre + 1) with (len (pre ++ [a])) by (rewrite len_app, len_cons, len_nil; lia).
    rewrite (IH fuel (pre ++ [a]) l2); try done.
    + f_equal. rewrite len_app, len_cons, len_nil. lia.
    + rewrite Hk, <- app_assoc. done.
    + rewrite len_app, len_cons, len_nil. lia.
    + simpl in Hfuel. lia.
Qed.

Lemma Index4_from_notfound n (k : byte) (l : list byte) :
  ∀ fuel (pre rest : list byte),
    keys n = pre ++ l ++ rest →
    size n = len pre + len l → size n ≤ 255 →
    k ∉ l →
    Index4_from fuel (len pre) n k = Some (-1).
Proof.
  induction l as [|a l IH]; intros fuel pre rest Hk Hsz Hsz' Hnot.
  - destruct fuel; [done|]. simpl. rewrite len_nil in *. rewrite decide_False by lia. done.
  - destruct fuel; [done|]. simpl.
    rewrite len_cons in *. pose proof (len_nonneg pre). pose proof (len_nonneg l).
    rewrite decide_True by lia.
    rewrite Hk. simpl. rewrite aget_middle by done. simpl.
    apply not_elem_of_cons in Hnot as [Hne Hnot].
    rewrite decide_False by done.
    rewrite u8_small by lia.
    replace (len pre + 1) with (len (pre ++ [a])) by (rewrite len_app, len_cons, len_nil; lia).
    apply (IH fuel (pre ++ [a]) rest); try done.
    + rewrite Hk, <- app_assoc. done.
    + rewrite len_app, len_cons, len_nil. lia.
Qed.

Lemma len_fmap {A B} (f : A → B) (l : list A) : len (f <$> l) = len l.
Proof. unfold len. by rewrite length_fmap. Qed.

Lemma Forall_fst_notin es (k : byte) (P : byte → Prop) :
  Forall (fun e => P e.1) es → ¬ P k → k ∉ es.*1.
Proof.
  intros H Hk [e [-> He]]%list_elem_of_fmap.
  eapply Forall_forall in H; eauto.
Qed.

Lemma sorted_view_len cap n es rest :
  sorted_view cap n es rest → 0 ≤ len es ≤ Z.of_nat cap ∧ size n = len es.
Proof. intros (?&?&?&?&?&?). unfold len in *. lia. Qed.

(** The binary search of NODE16 lands after the keys smaller than [k]. *)
Lemma sort_Search_keys n (k : byte) (l1 l2 : list byte) (rest : list byte) :
  keys n = l1 ++ l2 ++ rest →
  len l1 + len l2 ≤ 256 →
  Forall (fun a => byte_lt a k) l1 →
  Forall (fun a => ¬ byte_lt a k) l2 →
  sort_Search (len l1 + len l2)
    (fun i => ki ← aget (keys n) (u8 i); Some (bool_decide (b2z k ≤ b2z ki)))
  = Some (len l1).
Proof.
  intros Hk Hle H1 H2. pose proof (len_nonneg l1). pose proof (len_nonneg l2).
  apply sort_Search_spec; [lia|].
  intros h Hh. rewrite u8_small by lia. rewrite Hk.
  destruct (decide (h < len l1)) as [Hlt|Hge].
  - rewrite aget_app_l by lia.
    destruct (aget_is_Some l1 h) as [a Ha]; [lia|]. rewrite Ha. simpl.
    apply aget_Some in Ha as [_ Ha]. apply list_elem_of_lookup_2 in Ha.
    eapply Forall_forall in H1; eauto. unfold byte_lt in H1.
    f_equal. rewrite !bool_decide_eq_false_2; [done|lia|lia].
  - rewrite aget_app_r by lia. rewrite aget_app_l by lia.
    destruct (aget_is_Some l2 (h - len l1)) as [a Ha]; [lia|]. rewrite Ha. simpl.
    apply aget_Some in Ha as [_ Ha]. apply list_elem_of_lookup_2 in Ha.
    eapply Forall_forall in H2; eauto. unfold byte_lt in H2.
    f_equal. rewrite !bool_decide_eq_true_2; [done|lia|lia].
Qed.

Lemma sorted_view_children_l cap n es rest (i : Z) :
  sorted_view cap n es rest → 0 ≤ i < len es →
  aget (children n) i = Some <$> aget es.*2 i.
Proof.
  intros (_&_&Hc&_&_&_) Hi. rewrite Hc.
  rewrite aget_app_l by (rewrite !len_fmap; lia).
  unfold aget. case_decide; [|done]. by rewrite list_lookup_fmap.
Qed.

Lemma sorted_view_children_r cap n es rest (i : Z) :
  sorted_view cap n es rest → len es ≤ i < Z.of_nat cap →
  aget (children n) i = Some None.
Proof.
  intros (_&_&Hc&Hcap&_&_) Hi. rewrite Hc.
  rewrite aget_app_r by (rewrite !len_fmap; lia).
  rewrite !len_fmap. unfold aget. rewrite decide_True by lia.
  apply lookup_replicate_2. unfold len in *. lia.
Qed.

Lemma sorted_Index cap n es rest (b : byte) :
  sorted_view cap n es rest → (cap ≤ 16)%nat → is_sorted_type n →
  ∃ l1 l2,
    es = l1 ++ opt_list ((fun c => (b, c)) <$> alookup b es) ++ l2 ∧
    match alookup b es with
    | Some c => Index n b = Some (len l1)
    | None => ∃ r, Index n b = Some r ∧ (r = -1 ∨ (r = len es ∧ len es < Z.of_nat cap))
    end.
Proof.
  intros Hv Hcap Hty. pose proof Hv as (Hk&Hlen&Hc&Hle&Hsz&Hs).
  destruct (sorted_around es b Hs) as (l1 & l2 & E & H1 & H2).
  exists l1, l2. split; [done|].
  pose proof (len_nonneg l1). pose proof (len_nonneg l2).
  assert (len es ≤ 16) by (unfold len; lia).
  destruct (alookup b es) as [c|] eqn:Ea; simpl in E.
  - (* present *)
    assert (len es = len l1 + 1 + len l2) as Hles.
    { rewrite E at 1. rewrite len_app, len_cons. lia. }
    destruct Hty as [Hty|Hty]; unfold Index; rewrite Hty.
    + change 0 with (len (@nil byte)).
      rewrite (Index4_from_found n b l1.*1 256 [] (l2.*1 ++ rest)).
      * rewrite len_nil, len_fmap. f_equal.
      * rewrite Hk, E. rewrite fmap_app, fmap_cons. simpl. by rewrite <- app_assoc.
      * rewrite len_nil, len_fmap. lia.
      * lia.
      * apply (Forall_fst_notin l1 b (fun a => byte_lt a b) H1), byte_lt_irrefl.
      * rewrite length_fmap. unfold len in *. lia.
    + rewrite Hsz, Hles.
      replace (len l1 + 1 + len l2) with (len l1.*1 + len (b :: l2.*1))
        by (rewrite len_cons, !len_fmap; lia).
      rewrite (sort_Search_keys n b l1.*1 (b :: l2.*1) rest).
      * simpl. rewrite len_fmap.
        rewrite decide_True by (unfold len in *; lia).
        rewrite Hk, E, fmap_app, fmap_cons. rewrite <- app_assoc, <- app_comm_cons.
        rewrite aget_middle by (by rewrite len_fmap). simpl.
        by rewrite decide_True.
      * rewrite Hk, E, fmap_app, fmap_cons. simpl. by rewrite <- !app_assoc.
      * rewrite len_cons, !len_fmap. lia.
      * apply Forall_fmap. exact H1.
      * constructor; [apply byte_lt_irrefl|]. apply Forall_fmap.
        eapply Forall_impl; [exact H2|]. intros e He Hlt. simpl in *.
        unfold byte_lt in *. lia.
  - (* absent *)
    simpl in E.
    assert (len es = len l1 + len l2) as Hles.
    { rewrite E at 1. rewrite len_app. lia. }
    assert (b ∉ es.*1) as Hnot by (by apply alookup_None_notin).
    destruct Hty as [Hty|Hty]; unfold Index; rewrite Hty.
    + exists (-1). split; [|by left]. change 0 with (len (@nil byte)).
      apply (Index4_from_notfound n b es.*1 256 [] rest); try done.
      * rewrite len_nil, len_fmap. lia.
      * lia.
    + rewrite Hsz, Hles.
      replace (len l1 + len l2) with (len l1.*1 + len l2.*1) by (rewrite !len_fmap; lia).
      rewrite (sort_Search_keys n b l1.*1 l2.*1 rest).
      * simpl. rewrite len_fmap. case_decide as Hlt; [|by exists (-1); split; [|left]].
        destruct l2 as [|[b2 c2] l2].
        { rewrite app_nil_r in E. subst l1.
          destruct (aget_is_Some (keys n) (len es)) as [ki Eki]; [lia|].
          rewrite Eki. simpl.
          case_decide; [|by exists (-1); split; [|left]].
          exists (len es). split; [done|]. right. split; [done|].
          unfold len in *; simpl in *; lia. }
        rewrite Hk, E, fmap_app, fmap_cons. rewrite <- app_assoc, <- app_comm_cons.
        rewrite aget_middle by (by rewrite len_fmap). simpl.
        apply Forall_cons in H2 as [Hb2 _]. simpl in Hb2.
        rewrite decide_False; [by exists (-1); split; [|left]|].
        intros ->. by apply byte_lt_irrefl in Hb2.
      * rewrite Hk, E, fmap_app. by rewrite <- !app_assoc.
      * rewrite !len_fmap. lia.
      * apply Forall_fmap. exact H1.
      * apply Forall_fmap. eapply Forall_impl; [exact H2|].
        intros e He Hlt. simpl in *. unfold byte_lt in *. lia.
Qed.

Lemma FindChild_sorted cap n es rest (b : byte) :
  sorted_view cap n es rest → (cap ≤ 16)%nat → is_sorted_type n →
  ∃ l1 l2,
    es = l1 ++ opt_list ((fun c => (b, c)) <$> alookup b es) ++ l2 ∧
    match alookup b es with
    | Some c => FindChild n b = Some (Some (len l1))
                ∧ aget (children n) (len l1) = Some (Some c)
    | None => FindChild n b = Some None
              ∨ ∃ i, FindChild n b = Some (Some i) ∧ aget (children n) i = Some None
    end.
Proof.
  intros Hv Hcap Hty.
  destruct (sorted_Index cap n es rest b Hv Hcap Hty) as (l1 & l2 & E & HI).
  exists l1, l2. split; [done|].
  pose proof (len_nonneg l1). pose proof (len_nonneg es).
  assert (FindChild n b =
          index ← Index n b;
          if decide (0 ≤ index) then _ ← aget (children n) index; Some (Some index)
          else Some None) as ->.
  { unfold FindChild. by destruct Hty as [-> | ->]. }
  destruct (alookup b es) as [c|] eqn:Ea; simpl in E.
  - rewrite HI. simpl. rewrite decide_True by done.
    assert (aget (children n) (len l1) = Some (Some c)) as Hc.
    { assert (len es = len l1 + (1 + len l2)) as Hles
        by (rewrite E at 1; by rewrite len_app, len_cons).
      pose proof (len_nonneg l2).
      rewrite (sorted_view_children_l cap n es rest) by (try done; lia).
      rewrite E, fmap_app, fmap_cons. rewrite aget_middle by (by rewrite len_fmap). done. }
    rewrite Hc. done.
  - destruct HI as (r & -> & [-> | [-> Hlt]]); simpl.
    + left. done.
    + right. rewrite decide_True by done.
      rewrite (sorted_view_children_r cap n es rest) by (try done; lia).
      simpl. eexists. split; [done|].
      apply (sorted_view_children_r cap n es rest); [done|lia].
Qed.

Lemma child_sorted cap n es rest (b : byte) :
  sorted_view cap n es rest → (cap ≤ 16)%nat → is_sorted_type n →
  child n b = alookup b es.
Proof.
  intros Hv Hcap Hty.
  destruct (FindChild_sorted cap n es rest b Hv Hcap Hty) as (l1 & l2 & E & HF).
  unfold child. destruct (alookup b es) as [c|].
  - destruct HF as [-> ->]. done.
  - destruct HF as [-> | (i & -> & ->)]; done.
Qed.

Lemma kids_sorted cap n es rest :
  sorted_view cap n es rest → (cap ≤ 16)%nat → is_sorted_type n →
  kids n = es.
Proof.
  intros Hv Hcap Hty. unfold kids.
  rewrite (tab_ext _ (fun b => alookup b es)).
  - apply tab_alookup. by destruct Hv as (_&_&_&_&_&?).
  - intros b. by apply (child_sorted cap n es rest).
Qed.

End sorted_nodes.

Ltac list_len :=
  repeat (progress (rewrite ?length_app, ?length_fmap, ?length_cons, ?length_replicate,
                      ?length_insert, ?length_nil in * )); simpl in *.

Section sorted_add.
Context {V : Type}.
Abbreviation Node := (ArtNode V).
Implicit Types n : Node.
Implicit Types es : list (byte * Node).

Lemma AddChild4_index_spec n (k : byte) (l1 : list byte) :
  ∀ fuel (pre l2 rest : list byte),
    keys n = pre ++ l1 ++ l2 ++ rest →
    size n = len pre + len l1 + len l2 → size n ≤ 255 →
    Forall (fun a => ¬ byte_lt k a) l1 →
    Forall (byte_lt k) l2 →
    (length l1 < fuel)%nat →
    AddChild4_index fuel (len pre) n k = Some (len pre + len l1).
Proof.
  induction l1 as [|a l1 IH]; intros fuel pre l2 rest Hk Hsz Hsz' H1 H2 Hfuel.
  - destruct fuel; [simpl in *; lia|]. simpl. rewrite len_nil in *.
    rewrite Z.add_0_r. destruct l2 as [|a l2].
    + rewrite ?len_nil in *. rewrite decide_False by (unfold len in *; simpl in *; lia). done.
    + rewrite len_cons in *. pose proof (len_nonneg l2).
      rewrite decide_True by lia. rewrite Hk. simpl.
      rewrite aget_middle by done. simpl.
      apply Forall_cons in H2 as [Ha _]. unfold byte_lt in Ha.
      rewrite decide_True by done. done.
  - destruct fuel; [simpl in *; lia|]. simpl.
    rewrite len_cons in *. pose proof (len_nonneg pre).
    pose proof (len_nonneg l1). pose proof (len_nonneg l2).
    rewrite decide_True by lia. rewrite Hk. simpl.
    rewrite aget_middle by done. simpl.
    apply Forall_cons in H1 as [Ha H1]. unfold byte_lt in Ha.
    rewrite decide_False by done.
    rewrite u8_small by lia.
    replace (len pre + 1) with (len (pre ++ [a])) by (rewrite len_app, len_cons, len_nil; lia).
    rewrite (IH fuel (pre ++ [a]) l2 rest); try done.
    + f_equal. rewrite len_app, len_cons, len_nil. lia.
    + rewrite Hk, <- app_assoc. done.
    + rewrite len_app, len_cons, len_nil. lia.
    + simpl in Hfuel. lia.
Qed.

Lemma AddChild_shift_at (k : byte) (M : list byte) fuel (L R : list byte) x
    (cL cM cR : list (option Node)) y (i idx : Z) :
  i = len L + len M → idx = len L →
  Forall (byte_lt k) M → length cM = length M → length cL = length L →
  len L + len M ≤ 255 → (length M ≤ fuel)%nat →
  AddChild_shift fuel i idx k (L ++ M ++ x :: R) (cL ++ cM ++ y :: cR)
  = Some (L ++ hd x M :: M ++ R, cL ++ hd y cM :: cM ++ cR).
Proof. intros -> ->. apply AddChild_shift_spec. Qed.

Lemma replicate_S_cons {A} (m : nat) (x : A) : replicate (S m) x = x :: replicate m x.
Proof. done. Qed.

Lemma AddChild_sorted_spec cap n es rest (l1 l2 : list (byte * Node)) (k : byte) node :
  sorted_view cap n es rest → es = l1 ++ l2 →
  Forall (fun e => byte_lt e.1 k) l1 → Forall (fun e => byte_lt k e.1) l2 →
  (length es < cap)%nat → (cap ≤ 16)%nat →
  ∃ n', AddChild_sorted n (len l1) k node = Some n'
        ∧ sorted_view cap n' (l1 ++ (k, node) :: l2) (tail rest)
        ∧ nodeType n' = nodeType n ∧ prefix n' = prefix n
        ∧ prefixLen n' = prefixLen n.
Proof.
  intros (Hk&Hlen&Hc&Hle&Hsz&Hs) -> H1 H2 Hlt Hcap.
  rewrite length_app in Hlt.
  destruct rest as [|x R].
  { rewrite app_nil_r in Hk. rewrite Hk, length_fmap, length_app in Hlen. lia. }
  unfold AddChild_sorted.
  assert (len (l1 ++ l2) = len l1 + len l2) as Hl by apply len_app.
  pose proof (len_nonneg l1). pose proof (len_nonneg l2).
  assert (len l1 + len l2 < 16) by (unfold len in *; lia).
  rewrite Hsz, Hl, Hk, Hc.
  rewrite !fmap_app, <- !app_assoc.
  replace (cap - length (l1 ++ l2))%nat with (S (cap - length (l1 ++ l2) - 1))
    by (rewrite length_app; lia).
  rewrite replicate_S_cons.
  rewrite (AddChild_shift_at k l2.*1 256 l1.*1 R x (Some <$> l1.*2) (Some <$> l2.*2) _ None).
  - simpl.
    rewrite (aset_middle l1.*1 (l2.*1 ++ R)) by (by rewrite len_fmap). simpl.
    rewrite (aset_middle (Some <$> l1.*2)) by (by rewrite !len_fmap). simpl.
    eexists. split; [done|]. simpl.
    split; [|done].
    split; [|split; [|split; [|split; [|split]]]]; simpl.
    + rewrite fmap_app, fmap_cons, <- app_assoc. done.
    + rewrite Hk in Hlen. list_len. lia.
    + rewrite !fmap_app, !fmap_cons, <- app_assoc. simpl.
      do 3 f_equal. list_len. f_equal. lia.
    + list_len. lia.
    + rewrite u8_small by lia. rewrite len_app, len_cons. lia.
    + apply StronglySorted_app in Hs as (Hc12 & Hs1 & Hs2).
      apply StronglySorted_app. split; [|split; [done|]].
      * intros e1 e2 He1 [->|He2]%elem_of_cons.
        -- eapply Forall_forall in H1; eauto.
        -- by apply Hc12.
      * constructor; [done|]. done.
  - by rewrite !len_fmap.
  - by rewrite len_fmap.
  - apply Forall_fmap. eapply Forall_impl; [exact H2|]. done.
  - by rewrite !length_fmap.
  - by rewrite !length_fmap.
  - rewrite !len_fmap. lia.
  - rewrite length_fmap. unfold len in *. lia.
Qed.

Lemma alookup_insert_mid (l1 l2 : list (byte * Node)) (k b : byte) node :
  alookup k l1 = None →
  alookup b (l1 ++ (k, node) :: l2) =
    if decide (b = k) then Some node else alookup b (l1 ++ l2).
Proof.
  intros Hk. rewrite !alookup_app. simpl.
  repeat case_decide; subst; rewrite ?Hk; try done; congruence.
Qed.

Lemma alookup_replace_mid (l1 l2 : list (byte * Node)) (k b : byte) c node :
  alookup k l1 = None →
  alookup b (l1 ++ (k, node) :: l2) =
    if decide (b = k) then Some node else alookup b (l1 ++ (k, c) :: l2).
Proof.
  intros Hk. rewrite !alookup_app. simpl.
  repeat case_decide; subst; rewrite ?Hk; try done; congruence.
Qed.

Lemma alookup_delete_mid (l1 l2 : list (byte * Node)) (k b : byte) c :
  alookup k l1 = None → alookup k l2 = None →
  alookup b (l1 ++ l2) =
    if decide (b = k) then None else alookup b (l1 ++ (k, c) :: l2).
Proof.
  intros Hk1 Hk2. rewrite !alookup_app. simpl.
  repeat case_decide; subst; rewrite ?Hk1, ?Hk2; try done; congruence.
Qed.

Lemma AddChild_notfull_sorted cap n es rest (k : byte) node :
  sorted_view cap n es rest → is_sorted_type n → Z.of_nat cap = MaxSize n →
  alookup k es = None → (length es < cap)%nat →
  ∃ n' es' rest',
    AddChild n k node = Some n' ∧ sorted_view cap n' es' rest'
    ∧ (∀ b, alookup b es' = if decide (b = k) then Some node else alookup b es)
    ∧ nodeType n' = nodeType n ∧ prefix n' = prefix n ∧ prefixLen n' = prefixLen n.
Proof.
  intros Hv Hty Hcap Hno Hlt. pose proof Hv as (Hk&Hlen&Hc&Hle&Hsz&Hs).
  destruct (sorted_around es k Hs) as (l1 & l2 & E & H1 & H2).
  rewrite Hno in E. simpl in E.
  assert (cap ≤ 16)%nat as Hcap16.
  { unfold MaxSize in Hcap. destruct Hty as [Hty|Hty]; rewrite Hty in Hcap;
      unfold NODE4MAX, NODE16MAX in *; lia. }
  destruct (AddChild_sorted_spec cap n es rest l1 l2 k node Hv E H1 H2 Hlt Hcap16)
    as (n' & Hadd & Hv' & Hty' & Hp & Hpl).
  exists n', (l1 ++ (k, node) :: l2), (tail rest).
  split; [|split; [done|split; [|done]]].
  - pose proof (len_nonneg l1). pose proof (len_nonneg l2).
    assert (len es = len l1 + len l2) as Hles by (rewrite E; apply len_app).
    assert (len es < 16) by (unfold len in *; lia).
    assert (IsFull n = false) as Hfull.
    { unfold IsFull. apply bool_decide_eq_false_2. rewrite Hsz, <- Hcap. unfold len. lia. }
    unfold AddChild. destruct Hty as [Hty|Hty]; rewrite Hty.
    + unfold AddChild4. rewrite Hfull.
      change 0 with (len (@nil byte)).
      rewrite (AddChild4_index_spec n k l1.*1 256 [] l2.*1 rest).
      * simpl. rewrite len_fmap. done.
      * rewrite Hk, E, fmap_app, <- app_assoc. done.
      * rewrite len_nil, !len_fmap. lia.
      * lia.
      * apply Forall_fmap. eapply Forall_impl; [exact H1|].
        intros e He. simpl in *. unfold byte_lt in *. lia.
      * apply Forall_fmap. eapply Forall_impl; [exact H2|]. done.
      * rewrite length_fmap. unfold len in *. lia.
    + unfold AddChild16. rewrite Hfull. rewrite Hsz, Hles.
      replace (len l1 + len l2) with (len l1.*1 + len l2.*1) by (by rewrite !len_fmap).
      rewrite (sort_Search_keys n k l1.*1 l2.*1 rest).
      * simpl. rewrite len_fmap, u8_small by lia. done.
      * rewrite Hk, E, fmap_app, <- app_assoc. done.
      * rewrite !len_fmap. lia.
      * apply Forall_fmap. exact H1.
      * apply Forall_fmap. eapply Forall_impl; [exact H2|].
        intros e He. simpl in *. unfold byte_lt in *. lia.
  - intros b. rewrite E. apply alookup_insert_mid. by apply alookup_None_lt.
Qed.

End sorted_add.

Section sorted_grow.
Context {V : Type}.
Abbreviation Node := (ArtNode V).
Implicit Types n : Node.
Implicit Types es : list (byte * Node).

Lemma grow4_spec n es rest :
  sorted_view 4 n es rest → nodeType n = NODE4 → length es = 4%nat →
  ∃ n', grow n = Some n' ∧ sorted_view 16 n' es (replicate 12 x00)
        ∧ nodeType n' = NODE16 ∧ prefix n' = prefix n ∧ prefixLen n' = prefixLen n.
Proof.
  intros (Hk&Hlen&Hc&Hle&Hsz&Hs) Hty Hes.
  destruct es as [|[k0 c0] [|[k1 c1] [|[k2 c2] [|[k3 c3] [|? ?]]]]]; try done.
  destruct rest as [|? ?]; [|rewrite Hk in Hlen; simpl in Hlen; lia].
  destruct n as [ks cs p pl sz ky vl ty]. simpl in *. subst.
  eexists. split; [vm_compute; reflexivity|].
  repeat split; try done. simpl. lia.
Qed.

Lemma default_last_cons {A} (y m : A) (M : list A) :
  default y (last (m :: M)) = default m (last M).
Proof. rewrite last_cons. by destruct (last M). Qed.

Lemma RemoveChild_shift_spec (M : list byte) :
  ∀ fuel (L R : list byte) y (cL cM cR : list (option Node)) cy (i bound : Z),
    i = len L → bound = len L + len M →
    length cM = length M → length cL = length L →
    len L + len M ≤ 254 → (length M ≤ fuel)%nat →
    RemoveChild_shift fuel i bound (L ++ y :: M ++ R) (cL ++ cy :: cM ++ cR)
    = Some (L ++ M ++ default y (last M) :: R, cL ++ cM ++ default cy (last cM) :: cR).
Proof.
  induction M as [|m M IH]; intros fuel L R y cL cM cR cy i bound -> -> HcM HcL Hle Hfuel.
  - destruct cM; [|done]. rewrite len_nil, Z.add_0_r.
    destruct fuel; simpl; [done|]. rewrite decide_False by lia. done.
  - destruct cM as [|c cM]; [done|]. simpl in HcM.
    destruct fuel as [|fuel]; [simpl in Hfuel; lia|]. simpl.
    rewrite len_cons in *. pose proof (len_nonneg L). pose proof (len_nonneg M).
    rewrite decide_True by lia. rewrite u8_small by lia.
    change (y :: m :: M ++ R) with ([y] ++ m :: M ++ R).
    rewrite (app_assoc L [y]).
    rewrite (aget_middle (L ++ [y])) by (rewrite len_app, len_cons, len_nil; lia).
    simpl. rewrite <- app_assoc. simpl.
    rewrite (aset_middle L) by done. simpl.
    change (cy :: c :: cM ++ cR) with ([cy] ++ c :: cM ++ cR).
    rewrite (app_assoc cL [cy]).
    assert (len cL = len L) as HlcL by (unfold len; lia).
    rewrite (aget_middle (cL ++ [cy])) by (rewrite len_app, len_cons, len_nil; lia).
    simpl. rewrite <- app_assoc. simpl.
    rewrite (aset_middle cL) by done. simpl.
    change (m :: m :: M ++ R) with ([m] ++ m :: M ++ R).
    change (c :: c :: cM ++ cR) with ([c] ++ c :: cM ++ cR).
    rewrite (app_assoc L [m]), (app_assoc cL [c]).
    rewrite (IH fuel (L ++ [m]) R m (cL ++ [c]) cM cR c).
    + rewrite <- !app_assoc. simpl. by rewrite !default_last_cons.
    + rewrite len_app, len_cons, len_nil. lia.
    + rewrite len_app, len_cons, len_nil. lia.
    + simpl in HcM. lia.
    + list_len. lia.
    + rewrite len_app, len_cons, len_nil. lia.
    + simpl in Hfuel. lia.
Qed.

Lemma RemoveChild_sorted cap n es rest (k : byte) c :
  sorted_view cap n es rest → is_sorted_type n → (cap ≤ 16)%nat →
  alookup k es = Some c →
  ∃ n1 es1 rest1,
    sorted_view cap n1 es1 rest1
    ∧ (∀ b, alookup b es1 = if decide (b = k) then None else alookup b es)
    ∧ S (length es1) = length es
    ∧ nodeType n1 = nodeType n ∧ prefix n1 = prefix n ∧ prefixLen n1 = prefixLen n
    ∧ RemoveChild n k = if decide (size n1 < MinSize n1) then shrink n1 else Some n1.
Proof.
  intros Hv Hty Hcap Hin. pose proof Hv as (Hk&Hlen&Hc&Hle&Hsz&Hs).
  destruct (sorted_Index cap n es rest k Hv Hcap Hty) as (l1 & l2 & E & HI).
  rewrite Hin in E, HI. simpl in E.
  pose proof (len_nonneg l1). pose proof (len_nonneg l2).
  assert (len es = len l1 + (1 + len l2)) as Hles
    by (rewrite E at 1; by rewrite len_app, len_cons).
  assert (len es ≤ 16) by (unfold len in *; lia).
  assert (alookup k l1 = None ∧ alookup k l2 = None) as [Hk1 Hk2].
  { rewrite E in Hs. apply StronglySorted_app in Hs as (Hc12 & Hs1 & Hs2).
    apply StronglySorted_cons in Hs2 as [Hkl2 Hs2].
    split; [apply alookup_None_notin|apply alookup_None_gt; exact Hkl2].
    intros [e [-> He]]%list_elem_of_fmap.
    specialize (Hc12 e (e.1, c) He). unfold key_lt, byte_lt in Hc12. simpl in Hc12.
    assert (b2z e.1 < b2z e.1); [|lia]. apply Hc12. left. }
  set (ks1 := (l1 ++ l2).*1 ++ x00 :: rest).
  set (cs1 := (Some <$> (l1 ++ l2).*2) ++ replicate (cap - length (l1 ++ l2)) None).
  exists (set_size (set_children (set_keys n ks1) cs1) (u8 (size n - 1))),
         (l1 ++ l2), (x00 :: rest).
  split; [|split; [|split; [|split; [done|split; [done|split; [done|]]]]]].
  - split; [done|]. simpl. subst ks1 cs1.
    split; [|split; [done|split; [|split]]].
    + rewrite Hk, E in Hlen. list_len. lia.
    + rewrite E in Hle. list_len. lia.
    + rewrite Hsz, Hles, u8_small by lia. rewrite len_app. lia.
    + rewrite E in Hs. apply StronglySorted_app in Hs as (Hc12 & Hs1 & Hs2).
      apply StronglySorted_cons in Hs2 as [Hkl2 Hs2].
      apply StronglySorted_app. split; [|done].
      intros e1 e2 He1 He2. apply Hc12; [done|by right].
  - intros b. rewrite E. by apply alookup_delete_mid.
  - rewrite E. list_len. lia.
  - assert (RemoveChild n k =
      n' ← (idx ← Index n k;
            ks ← aset (keys n) idx x00;
            cs ← aset (children n) idx None;
            '(ks, cs) ← (if decide (0 ≤ idx)
                         then RemoveChild_shift 256 (u8 idx) (u8 (size n - 1)) ks cs
                         else Some (ks, cs));
            ks ← aset ks (u8 (size n - 1)) x00;
            cs ← aset cs (u8 (size n - 1)) None;
            Some (set_size (set_children (set_keys n ks) cs) (u8 (size n - 1))));
      if decide (size n' < MinSize n') then shrink n' else Some n') as ->.
    { unfold RemoveChild. by destruct Hty as [-> | ->]. }
    rewrite HI. obind.
    rewrite Hk, Hc, E. rewrite !fmap_app, !fmap_cons, <- !app_assoc, <- !app_comm_cons.
    rewrite (aset_middle l1.*1) by (by rewrite len_fmap). obind.
    rewrite (aset_middle (Some <$> l1.*2)) by (by rewrite !len_fmap). obind.
    rewrite decide_True by done.
    rewrite (RemoveChild_shift_spec l2.*1 256 l1.*1 rest x00
               (Some <$> l1.*2) (Some <$> l2.*2) _ None).
    + obind.
      rewrite (app_assoc l1.*1 l2.*1).
      rewrite (aset_middle (l1.*1 ++ l2.*1))
        by (rewrite Hsz, u8_small, len_app, !len_fmap; lia).
      obind.
      rewrite (app_assoc (Some <$> l1.*2) (Some <$> l2.*2)).
      rewrite (aset_middle ((Some <$> l1.*2) ++ (Some <$> l2.*2)))
        by (rewrite Hsz, u8_small, len_app, !len_fmap; lia).
      obind.
      assert (∀ ks ks' cs cs', ks = ks' → cs = cs' →
              set_size (set_children (set_keys n ks) cs) (u8 (size n - 1)) =
              set_size (set_children (set_keys n ks') cs') (u8 (size n - 1))) as Heq
        by (by intros ???? -> ->).
      rewrite (Heq _ ks1 _ cs1); [done| |].
      * subst ks1. by rewrite fmap_app.
      * subst cs1.
        replace (cap - length (l1 ++ l2))%nat with (S (cap - length (l1 ++ (k, c) :: l2)))
          by (rewrite E in Hle; list_len; lia).
        rewrite !fmap_app, <- !app_assoc. done.
    + rewrite u8_small, len_fmap; lia.
    + rewrite Hsz, u8_small, !len_fmap; lia.
    + by rewrite !length_fmap.
    + by rewrite !length_fmap.
    + rewrite !len_fmap. lia.
    + rewrite length_fmap. unfold len in *. lia.
Qed.

Lemma shrink16_spec n es rest :
  sorted_view 16 n es rest → nodeType n = NODE16 → length es = 4%nat →
  ∃ n', shrink n = Some n' ∧ sorted_view 4 n' es []
        ∧ nodeType n' = NODE4 ∧ prefix n' = prefix n ∧ prefixLen n' = prefixLen n.
Proof.
  intros (Hk&Hlen&Hc&Hle&Hsz&Hs) Hty Hes.
  destruct es as [|[k0 c0] [|[k1 c1] [|[k2 c2] [|[k3 c3] [|? ?]]]]]; try done.
  rewrite Hk in Hlen. simpl in Hlen.
  do 12 (destruct rest as [|? rest]; [simpl in Hlen; lia|]).
  destruct rest; [|simpl in Hlen; lia].
  destruct n as [ks cs p pl sz ky vl ty]. simpl in *. subst.
  eexists. split; [vm_compute; reflexivity|].
  repeat split; try done.
Qed.

Lemma sorted_set_child cap n es rest (l1 l2 : list (byte * Node)) (b : byte) c c' :
  sorted_view cap n es rest → es = l1 ++ (b, c) :: l2 →
  sorted_view cap (set_children n (<[length l1 := Some c']> (children n)))
              (l1 ++ (b, c') :: l2) rest.
Proof.
  intros (Hk&Hlen&Hc&Hle&Hsz&Hs) ->.
  split; [|split; [done|split; [|split; [|split]]]]; simpl.
  - rewrite Hk, !fmap_app, !fmap_cons. done.
  - rewrite Hc, !fmap_app, !fmap_cons, <- !app_assoc, <- !app_comm_cons.
    replace (length l1) with (length (Some <$> l1.*2) + 0)%nat at 1 by (list_len; lia).
    rewrite insert_app_r. simpl. do 3 f_equal. list_len. done.
  - list_len. lia.
  - rewrite Hsz. rewrite !len_app, !len_cons. done.
  - apply StronglySorted_app in Hs as (Hc12 & Hs1 & Hs2).
    apply StronglySorted_cons in Hs2 as [Hkl2 Hs2].
    apply StronglySorted_app. split; [|split; [done|by constructor]].
    intros e1 e2 He1 [->|He2]%elem_of_cons.
    + apply (Hc12 e1 (b, c)); [done|left].
    + apply Hc12; [done|by right].
Qed.

(** [eachHelper] below a NODE4 or NODE16 *)
Lemma concat_sends_app (l1 l2 : list (option (list Node))) :
  concat_sends (l1 ++ l2) =
    r1 ← concat_sends l1; r2 ← concat_sends l2; Some (r1 ++ r2).
Proof.
  induction l1 as [|r l1 IH]; simpl.
  - destruct (concat_sends l2); done.
  - destruct r as [r|]; simpl; [|done]. rewrite IH.
    destruct (concat_sends l1) as [r1|]; simpl; [|done].
    destruct (concat_sends l2) as [r2|]; simpl; [|done].
    by rewrite app_assoc.
Qed.

Lemma concat_sends_nils (m : nat) :
  concat_sends (replicate m (Some (@nil Node))) = Some [].
Proof. induction m as [|m IH]; simpl; [done|]. by rewrite IH. Qed.

Lemma eachHelper_unfold n :
  eachHelper n =
    rest ← (if decide (nodeType n = NODE48) then
              for_loop (length (keys n)) 0
                (fun i sent =>
                   index ← aget (keys n) (u8 i);
                   if decide (b2z index > 0) then
                     r ← at_index each_sub (children n) (b2z index - 1);
                     l ← r;
                     Some (sent ++ l)
                   else Some sent) []
            else concat_sends (map_list each_sub (children n)));
    Some (n :: rest).
Proof. destruct n. reflexivity. Qed.

Lemma eachHelper_sorted cap n es rest :
  sorted_view cap n es rest → is_sorted_type n →
  eachHelper n = rest ← concat_sends (eachHelper <$> es.*2); Some (n :: rest).
Proof.
  intros (Hk&Hlen&Hc&Hle&Hsz&Hs) Hty. rewrite eachHelper_unfold.
  rewrite decide_False by (destruct Hty as [-> | ->]; done).
  rewrite map_list_fmap, Hc, fmap_app, fmap_replicate. simpl.
  rewrite concat_sends_app, concat_sends_nils.
  rewrite <- list_fmap_compose.
  assert (each_sub ∘ Some = eachHelper) as -> by done.
  destruct (concat_sends (eachHelper <$> es.*2)) as [r|]; simpl; [|done].
  by rewrite app_nil_r.
Qed.

Lemma Minimum_unfold n :
  Minimum n =
    let sub := fun c : option Node =>
                 match c with
                 | Some c' => Minimum c'
                 | None => Some None
                 end in
    match nodeType n with
    | LEAF => Some (Some n)
    | NODE4 | NODE16 => r ← at_index sub (children n) 0; r
    | NODE48 =>
        i ← first_nonzero (S (length (keys n))) 0 (keys n);
        k ← aget (keys n) i;
        r ← at_index sub (children n) (b2z k - 1); r
    | NODE256 =>
        i ← first_nonnil (S (length (children n))) 0 (children n);
        r ← at_index sub (children n) i; r
    end.
Proof. destruct n. reflexivity. Qed.

Lemma Minimum_sorted cap n es rest b c es' :
  sorted_view cap n es rest → is_sorted_type n → es = (b, c) :: es' →
  Minimum n = Minimum c.
Proof.
  intros (Hk&Hlen&Hc&Hle&Hsz&Hs) Hty ->. rewrite Minimum_unfold. cbv zeta.
  assert (match nodeType n with
          | LEAF => Some (Some n)
          | NODE4 | NODE16 => Minimum c
          | _ => Minimum c end = Minimum c) as <-.
  { destruct Hty as [-> | ->]; done. }
  destruct Hty as [-> | ->]; rewrite at_index_fmap, Hc; done.
Qed.

End sorted_grow.

(** ** Loops over the 256 bytes *)

Section byte_loops.
Context {St X : Type}.

Lemma foldl_bind_None (g : byte → X → St → option St) (l : list (byte * X)) :
  foldl (fun acc e => acc ≫= g e.1 e.2) None l = None.
Proof. induction l; simpl; auto. Qed.

Lemma fold_tab_nil (g : byte → X → St → option St) s : fold_tab g s [] = Some s.
Proof. done. Qed.

Lemma fold_tab_cons (g : byte → X → St → option St) s b x l :
  fold_tab g s ((b, x) :: l) = s' ← g b x s; fold_tab g s' l.
Proof.
  unfold fold_tab. simpl. destruct (g b x s); simpl; [done|apply foldl_bind_None].
Qed.

Lemma fold_tab_app (g : byte → X → St → option St) s l1 l2 :
  fold_tab g s (l1 ++ l2) = s' ← fold_tab g s l1; fold_tab g s' l2.
Proof.
  revert s. induction l1 as [|[b x] l1 IH]; intros s; [done|].
  rewrite <- app_comm_cons, !fold_tab_cons. destruct (g b x s); simpl; [apply IH|done].
Qed.

Lemma for_loop_bytes_from (f : byte → option X) (g : byte → X → St → option St)
    (body : Z → St → option St) (m : nat) :
  (∀ i s, 0 ≤ i < 256 →
     body i s = match f (z2b i) with Some x => g (z2b i) x s | None => Some s end) →
  ∀ (start : nat) s, (start + m ≤ 256)%nat →
    for_loop m (Z.of_nat start) body s =
      fold_tab g s (omap (tab_entry f) ((fun i => z2b (Z.of_nat i)) <$> seq start m)).
Proof.
  intros Hb. induction m as [|m IH]; intros start s Hm; [done|].
  simpl for_loop. rewrite Hb by lia.
  replace (Z.of_nat start + 1) with (Z.of_nat (S start)) by lia.
  cbn [seq fmap list_fmap]. csimpl. unfold tab_entry at 1.
  destruct (f (z2b (Z.of_nat start))) as [x|]; simpl.
  - rewrite fold_tab_cons. destruct (g _ x s); simpl; [|done]. apply IH. lia.
  - apply IH. lia.
Qed.

Lemma for_loop_bytes (f : byte → option X) (g : byte → X → St → option St)
    (body : Z → St → option St) s :
  (∀ i s, 0 ≤ i < 256 →
     body i s = match f (z2b i) with Some x => g (z2b i) x s | None => Some s end) →
  for_loop 256 0 body s = fold_tab g s (tab f).
Proof.
  intros Hb. apply (for_loop_bytes_from f g body 256 Hb 0%nat). lia.
Qed.

End byte_loops.

Section each_fold.
Context {V : Type}.
Abbreviation Node := (ArtNode V).

Lemma fold_tab_each (l : list (byte * Node)) (sent : list Node) :
  fold_tab (fun _ c sent => l ← eachHelper c; Some (sent ++ l)) sent l =
    r ← concat_sends (eachHelper <$> l.*2); Some (sent ++ r).
Proof.
  revert sent. induction l as [|[b c] l IH]; intros sent.
  - simpl. by rewrite app_nil_r.
  - rewrite fold_tab_cons. csimpl.
    destruct (eachHelper c) as [lc|]; simpl; [|done].
    rewrite IH. destruct (concat_sends _); simpl; [|done]. by rewrite app_assoc.
Qed.

End each_fold.

Section node256.
Context {V : Type}.
Abbreviation Node := (ArtNode V).
Implicit Types n : Node.

(** How the table of children changes when one byte is remapped. *)
Lemma kids_update n n' (b : byte) (v : option Node) :
  (∀ b', child n' b' = if decide (b' = b) then v else child n b') →
  ∃ l1 l2,
    kids n = l1 ++ opt_list ((fun x => (b, x)) <$> child n b) ++ l2 ∧
    kids n' = l1 ++ opt_list ((fun x => (b, x)) <$> v) ++ l2 ∧
    Forall (fun e => byte_lt e.1 b) l1 ∧ Forall (fun e => byte_lt b e.1) l2.
Proof.
  intros Hc. destruct (tab_split (child n) b) as (l1 & l2 & H1 & H2 & Hg).
  exists l1, l2. split; [by apply Hg|]. split; [|done].
  unfold kids. rewrite (Hg (child n')).
  - rewrite Hc. by rewrite decide_True.
  - intros b' Hb'. rewrite Hc. by rewrite decide_False.
Qed.

Lemma count_add n n' (b : byte) c :
  child n b = None →
  (∀ b', child n' b' = if decide (b' = b) then Some c else child n b') →
  count n' = count n + 1.
Proof.
  intros Hn Hc. destruct (kids_update n n' b (Some c) Hc) as (l1 & l2 & E & E' & _).
  unfold count. rewrite E, E', Hn. simpl. rewrite !len_app, len_cons. lia.
Qed.

Lemma count_replace n n' (b : byte) c c' :
  child n b = Some c →
  (∀ b', child n' b' = if decide (b' = b) then Some c' else child n b') →
  count n' = count n.
Proof.
  intros Hn Hc. destruct (kids_update n n' b (Some c') Hc) as (l1 & l2 & E & E' & _).
  unfold count. rewrite E, E', Hn. simpl. rewrite !len_app, !len_cons. lia.
Qed.

Lemma count_remove n n' (b : byte) c :
  child n b = Some c →
  (∀ b', child n' b' = if decide (b' = b) then None else child n b') →
  count n' = count n - 1.
Proof.
  intros Hn Hc. destruct (kids_update n n' b None Hc) as (l1 & l2 & E & E' & _).
  unfold count. rewrite E, E', Hn. simpl. rewrite !len_app, !len_cons. lia.
Qed.

Lemma count_ext n n' : (∀ b, child n' b = child n b) → count n' = count n.
Proof. intros H. unfold count, kids. by rewrite (tab_ext _ _ H). Qed.

Lemma count_range n : 0 ≤ count n ≤ 256.
Proof.
  unfold count, kids, len. pose proof (tab_length_le (child n)). lia.
Qed.

Lemma FindChild256 n (b : byte) :
  nodeType n = NODE256 →
  FindChild n b =
    child ← aget (children n) (b2z b);
    match child with
    | Some _ => Some (Some (b2z b))
    | None => Some None
    end.
Proof. intros Hty. unfold FindChild. by rewrite Hty. Qed.

Lemma child256 n (b : byte) :
  nodeType n = NODE256 → child n b = default None (aget (children n) (b2z b)).
Proof.
  intros Hty. unfold child. rewrite FindChild256 by done.
  destruct (aget (children n) (b2z b)) as [[c|]|] eqn:E; simpl; [|done..].
  by rewrite E.
Qed.

Lemma aget_insert_eq {A} (l : list A) (i : Z) x :
  0 ≤ i < len l → aget (<[Z.to_nat i := x]> l) i = Some x.
Proof.
  intros. unfold aget. rewrite decide_True by lia.
  apply list_lookup_insert_eq. unfold len in *. lia.
Qed.

Lemma aget_insert_ne {A} (l : list A) (i j : Z) x :
  0 ≤ i → 0 ≤ j → i ≠ j → aget (<[Z.to_nat i := x]> l) j = aget l j.
Proof.
  intros. unfold aget. rewrite !decide_True by lia.
  apply list_lookup_insert_ne. lia.
Qed.

Lemma child256_set n (b : byte) (v : option Node) :
  nodeType n = NODE256 → length (children n) = 256%nat →
  ∀ sz b', child (set_size (set_children n (<[Z.to_nat (b2z b) := v]> (children n))) sz) b'
           = if decide (b' = b) then v else child n b'.
Proof.
  intros Hty Hlen sz b'. rewrite !child256 by done. simpl.
  pose proof (b2z_range b). pose proof (b2z_range b').
  case_decide as Hb.
  - subst. rewrite aget_insert_eq; [done|unfold len; lia].
  - rewrite aget_insert_ne; [done|lia|lia|]. intros ?%b2z_inj. done.
Qed.

Lemma set_size_id n : set_size n (size n) = n.
Proof. by destruct n. Qed.

Lemma AddChild256_spec n (b : byte) c :
  n256_shape n → nodeType n = NODE256 → child n b = None →
  ∃ n', AddChild n b c = Some n' ∧ n256_shape n' ∧ nodeType n' = NODE256
        ∧ (∀ b', child n' b' = if decide (b' = b) then Some c else child n b')
        ∧ prefix n' = prefix n ∧ prefixLen n' = prefixLen n.
Proof.
  intros [Hlen Hsz] Hty Hno.
  pose proof (b2z_range b).
  eexists. split.
  - unfold AddChild. rewrite Hty. unfold AddChild256, IsFull.
    rewrite bool_decide_eq_false_2.
    2:{ rewrite Hsz. unfold MaxSize. rewrite Hty. unfold NODE256MAX, u8.
        pose proof (Z.mod_pos_bound (count n) 256). lia. }
    unfold aset. rewrite decide_True by (unfold len; lia). obind. done.
  - assert (∀ b', child (set_size (set_children n (<[Z.to_nat (b2z b):=Some c]> (children n)))
                          (u8 (size n + 1))) b'
                  = if decide (b' = b) then Some c else child n b') as Hc
      by (by apply child256_set).
    split; [|split; [done|split; [done|done]]].
    split; [simpl; by rewrite length_insert|].
    rewrite (count_add n _ b c Hno Hc). simpl. rewrite Hsz. unfold u8.
    rewrite Zplus_mod_idemp_l. done.
Qed.

Lemma set_child256 n (b : byte) c c' :
  n256_shape n → nodeType n = NODE256 → child n b = Some c →
  let n' := set_children n (<[Z.to_nat (b2z b) := Some c']> (children n)) in
  n256_shape n' ∧ (∀ b', child n' b' = if decide (b' = b) then Some c' else child n b').
Proof.
  intros [Hlen Hsz] Hty Hin n'.
  assert (∀ b', child n' b' = if decide (b' = b) then Some c' else child n b') as Hc.
  { intros b'. rewrite <- (child256_set n b (Some c') Hty Hlen (size n) b').
    subst n'. by destruct n. }
  split; [|done]. split; [subst n'; simpl; by rewrite length_insert|].
  rewrite (count_replace n n' b c c' Hin Hc). done.
Qed.

End node256.

Section node48.
Context {V : Type}.
Abbreviation Node := (ArtNode V).
Implicit Types n : Node.

Lemma Index48 n (b : byte) :
  nodeType n = NODE48 →
  Index n b = ki ← aget (keys n) (b2z b);
              if decide (b2z ki > 0) then Some (b2z ki - 1) else Some (-1).
Proof. intros Hty. unfold Index. by rewrite Hty. Qed.

Lemma FindChild48 n (b : byte) :
  nodeType n = NODE48 →
  FindChild n b =
    index ← Index n b;
    if decide (0 ≤ index) then _ ← aget (children n) index; Some (Some index)
    else Some None.
Proof. intros Hty. unfold FindChild. by rewrite Hty. Qed.

Lemma aget_total {A} (l : list A) (i : Z) :
  0 ≤ i < len l → ∃ x, aget l i = Some x.
Proof. intros H. destruct (aget_is_Some l i H) as [x Hx]. eauto. Qed.

Lemma keys48_total n (b : byte) :
  length (keys n) = 256%nat → ∃ ki, aget (keys n) (b2z b) = Some ki.
Proof.
  intros Hl. apply aget_total. pose proof (b2z_range b). unfold len. lia.
Qed.

Lemma b2z_pos_ne (ki : byte) : b2z ki > 0 ↔ ki ≠ x00.
Proof.
  pose proof (b2z_range ki). rewrite <- b2z_zero. lia.
Qed.

(** The child of a NODE48 under a byte, read off the two arrays. *)
Lemma child48 n (b : byte) ki :
  n48_core n → nodeType n = NODE48 →
  aget (keys n) (b2z b) = Some ki →
  (ki = x00 ∧ child n b = None ∧ FindChild n b = Some None)
  ∨ (ki ≠ x00 ∧ ∃ c, aget (children n) (b2z ki - 1) = Some (Some c)
                     ∧ child n b = Some c ∧ FindChild n b = Some (Some (b2z ki - 1))).
Proof.
  intros (Hlk & Hlc & HA & HB) Hty Hki.
  unfold child. rewrite FindChild48, Index48 by done. rewrite Hki. obind.
  destruct (decide (ki = x00)) as [->|Hne].
  - left. rewrite decide_False by (rewrite b2z_x00; lia). obind.
    rewrite decide_False by lia. done.
  - right. split; [done|]. destruct (HA b ki Hki Hne) as [c Hc]. exists c.
    rewrite decide_True by (by apply b2z_pos_ne). obind.
    pose proof (proj2 (b2z_pos_ne ki) Hne).
    rewrite decide_True by lia. rewrite Hc. obind. rewrite Hc. done.
Qed.

Lemma child48_None n (b : byte) :
  n48_core n → nodeType n = NODE48 →
  child n b = None ↔ aget (keys n) (b2z b) = Some x00.
Proof.
  intros Hc Hty. destruct (keys48_total n b) as [ki Hki]; [apply Hc|].
  destruct (child48 n b ki Hc Hty Hki) as [(-> & Hn & _)|(Hne & c & _ & Hs & _)].
  - by rewrite Hn.
  - rewrite Hs, Hki. split; [done|]. intros [= ->]. done.
Qed.

(** Placing a child in a free slot. *)
Lemma place48 n (b : byte) (j : Z) c sz :
  n48_core n → nodeType n = NODE48 →
  aget (children n) j = Some None → child n b = None →
  let n' := set_size (set_children (set_keys n (<[Z.to_nat (b2z b) := z2b (j + 1)]> (keys n)))
                                   (<[Z.to_nat j := Some c]> (children n))) sz in
  n48_core n' ∧ (∀ b', child n' b' = if decide (b' = b) then Some c else child n b').
Proof.
  intros Hcore Hty Hj Hno n'. pose proof Hcore as (Hlk & Hlc & HA & HB).
  pose proof (aget_lt _ _ _ Hj) as Hjr. unfold len in Hjr. rewrite Hlc in Hjr.
  pose proof (b2z_range b) as Hbr.
  assert (b2z (z2b (j + 1)) = j + 1) as Hj1 by (rewrite b2z_z2b, u8_small; lia).
  assert (z2b (j + 1) ≠ x00) as Hj0.
  { intros E. apply (f_equal b2z) in E. rewrite Hj1, b2z_x00 in E. lia. }
  assert (aget (keys n) (b2z b) = Some x00) as Hkb by (by apply child48_None).
  assert (∀ b', aget (keys n') (b2z b') =
                if decide (b' = b) then Some (z2b (j + 1)) else aget (keys n) (b2z b')) as Hk'.
  { intros b'. subst n'. simpl. pose proof (b2z_range b'). case_decide as Hb.
    - subst. apply aget_insert_eq. unfold len. lia.
    - apply aget_insert_ne; [lia..|]. intros ?%b2z_inj. done. }
  assert (∀ i, aget (children n') i =
               if decide (i = j) then Some (Some c) else aget (children n) i) as Hc'.
  { intros i. subst n'. simpl. case_decide as Hi.
    - subst. apply aget_insert_eq. unfold len. lia.
    - destruct (decide (0 ≤ i)); [apply aget_insert_ne; lia|].
      unfold aget. by rewrite !decide_False by lia. }
  assert (n48_core n') as Hcore'.
  { split; [subst n'; simpl; by rewrite length_insert|].
    split; [subst n'; simpl; by rewrite length_insert|]. split.
    - intros b' idx. rewrite Hk'. case_decide as Hb.
      + intros [= <-] _. exists c. rewrite Hj1, Hc'.
        replace (j + 1 - 1) with j by lia. by rewrite decide_True.
      + intros Hidx Hne. destruct (HA b' idx Hidx Hne) as [c' Hcc]. exists c'.
        rewrite Hc'. rewrite decide_False; [done|]. intros E. rewrite E in Hcc. congruence.
    - intros b1 b2 idx. rewrite !Hk'.
      destruct (decide (b1 = b)) as [->|H1], (decide (b2 = b)) as [->|H2]; try done.
      + intros [= <-] H2' _. destruct (HA b2 _ H2' Hj0) as [c' Hcc].
        rewrite Hj1 in Hcc. replace (j + 1 - 1) with j in Hcc by lia. congruence.
      + intros H1' [= <-] _. destruct (HA b1 _ H1' Hj0) as [c' Hcc].
        rewrite Hj1 in Hcc. replace (j + 1 - 1) with j in Hcc by lia. congruence.
      + apply HB. }
  split; [done|].
  assert (nodeType n' = NODE48) as Hty' by done.
  intros b'. destruct (keys48_total n' b') as [ki Hki]; [apply Hcore'|].
  pose proof Hki as Hki'. rewrite Hk' in Hki'.
  destruct (decide (b' = b)) as [Hb|Hb].
  - injection Hki' as <-.
    destruct (child48 n' b' _ Hcore' Hty' Hki) as [(E & _)|(Hne & c' & Hcc & Hs & _)]; [done|].
    rewrite Hs. rewrite Hc', Hj1 in Hcc. rewrite decide_True in Hcc by lia. congruence.
  - destruct (child48 n' b' ki Hcore' Hty' Hki) as [(-> & Hn & _)|(Hne & c' & Hcc & Hs & _)].
    + rewrite Hn. symmetry. by apply child48_None.
    + rewrite Hs. rewrite Hc' in Hcc.
      destruct (child48 n b' ki Hcore Hty Hki') as [(-> & _)|(_ & c2 & Hc2 & Hs2 & _)]; [done|].
      rewrite Hs2. rewrite decide_False in Hcc; [congruence|].
      intros E. rewrite E in Hc2. congruence.
Qed.

Lemma first_free_loop (cs pre post : list (option Node)) :
  cs = pre ++ None :: post → Forall is_Some pre →
  ∀ (m : nat) (i index : Z), 0 ≤ index ≤ len pre →
    for_loop m i
      (fun _ index => c ← aget cs index;
                      Some (match c with Some _ => index + 1 | None => index end)) index
    = Some (Z.min (index + Z.of_nat m) (len pre)).
Proof.
  intros -> Hpre. induction m as [|m IH]; intros i index Hi.
  - simpl. f_equal. lia.
  - simpl for_loop. destruct (decide (index < len pre)) as [Hlt|Hge].
    + rewrite aget_app_l by lia.
      destruct (aget_total pre index) as [c Hc]; [lia|]. rewrite Hc. obind.
      apply aget_Some in Hc as [_ Hc]. apply list_elem_of_lookup_2 in Hc.
      eapply Forall_forall in Hpre; eauto. destruct Hpre as [c' ->].
      rewrite IH by lia. f_equal. lia.
    + rewrite aget_middle by lia. obind. rewrite IH by lia. f_equal. lia.
Qed.

Lemma first_free_spec (cs pre post : list (option Node)) :
  cs = pre ++ None :: post → Forall is_Some pre →
  first_free cs = Some (len pre).
Proof.
  intros E Hpre. unfold first_free.
  rewrite (first_free_loop cs pre post E Hpre) by (pose proof (len_nonneg pre); lia).
  f_equal. subst cs. list_len. unfold len. lia.
Qed.

Lemma free_slot_exists (cs : list (option Node)) :
  len (omap id cs) < len cs →
  ∃ pre post, cs = pre ++ None :: post ∧ Forall is_Some pre.
Proof.
  induction cs as [|[c|] cs IH]; csimpl; intros H.
  - unfold len in H. simpl in H. lia.
  - destruct IH as (pre & post & -> & Hpre).
    { rewrite !len_cons in H. lia. }
    exists (Some c :: pre), post. split; [done|]. constructor; [by eexists|done].
  - exists [], cs. split; [done|constructor].
Qed.

Lemma occupied_insert_Some (cs pre post : list (option Node)) c :
  cs = pre ++ None :: post →
  len (omap id (<[length pre := Some c]> cs)) = len (omap id cs) + 1.
Proof.
  intros ->. replace (length pre) with (length pre + 0)%nat at 1 by lia.
  rewrite insert_app_r. simpl. rewrite !omap_app. csimpl. rewrite !len_app, len_cons. lia.
Qed.

Lemma occupied_insert_None (cs pre post : list (option Node)) c :
  cs = pre ++ Some c :: post →
  len (omap id (<[length pre := None]> cs)) = len (omap id cs) - 1.
Proof.
  intros ->. replace (length pre) with (length pre + 0)%nat at 1 by lia.
  rewrite insert_app_r. simpl. rewrite !omap_app. csimpl. rewrite !len_app, len_cons. lia.
Qed.

Lemma occupied_replace (cs pre post : list (option Node)) c c' :
  cs = pre ++ Some c :: post →
  len (omap id (<[length pre := Some c']> cs)) = len (omap id cs).
Proof.
  intros ->. replace (length pre) with (length pre + 0)%nat at 1 by lia.
  rewrite insert_app_r. simpl. rewrite !omap_app. csimpl. rewrite !len_app, !len_cons. lia.
Qed.

Lemma occupied_le n : occupied n ≤ len (children n).
Proof. unfold occupied, len. pose proof (omap_length_le id (children n)). lia. Qed.

Lemma aget_split {A} (l : list A) (i : Z) x :
  aget l i = Some x → ∃ pre post, l = pre ++ x :: post ∧ len pre = i.
Proof.
  intros [Hi Hx]%aget_Some. apply list_elem_of_split_length in Hx as (pre & post & -> & E).
  exists pre, post. split; [done|]. unfold len. lia.
Qed.

Lemma AddChild48_spec n (b : byte) c :
  n48_shape n → nodeType n = NODE48 → child n b = None → size n ≠ 48 →
  ∃ n', AddChild n b c = Some n' ∧ n48_shape n' ∧ nodeType n' = NODE48
        ∧ (∀ b', child n' b' = if decide (b' = b) then Some c else child n b')
        ∧ prefix n' = prefix n ∧ prefixLen n' = prefixLen n.
Proof.
  intros (Hcore & Hsz & Hocc) Hty Hno Hfull. pose proof Hcore as (Hlk & Hlc & HA & HB).
  pose proof (occupied_le n) as Hle. unfold len in Hle. rewrite Hlc in Hle.
  destruct (free_slot_exists (children n)) as (pre & post & E & Hpre).
  { unfold occupied in *. unfold len at 2. rewrite Hlc. lia. }
  assert (0 ≤ len pre < 48) as Hj.
  { pose proof (len_nonneg pre). rewrite E in Hlc. list_len. unfold len. lia. }
  assert (aget (children n) (len pre) = Some None) as Hfree
    by (rewrite E; by apply aget_middle).
  pose proof (b2z_range b) as Hbr.
  pose proof (place48 n b (len pre) c (u8 (size n + 1)) Hcore Hty Hfree Hno) as [Hcore' Hc'].
  eexists. split.
  - unfold AddChild. rewrite Hty. unfold AddChild48, IsFull.
    rewrite bool_decide_eq_false_2 by (unfold MaxSize; rewrite Hty; done).
    unfold AddChild48_place. rewrite (first_free_spec _ pre post E Hpre). obind.
    unfold aset. rewrite decide_True by (unfold len in *; lia). obind.
    rewrite decide_True by (unfold len in *; lia). obind. done.
  - split; [|split; [done|split; [done|done]]].
    split; [done|].
    pose proof (count_range n).
    rewrite (count_add n _ b c Hno Hc'). simpl.
    assert (0 ≤ size n < 48) by (unfold occupied in *; pose proof (len_nonneg (omap id (children n))); lia).
    rewrite u8_small by lia. split; [lia|].
    unfold occupied. simpl.
    replace (Z.to_nat (len pre)) with (length pre) by (unfold len; lia).
    rewrite (occupied_insert_Some _ pre post c E). unfold occupied in Hocc. lia.
Qed.

Lemma aget_insert {A} (l : list A) (i j : Z) x :
  0 ≤ j < len l →
  aget (<[Z.to_nat j := x]> l) i = if decide (i = j) then Some x else aget l i.
Proof.
  intros Hj. case_decide as Hi.
  - subst. by apply aget_insert_eq.
  - destruct (decide (0 ≤ i)); [apply aget_insert_ne; lia|].
    unfold aget. by rewrite !decide_False by lia.
Qed.

Lemma aget_insert_byte (l : list byte) (b b' : byte) x :
  length l = 256%nat →
  aget (<[Z.to_nat (b2z b) := x]> l) (b2z b') =
    if decide (b' = b) then Some x else aget l (b2z b').
Proof.
  intros Hl. pose proof (b2z_range b). rewrite aget_insert by (unfold len; lia).
  case_decide as E; [apply b2z_inj in E; subst; by rewrite decide_True|].
  rewrite decide_False; [done|]. by intros ->.
Qed.

(** Rewriting the child in an occupied slot, or emptying it. *)
Lemma replace48 n (b : byte) ki c (v : option Node) sz :
  n48_core n → nodeType n = NODE48 →
  aget (keys n) (b2z b) = Some ki → ki ≠ x00 → child n b = Some c →
  let n' := set_size (set_children
                        (set_keys n (<[Z.to_nat (b2z b) := match v with Some _ => ki | None => x00 end]> (keys n)))
                        (<[Z.to_nat (b2z ki - 1) := v]> (children n))) sz in
  n48_core n' ∧ (∀ b', child n' b' = if decide (b' = b) then v else child n b').
Proof.
  intros Hcore Hty Hki Hne Hin n'. pose proof Hcore as (Hlk & Hlc & HA & HB).
  destruct (HA b ki Hki Hne) as [c0 Hc0].
  pose proof (aget_lt _ _ _ Hc0) as Hjr.
  assert (∀ b', aget (keys n') (b2z b') =
                if decide (b' = b) then Some (match v with Some _ => ki | None => x00 end)
                else aget (keys n) (b2z b')) as Hk'.
  { intros b'. subst n'. simpl. by apply aget_insert_byte. }
  assert (∀ i, aget (children n') i =
               if decide (i = b2z ki - 1) then Some v else aget (children n) i) as Hc'.
  { intros i. subst n'. simpl. by apply aget_insert. }
  assert (∀ b' idx, b' ≠ b → aget (keys n) (b2z b') = Some idx → idx ≠ x00 →
                    b2z idx - 1 ≠ b2z ki - 1) as Hother.
  { intros b' idx Hb Hidx Hidx0 E. apply Hb.
    assert (idx = ki) as -> by (apply b2z_inj; lia). by apply (HB b' b ki). }
  assert (n48_core n') as Hcore'.
  { split; [subst n'; simpl; by rewrite length_insert|].
    split; [subst n'; simpl; by rewrite length_insert|]. split.
    - intros b' idx. rewrite Hk'. case_decide as Hb.
      + intros [= <-] Hv. destruct v as [c'|]; [|done]. exists c'.
        rewrite Hc'. by rewrite decide_True.
      + intros Hidx Hidx0. destruct (HA b' idx Hidx Hidx0) as [c' Hcc]. exists c'.
        rewrite Hc'. rewrite decide_False; [done|]. by apply (Hother b').
    - intros b1 b2 idx. rewrite !Hk'.
      destruct (decide (b1 = b)) as [->|H1], (decide (b2 = b)) as [->|H2]; try done.
      + intros [= <-] H2' Hv. destruct v; [|done]. symmetry. by apply (HB b2 b ki).
      + intros H1' [= <-] Hv. destruct v; [|done]. by apply (HB b1 b ki).
      + apply HB. }
  split; [done|].
  assert (nodeType n' = NODE48) as Hty' by done.
  intros b'. destruct (keys48_total n' b') as [ki' Hki']; [apply Hcore'|].
  pose proof Hki' as Hki2. rewrite Hk' in Hki2.
  destruct (decide (b' = b)) as [Hb|Hb].
  - injection Hki2 as <-.
    destruct (child48 n' b' _ Hcore' Hty' Hki') as [(E & Hn & _)|(Hne' & c' & Hcc & Hs & _)].
    + rewrite Hn. destruct v; [done|done].
    + rewrite Hs. destruct v as [c2|]; [|done].
      rewrite Hc' in Hcc. rewrite decide_True in Hcc by done. congruence.
  - destruct (child48 n' b' ki' Hcore' Hty' Hki') as [(-> & Hn & _)|(Hne' & c' & Hcc & Hs & _)].
    + rewrite Hn. symmetry. by apply child48_None.
    + rewrite Hs. rewrite Hc' in Hcc.
      destruct (child48 n b' ki' Hcore Hty Hki2) as [(-> & _)|(_ & c2 & Hc2 & Hs2 & _)]; [done|].
      rewrite Hs2. rewrite decide_False in Hcc; [congruence|]. by apply (Hother b').
Qed.

End node48.

Section node48_walk.
Context {V : Type}.
Abbreviation Node := (ArtNode V).
Implicit Types n : Node.

Lemma z2b_range_id (i : Z) : 0 ≤ i < 256 → b2z (z2b i) = i.
Proof. intros. by rewrite b2z_z2b, u8_small. Qed.

Lemma eachHelper48 n :
  n48_core n → nodeType n = NODE48 →
  eachHelper n = rest ← concat_sends (eachHelper <$> (kids n).*2); Some (n :: rest).
Proof.
  intros Hcore Hty. pose proof Hcore as (Hlk & Hlc & HA & HB).
  rewrite eachHelper_unfold. destruct (decide (nodeType n = NODE48)) as [_|?]; [|done]. rewrite Hlk.
  change (Pos.to_nat 256) with 256%nat.
  rewrite (for_loop_bytes (child n)
             (fun _ c sent => l ← eachHelper c; Some (sent ++ l))).
  - rewrite fold_tab_each. unfold kids.
    generalize (concat_sends (eachHelper <$> (tab (child n)).*2)). by intros [r|].
  - intros i sent Hi. rewrite u8_small by done.
    destruct (keys48_total n (z2b i) Hlk) as [ki Hki].
    rewrite z2b_range_id in Hki by done. rewrite Hki. obind.
    rewrite <- (z2b_range_id i) in Hki by done.
    destruct (child48 n (z2b i) ki Hcore Hty Hki) as [(-> & Hn & _)|(Hne & c & Hc & Hs & _)].
    + rewrite Hn. rewrite decide_False by (rewrite b2z_x00; lia). done.
    + rewrite Hs. rewrite decide_True by (by apply b2z_pos_ne).
      rewrite at_index_fmap, Hc. done.
Qed.

Lemma first_nonzero_spec (ks : list byte) (i : nat) :
  ∀ fuel (start : nat),
    (∀ j, (start ≤ j < start + i)%nat → ks !! j = Some x00) →
    (∃ k, ks !! (start + i)%nat = Some k ∧ k ≠ x00) →
    (i < fuel)%nat →
    first_nonzero fuel (Z.of_nat start) ks = Some (Z.of_nat (start + i)).
Proof.
  induction i as [|i IH]; intros fuel start Hz (k & Hk & Hne) Hfuel.
  - destruct fuel; [lia|]. simpl. rewrite aget_nat.
    rewrite Nat.add_0_r in *. rewrite Hk. obind. by rewrite decide_False.
  - destruct fuel; [lia|]. simpl. rewrite aget_nat.
    rewrite (Hz start) by lia. obind. rewrite decide_True by done.
    replace (Z.of_nat start + 1) with (Z.of_nat (S start)) by lia.
    rewrite (IH fuel (S start)).
    + f_equal. lia.
    + intros j Hj. apply Hz. lia.
    + exists k. split; [|done]. rewrite <- Hk. f_equal. lia.
    + lia.
Qed.

Lemma kids_head_least n (b : byte) c rest (b' : byte) :
  kids n = (b, c) :: rest → byte_lt b' b → child n b' = None.
Proof.
  unfold kids. intros Hk Hlt. destruct (child n b') as [c'|] eqn:E; [|done].
  apply elem_of_tab in E. rewrite Hk in E.
  pose proof (tab_sorted (child n)) as Hs. rewrite Hk in Hs.
  apply StronglySorted_cons in Hs as [Hall _].
  apply elem_of_cons in E as [E|E].
  - injection E as -> ->. by apply byte_lt_irrefl in Hlt.
  - eapply Forall_forall in Hall; eauto. unfold key_lt in Hall. simpl in Hall.
    unfold byte_lt in *. lia.
Qed.

Lemma kids_head_child n (b : byte) c rest :
  kids n = (b, c) :: rest → child n b = Some c.
Proof. unfold kids. intros Hk. apply elem_of_tab. rewrite Hk. left. Qed.

Lemma Minimum48 n (b : byte) c rest :
  n48_core n → nodeType n = NODE48 → kids n = (b, c) :: rest →
  Minimum n = Minimum c.
Proof.
  intros Hcore Hty Hk. pose proof Hcore as (Hlk & Hlc & HA & HB).
  rewrite Minimum_unfold. cbv zeta. rewrite Hty.
  pose proof (b2z_range b) as Hbr.
  destruct (keys48_total n b Hlk) as [ki Hki].
  destruct (child48 n b ki Hcore Hty Hki) as [(_ & Hn & _)|(Hne & c' & Hc & Hs & _)].
  { rewrite (kids_head_child n b c rest Hk) in Hn. done. }
  rewrite (kids_head_child n b c rest Hk) in Hs. injection Hs as <-.
  pose proof (first_nonzero_spec (keys n) (Z.to_nat (b2z b)) (S (length (keys n))) 0) as Hf.
  change (Z.of_nat 0) with 0 in Hf. rewrite Hf.
  - obind. rewrite Nat.add_0_l, Z2Nat.id by lia. rewrite Hki. obind.
    rewrite at_index_fmap, Hc. done.
  - intros j Hj.
    assert (child n (z2b (Z.of_nat j)) = None) as Hnone.
    { apply (kids_head_least n b c rest); [done|]. unfold byte_lt.
      rewrite z2b_range_id by lia. lia. }
    apply child48_None in Hnone; [|done..]. rewrite z2b_range_id in Hnone by lia.
    by rewrite aget_nat in Hnone.
  - exists ki. split; [|done]. apply aget_Some in Hki as [_ Hki]. done.
  - rewrite Hlk. lia.
Qed.

Lemma count_pos n (b : byte) c : child n b = Some c → 1 ≤ count n.
Proof.
  intros H. apply elem_of_tab in H. unfold count, kids.
  destruct (tab (child n)); [by apply elem_of_nil in H|]. rewrite len_cons.
  pose proof (len_nonneg l). lia.
Qed.

Lemma RemoveChild48_spec n (b : byte) c :
  n48_shape n → nodeType n = NODE48 → child n b = Some c →
  ∃ n1, n48_shape n1 ∧ nodeType n1 = NODE48
        ∧ (∀ b', child n1 b' = if decide (b' = b) then None else child n b')
        ∧ prefix n1 = prefix n ∧ prefixLen n1 = prefixLen n
        ∧ RemoveChild n b = if decide (size n1 < MinSize n1) then shrink n1 else Some n1.
Proof.
  intros (Hcore & Hsz & Hocc) Hty Hin. pose proof Hcore as (Hlk & Hlc & HA & HB).
  destruct (keys48_total n b Hlk) as [ki Hki].
  destruct (child48 n b ki Hcore Hty Hki) as [(_ & Hn & _)|(Hne & c' & Hc & Hs & _)];
    [congruence|].
  rewrite Hin in Hs. injection Hs as <-.
  pose proof (replace48 n b ki c None (u8 (size n - 1)) Hcore Hty Hki Hne Hin) as [Hcore1 Hc1].
  pose proof (b2z_range b) as Hbr. pose proof (aget_lt _ _ _ Hc) as Hir.
  pose proof (proj2 (b2z_pos_ne ki) Hne) as Hkpos.
  match type of Hcore1 with n48_core ?x => exists x end.
  split; [|split; [done|split; [exact Hc1|split; [done|split; [done|]]]]].
  - split; [exact Hcore1|].
    pose proof (count_pos n b c Hin). pose proof (count_range n).
    rewrite (count_remove n _ b c Hin Hc1). simpl.
    rewrite u8_small by lia. split; [lia|].
    destruct (aget_split _ _ _ Hc) as (pre & post & E & Hpre).
    unfold occupied. simpl.
    replace (Z.to_nat (b2z ki - 1)) with (length pre) by (unfold len in *; lia).
    rewrite (occupied_insert_None _ pre post c E). unfold occupied in Hocc. lia.
  - unfold RemoveChild. rewrite Hty. rewrite Index48 by done. rewrite Hki. obind.
    rewrite decide_True by lia. obind. rewrite decide_True by lia.
    rewrite Hc. obind.
    rewrite (aset_ok (children n)) by lia. obind.
    rewrite (aset_ok (keys n)) by (unfold len; lia). obind. done.
Qed.

End node48_walk.

Lemma fold_tab_inv {St X} (g : byte → X → St → option St)
    (I : list (byte * X) → St → Prop) (all : list (byte * X)) :
  (∀ done b x todo s, all = done ++ (b, x) :: todo → I done s →
     ∃ s', g b x s = Some s' ∧ I (done ++ [(b, x)]) s') →
  ∀ todo done s, all = done ++ todo → I done s →
    ∃ s', fold_tab g s todo = Some s' ∧ I all s'.
Proof.
  intros Hstep. induction todo as [|[b x] todo IH]; intros done s E HI.
  - exists s. rewrite app_nil_r in E. subst. done.
  - destruct (Hstep done b x todo s E HI) as (s' & Hg & HI').
    destruct (IH (done ++ [(b, x)]) s') as (s'' & Hf & HI''); [by rewrite <- app_assoc|done|].
    exists s''. rewrite fold_tab_cons, Hg. done.
Qed.

Section transitions.
Context {V : Type}.
Abbreviation Node := (ArtNode V).
Implicit Types n : Node.

Lemma alookup_snoc (done : list (byte * Node)) (k b : byte) c :
  alookup k done = None →
  alookup b (done ++ [(k, c)]) = if decide (b = k) then Some c else alookup b done.
Proof.
  intros Hk. rewrite alookup_app. simpl.
  repeat case_decide; subst; rewrite ?Hk; try done; try congruence.
  all: by destruct (alookup b done).
Qed.

Lemma sorted_mid_fresh (done todo : list (byte * Node)) (k : byte) c :
  StronglySorted key_lt (done ++ (k, c) :: todo) → alookup k done = None.
Proof.
  intros (Hc & _ & _)%StronglySorted_app. apply alookup_None_lt.
  apply Forall_forall. intros e He. apply (Hc e (k, c) He). left.
Qed.

Lemma kids_sorted_tab n : StronglySorted key_lt (kids n).
Proof. apply tab_sorted. Qed.

Lemma child_alookup_kids n (b : byte) : alookup b (kids n) = child n b.
Proof.
  destruct (child n b) as [c|] eqn:E.
  - apply alookup_elem; [apply kids_sorted_tab|]. by apply elem_of_tab.
  - destruct (alookup b (kids n)) as [c|] eqn:E'; [|done].
    apply alookup_elem in E'; [|apply kids_sorted_tab]. apply elem_of_tab in E'. congruence.
Qed.

Lemma kids_of_alookup n (l : list (byte * Node)) :
  StronglySorted key_lt l → (∀ b, child n b = alookup b l) → kids n = l.
Proof.
  intros Hs Hc. unfold kids. rewrite (tab_ext _ _ Hc). by apply tab_alookup.
Qed.

(** *** NODE16 grows into NODE48 *)

Lemma NewNode48_keys (n : Node) sz b idx :
  aget (keys (set_size (copyMeta NewNode48 n) sz)) b = Some idx → idx = x00.
Proof.
  change (keys (set_size (copyMeta NewNode48 n) sz)) with (replicate 256 x00).
  intros [_ H]%aget_Some. by apply lookup_replicate in H as [-> _].
Qed.

Lemma NewNode48_core (n : Node) sz : n48_core (set_size (copyMeta NewNode48 n) sz).
Proof.
  split; [done|]. split; [done|]. split.
  - intros b idx H%NewNode48_keys Hne. done.
  - intros b b' idx H%NewNode48_keys _ Hne. done.
Qed.

Lemma NewNode48_child (n : Node) sz b :
  child (set_size (copyMeta NewNode48 n) sz) b = None.
Proof.
  apply child48_None; [apply NewNode48_core|done|].
  change (keys (set_size (copyMeta NewNode48 n) sz)) with (replicate 256 x00).
  pose proof (b2z_range b). unfold aget. rewrite decide_True by lia.
  apply lookup_replicate_2. lia.
Qed.

Lemma NewNode48_inv (n : Node) : inv48 n [] (copyMeta NewNode48 n).
Proof.
  pose proof (NewNode48_core n (size n)) as Hc.
  pose proof (NewNode48_child n (size n)) as Hch.
  assert (set_size (copyMeta NewNode48 n) (size n) = copyMeta NewNode48 n) as E by done.
  rewrite E in Hc, Hch.
  split; [done|]. split; [done|]. split; [done|]. done.
Qed.

Lemma grow16_loop n (es : list (byte * Node)) rest :
  sorted_view 16 n es rest →
  ∀ todo done other, es = done ++ todo → inv48 n done other →
    ∃ other', for_loop (length todo) (len done) (grow16_body n) other = Some other'
              ∧ inv48 n es other'.
Proof.
  intros Hv. pose proof Hv as (Hk&Hlen&Hc&Hle&Hsz&Hs).
  induction todo as [|[k c] todo IH]; intros done other E HI.
  - exists other. rewrite app_nil_r in E. by subst.
  - destruct HI as (Hcore & Hty & Hch & Hocc & Hp & Hpl & Hsize).
    pose proof Hcore as (Hlk & Hlc & HA & HB).
    pose proof (len_nonneg done) as Hd0.
    assert (len es = len done + 1 + len todo) as Hles
      by (rewrite E, len_app, len_cons; lia).
    pose proof (len_nonneg todo).
    assert (len es ≤ 16) by (unfold len; lia).
    assert (alookup k done = None) as Hfresh
      by (rewrite E in Hs; by eapply sorted_mid_fresh).
    destruct (free_slot_exists (children other)) as (pre & post & Ecs & Hpre).
    { unfold occupied in Hocc. rewrite Hocc. unfold len at 2. rewrite Hlc. lia. }
    assert (aget (children other) (len pre) = Some None) as Hfree
      by (rewrite Ecs; by apply aget_middle).
    pose proof (aget_lt _ _ _ Hfree) as Hjr.
    assert (child other k = None) as Hno by (by rewrite Hch).
    pose proof (place48 other k (len pre) c (size other) Hcore Hty Hfree Hno) as [Hcore' Hc'].
    assert (∀ ks cs, set_size (set_children (set_keys other ks) cs) (size other)
                     = set_children (set_keys other ks) cs) as Hss
      by (intros; by destruct other).
    rewrite Hss in Hcore', Hc'.
    pose proof (b2z_range k).
    assert (grow16_body n (len done) other =
            Some (set_children
                    (set_keys other (<[Z.to_nat (b2z k):=z2b (len pre + 1)]> (keys other)))
                    (<[Z.to_nat (len pre):=Some c]> (children other)))) as Hbody.
    { unfold grow16_body.
      rewrite (sorted_view_children_l 16 n es rest) by (done || lia).
      rewrite Hk. rewrite aget_app_l by (rewrite len_fmap; lia).
      assert (aget es.*2 (len done) = Some c) as ->.
      { rewrite E, fmap_app, fmap_cons. apply aget_middle. by rewrite len_fmap. }
      assert (aget es.*1 (len done) = Some k) as ->.
      { rewrite E, fmap_app, fmap_cons. apply aget_middle. by rewrite len_fmap. }
      cbn [fmap option_fmap option_map]. obind.
      rewrite (first_free_spec _ pre post Ecs Hpre). obind.
      rewrite (aset_ok (children other)) by lia. obind.
      rewrite (aset_ok (keys other)) by (unfold len; lia). obind. done. }
    cbn [for_loop length]. rewrite Hbody. obind.
    replace (len done + 1) with (len (done ++ [(k, c)]))
      by (rewrite len_app, len_cons, len_nil; lia).
    apply IH; [by rewrite <- app_assoc|].
    split; [done|]. split; [done|]. split; [|split; [|done]].
    + intros b. rewrite Hc', Hch. symmetry. by apply alookup_snoc.
    + unfold occupied. simpl.
      replace (Z.to_nat (len pre)) with (length pre) by (unfold len; lia).
      rewrite (occupied_insert_Some _ pre post c Ecs).
      unfold occupied in Hocc. rewrite Hocc, len_app, len_cons, len_nil. lia.
Qed.

Lemma grow16_spec n es rest :
  sorted_view 16 n es rest → nodeType n = NODE16 → length es = 16%nat →
  ∃ n', grow n = Some n' ∧ n48_shape n' ∧ nodeType n' = NODE48
        ∧ (∀ b, child n' b = child n b)
        ∧ prefix n' = prefix n ∧ prefixLen n' = prefixLen n.
Proof.
  intros Hv Hty Hes. pose proof Hv as (Hk&Hlen&Hc&Hle&Hsz&Hs).
  destruct (grow16_loop n es rest Hv es [] (copyMeta NewNode48 n) eq_refl
              (NewNode48_inv n)) as (n' & Hloop & HI).
  destruct HI as (Hcore & Hty' & Hch & Hocc & Hp & Hpl & Hsize).
  assert (∀ b, child n' b = child n b) as Hsame.
  { intros b. rewrite Hch. symmetry. apply (child_sorted 16 n es rest); [done|lia|by right]. }
  exists n'. split; [|split; [|done]].
  - unfold grow. rewrite Hty. rewrite Hsz. unfold len. rewrite Nat2Z.id. exact Hloop.
  - split; [done|]. rewrite Hsize, Hocc, Hsz. split; [|done].
    rewrite (count_ext n n' Hsame). unfold count.
    rewrite (kids_sorted 16 n es rest); [done|done|lia|by right].
Qed.

(** *** NODE48 grows into NODE256 *)

Lemma grow48_spec n :
  n48_shape n → nodeType n = NODE48 →
  ∃ n', grow n = Some n' ∧ n256_shape n' ∧ nodeType n' = NODE256
        ∧ (∀ b, child n' b = child n b)
        ∧ prefix n' = prefix n ∧ prefixLen n' = prefixLen n.
Proof.
  intros (Hcore & Hsz & Hocc) Hty. pose proof Hcore as (Hlk & Hlc & HA & HB).
  destruct (fold_tab_inv grow48_step (inv256 n) (kids n)) with
    (todo := kids n) (done := @nil (byte * Node)) (s := copyMeta NewNode256 n)
    as (n' & Hfold & HI); [|done| |].
  - intros done b x todo s E (Hty' & Hl & Hch & Hp & Hpl & Hsize).
    pose proof (b2z_range b).
    assert (alookup b done = None) as Hfresh.
    { pose proof (kids_sorted_tab n) as Hs. rewrite E in Hs. by eapply sorted_mid_fresh. }
    eexists. split.
    + unfold grow48_step. rewrite aset_ok by (unfold len; lia). obind. done.
    + split; [done|]. split; [simpl; by rewrite length_insert|].
      split; [|done]. intros b'.
      pose proof (child256_set s b (Some x) Hty' Hl (size s) b') as Hcs.
      assert (set_size (set_children s (<[Z.to_nat (b2z b):=Some x]> (children s))) (size s)
              = set_children s (<[Z.to_nat (b2z b):=Some x]> (children s))) as Ess
        by (by destruct s).
      rewrite Ess in Hcs. rewrite Hcs, Hch. symmetry. by apply alookup_snoc.
  - split; [done|]. split; [done|]. split; [|done].
    intros b. rewrite child256 by done.
    change (children (copyMeta NewNode256 n)) with (replicate 256 (@None Node)).
    pose proof (b2z_range b). unfold aget. rewrite decide_True by lia.
    rewrite lookup_replicate_2 by lia. done.
  - destruct HI as (Hty' & Hl & Hch & Hp & Hpl & Hsize).
    assert (∀ b, child n' b = child n b) as Hsame.
    { intros b. rewrite Hch. apply child_alookup_kids. }
    exists n'. split; [|split; [|done]].
    + unfold grow. rewrite Hty, Hlk. change (Pos.to_nat 256) with 256%nat.
      rewrite <- Hfold. apply for_loop_bytes.
      intros i s Hi.
      destruct (keys48_total n (z2b i) Hlk) as [ki Hki].
      destruct (child48 n (z2b i) ki Hcore Hty Hki) as [(-> & Hn & HF)|(Hne & c & Hc & Hs & HF)].
      * rewrite HF, Hn. done.
      * rewrite HF, Hs. obind. rewrite Hc. obind. done.
    + split; [done|]. rewrite Hsize, (count_ext n n' Hsame), Hsz.
      pose proof (count_range n). pose proof (occupied_le n) as Hole.
      unfold len in Hole. rewrite Hlc in Hole. rewrite u8_small; [done|lia].
Qed.

(** *** NODE48 shrinks into NODE16 *)

Lemma shrink48_spec n :
  n48_shape n → nodeType n = NODE48 → count n ≤ 16 →
  ∃ n' rest, shrink n = Some n' ∧ sorted_view 16 n' (kids n) rest ∧ nodeType n' = NODE16
        ∧ prefix n' = prefix n ∧ prefixLen n' = prefixLen n.
Proof.
  intros (Hcore & Hsz & Hocc) Hty Hcount. pose proof Hcore as (Hlk & Hlc & HA & HB).
  destruct (fold_tab_inv shrink48_step (inv16 n) (kids n)) with
    (todo := kids n) (done := @nil (byte * Node))
    (s := set_size (copyMeta NewNode16 n) 0)
    as (n' & Hfold & HI); [|done| |].
  - intros done b x todo s E (Hty' & (rest & Hv) & Hp & Hpl).
    pose proof Hv as (Hk&Hlen&Hc&Hle&Hsize&Hs).
    pose proof (kids_sorted_tab n) as Hsall. rewrite E in Hsall.
    assert (len done < 16) as Hlt.
    { unfold count in Hcount. rewrite E, len_app, len_cons in Hcount.
      pose proof (len_nonneg todo). lia. }
    pose proof (len_nonneg done).
    destruct rest as [|r R].
    { rewrite app_nil_r in Hk. rewrite Hk in Hlen. list_len. unfold len in *. lia. }
    eexists. split.
    + unfold shrink48_step. rewrite Hsize, Hc, Hk.
      replace (16 - length done)%nat with (S (16 - length done - 1))
        by (unfold len in *; lia).
      rewrite replicate_S_cons.
      rewrite (aset_middle (Some <$> done.*2)) by (by rewrite !len_fmap). obind.
      rewrite (aset_middle done.*1) by (by rewrite !len_fmap). obind. done.
    + split; [done|]. split; [|done]. exists R.
      split; [|split; [|split; [|split; [|split]]]]; simpl.
      * by rewrite fmap_app, <- app_assoc.
      * rewrite Hk in Hlen. list_len. lia.
      * rewrite !fmap_app, <- app_assoc. simpl. do 3 f_equal. list_len. lia.
      * list_len. unfold len in *. lia.
      * rewrite ?Hsize, u8_small, len_app, len_cons, len_nil by lia. lia.
      * rewrite cons_middle, app_assoc in Hsall.
        by apply StronglySorted_app in Hsall as (_ & ? & _).
  - split; [done|]. split; [|done]. exists (replicate 16 x00).
    split; [done|]. split; [done|]. split; [done|]. split; [simpl; lia|].
    split; [done|constructor].
  - destruct HI as (Hty' & (rest & Hv) & Hp & Hpl).
    exists n', rest. split; [|done].
    unfold shrink. rewrite Hty, Hlk. change (Pos.to_nat 256) with 256%nat.
    rewrite <- Hfold. apply for_loop_bytes.
    intros i s Hi. rewrite (u8_small i) by done.
    destruct (keys48_total n (z2b i) Hlk) as [ki Hki].
    pose proof Hki as Hki'. rewrite z2b_range_id in Hki' by done. rewrite Hki'. obind.
    destruct (child48 n (z2b i) ki Hcore Hty Hki) as [(-> & Hn & HF)|(Hne & c & Hc & Hs & HF)].
    * rewrite Hn. rewrite decide_False by (rewrite b2z_x00; lia). done.
    * rewrite Hs. rewrite decide_True by (by apply b2z_pos_ne). rewrite Hc. obind. done.
Qed.

End transitions.

(** ** NODE256 *)

Section node256.
Context {V : Type}.
Abbreviation Node := (ArtNode V).
Implicit Types n : Node.

Lemma children256_tab n :
  nodeType n = NODE256 → length (children n) = 256%nat →
  children n = child n <$> all_bytes.
Proof.
  intros Hty Hl. apply list_eq. intros i. rewrite list_lookup_fmap.
  destruct (decide (i < 256)%nat).
  - rewrite all_bytes_lookup by done. simpl. rewrite child256 by done.
    rewrite z2b_range_id by lia. rewrite aget_nat.
    destruct (children n !! i) eqn:E; [done|].
    apply lookup_ge_None in E. lia.
  - rewrite (proj2 (lookup_ge_None (children n) i)) by lia.
    rewrite (proj2 (lookup_ge_None all_bytes i)); [done|].
    rewrite all_bytes_length. lia.
Qed.

Lemma omap_id_tab {A} (f : byte → option A) (l : list byte) :
  omap id (f <$> l) = (omap (tab_entry f) l).*2.
Proof.
  induction l as [|b l IH]; [done|]. csimpl. unfold tab_entry at 1.
  destruct (f b); csimpl; by rewrite IH.
Qed.

Lemma kids256_children n :
  nodeType n = NODE256 → length (children n) = 256%nat →
  (kids n).*2 = omap id (children n).
Proof.
  intros Hty Hl. rewrite (children256_tab n Hty Hl) at 1.
  rewrite omap_id_tab. unfold kids. by rewrite tab_unfold.
Qed.

Lemma concat_sends_omap (cs : list (option Node)) :
  concat_sends (each_sub <$> cs) = concat_sends (eachHelper <$> omap id cs).
Proof.
  induction cs as [|[c|] cs IH]; [done|..]; rewrite fmap_cons; simpl concat_sends.
  - rewrite IH. done.
  - rewrite IH. destruct (concat_sends (eachHelper <$> omap id cs)) eqn:E;
      symmetry; exact E.
Qed.

Lemma eachHelper256 n :
  nodeType n = NODE256 → length (children n) = 256%nat →
  eachHelper n = rest ← concat_sends (eachHelper <$> (kids n).*2); Some (n :: rest).
Proof.
  intros Hty Hl. rewrite eachHelper_unfold.
  rewrite decide_False by (rewrite Hty; done).
  rewrite map_list_fmap, concat_sends_omap, <- kids256_children by done. done.
Qed.

Lemma first_nonnil_spec (cs : list (option Node)) (i : nat) :
  ∀ fuel (start : nat),
    (∀ j, (start ≤ j < start + i)%nat → cs !! j = Some None) →
    (∃ c, cs !! (start + i)%nat = Some (Some c)) →
    (i < fuel)%nat →
    first_nonnil fuel (Z.of_nat start) cs = Some (Z.of_nat (start + i)).
Proof.
  induction i as [|i IH]; intros fuel start Hz (c & Hc) Hfuel.
  - destruct fuel; [lia|]. simpl. rewrite aget_nat.
    rewrite Nat.add_0_r in *. rewrite Hc. obind. done.
  - destruct fuel; [lia|]. simpl. rewrite aget_nat.
    rewrite (Hz start) by lia. obind.
    replace (Z.of_nat start + 1) with (Z.of_nat (S start)) by lia.
    rewrite (IH fuel (S start)).
    + f_equal. lia.
    + intros j Hj. apply Hz. lia.
    + exists c. rewrite <- Hc. f_equal. lia.
    + lia.
Qed.

Lemma child256_lookup n (b : byte) :
  nodeType n = NODE256 → length (children n) = 256%nat →
  aget (children n) (b2z b) = Some (child n b).
Proof.
  intros Hty Hl. rewrite child256 by done. pose proof (b2z_range b).
  destruct (aget_total (children n) (b2z b)) as [x ->]; [unfold len; lia|done].
Qed.

Lemma Minimum256 n (b : byte) c rest :
  nodeType n = NODE256 → length (children n) = 256%nat → kids n = (b, c) :: rest →
  Minimum n = Minimum c.
Proof.
  intros Hty Hl Hk. rewrite Minimum_unfold. cbv zeta. rewrite Hty.
  pose proof (b2z_range b) as Hbr.
  pose proof (child256_lookup n b Hty Hl) as Hc.
  rewrite (kids_head_child n b c rest Hk) in Hc.
  pose proof (first_nonnil_spec (children n) (Z.to_nat (b2z b)) (S (length (children n))) 0) as Hf.
  change (Z.of_nat 0) with 0 in Hf. rewrite Hf.
  - obind. rewrite Nat.add_0_l, Z2Nat.id by lia.
    rewrite at_index_fmap, Hc. done.
  - intros j Hj.
    assert (child n (z2b (Z.of_nat j)) = None) as Hnone.
    { apply (kids_head_least n b c rest); [done|]. unfold byte_lt.
      rewrite z2b_range_id by lia. lia. }
    pose proof (child256_lookup n (z2b (Z.of_nat j)) Hty Hl) as Hj'.
    rewrite z2b_range_id, aget_nat, Hnone in Hj' by lia. done.
  - exists c. apply aget_Some in Hc as [_ Hc]. done.
  - rewrite Hl. lia.
Qed.

Lemma u8_pred (x : Z) : u8 (u8 x - 1) = u8 (x - 1).
Proof. unfold u8. by rewrite Zminus_mod_idemp_l. Qed.

Lemma RemoveChild256_spec n (b : byte) c :
  n256_shape n → nodeType n = NODE256 → child n b = Some c →
  ∃ n1, n256_shape n1 ∧ nodeType n1 = NODE256
        ∧ (∀ b', child n1 b' = if decide (b' = b) then None else child n b')
        ∧ prefix n1 = prefix n ∧ prefixLen n1 = prefixLen n
        ∧ RemoveChild n b = if decide (size n1 < MinSize n1) then shrink n1 else Some n1.
Proof.
  intros (Hl & Hsz) Hty Hin. pose proof (b2z_range b) as Hbr.
  pose proof (child256_set n b None Hty Hl (u8 (size n - 1))) as Hc1.
  match type of Hc1 with ∀ b', child ?x _ = _ => exists x end.
  split; [|split; [done|split; [exact Hc1|split; [done|split; [done|]]]]].
  - split; [simpl; by rewrite length_insert|].
    rewrite (count_remove n _ b c Hin Hc1). simpl. rewrite Hsz. apply u8_pred.
  - unfold RemoveChild, Index. rewrite Hty. obind.
    rewrite child256_lookup, Hin by done. obind.
    rewrite (aset_ok (children n)) by (unfold len; lia). obind. done.
Qed.

(** *** NODE256 shrinks into NODE48 *)

Lemma occupied_filled (l : list Node) (m : nat) :
  omap id ((Some <$> l) ++ replicate m None) = l.
Proof.
  rewrite omap_app. 
  assert (omap id (replicate m (@None Node)) = []) as ->.
  { induction m; [done|]. csimpl. done. }
  rewrite app_nil_r. induction l; [done|]. csimpl. by f_equal.
Qed.

Lemma shrink256_spec n :
  n256_shape n → nodeType n = NODE256 → count n ≤ 48 →
  ∃ n', shrink n = Some n' ∧ n48_shape n' ∧ nodeType n' = NODE48
        ∧ (∀ b, child n' b = child n b)
        ∧ prefix n' = prefix n ∧ prefixLen n' = prefixLen n.
Proof.
  intros (Hl & Hsz) Hty Hcount.
  destruct (fold_tab_inv shrink256_step (inv48s n) (kids n)) with
    (todo := kids n) (done := @nil (byte * Node))
    (s := set_size (copyMeta NewNode48 n) 0)
    as (n' & Hfold & HI); [|done| |].
  - intros done b x todo s E (Hcore & Hty' & Hch & Hcs & Hsize & Hp & Hpl).
    pose proof Hcore as (Hlk & Hlc & _).
    pose proof (b2z_range b).
    pose proof (kids_sorted_tab n) as Hsall. rewrite E in Hsall.
    assert (alookup b done = None) as Hfresh by (by eapply sorted_mid_fresh).
    assert (len done < 48) as Hlt.
    { unfold count in Hcount. rewrite E, len_app, len_cons in Hcount.
      pose proof (len_nonneg todo). lia. }
    pose proof (len_nonneg done).
    assert (aget (children s) (len done) = Some None) as Hfree.
    { rewrite Hcs. rewrite aget_app_r by (rewrite !len_fmap; lia).
      rewrite !len_fmap. replace (len done - len done) with (Z.of_nat 0) by lia.
      rewrite aget_nat. apply lookup_replicate_2. unfold len in *. lia. }
    assert (child s b = None) as Hnone by (by rewrite Hch).
    pose proof (place48 s b (len done) x (u8 (len done + 1)) Hcore Hty' Hfree Hnone)
      as [Hcore1 Hc1].
    eexists. split.
    + unfold shrink256_step. rewrite Hsize.
      rewrite (aset_ok (children s)) by (unfold len in *; lia). obind.
      rewrite (aset_ok (keys s)) by (unfold len in *; lia). obind. done.
    + split; [exact Hcore1|]. split; [done|]. split.
      { intros b'. rewrite Hc1, Hch. symmetry. by apply alookup_snoc. }
      split; [|split; [|done]].
      * simpl. rewrite Hcs.
        replace (48 - length done)%nat with (S (48 - length (done ++ [(b, x)])))
          by (list_len; unfold len in *; lia).
        rewrite replicate_S_cons.
        replace (Z.to_nat (len done)) with (length (Some <$> done.*2) + 0)%nat
          by (list_len; unfold len; lia).
        rewrite insert_app_r. simpl. rewrite !fmap_app, <- app_assoc. done.
      * simpl. rewrite u8_small, len_app, len_cons, len_nil by lia. lia.
  - split; [apply NewNode48_core|]. split; [done|].
    split; [intros b; apply NewNode48_child|]. done.
  - destruct HI as (Hcore & Hty' & Hch & Hcs & Hsize & Hp & Hpl).
    assert (∀ b, child n' b = child n b) as Hsame.
    { intros b. rewrite Hch. apply child_alookup_kids. }
    exists n'. split; [|split; [|done]].
    + unfold shrink. rewrite Hty, Hl. change (Pos.to_nat 256) with 256%nat.
      rewrite <- Hfold. apply for_loop_bytes.
      intros i s Hi. rewrite !(u8_small i) by done.
      pose proof (child256_lookup n (z2b i) Hty Hl) as Hc.
      rewrite z2b_range_id in Hc by done. rewrite Hc. obind.
      destruct (child n (z2b i)); [|done].
      unfold shrink256_step. rewrite z2b_range_id by done. done.
    + split; [done|]. rewrite (count_ext n n' Hsame). unfold count at 1.
      split; [done|]. unfold occupied. rewrite Hcs, occupied_filled.
      by rewrite len_fmap.
Qed.

End node256.

(** ** The node operations on the abstract view *)

Section node_interface.
Context {V : Type}.
Abbreviation Node := (ArtNode V).
Implicit Types n c : Node.

Lemma node_ok_cases n :
  node_ok n →
  (nodeType n = NODE4 ∧ ∃ es rest, sorted_view 4 n es rest)
  ∨ (nodeType n = NODE16 ∧ ∃ es rest, sorted_view 16 n es rest)
  ∨ (nodeType n = NODE48 ∧ n48_shape n)
  ∨ (nodeType n = NODE256 ∧ n256_shape n).
Proof.
  intros (_ & _ & H). destruct (nodeType n); [auto..|done].
Qed.

Lemma node_ok_inner n : node_ok n → nodeType n ≠ LEAF.
Proof. intros (_ & _ & H) E. by rewrite E in H. Qed.

Lemma FindChild_total n (b : byte) : node_ok n → is_Some (FindChild n b).
Proof.
  intros Hok.
  destruct (node_ok_cases n Hok) as [(Hty & es & rest & Hv)|[(Hty & es & rest & Hv)|
    [(Hty & Hcore & _)|(Hty & Hl & _)]]].
  - destruct (FindChild_sorted 4 n es rest b Hv) as (l1 & l2 & _ & H); [lia|by left|].
    destruct (alookup b es); [by destruct H as [-> _]|].
    destruct H as [->|(i & -> & _)]; done.
  - destruct (FindChild_sorted 16 n es rest b Hv) as (l1 & l2 & _ & H); [lia|by right|].
    destruct (alookup b es); [by destruct H as [-> _]|].
    destruct H as [->|(i & -> & _)]; done.
  - pose proof Hcore as (Hlk & _).
    destruct (keys48_total n b Hlk) as [ki Hki].
    destruct (child48 n b ki Hcore Hty Hki) as [(_ & _ & ->)|(_ & c & _ & _ & ->)]; done.
  - rewrite FindChild256, child256_lookup by done. obind. by destruct (child n b).
Qed.

Lemma FindChild_slot n (b : byte) i :
  FindChild n b = Some (Some i) → ∃ co, aget (children n) i = Some co ∧ child n b = co.
Proof.
  intros H. unfold child. rewrite H.
  assert (is_Some (aget (children n) i)) as [co Hco].
  { unfold FindChild in H. destruct (nodeType n); try done.
    - destruct (Index n b) as [idx|]; [|done]. revert H. obind.
      destruct (decide (0 ≤ idx)); [|done].
      destruct (aget (children n) idx) eqn:E; [|done]. obind. by intros [= <-].
    - destruct (Index n b) as [idx|]; [|done]. revert H. obind.
      destruct (decide (0 ≤ idx)); [|done].
      destruct (aget (children n) idx) eqn:E; [|done]. obind. by intros [= <-].
    - destruct (Index n b) as [idx|]; [|done]. revert H. obind.
      destruct (decide (0 ≤ idx)); [|done].
      destruct (aget (children n) idx) eqn:E; [|done]. obind. by intros [= <-].
    - destruct (aget (children n) (b2z b)) as [[c|]|] eqn:E; try done.
      revert H. obind. by intros [= <-]. }
  exists co. by rewrite Hco.
Qed.

Lemma FindChild_none n (b : byte) : FindChild n b = Some None → child n b = None.
Proof. intros H. unfold child. by rewrite H. Qed.

Lemma set_children_id n : set_children n (children n) = n.
Proof. by destruct n. Qed.

Lemma set_keys_id n : set_keys n (keys n) = n.
Proof. by destruct n. Qed.

Lemma set_size_children n cs : set_size (set_children n cs) (size n) = set_children n cs.
Proof. by destruct n. Qed.

(** Rewriting the slot that [FindChild] returned. *)
Lemma set_child_ok n (b : byte) i c c' :
  node_ok n → FindChild n b = Some (Some i) → aget (children n) i = Some (Some c) →
  let n' := set_children n (<[Z.to_nat i := Some c']> (children n)) in
  node_ok n' ∧ (∀ b', child n' b' = if decide (b' = b) then Some c' else child n b').
Proof.
  intros Hok HF Hc. cbv zeta.
  set (n' := set_children n (<[Z.to_nat i := Some c']> (children n))).
  assert (child n b = Some c) as Hin.
  { destruct (FindChild_slot n b i HF) as (co & Hco & <-). congruence. }
  destruct Hok as (Hpl & Hp0 & Hshape).
  assert (∀ cap es rest, sorted_view cap n es rest → (cap ≤ 16)%nat → is_sorted_type n →
    ∃ es', sorted_view cap n' es' rest ∧
           (∀ b', child n' b' = if decide (b' = b) then Some c' else child n b')) as Hsorted.
  { intros cap es rest Hv Hcap Hst.
    destruct (FindChild_sorted cap n es rest b Hv Hcap Hst) as (l1 & l2 & Hes & H).
    rewrite <- (child_sorted cap n es rest b Hv Hcap Hst), Hin in Hes, H.
    simpl in Hes. destruct H as [HF' Hc'].
    rewrite HF in HF'. injection HF' as Ei.
    pose proof (sorted_set_child cap n es rest l1 l2 b c c' Hv Hes) as Hv'.
    replace (length l1) with (Z.to_nat i) in Hv' by (unfold len in Ei; lia).
    fold n' in Hv'.
    exists (l1 ++ (b, c') :: l2). split; [exact Hv'|].
    intros b'. rewrite (child_sorted cap n' _ rest b' Hv' Hcap Hst).
    rewrite (child_sorted cap n es rest b' Hv Hcap Hst), Hes.
    apply alookup_replace_mid.
    destruct Hv as (_&_&_&_&_&Hs). rewrite Hes in Hs.
    by eapply sorted_mid_fresh. }
  destruct (nodeType n) eqn:Hty; [..|done].
  - destruct Hshape as (es & rest & Hv).
    destruct (Hsorted 4%nat es rest Hv) as (es' & Hv' & Hc'); [lia|by left|].
    split; [|done]. split; [done|]. split; [done|]. simpl. rewrite Hty. by exists es', rest.
  - destruct Hshape as (es & rest & Hv).
    destruct (Hsorted 16%nat es rest Hv) as (es' & Hv' & Hc'); [lia|by right|].
    split; [|done]. split; [done|]. split; [done|]. simpl. rewrite Hty. by exists es', rest.
  - destruct Hshape as (Hcore & Hsz & Hocc). pose proof Hcore as (Hlk & Hlc & _).
    destruct (keys48_total n b Hlk) as [ki Hki].
    destruct (child48 n b ki Hcore Hty Hki) as [(_ & Hn & _)|(Hne & c0 & Hc0 & Hs & HF')];
      [congruence|].
    rewrite HF in HF'. injection HF' as Ei.
    pose proof (replace48 n b ki c (Some c') (size n) Hcore Hty Hki Hne Hin) as [Hcore1 Hc1].
    assert (<[Z.to_nat (b2z b) := ki]> (keys n) = keys n) as Ek.
    { apply list_insert_id. by apply aget_Some in Hki as [_ ?]. }
    rewrite Ek, set_keys_id, set_size_children, <- Ei in Hcore1, Hc1. fold n' in Hcore1, Hc1.
    split; [|exact Hc1]. split; [done|]. split; [done|]. simpl. rewrite Hty.
    split; [done|]. rewrite (count_replace n n' b c c' Hin Hc1).
    split; [done|].
    destruct (aget_split _ _ _ Hc) as (pre & post & E & Hpre).
    unfold occupied. simpl.
    replace (Z.to_nat i) with (length pre) by (unfold len in *; lia).
    by rewrite (occupied_replace _ pre post c c' E).
  - assert (i = b2z b) as Ei.
    { rewrite FindChild256 in HF by done. destruct (aget (children n) (b2z b)) as [[?|]|]; by inversion HF. }
    pose proof (set_child256 n b c c' Hshape Hty Hin) as [Hs' Hc'].
    rewrite <- Ei in Hs', Hc'. fold n' in Hs', Hc'.
    split; [|done]. split; [done|]. split; [done|]. simpl. by rewrite Hty.
Qed.

Lemma eachHelper_kids n :
  node_ok n →
  eachHelper n = rest ← concat_sends (eachHelper <$> (kids n).*2); Some (n :: rest).
Proof.
  intros Hok.
  destruct (node_ok_cases n Hok) as [(Hty & es & rest & Hv)|[(Hty & es & rest & Hv)|
    [(Hty & Hcore & _)|(Hty & Hl & _)]]].
  - rewrite (kids_sorted 4 n es rest Hv); [|lia|by left].
    apply (eachHelper_sorted 4 n es rest Hv). by left.
  - rewrite (kids_sorted 16 n es rest Hv); [|lia|by right].
    apply (eachHelper_sorted 16 n es rest Hv). by right.
  - by apply eachHelper48.
  - by apply eachHelper256.
Qed.

Lemma Minimum_kids n (b : byte) c rest :
  node_ok n → kids n = (b, c) :: rest → Minimum n = Minimum c.
Proof.
  intros Hok Hk.
  destruct (node_ok_cases n Hok) as [(Hty & es & r & Hv)|[(Hty & es & r & Hv)|
    [(Hty & Hcore & _)|(Hty & Hl & _)]]].
  - rewrite (kids_sorted 4 n es r Hv) in Hk; [|lia|by left].
    apply (Minimum_sorted 4 n es r b c rest Hv); [by left|done].
  - rewrite (kids_sorted 16 n es r Hv) in Hk; [|lia|by right].
    apply (Minimum_sorted 16 n es r b c rest Hv); [by right|done].
  - by eapply Minimum48.
  - by eapply Minimum256.
Qed.

End node_interface.

Section node_add.
Context {V : Type}.
Abbreviation Node := (ArtNode V).
Implicit Types n c : Node.

Lemma count_sorted cap n es rest :
  sorted_view cap n es rest → (cap ≤ 16)%nat → is_sorted_type n → count n = len es.
Proof. intros Hv ? ?. unfold count. by rewrite (kids_sorted cap n es rest Hv). Qed.

Lemma child_upd_sorted cap n n' es es' rest rest' (b : byte) (v : option Node) :
  sorted_view cap n es rest → sorted_view cap n' es' rest' → (cap ≤ 16)%nat →
  is_sorted_type n → is_sorted_type n' →
  (∀ b', alookup b' es' = if decide (b' = b) then v else alookup b' es) →
  ∀ b', child n' b' = if decide (b' = b) then v else child n b'.
Proof.
  intros Hv Hv' Hcap Hst Hst' H b'.
  rewrite (child_sorted cap n' es' rest' b' Hv' Hcap Hst').
  rewrite (child_sorted cap n es rest b' Hv Hcap Hst). apply H.
Qed.

Lemma AddChild_spec n (b : byte) c :
  node_ok n → child n b = None →
  ∃ n', AddChild n b c = Some n' ∧ node_ok n'
        ∧ (∀ b', child n' b' = if decide (b' = b) then Some c else child n b')
        ∧ prefix n' = prefix n ∧ prefixLen n' = prefixLen n
        ∧ MinSize n' ≤ Z.max (MinSize n) (count n').
Proof.
  intros Hok Hnone. pose proof Hok as (Hpl & Hp0 & _).
  destruct (node_ok_cases n Hok) as [(Hty & es & rest & Hv)|[(Hty & es & rest & Hv)|
    [(Hty & Hsh)|(Hty & Hsh)]]].
  - (* NODE4 *)
    assert (is_sorted_type n) as Hst by (by left).
    pose proof (child_sorted 4 n es rest b Hv ltac:(lia) Hst) as Hcb. rewrite Hnone in Hcb.
    pose proof Hv as (_&_&_&Hle&Hsize&_).
    destruct (decide (length es < 4)%nat) as [Hlt|Hfull].
    + destruct (AddChild_notfull_sorted 4 n es rest b c Hv Hst) as
        (n' & es' & rest' & HA & Hv' & Hal & Hty' & Hp' & Hpl'); [by unfold MaxSize; rewrite Hty|done|done|].
      assert (is_sorted_type n') as Hst' by (left; congruence).
      pose proof (child_upd_sorted 4 n n' es es' rest rest' b (Some c) Hv Hv' ltac:(lia) Hst Hst' Hal) as Hc'.
      exists n'. split; [done|]. split.
      { split; [congruence|]. split; [lia|]. rewrite Hty', Hty. by exists es', rest'. }
      split; [done|]. split; [done|]. split; [done|].
      rewrite (count_add n n' b c Hnone Hc'). unfold MinSize. rewrite Hty', Hty. lia.
    + assert (length es = 4%nat) as Hlen by lia.
      destruct (grow4_spec n es rest Hv Hty Hlen) as (g & Hg & Hvg & Htg & Hpg & Hplg).
      assert (is_sorted_type g) as Hstg by (by right).
      destruct (AddChild_notfull_sorted 16 g es (replicate 12 x00) b c Hvg Hstg) as
        (n' & es' & rest' & HA & Hv' & Hal & Hty' & Hp' & Hpl');
        [by unfold MaxSize; rewrite Htg|done|lia|].
      assert (is_sorted_type n') as Hst' by (right; congruence).
      assert (∀ b', child n' b' = if decide (b' = b) then Some c else child n b') as Hc'.
      { intros b'. rewrite (child_sorted 16 n' es' rest' b' Hv' ltac:(lia) Hst').
        rewrite (child_sorted 4 n es rest b' Hv ltac:(lia) Hst). apply Hal. }
      exists n'. split.
      { unfold AddChild, AddChild4. rewrite Hty. unfold IsFull, MaxSize. rewrite Hty.
        rewrite bool_decide_eq_true_2 by (rewrite Hsize; unfold len, NODE4MAX; lia).
        rewrite Hg. obind. unfold AddChild in HA. by rewrite Htg in HA. }
      split.
      { split; [congruence|]. split; [lia|]. rewrite Hty', Htg. by exists es', rest'. }
      split; [done|]. split; [congruence|]. split; [congruence|].
      rewrite (count_add n n' b c Hnone Hc').
      rewrite (count_sorted 4 n es rest Hv ltac:(lia) Hst).
      unfold MinSize. rewrite Hty', Htg, Hty. unfold NODE16MIN, len. lia.
  - (* NODE16 *)
    assert (is_sorted_type n) as Hst by (by right).
    pose proof (child_sorted 16 n es rest b Hv ltac:(lia) Hst) as Hcb. rewrite Hnone in Hcb.
    pose proof Hv as (_&_&_&Hle&Hsize&_).
    destruct (decide (length es < 16)%nat) as [Hlt|Hfull].
    + destruct (AddChild_notfull_sorted 16 n es rest b c Hv Hst) as
        (n' & es' & rest' & HA & Hv' & Hal & Hty' & Hp' & Hpl'); [by unfold MaxSize; rewrite Hty|done|done|].
      assert (is_sorted_type n') as Hst' by (right; congruence).
      pose proof (child_upd_sorted 16 n n' es es' rest rest' b (Some c) Hv Hv' ltac:(lia) Hst Hst' Hal) as Hc'.
      exists n'. split; [done|]. split.
      { split; [congruence|]. split; [lia|]. rewrite Hty', Hty. by exists es', rest'. }
      split; [done|]. split; [done|]. split; [done|].
      rewrite (count_add n n' b c Hnone Hc'). unfold MinSize. rewrite Hty', Hty. lia.
    + assert (length es = 16%nat) as Hlen by lia.
      destruct (grow16_spec n es rest Hv Hty Hlen) as (g & Hg & Hshg & Htg & Hcg & Hpg & Hplg).
      assert (count g = 16) as Hcnt.
      { rewrite (count_ext n g Hcg), (count_sorted 16 n es rest Hv ltac:(lia) Hst).
        unfold len. lia. }
      destruct (AddChild48_spec g b c Hshg Htg) as (n' & HA & Hsh' & Hty' & Hc' & Hp' & Hpl').
      { by rewrite Hcg. }
      { destruct Hshg as (_ & -> & _). lia. }
      assert (∀ b', child n' b' = if decide (b' = b) then Some c else child n b') as Hc''.
      { intros b'. rewrite Hc', Hcg. done. }
      exists n'. split.
      { unfold AddChild, AddChild16. rewrite Hty. unfold IsFull, MaxSize. rewrite Hty.
        rewrite bool_decide_eq_true_2 by (rewrite Hsize; unfold len, NODE16MAX; lia).
        rewrite Hg. obind. unfold AddChild in HA. by rewrite Htg in HA. }
      split.
      { split; [congruence|]. split; [lia|]. by rewrite Hty'. }
      split; [done|]. split; [congruence|]. split; [congruence|].
      rewrite (count_add n n' b c Hnone Hc'').
      rewrite (count_sorted 16 n es rest Hv ltac:(lia) Hst).
      unfold MinSize. rewrite Hty', Hty. unfold NODE48MIN, len. lia.
  - (* NODE48 *)
    destruct (decide (size n = 48)) as [Hfull|Hnf].
    + destruct (grow48_spec n Hsh Hty) as (g & Hg & Hshg & Htg & Hcg & Hpg & Hplg).
      destruct (AddChild256_spec g b c Hshg Htg) as (n' & HA & Hsh' & Hty' & Hc' & Hp' & Hpl').
      { by rewrite Hcg. }
      assert (∀ b', child n' b' = if decide (b' = b) then Some c else child n b') as Hc''.
      { intros b'. rewrite Hc', Hcg. done. }
      exists n'. split.
      { unfold AddChild, AddChild48. rewrite Hty. unfold IsFull, MaxSize. rewrite Hty.
        rewrite bool_decide_eq_true_2 by (rewrite Hfull; done).
        rewrite Hg. obind. unfold AddChild in HA. by rewrite Htg in HA. }
      split.
      { split; [congruence|]. split; [lia|]. by rewrite Hty'. }
      split; [done|]. split; [congruence|]. split; [congruence|].
      rewrite (count_add n n' b c Hnone Hc'').
      destruct Hsh as (_ & Hsz & _). rewrite <- Hsz, Hfull.
      unfold MinSize. rewrite Hty', Hty. unfold NODE256MIN. lia.
    + destruct (AddChild48_spec n b c Hsh Hty Hnone Hnf) as (n' & HA & Hsh' & Hty' & Hc' & Hp' & Hpl').
      exists n'. split; [done|]. split.
      { split; [congruence|]. split; [lia|]. by rewrite Hty'. }
      split; [done|]. split; [done|]. split; [done|].
      rewrite (count_add n n' b c Hnone Hc'). unfold MinSize. rewrite Hty', Hty. lia.
  - (* NODE256 *)
    destruct (AddChild256_spec n b c Hsh Hty Hnone) as (n' & HA & Hsh' & Hty' & Hc' & Hp' & Hpl').
    exists n'. split; [done|]. split.
    { split; [congruence|]. split; [lia|]. by rewrite Hty'. }
    split; [done|]. split; [done|]. split; [done|].
    rewrite (count_add n n' b c Hnone Hc'). unfold MinSize. rewrite Hty', Hty. lia.
Qed.

End node_add.

Lemma option_bind_None {A B} (f : A → option B) : None ≫= f = None.
Proof. done. Qed.

Section node_collapse.
Context {V : Type}.
Abbreviation Node := (ArtNode V).
Implicit Types n c : Node.

Lemma ten_bytes (P : list byte) :
  length P = 10%nat →
  ∃ a0 a1 a2 a3 a4 a5 a6 a7 a8 a9, P = [a0; a1; a2; a3; a4; a5; a6; a7; a8; a9].
Proof.
  intros H. do 10 (destruct P as [|? P]; [done|]). destruct P; [|done]. eauto 12.
Qed.

Lemma small_cases (l : Z) :
  0 ≤ l < 10 →
  l = 0 ∨ l = 1 ∨ l = 2 ∨ l = 3 ∨ l = 4 ∨ l = 5 ∨ l = 6 ∨ l = 7 ∨ l = 8 ∨ l = 9.
Proof. lia. Qed.

(** The prefix arithmetic of [shrink] for NODE4, on the arrays alone. *)
Lemma shrink4_prefix (P0 P1 : list byte) (l l' : Z) (b : byte) :
  length P0 = 10%nat → length P1 = 10%nat → 0 ≤ l → 0 ≤ l' →
  ('(npfx, cur) ←
      (if decide (l < MAX_PREFIX_LEN) then
         p ← aset P0 l b; Some (p, l + 1)
       else Some (P0, l));
   '(npfx, cur) ←
      (if decide (cur < MAX_PREFIX_LEN) then
         let childPrefixLen := Z.min l' (MAX_PREFIX_LEN - cur) in
         p ← memcpy_at npfx cur P1 childPrefixLen;
         Some (p, cur + childPrefixLen)
       else Some (npfx, cur));
   Some (memcpy P1 npfx (Z.min cur MAX_PREFIX_LEN)))
  = Some (merged_prefix P0 l b P1 l').
Proof.
  intros H0 H1 Hl Hl'.
  destruct (ten_bytes P0 H0) as (a0&a1&a2&a3&a4&a5&a6&a7&a8&a9&->).
  destruct (ten_bytes P1 H1) as (c0&c1&c2&c3&c4&c5&c6&c7&c8&c9&->).
  unfold merged_prefix, MAX_PREFIX_LEN. cbv zeta.
  destruct (decide (l < 10)) as [Hlt|Hge].
  - replace (Z.min l' (9 - l)) with (Z.min l' (10 - (l + 1))) by (f_equal; lia).
    assert (0 ≤ Z.min l' (10 - (l + 1)) ≤ 9 - l) as Hm by lia.
    rewrite aset_ok by (unfold len; simpl; lia). obind.
    revert Hm. generalize (Z.min l' (10 - (l + 1))). intros m Hm.
    destruct (small_cases l ltac:(lia)) as [->|[->|[->|[->|[->|[->|[->|[->|[->| ->]]]]]]]]];
      destruct (small_cases m ltac:(lia)) as [->|[->|[->|[->|[->|[->|[->|[->|[->| ->]]]]]]]]];
      try lia; vm_compute; reflexivity.
  - obind. rewrite decide_False by lia. obind.
    rewrite Z.min_r by lia. vm_compute. reflexivity.
Qed.

Lemma merged_prefix_length (P0 P1 : list byte) (l l' : Z) (b : byte) :
  length P0 = 10%nat → length P1 = 10%nat → 0 ≤ l → 0 ≤ l' →
  length (merged_prefix P0 l b P1 l') = 10%nat.
Proof.
  intros H0 H1 Hl Hl'. unfold merged_prefix. cbv zeta.
  destruct (decide (l < 10)); [|done].
  rewrite !length_app, !length_take, length_drop. simpl. lia.
Qed.

Lemma merged_prefix_ok (P0 P1 q q' : list byte) (b : byte) :
  length P0 = 10%nat → length P1 = 10%nat →
  take 10 q = take (length q) P0 → take 10 q' = take (length q') P1 →
  take 10 (q ++ b :: q')
  = take (length (q ++ b :: q')) (merged_prefix P0 (len q) b P1 (len q')).
Proof.
  intros H0 H1 Hq Hq'. unfold merged_prefix, len. cbv zeta.
  destruct (decide (Z.of_nat (length q) < 10)) as [Hlt|Hge].
  - assert (q = take (length q) P0) as Eq.
    { rewrite <- Hq. symmetry. apply take_ge. lia. }
    rewrite Nat2Z.id. rewrite <- Eq.
    rewrite take_app_ge by lia. rewrite length_app. simpl length.
    rewrite (take_app_ge q) by lia. f_equal.
    replace (10 - length q)%nat with (S (9 - length q)) by lia.
    replace (length q + S (length q') - length q)%nat with (S (length q')) by lia.
    simpl. f_equal.
    destruct (decide (length q' ≤ 9 - length q)%nat) as [Hs|Hb].
    + rewrite Z.min_l by lia. rewrite Nat2Z.id.
      rewrite take_app_le by (rewrite length_take; lia).
      rewrite take_take. replace (length q' `min` length q')%nat with (length q') by lia.
      rewrite <- Hq'. rewrite (take_ge q' 10) by lia. apply take_ge. lia.
    + rewrite Z.min_r by lia.
      replace (Z.to_nat (9 - Z.of_nat (length q))) with (9 - length q)%nat by lia.
      rewrite (drop_ge P1) by lia. rewrite app_nil_r.
      rewrite take_take. replace (length q' `min` (9 - length q))%nat with (9 - length q)%nat by lia.
      transitivity (take (9 - length q) (take 10 q')).
      { rewrite take_take. f_equal. lia. }
      rewrite Hq', take_take. f_equal. lia.
  - rewrite take_app_le by lia. rewrite Hq.
    rewrite !take_ge; [done|rewrite length_app; simpl; lia|lia].
Qed.

(** [shrink] of a NODE4 left with one child: a leaf child takes the
    node's prefix fields as they are, an inner child the merged path. *)
Lemma shrink4_spec n (b : byte) c rest :
  sorted_view 4 n [(b, c)] rest → nodeType n = NODE4 →
  length (prefix n) = 10%nat → 0 ≤ prefixLen n →
  (IsLeaf c = true → shrink n = Some (copyMeta c n))
  ∧ (IsLeaf c = false → length (prefix c) = 10%nat → 0 ≤ prefixLen c →
     shrink n = Some (set_prefixLen
                        (set_prefix c (merged_prefix (prefix n) (prefixLen n) b
                                                     (prefix c) (prefixLen c)))
                        (prefixLen c + (prefixLen n + 1)))).
Proof.
  intros (Hk & _ & Hc & _) Hty H0 Hl.
  assert (aget (children n) 0 = Some (Some c)) as Hc0 by (by rewrite Hc).
  assert (aget (keys n) 0 = Some b) as Hk0 by (rewrite Hk; reflexivity).
  split.
  - intros Hleaf. unfold shrink. rewrite Hty, Hc0. obind. by rewrite Hleaf.
  - intros Hleaf H1 Hl'. unfold shrink. rewrite Hty, Hc0. obind. rewrite Hleaf.
    cbv beta iota zeta. unfold negb.
    pose proof (shrink4_prefix (prefix n) (prefix c) (prefixLen n) (prefixLen c) b
                  H0 H1 Hl Hl') as Hp.
    rewrite Hk0. obind.
    destruct (decide (prefixLen n < MAX_PREFIX_LEN)) as [Hlt|Hge].
    + destruct (aset (prefix n) (prefixLen n) b) as [p|] eqn:Ea; [|done].
      revert Hp. obind.
      destruct (decide (prefixLen n + 1 < MAX_PREFIX_LEN)).
      * cbv zeta. destruct (memcpy_at p _ _ _) as [p2|]; [|intros Hp; exfalso; revert Hp; by rewrite !option_bind_None]. obind. by intros [= ->].
      * obind. by intros [= ->].
    + revert Hp. obind.
      destruct (decide (prefixLen n < MAX_PREFIX_LEN)); [done|].
      obind. by intros [= ->].
Qed.

End node_collapse.

Section node_remove.
Context {V : Type}.
Abbreviation Node := (ArtNode V).
Implicit Types n c : Node.

(** [RemoveChild] either keeps an inner node (possibly of a smaller
    type) without the child, or, for a NODE4 left with one child [c'],
    replaces the node by what [shrink] makes of [c']. *)
Lemma RemoveChild_spec n (b : byte) c :
  node_ok n → MinSize n ≤ count n → child n b = Some c →
  (∃ n', RemoveChild n b = Some n' ∧ node_ok n' ∧ MinSize n' ≤ count n'
         ∧ (∀ b', child n' b' = if decide (b' = b) then None else child n b')
         ∧ prefix n' = prefix n ∧ prefixLen n' = prefixLen n)
  ∨ (∃ n1 (b' : byte) c' rest,
       b' ≠ b ∧ child n b' = Some c'
       ∧ (∀ b'', b'' ≠ b → b'' ≠ b' → child n b'' = None)
       ∧ sorted_view 4 n1 [(b', c')] rest ∧ nodeType n1 = NODE4
       ∧ prefix n1 = prefix n ∧ prefixLen n1 = prefixLen n
       ∧ RemoveChild n b = shrink n1).
Proof.
  intros Hok Hmin Hin. pose proof Hok as (Hpl & Hp0 & _).
  destruct (node_ok_cases n Hok) as [(Hty & es & rest & Hv)|[(Hty & es & rest & Hv)|
    [(Hty & Hsh)|(Hty & Hsh)]]].
  - (* NODE4 *)
    assert (is_sorted_type n) as Hst by (by left).
    pose proof (child_sorted 4 n es rest b Hv ltac:(lia) Hst) as Hcb. rewrite Hin in Hcb.
    destruct (RemoveChild_sorted 4 n es rest b c Hv Hst ltac:(lia) (eq_sym Hcb))
      as (n1 & es1 & rest1 & Hv1 & Hal & Hlen & Hty1 & Hp1 & Hpl1 & HR).
    rewrite Hty in Hty1.
    assert (is_sorted_type n1) as Hst1 by (left; congruence).
    pose proof (child_upd_sorted 4 n n1 es es1 rest rest1 b None Hv Hv1 ltac:(lia) Hst Hst1 Hal) as Hc1.
    pose proof Hv1 as (_&_&_&_&Hsize1&_).
    rewrite (count_sorted 4 n es rest Hv ltac:(lia) Hst) in Hmin.
    unfold MinSize in Hmin, HR. rewrite Hty in Hmin. rewrite Hty1 in HR. unfold NODE4MIN in *.
    destruct (decide (size n1 < 2)) as [Hsmall|Hbig].
    + right. assert (length es1 = 1%nat) as Hone by (unfold len in *; lia).
      destruct es1 as [|[b' c'] [|? ?]]; try done.
      assert (b' ≠ b) as Hne.
      { intros ->. specialize (Hal b). simpl in Hal. by rewrite !decide_True in Hal. }
      exists n1, b', c', rest1. split; [done|]. split.
      { rewrite (child_sorted 4 n es rest b' Hv ltac:(lia) Hst).
        specialize (Hal b'). simpl in Hal. rewrite decide_True in Hal by done.
        rewrite decide_False in Hal by done. done. }
      split.
      { intros b'' H1 H2. rewrite (child_sorted 4 n es rest b'' Hv ltac:(lia) Hst).
        specialize (Hal b''). simpl in Hal. rewrite decide_False in Hal by done.
        rewrite decide_False in Hal by done. done. }
      done.
    + left. exists n1. split; [done|]. split.
      { split; [congruence|]. split; [lia|]. rewrite Hty1. by exists es1, rest1. }
      split.
      { rewrite (count_sorted 4 n1 es1 rest1 Hv1 ltac:(lia) Hst1).
        unfold MinSize. rewrite Hty1. unfold NODE4MIN. lia. }
      done.
  - (* NODE16 *)
    left.
    assert (is_sorted_type n) as Hst by (by right).
    pose proof (child_sorted 16 n es rest b Hv ltac:(lia) Hst) as Hcb. rewrite Hin in Hcb.
    destruct (RemoveChild_sorted 16 n es rest b c Hv Hst ltac:(lia) (eq_sym Hcb))
      as (n1 & es1 & rest1 & Hv1 & Hal & Hlen & Hty1 & Hp1 & Hpl1 & HR).
    rewrite Hty in Hty1.
    assert (is_sorted_type n1) as Hst1 by (right; congruence).
    pose proof (child_upd_sorted 16 n n1 es es1 rest rest1 b None Hv Hv1 ltac:(lia) Hst Hst1 Hal) as Hc1.
    pose proof Hv1 as (_&_&_&_&Hsize1&_).
    rewrite (count_sorted 16 n es rest Hv ltac:(lia) Hst) in Hmin.
    unfold MinSize in Hmin, HR. rewrite Hty in Hmin. rewrite Hty1 in HR. unfold NODE16MIN in *.
    destruct (decide (size n1 < 5)) as [Hsmall|Hbig].
    + assert (length es1 = 4%nat) as Hfour by (unfold len in *; lia).
      destruct (shrink16_spec n1 es1 rest1 Hv1 Hty1 Hfour) as (n' & Hs & Hv' & Hty' & Hp' & Hpl').
      assert (is_sorted_type n') as Hst' by (by left).
      exists n'. split; [congruence|]. split.
      { split; [congruence|]. split; [lia|]. rewrite Hty'. by exists es1, []. }
      split.
      { rewrite (count_sorted 4 n' es1 [] Hv' ltac:(lia) Hst').
        unfold MinSize. rewrite Hty'. unfold NODE4MIN, len. lia. }
      split; [|split; congruence].
      intros b'. rewrite (child_sorted 4 n' es1 [] b' Hv' ltac:(lia) Hst').
      rewrite <- (child_sorted 16 n1 es1 rest1 b' Hv1 ltac:(lia) Hst1). apply Hc1.
    + exists n1. split; [done|]. split.
      { split; [congruence|]. split; [lia|]. rewrite Hty1. by exists es1, rest1. }
      split.
      { rewrite (count_sorted 16 n1 es1 rest1 Hv1 ltac:(lia) Hst1).
        unfold MinSize. rewrite Hty1. unfold NODE16MIN. lia. }
      done.
  - (* NODE48 *)
    left.
    destruct (RemoveChild48_spec n b c Hsh Hty Hin) as (n1 & Hsh1 & Hty1 & Hc1 & Hp1 & Hpl1 & HR).
    pose proof (count_remove n n1 b c Hin Hc1) as Hcnt.
    pose proof Hsh1 as (_ & Hsz1 & _).
    unfold MinSize in Hmin, HR. rewrite Hty in Hmin. rewrite Hty1 in HR. unfold NODE48MIN in *.
    destruct (decide (size n1 < 17)) as [Hsmall|Hbig].
    + destruct (shrink48_spec n1 Hsh1 Hty1 ltac:(lia)) as (n' & rest' & Hs & Hv' & Hty' & Hp' & Hpl').
      assert (is_sorted_type n') as Hst' by (by right).
      exists n'. split; [congruence|]. split.
      { split; [congruence|]. split; [lia|]. rewrite Hty'. by exists (kids n1), rest'. }
      split.
      { rewrite (count_sorted 16 n' _ rest' Hv' ltac:(lia) Hst').
        unfold MinSize. rewrite Hty'. unfold NODE16MIN. fold (count n1). lia. }
      split; [|split; congruence].
      intros b'. rewrite (child_sorted 16 n' _ rest' b' Hv' ltac:(lia) Hst').
      rewrite child_alookup_kids. apply Hc1.
    + exists n1. split; [done|]. split.
      { split; [congruence|]. split; [lia|]. by rewrite Hty1. }
      split; [|done]. unfold MinSize. rewrite Hty1. unfold NODE48MIN. lia.
  - (* NODE256 *)
    left.
    destruct (RemoveChild256_spec n b c Hsh Hty Hin) as (n1 & Hsh1 & Hty1 & Hc1 & Hp1 & Hpl1 & HR).
    pose proof (count_remove n n1 b c Hin Hc1) as Hcnt.
    pose proof Hsh1 as (_ & Hsz1). pose proof (count_range n).
    unfold MinSize in Hmin, HR. rewrite Hty in Hmin. rewrite Hty1 in HR. unfold NODE256MIN in *.
    rewrite u8_small in Hsz1 by lia.
    destruct (decide (size n1 < 49)) as [Hsmall|Hbig].
    + destruct (shrink256_spec n1 Hsh1 Hty1 ltac:(lia)) as (n' & Hs & Hsh' & Hty' & Hc' & Hp' & Hpl').
      exists n'. split; [congruence|]. split.
      { split; [congruence|]. split; [lia|]. by rewrite Hty'. }
      split.
      { rewrite (count_ext n1 n' Hc'). unfold MinSize. rewrite Hty'. unfold NODE48MIN. lia. }
      split; [|split; congruence].
      intros b'. rewrite Hc'. apply Hc1.
    + exists n1. split; [done|]. split.
      { split; [congruence|]. split; [lia|]. by rewrite Hty1. }
      split; [|done]. unfold MinSize. rewrite Hty1. unfold NODE256MIN. lia.
Qed.

(** A fresh NODE4 with its prefix fields set. *)
Lemma NewNode4_view (l : Z) (P : list byte) :
  sorted_view 4 (set_prefix (set_prefixLen (@NewNode4 V) l) P) [] (replicate 4 x00).
Proof. repeat split; try done. simpl. lia. constructor. Qed.

Lemma NewNode4_ok (l : Z) (P : list byte) :
  length P = 10%nat → 0 ≤ l →
  node_ok (set_prefix (set_prefixLen (@NewNode4 V) l) P).
Proof.
  intros HP Hl. split; [done|]. split; [done|]. simpl.
  exists [], (replicate 4 x00). apply NewNode4_view.
Qed.

Lemma NewNode4_child (l : Z) (P : list byte) (b : byte) :
  child (set_prefix (set_prefixLen (@NewNode4 V) l) P) b = None.
Proof.
  by rewrite (child_sorted 4 _ [] (replicate 4 x00) b (NewNode4_view l P) ltac:(lia) ltac:(by left)).
Qed.

Lemma count_nil n : (∀ b, child n b = None) → count n = 0.
Proof.
  intros H. unfold count. rewrite (kids_of_alookup n []); [done|constructor|done].
Qed.

(** The two [AddChild] calls by which [insertHelper] fills a fresh NODE4. *)
Lemma NewNode4_two (l : Z) (P : list byte) (b1 : byte) c1 :
  length P = 10%nat → 0 ≤ l →
  ∃ n1, AddChild (set_prefix (set_prefixLen (@NewNode4 V) l) P) b1 c1 = Some n1
        ∧ prefixLen n1 = l
        ∧ ∀ (b2 : byte) c2, b1 ≠ b2 →
          ∃ n', AddChild n1 b2 c2 = Some n'
                ∧ node_ok n' ∧ MinSize n' ≤ count n'
                ∧ (∀ b, child n' b = if decide (b = b2) then Some c2
                                     else if decide (b = b1) then Some c1 else None)
                ∧ prefix n' = P ∧ prefixLen n' = l.
Proof.
  intros HP Hl.
  set (n0 := set_prefix (set_prefixLen (@NewNode4 V) l) P).
  destruct (AddChild_spec n0 b1 c1 (NewNode4_ok l P HP Hl) (NewNode4_child l P b1))
    as (n1 & HA1 & Hok1 & Hc1 & Hp1 & Hpl1 & Hm1).
  exists n1. split; [done|]. split; [by rewrite Hpl1|]. intros b2 c2 Hne.
  destruct (AddChild_spec n1 b2 c2 Hok1) as (n2 & HA2 & Hok2 & Hc2 & Hp2 & Hpl2 & Hm2).
  { rewrite Hc1, decide_False by done. apply NewNode4_child. }
  exists n2. split; [done|]. split; [done|].
  assert (∀ b, child n2 b = if decide (b = b2) then Some c2
                            else if decide (b = b1) then Some c1 else None) as Hc.
  { intros b. rewrite Hc2, Hc1. unfold n0. by rewrite NewNode4_child. }
  split; [|split; [done|split; [by rewrite Hp2, Hp1|by rewrite Hpl2, Hpl1]]].
  assert (count n0 = 0) as H0 by (apply count_nil; intros; apply NewNode4_child).
  assert (count n1 = 1) as H1.
  { rewrite (count_add n0 n1 b1 c1 (NewNode4_child l P b1) Hc1). lia. }
  assert (count n2 = 2) as H2.
  { rewrite (count_add n1 n2 b2 c2); [lia| |exact Hc2].
    rewrite Hc1, decide_False by done. apply NewNode4_child. }
  assert (MinSize n0 = 2) as M0 by done. lia.
Qed.

End node_remove.

(** ** Subtrees *)

Section subtrees.
Context {V : Type}.
Abbreviation Node := (ArtNode V).
Implicit Types n c : Node.

(** The view of a node does not depend on its prefix fields. *)
Lemma Index4_from_ext n n' (k : byte) :
  keys n' = keys n → size n' = size n →
  ∀ fuel i, Index4_from fuel i n' k = Index4_from fuel i n k.
Proof.
  intros Hk Hs. induction fuel as [|fuel IH]; intros i; [done|].
  simpl. rewrite Hk, Hs. destruct (decide (i < size n)); [|done].
  destruct (aget (keys n) i); [|done]. obind. destruct (decide (_ = k)); [done|]. apply IH.
Qed.

Lemma FindChild_ext n n' (b : byte) :
  keys n' = keys n → children n' = children n → size n' = size n →
  nodeType n' = nodeType n → FindChild n' b = FindChild n b.
Proof.
  intros Hk Hc Hs Ht. unfold FindChild, Index. rewrite Ht, Hc, Hk, Hs.
  destruct (nodeType n); try done. by rewrite (Index4_from_ext n n' b Hk Hs).
Qed.

Lemma child_ext n n' (b : byte) :
  keys n' = keys n → children n' = children n → size n' = size n →
  nodeType n' = nodeType n → child n' b = child n b.
Proof.
  intros Hk Hc Hs Ht. unfold child. by rewrite (FindChild_ext n n' b Hk Hc Hs Ht), Hc.
Qed.

Lemma node_ok_ext n n' :
  keys n' = keys n → children n' = children n → size n' = size n →
  nodeType n' = nodeType n → length (prefix n') = 10%nat → 0 ≤ prefixLen n' →
  node_ok n → node_ok n'.
Proof.
  intros Hk Hc Hs Ht Hp Hl (_ & _ & H).
  assert (count n' = count n) as Hcnt.
  { apply count_ext. intros b. by apply child_ext. }
  split; [done|]. split; [done|]. rewrite Ht.
  destruct (nodeType n); try done.
  - destruct H as (es & rest & H). exists es, rest. unfold sorted_view in *.
    by rewrite Hk, Hc, Hs.
  - destruct H as (es & rest & H). exists es, rest. unfold sorted_view in *.
    by rewrite Hk, Hc, Hs.
  - unfold n48_shape, n48_core, occupied in *. by rewrite Hk, Hc, Hs, Hcnt.
  - unfold n256_shape in *. by rewrite Hc, Hs, Hcnt.
Qed.

Lemma elem_of_concat {A} (x : A) (ls : list (list A)) :
  x ∈ concat ls ↔ ∃ l, x ∈ l ∧ l ∈ ls.
Proof.
  induction ls as [|l ls IH].
  - split; [by intros ?%elem_of_nil|by intros (? & _ & ?%elem_of_nil)].
  - rewrite concat_cons, elem_of_app, IH. split.
    + intros [?|(l' & ? & ?)]; [exists l|exists l']; split; try done; [left|by right].
    + intros (l' & ? & [->|?]%elem_of_cons); [by left|right; by exists l'].
Qed.

(** *** The leaves of a subtree *)

Lemma concat_sends_Some (rs : list (option (list Node))) :
  Forall is_Some rs → concat_sends rs = Some (concat (default [] <$> rs)).
Proof.
  induction 1 as [|r rs [l ->] _ IH]; [done|].
  simpl. obind. rewrite IH. done.
Qed.

Lemma eachHelper_leaf n :
  nodeType n = LEAF → children n = [] → eachHelper n = Some [n].
Proof.
  intros Hty Hc. rewrite eachHelper_unfold, decide_False by (by rewrite Hty).
  by rewrite Hc.
Qed.

Lemma leaves_leaf n : nodeType n = LEAF → children n = [] → leaves n = [n].
Proof.
  intros Hty Hc. unfold leaves. rewrite (eachHelper_leaf n Hty Hc). simpl.
  rewrite filter_cons_True; [done|]. unfold IsLeaf. by rewrite bool_decide_eq_true_2.
Qed.

Lemma eachHelper_inner n :
  node_ok n → (∀ b c, child n b = Some c → is_Some (eachHelper c)) →
  eachHelper n = Some (n :: concat ((fun c => default [] (eachHelper c)) <$> (kids n).*2)).
Proof.
  intros Hok Hall. rewrite (eachHelper_kids n Hok).
  rewrite concat_sends_Some.
  - obind. by rewrite <- list_fmap_compose.
  - apply Forall_fmap, Forall_fmap, Forall_forall. intros [b c] Hin.
    apply elem_of_tab in Hin. by eapply Hall.
Qed.

Lemma leaves_inner n :
  node_ok n → (∀ b c, child n b = Some c → is_Some (eachHelper c)) →
  leaves n = concat (leaves <$> (kids n).*2).
Proof.
  intros Hok Hall. unfold leaves at 1. rewrite (eachHelper_inner n Hok Hall). simpl.
  rewrite filter_cons_False.
  2:{ unfold IsLeaf. rewrite bool_decide_eq_false_2; [by intros []|]. by apply node_ok_inner. }
  generalize (kids n).*2. intros l. induction l as [|c l IH]; [done|].
  rewrite !fmap_cons, !concat_cons, filter_app, IH. done.
Qed.

Lemma wf_each_total p n : wf p n → is_Some (eachHelper n).
Proof.
  induction 1 as [p n Hty Hp Hc|p q n Hok Hmin Hq Hch IH].
  - rewrite eachHelper_leaf; done.
  - rewrite eachHelper_inner; [done..|]. apply IH.
Qed.

Lemma wf_inner_total p q n :
  (∀ b c, child n b = Some c → wf (p ++ q ++ [b]) c) →
  ∀ b c, child n b = Some c → is_Some (eachHelper c).
Proof. intros H b c Hc. eapply wf_each_total, H, Hc. Qed.

(** The leaves of a node whose child under [b] has changed. *)
Lemma leaves_update n n' (b : byte) (v : option Node) :
  node_ok n → node_ok n' →
  (∀ b c, child n b = Some c → is_Some (eachHelper c)) →
  (∀ c, v = Some c → is_Some (eachHelper c)) →
  (∀ b', child n' b' = if decide (b' = b) then v else child n b') →
  ∃ L1 L2,
    leaves n = L1 ++ from_option leaves [] (child n b) ++ L2 ∧
    leaves n' = L1 ++ from_option leaves [] v ++ L2.
Proof.
  intros Hok Hok' Hall Hv Hupd.
  destruct (kids_update n n' b v Hupd) as (l1 & l2 & Hk & Hk' & _).
  assert (∀ b c, child n' b = Some c → is_Some (eachHelper c)) as Hall'.
  { intros b' c. rewrite Hupd. destruct (decide (b' = b)); [apply Hv|apply Hall]. }
  rewrite (leaves_inner n Hok Hall), (leaves_inner n' Hok' Hall'), Hk, Hk'.
  exists (concat (leaves <$> l1.*2)), (concat (leaves <$> l2.*2)).
  rewrite !fmap_app, !concat_app.
  split; f_equal; f_equal.
  - destruct (child n b); simpl; [by rewrite app_nil_r|done].
  - destruct v; simpl; [by rewrite app_nil_r|done].
Qed.

(** Every leaf of a well-formed subtree has a key that starts with the path. *)
Lemma wf_leaves_prefix p n :
  wf p n → ∀ l, l ∈ leaves n → nodeType l = LEAF ∧ p `prefix_of` key l.
Proof.
  induction 1 as [p n Hty Hp Hc|p q n Hok Hmin Hq Hch IH]; intros l Hl.
  - rewrite leaves_leaf in Hl by done. apply list_elem_of_singleton in Hl as ->. done.
  - rewrite (leaves_inner n Hok (wf_inner_total p q n Hch)) in Hl.
    apply elem_of_concat in Hl as (L & Hl & HL).
    apply list_elem_of_fmap in HL as (c & -> & Hc).
    apply list_elem_of_fmap in Hc as ([b c'] & -> & Hc).
    apply elem_of_tab in Hc. destruct (IH b c' Hc l Hl) as [? Hpre].
    split; [done|]. etrans; [|exact Hpre]. by apply prefix_app_r.
Qed.

Lemma wf_inner_leaves_prefix p q n l :
  node_ok n → (∀ b c, child n b = Some c → wf (p ++ q ++ [b]) c) →
  l ∈ leaves n → ∃ b c, child n b = Some c ∧ l ∈ leaves c ∧ (p ++ q ++ [b]) `prefix_of` key l.
Proof.
  intros Hok Hch Hl.
  rewrite (leaves_inner n Hok (wf_inner_total p q n Hch)) in Hl.
  apply elem_of_concat in Hl as (L & Hl & HL).
  apply list_elem_of_fmap in HL as (c & -> & Hc).
  apply list_elem_of_fmap in Hc as ([b c'] & -> & Hc).
  apply elem_of_tab in Hc. exists b, c'. split; [done|]. split; [done|].
  by apply (wf_leaves_prefix _ _ (Hch b c' Hc)).
Qed.

Lemma leaves_child n (b : byte) c l :
  node_ok n → (∀ b c, child n b = Some c → is_Some (eachHelper c)) →
  child n b = Some c → l ∈ leaves c → l ∈ leaves n.
Proof.
  intros Hok Hall Hc Hl. rewrite (leaves_inner n Hok Hall).
  apply elem_of_concat. exists (leaves c). split; [done|].
  apply list_elem_of_fmap. exists c. split; [done|].
  apply list_elem_of_fmap. exists (b, c). split; [done|]. by apply elem_of_tab.
Qed.

End subtrees.

(** ** Common prefixes *)

Lemma lcp_le_l (a b : list byte) : (lcp a b ≤ length a)%nat.
Proof.
  revert b. induction a as [|x a IH]; intros [|y b]; simpl; try lia.
  destruct (decide (x = y)); [|lia]. specialize (IH b). lia.
Qed.

Lemma lcp_le_r (a b : list byte) : (lcp a b ≤ length b)%nat.
Proof.
  revert b. induction a as [|x a IH]; intros [|y b]; simpl; try lia.
  destruct (decide (x = y)); [|lia]. specialize (IH b). lia.
Qed.

Lemma lcp_take (a b : list byte) : take (lcp a b) a = take (lcp a b) b.
Proof.
  revert b. induction a as [|x a IH]; intros [|y b]; simpl; try done.
  destruct (decide (x = y)) as [->|]; [|done]. simpl. by rewrite IH.
Qed.

Lemma lcp_differ (a b : list byte) x y :
  a !! lcp a b = Some x → b !! lcp a b = Some y → x ≠ y.
Proof.
  revert b. induction a as [|x' a IH]; intros [|y' b]; simpl; try done.
  destruct (decide (x' = y')) as [->|Hne]; simpl.
  - apply IH.
  - intros [= ->] [= ->]. done.
Qed.

Lemma lcp_unique (a b : list byte) (i : nat) :
  take i a = take i b → (i ≤ length a)%nat → (i ≤ length b)%nat →
  (i = length a ∨ i = length b ∨ a !! i ≠ b !! i) →
  lcp a b = i.
Proof.
  revert a b. induction i as [|i IH]; intros a b Ht Ha Hb Hend.
  - destruct a as [|x a], b as [|y b]; simpl in *; try done.
    destruct (decide (x = y)) as [->|]; [|done].
    destruct Hend as [?|[?|?]]; done.
  - destruct a as [|x a], b as [|y b]; simpl in *; try lia.
    injection Ht as -> Ht. rewrite decide_True by done. f_equal.
    apply IH; [done|lia|lia|]. destruct Hend as [?|[?|?]]; [left|right; left|right; right]; try lia. done.
Qed.

Lemma lcp_prefix_of (a b : list byte) : lcp a b = length a → a `prefix_of` b.
Proof.
  intros H. pose proof (lcp_take a b) as Ht. rewrite H, firstn_all in Ht.
  exists (drop (length a) b). rewrite <- (take_drop (length a) b) at 1. by f_equal.
Qed.

Lemma prefix_of_lcp (a b : list byte) : a `prefix_of` b → lcp a b = length a.
Proof.
  intros [r ->]. apply lcp_unique; [|lia|rewrite length_app; lia|by left].
  by rewrite take_app_le, firstn_all by lia.
Qed.

Lemma prefix_of_drop (p k : list byte) : p `prefix_of` k → k = p ++ drop (length p) k.
Proof. intros [r ->]. by rewrite drop_app_length. Qed.

Lemma prefix_of_lookup (p k : list byte) (i : nat) :
  p `prefix_of` k → (i < length p)%nat → k !! i = p !! i.
Proof. intros [r ->] ?. by rewrite lookup_app_l. Qed.

Section paths.
Context {V : Type}.
Abbreviation Node := (ArtNode V).
Implicit Types n c : Node.

Lemma MinSize_pos n : node_ok n → 2 ≤ MinSize n.
Proof.
  intros (_ & _ & H). unfold MinSize. destruct (nodeType n); try done;
    unfold NODE4MIN, NODE16MIN, NODE48MIN, NODE256MIN; lia.
Qed.

Lemma kids_nonempty n :
  node_ok n → MinSize n ≤ count n → ∃ b c rest, kids n = (b, c) :: rest.
Proof.
  intros Hok Hmin. pose proof (MinSize_pos n Hok). unfold count in Hmin.
  destruct (kids n) as [|[b c] rest]; [unfold len in Hmin; simpl in Hmin; lia|eauto].
Qed.

Lemma Minimum_wf p n : wf p n → ∃ l, Minimum n = Some (Some l) ∧ l ∈ leaves n.
Proof.
  induction 1 as [p n Hty Hp Hc|p q n Hok Hmin Hq Hch IH].
  - exists n. rewrite Minimum_unfold. cbv zeta. rewrite Hty.
    rewrite leaves_leaf by done. split; [done|]. by apply list_elem_of_singleton.
  - destruct (kids_nonempty n Hok Hmin) as (b & c & rest & Hk).
    pose proof (kids_head_child n b c rest Hk) as Hc.
    destruct (IH b c Hc) as (l & Hm & Hl). exists l.
    rewrite (Minimum_kids n b c rest Hok Hk). split; [done|].
    eapply leaves_child; eauto using wf_inner_total.
Qed.

Lemma Minimum_key_inner p q n :
  node_ok n → MinSize n ≤ count n →
  (∀ b c, child n b = Some c → wf (p ++ q ++ [b]) c) →
  ∃ mk, Minimum_key n = Some mk ∧ (p ++ q) `prefix_of` mk
        ∧ (length (p ++ q) < length mk)%nat.
Proof.
  intros Hok Hmin Hch.
  destruct (kids_nonempty n Hok Hmin) as (b & c & rest & Hk).
  pose proof (kids_head_child n b c rest Hk) as Hc.
  destruct (Minimum_wf _ c (Hch b c Hc)) as (l & Hm & Hl).
  destruct (wf_leaves_prefix _ c (Hch b c Hc) l Hl) as [_ Hpre].
  exists (key l). unfold Minimum_key. rewrite (Minimum_kids n b c rest Hok Hk), Hm. obind.
  split; [done|]. destruct Hpre as [r ->]. split.
  - exists ([b] ++ r). by rewrite <- !app_assoc.
  - rewrite !length_app. simpl. lia.
Qed.

(** [Minimum] reads neither the prefix fields nor the size of an inner node. *)
Lemma pfx_ok_lookup q n (i : nat) :
  pfx_ok q n → (i < length q)%nat → (i < 10)%nat → prefix n !! i = q !! i.
Proof.
  intros [_ Ht] Hi H10.
  transitivity (take (length q) (prefix n) !! i); [by rewrite lookup_take_lt|].
  rewrite <- Ht. by rewrite lookup_take_lt.
Qed.

Lemma PrefixMismatch_from_spec n (k q mk : list byte) (d : nat) :
  pfx_ok q n → Minimum_key n = Some mk → (d ≤ length mk)%nat →
  (∀ i, (i < length q)%nat → mk !! (d + i)%nat = q !! i) →
  ∀ fuel (i : nat) pfx,
    (i ≤ length q)%nat → (length q - i ≤ fuel)%nat →
    take i q = take i (drop d k) → (i ≤ length (drop d k))%nat →
    ((i < 10)%nat → pfx = prefix n) → ((10 ≤ i)%nat → pfx = drop d mk) →
    PrefixMismatch_from fuel n k (Z.of_nat d) (Z.of_nat i) pfx
    = Some (Z.of_nat (lcp q (drop d k))).
Proof.
  intros Hq Hmk Hd Hmkq. pose proof Hq as [Hlen _].
  induction fuel as [|fuel IH]; intros i pfx Hi Hfuel Ht Hik Hlo Hhi.
  - simpl. do 2 f_equal. symmetry. apply lcp_unique; [done|lia|done|left; lia].
  - simpl. rewrite <- Hlen. unfold len.
    destruct (decide (Z.of_nat i < Z.of_nat (length q) ∧
                      Z.of_nat d + Z.of_nat i < Z.of_nat (length k))) as [[H1 H2]|Hstop].
    + assert (i < length q)%nat as Hiq by lia.
      destruct (lookup_lt_is_Some_2 q i Hiq) as [qb Hqb].
      assert (is_Some (drop d k !! i)) as [kb Hkb].
      { apply lookup_lt_is_Some_2. rewrite length_drop. lia. }
      replace (Z.of_nat d + Z.of_nat i) with (Z.of_nat (d + i)) by lia.
      rewrite !aget_nat. rewrite lookup_drop in Hkb. rewrite Hkb. obind.
      assert (pfx !! i = Some qb) as Hpb.
      { destruct (decide (i < 10)%nat) as [Hs|Hb].
        - rewrite (Hlo Hs), (pfx_ok_lookup q n i Hq Hiq Hs). done.
        - rewrite (Hhi ltac:(lia)), lookup_drop, Hmkq by done. done. }
      rewrite Hpb. obind.
      destruct (decide (kb = qb)) as [->|Hne].
      * assert ((if decide (Z.of_nat i = MAX_PREFIX_LEN - 1)
                 then mk ← Minimum_key n; asuffix mk (Z.of_nat d)
                 else Some pfx) = Some (if decide (i = 9%nat) then drop d mk else pfx)) as ->.
        { unfold MAX_PREFIX_LEN. destruct (decide (i = 9%nat)) as [->|].
          - rewrite decide_True by lia. rewrite Hmk. obind.
            apply asuffix_Some. split; [unfold len; lia|]. by rewrite Nat2Z.id.
          - by rewrite decide_False by lia. }
        obind. replace (Z.of_nat i + 1) with (Z.of_nat (S i)) by lia.
        apply IH; [lia|lia| | | |].
        -- rewrite (take_S_r q i qb Hqb), (take_S_r (drop d k) i qb), Ht; [done|].
           by rewrite lookup_drop.
        -- rewrite length_drop. lia.
        -- intros Hs. rewrite decide_False by lia. apply Hlo. lia.
        -- intros Hb. destruct (decide (i = 9%nat)); [done|]. apply Hhi. lia.
      * do 2 f_equal. symmetry. apply lcp_unique; [done|lia|done|].
        right; right. rewrite Hqb, lookup_drop, Hkb. congruence.
    + do 2 f_equal. symmetry. apply lcp_unique; [done|lia|done|].
      rewrite length_drop in *. lia.
Qed.

(** [PrefixMismatch] on a well-formed inner node reached along [p]. *)
Lemma PrefixMismatch_spec p q n (k : list byte) :
  node_ok n → MinSize n ≤ count n → pfx_ok q n →
  (∀ b c, child n b = Some c → wf (p ++ q ++ [b]) c) →
  p `prefix_of` k →
  PrefixMismatch n k (Z.of_nat (length p))
  = Some (Z.of_nat (lcp q (drop (length p) k))).
Proof.
  intros Hok Hmin Hq Hch Hpk.
  destruct (Minimum_key_inner p q n Hok Hmin Hch) as (mk & Hmk & Hpre & Hlt).
  unfold PrefixMismatch. pose proof Hq as [Hlen _].
  assert (length p ≤ length mk)%nat as Hd by (rewrite length_app in Hlt; lia).
  assert (∀ i, (i < length q)%nat → mk !! (length p + i)%nat = q !! i) as Hmkq.
  { intros i Hi. rewrite (prefix_of_lookup (p ++ q) mk) by (rewrite ?length_app; done || lia).
    rewrite lookup_app_r by lia. f_equal. lia. }
  apply (PrefixMismatch_from_spec n k q mk (length p) Hq Hmk Hd Hmkq
           (Z.to_nat (prefixLen n)) 0%nat (prefix n)).
  - lia.
  - rewrite <- Hlen. unfold len. lia.
  - done.
  - lia.
  - done.
  - intros. lia.
Qed.

Lemma LongestCommonPrefix_from_spec (k1 k2 : list byte) (d : nat) (limit : Z) :
  limit = Z.min (len k1) (len k2) - Z.of_nat d →
  ∀ fuel (i : nat),
    (Z.to_nat limit - i ≤ fuel)%nat →
    take i (drop d k1) = take i (drop d k2) → Z.of_nat i ≤ limit ∨ i = 0%nat →
    (i ≤ length (drop d k1))%nat → (i ≤ length (drop d k2))%nat →
    LongestCommonPrefix_from fuel (Z.of_nat i) limit k1 k2 (Z.of_nat d)
    = Some (Z.of_nat (lcp (drop d k1) (drop d k2))) ∨
    (limit < 0 ∧ LongestCommonPrefix_from fuel (Z.of_nat i) limit k1 k2 (Z.of_nat d) = Some 0).
Proof.
  intros Hlim. unfold len in Hlim.
  induction fuel as [|fuel IH]; intros i Hfuel Ht Hi H1 H2.
  - simpl. destruct (decide (limit < 0)) as [Hneg|Hpos].
    + right. split; [done|]. do 2 f_equal. lia.
    + left. do 2 f_equal. symmetry. apply lcp_unique; [done..|].
      rewrite !length_drop in *. lia.
  - simpl. destruct (decide (Z.of_nat i < limit)) as [Hlt|Hge].
    + left.
      replace (Z.of_nat d + Z.of_nat i) with (Z.of_nat (d + i)) by lia.
      rewrite !aget_nat.
      destruct (lookup_lt_is_Some_2 k1 (d + i)) as [a Ha]; [lia|].
      destruct (lookup_lt_is_Some_2 k2 (d + i)) as [b Hb]; [lia|].
      rewrite Ha, Hb. obind.
      destruct (decide (a ≠ b)) as [Hne|Heq].
      * do 2 f_equal. symmetry. apply lcp_unique; [done..|].
        right; right. rewrite !lookup_drop, Ha, Hb. congruence.
      * assert (a = b) as -> by (by destruct (decide (a = b))).
        replace (Z.of_nat i + 1) with (Z.of_nat (S i)) by lia.
        destruct (IH (S i)) as [IH'|[? _]]; [lia| |lia|rewrite length_drop; lia|rewrite length_drop; lia|done|lia].
        rewrite (take_S_r (drop d k1) i b), (take_S_r (drop d k2) i b), Ht;
          [done|by rewrite lookup_drop..].
    + destruct (decide (limit < 0)) as [Hneg|Hpos].
      * right. split; [done|]. do 2 f_equal. lia.
      * left. do 2 f_equal. symmetry. apply lcp_unique; [done..|].
        rewrite !length_drop in *. lia.
Qed.

Lemma LongestCommonPrefix_spec n (k : list byte) v (p : list byte) :
  p `prefix_of` key n → p `prefix_of` k →
  LongestCommonPrefix n (NewLeafNode k v) (Z.of_nat (length p))
  = Some (Z.of_nat (lcp (drop (length p) (key n)) (drop (length p) k))).
Proof.
  intros H1 H2. unfold LongestCommonPrefix. simpl key.
  apply prefix_length in H1, H2.
  destruct (LongestCommonPrefix_from_spec (key n) k (length p)
              (Z.min (len (key n)) (len k) - Z.of_nat (length p)) eq_refl
              (Z.to_nat (Z.min (len (key n)) (len k) - Z.of_nat (length p))) 0)
    as [H|[Hneg _]]; [lia|done|lia|lia|lia|exact H|unfold len in Hneg; lia].
Qed.

End paths.

(** ** Search *)

Section search.
Context {V : Type}.
Abbreviation Node := (ArtNode V).
Implicit Types n c : Node.

Lemma searchHelper_unfold n (k : list byte) (depth : Z) :
  searchHelper n k depth =
    let maxKeyIndex := len k - 1 in
    let descend := fun depth : Z =>
      kb ← aget k depth;
      slot ← FindChild n kb;
      match slot with
      | None => Some None
      | Some i => r ← at_index (search_sub k (depth + 1)) (children n) i; r
      end in
    if decide (depth > maxKeyIndex) then Some (Some n)
    else if IsLeaf n && bool_decide (len k ≤ len (key n))
            && bool_decide (k = take (length k) (key n))
    then Some (Some n)
    else
      prefixMismatch ← PrefixMismatch n k depth;
      if decide (prefixMismatch = prefixLen n) then
        let depth := depth + prefixLen n in
        if decide (depth > maxKeyIndex) then Some (Some n)
        else descend depth
      else if decide (prefixMismatch = len k - depth) then Some (Some n)
      else Some None.
Proof. destruct n. reflexivity. Qed.

(** The slot of a present child. *)
Lemma FindChild_present n (b : byte) c :
  node_ok n → child n b = Some c →
  ∃ i, FindChild n b = Some (Some i) ∧ aget (children n) i = Some (Some c).
Proof.
  intros Hok Hc. destruct (FindChild_total n b Hok) as [[i|] HF].
  - destruct (FindChild_slot n b i HF) as (co & Hco & Hch). exists i. split; [done|].
    congruence.
  - apply FindChild_none in HF. congruence.
Qed.

Lemma IsLeaf_true n : nodeType n = LEAF → IsLeaf n = true.
Proof. intros H. unfold IsLeaf. by rewrite bool_decide_eq_true_2. Qed.

Lemma IsLeaf_false n : nodeType n ≠ LEAF → IsLeaf n = false.
Proof. intros H. unfold IsLeaf. by rewrite bool_decide_eq_false_2. Qed.

Lemma prefix_of_aget (p k : list byte) (b : byte) :
  (p ++ [b]) `prefix_of` k → aget k (Z.of_nat (length p)) = Some b.
Proof.
  intros [r ->]. rewrite aget_nat, <- app_assoc. by rewrite lookup_app_r, Nat.sub_diag by lia.
Qed.

(** A stored key is found at its leaf. *)
Lemma searchHelper_found p n :
  wf p n → ∀ l, l ∈ leaves n → p `prefix_of` key l →
  searchHelper n (key l) (Z.of_nat (length p)) = Some (Some l).
Proof.
  induction 1 as [p n Hty Hp Hc|p q n Hok Hmin Hq Hch IH]; intros l Hl Hpk.
  - rewrite leaves_leaf in Hl by done. apply list_elem_of_singleton in Hl as ->.
    rewrite searchHelper_unfold. cbv zeta.
    destruct (decide _); [done|]. rewrite IsLeaf_true by done.
    rewrite bool_decide_eq_true_2 by lia.
    rewrite bool_decide_eq_true_2 by (by rewrite firstn_all). done.
  - destruct (wf_inner_leaves_prefix p q n l Hok Hch Hl) as (b & c & Hc & Hlc & Hpre).
    pose proof Hq as [Hlen _].
    assert (length (p ++ q ++ [b]) ≤ length (key l))%nat as Hlk by (by apply prefix_length).
    rewrite !length_app in Hlk. simpl in Hlk.
    rewrite searchHelper_unfold. cbv zeta.
    rewrite decide_False by (unfold len; lia).
    rewrite (IsLeaf_false n) by (by apply node_ok_inner). simpl andb. cbv iota.
    rewrite (PrefixMismatch_spec p q n (key l) Hok Hmin Hq Hch Hpk). obind.
    assert (q `prefix_of` drop (length p) (key l)) as Hqk.
    { destruct Hpre as [r ->]. rewrite <- !app_assoc, drop_app_length. by eexists. }
    rewrite (prefix_of_lcp _ _ Hqk).
    rewrite decide_True by (unfold len in Hlen; lia).
    rewrite decide_False by (unfold len in *; lia).
    replace (Z.of_nat (length p) + prefixLen n) with (Z.of_nat (length (p ++ q)))
      by (rewrite length_app; unfold len in Hlen; lia).
    rewrite (prefix_of_aget (p ++ q) (key l) b) by (by rewrite <- app_assoc). obind.
    destruct (FindChild_present n b c Hok Hc) as (i & -> & Hi). obind.
    rewrite at_index_fmap, Hi. simpl.
    replace (Z.of_nat (length (p ++ q)) + 1) with (Z.of_nat (length (p ++ q ++ [b])))
      by (rewrite !length_app; simpl; lia).
    by apply IH.
Qed.

(** Whatever leaf [searchHelper] returns is a leaf of the subtree. *)
Lemma searchHelper_sound p n :
  wf p n → ∀ (k : list byte) depth x,
  searchHelper n k depth = Some (Some x) → nodeType x = LEAF → x ∈ leaves n.
Proof.
  induction 1 as [p n Hty Hp Hc|p q n Hok Hmin Hq Hch IH]; intros k depth x Hs Hx.
  - rewrite leaves_leaf by done. apply list_elem_of_singleton.
    rewrite searchHelper_unfold in Hs. cbv zeta in Hs.
    assert (∀ d, (kb ← aget k d; slot ← FindChild n kb;
                  match slot with
                  | None => Some None
                  | Some i => r ← at_index (search_sub k (d + 1)) (children n) i; r
                  end) ≠ Some (Some x)) as Hdesc.
    { intros d. destruct (aget k d) as [kb|]; [|done]. obind.
      unfold FindChild. rewrite Hty. obind. done. }
    destruct (decide _); [by injection Hs|].
    destruct (_ && _); [by injection Hs|].
    destruct (PrefixMismatch n k depth) as [m|]; [|done]. revert Hs. obind.
    destruct (decide (m = prefixLen n)).
    + destruct (decide _); [by intros [=]|]. intros Hs. by apply Hdesc in Hs.
    + destruct (decide _); [by intros [=]|done].
  - assert (x ≠ n) as Hne.
    { intros ->. by apply node_ok_inner in Hok. }
    rewrite searchHelper_unfold in Hs. cbv zeta in Hs.
    destruct (decide _); [by injection Hs|].
    destruct (_ && _); [by injection Hs|].
    destruct (PrefixMismatch n k depth) as [m|]; [|done]. revert Hs. obind.
    destruct (decide (m = prefixLen n)).
    + destruct (decide _); [by intros [=]|].
      destruct (aget k _) as [kb|]; [|done]. obind.
      destruct (FindChild n kb) as [[i|]|] eqn:HF; [|done..]. obind.
      destruct (FindChild_slot n kb i HF) as (co & Hco & Hchild).
      rewrite at_index_fmap, Hco. simpl. destruct co as [c|]; simpl; [|done].
      intros Hs. eapply leaves_child; eauto using wf_inner_total.
    + destruct (decide _); [by intros [=]|done].
Qed.

End search.

(** ** The prefix arrays written by [insertHelper] *)

Lemma memcpy_ten (P0 X : list byte) (m : Z) :
  length P0 = 10%nat → 0 ≤ m →
  memcpy P0 X m
  = take (Z.to_nat (Z.min m (Z.min (len X) 10))) X
    ++ drop (Z.to_nat (Z.min m (Z.min (len X) 10))) P0.
Proof.
  intros H0 Hm. rewrite memcpy_spec. unfold memcpy_count, len. rewrite H0. done.
Qed.

(** The prefix of a fresh node above a leaf: [memcpy(prefix, key[depth:], min(limit, 10))]. *)
Lemma pfx_new_leaf (P0 X : list byte) (m : nat) :
  length P0 = 10%nat → (m ≤ length X)%nat →
  let P := memcpy P0 X (Z.min (Z.of_nat m) MAX_PREFIX_LEN) in
  length P = 10%nat ∧ take 10 (take m X) = take (length (take m X)) P.
Proof.
  intros H0 Hm P. split; [unfold P; by rewrite memcpy_length|].
  unfold P, MAX_PREFIX_LEN. rewrite memcpy_ten by (done || lia). unfold len.
  rewrite length_take, take_take.
  replace (m `min` length X)%nat with m by lia.
  destruct (decide (m ≤ 10)%nat).
  - replace (Z.to_nat _) with m by lia.
    rewrite take_app_le by (rewrite length_take; lia).
    rewrite take_take. f_equal. lia.
  - replace (Z.to_nat _) with 10%nat by lia.
    rewrite (drop_ge P0) by lia. rewrite app_nil_r.
    rewrite take_take. f_equal. lia.
Qed.

(** The prefix of a fresh node above a split inner node:
    [memcpy(prefix, current.prefix, mismatch)]. *)
Lemma pfx_new_split (P0 P q : list byte) (m : nat) :
  length P0 = 10%nat → length P = 10%nat → (m ≤ length q)%nat →
  take 10 q = take (length q) P →
  let P' := memcpy P0 P (Z.of_nat m) in
  length P' = 10%nat ∧ take 10 (take m q) = take (length (take m q)) P'.
Proof.
  intros H0 H1 Hm Hq P'. split; [unfold P'; by rewrite memcpy_length|].
  unfold P'. rewrite memcpy_ten by (done || lia). unfold len. rewrite H1.
  rewrite length_take, take_take.
  replace (m `min` length q)%nat with m by lia.
  assert (take (10 `min` m) q = take (10 `min` m) P) as E.
  { transitivity (take (10 `min` m) (take 10 q)); [rewrite take_take; f_equal; lia|].
    rewrite Hq, take_take. f_equal. lia. }
  rewrite E.
  destruct (decide (m ≤ 10)%nat).
  - replace (Z.to_nat _) with m by lia.
    rewrite take_app_le by (rewrite length_take; lia).
    rewrite take_take. f_equal. lia.
  - replace (Z.to_nat _) with 10%nat by lia.
    rewrite (drop_ge P0) by lia. rewrite app_nil_r.
    rewrite take_take. f_equal. lia.
Qed.

(** [memmove], reading a source that the writes made so far leave intact. *)
Lemma memmove_from_spec (P Src : list byte) (rd : list byte → Z → option byte) (cnt : nat) :
  (cnt ≤ length P)%nat → (cnt ≤ length Src)%nat →
  (∀ i, (i < cnt)%nat → rd (take i Src ++ drop i P) (Z.of_nat i) = Src !! i) →
  ∀ fuel (i : nat), (cnt - i ≤ fuel)%nat → (i ≤ cnt)%nat →
    memmove_from fuel (Z.of_nat i) (take i Src ++ drop i P) rd (Z.of_nat cnt)
    = Some (take cnt Src ++ drop cnt P).
Proof.
  intros HP HS Hrd. induction fuel as [|fuel IH]; intros i Hfuel Hi.
  - simpl. replace i with cnt by lia. done.
  - simpl. destruct (decide (Z.of_nat i < Z.of_nat cnt)) as [Hlt|Hge].
    + rewrite Hrd by lia.
      destruct (lookup_lt_is_Some_2 Src i) as [x Hx]; [lia|]. rewrite Hx. obind.
      rewrite aset_nat by (rewrite length_app, length_take, length_drop; lia). obind.
      replace (Z.of_nat i + 1) with (Z.of_nat (S i)) by lia.
      assert (<[i:=x]> (take i Src ++ drop i P) = take (S i) Src ++ drop (S i) P) as ->.
      { rewrite (take_S_r Src i x Hx), <- app_assoc. simpl.
        replace i with (length (take i Src) + 0)%nat at 1 by (rewrite length_take; lia).
        rewrite insert_app_r.
        destruct (lookup_lt_is_Some_2 P i) as [y Hy]; [lia|].
        rewrite (drop_S P y i Hy). done. }
      apply IH; lia.
    + replace i with cnt by lia. done.
Qed.

Lemma memmove_spec (P Src : list byte) (rd : list byte → Z → option byte) (cnt : Z) :
  0 ≤ cnt ≤ len P → cnt ≤ len Src →
  (∀ i, (i < Z.to_nat cnt)%nat → rd (take i Src ++ drop i P) (Z.of_nat i) = Src !! i) →
  memmove P rd cnt = Some (take (Z.to_nat cnt) Src ++ drop (Z.to_nat cnt) P).
Proof.
  intros HP HS Hrd. unfold memmove, len in *.
  pose proof (memmove_from_spec P Src rd (Z.to_nat cnt) ltac:(lia) ltac:(lia) Hrd
                (Z.to_nat cnt) 0%nat ltac:(lia) ltac:(lia)) as H.
  rewrite Z2Nat.id in H by lia. exact H.
Qed.

(** The remaining path of a split node, whose stored prefix is complete:
    [memmove(prefix, prefix[mismatch+1:], min(prefixLen, 10))]. *)
Lemma pfx_split_short (P q : list byte) (m : nat) :
  length P = 10%nat → (m < length q)%nat → (length q < 10)%nat →
  take 10 q = take (length q) P →
  ∃ P', memmove P (fun d j => aget d (Z.of_nat m + 1 + j))
          (Z.min (Z.of_nat (length q) - (Z.of_nat m + 1)) MAX_PREFIX_LEN) = Some P'
        ∧ length P' = 10%nat
        ∧ take 10 (drop (S m) q) = take (length (drop (S m) q)) P'.
Proof.
  intros H1 Hm Hlt Hq. unfold MAX_PREFIX_LEN.
  rewrite Z.min_l by lia.
  assert (q = take (length q) P) as Eq.
  { rewrite <- Hq. symmetry. apply take_ge. lia. }
  rewrite (memmove_spec P (drop (S m) P)).
  - eexists. split; [done|]. split.
    + rewrite length_app, length_take, !length_drop. lia.
    + rewrite length_drop.
      replace (Z.to_nat (Z.of_nat (length q) - (Z.of_nat m + 1))) with (length q - S m)%nat by lia.
      rewrite take_app_le by (rewrite length_take, length_drop; lia).
      rewrite take_take, Nat.min_id.
      rewrite (take_ge (drop (S m) q)) by (rewrite length_drop; lia).
      rewrite Eq at 1. rewrite <- skipn_firstn_comm. done.
  - unfold len. lia.
  - unfold len. rewrite length_drop. lia.
  - intros i Hi.
    replace (Z.of_nat m + 1 + Z.of_nat i) with (Z.of_nat (S m + i)) by lia.
    rewrite aget_nat, lookup_drop.
    rewrite lookup_app_r by (rewrite length_take, length_drop; lia).
    rewrite length_take, length_drop, lookup_drop.
    f_equal. lia.
Qed.

(** The remaining path of a split node, read from the key of its least leaf:
    [memmove(prefix, minKey[depth+mismatch+1:], min(prefixLen, 10))]. *)
Lemma pfx_split_long (P q src : list byte) (m : nat) :
  length P = 10%nat → (m < length q)%nat →
  drop (S m) q `prefix_of` src →
  ∃ P', memmove P (fun _ j => aget src j)
          (Z.min (Z.of_nat (length q) - (Z.of_nat m + 1)) MAX_PREFIX_LEN) = Some P'
        ∧ length P' = 10%nat
        ∧ take 10 (drop (S m) q) = take (length (drop (S m) q)) P'.
Proof.
  intros H1 Hm Hsrc. unfold MAX_PREFIX_LEN.
  pose proof (prefix_length _ _ Hsrc) as Hls. rewrite length_drop in Hls.
  rewrite (memmove_spec P src).
  - eexists. split; [done|]. split.
    + rewrite length_app, length_take, !length_drop. lia.
    + rewrite length_drop. destruct Hsrc as [r Hr].
      destruct (decide (length q - S m ≤ 10)%nat).
      * replace (Z.to_nat _) with (length q - S m)%nat by lia.
        rewrite take_app_le by (rewrite length_take; lia).
        rewrite take_take, Nat.min_id.
        rewrite (take_ge (drop (S m) q)) by (rewrite length_drop; lia).
        rewrite Hr, take_app_le by (rewrite length_drop; lia).
        symmetry. apply take_ge. rewrite length_drop. lia.
      * replace (Z.to_nat _) with 10%nat by lia.
        rewrite (drop_ge P) by lia. rewrite app_nil_r.
        rewrite take_take. replace ((length q - S m) `min` 10)%nat with 10%nat by lia.
        rewrite Hr, take_app_le by (rewrite length_drop; lia). done.
  - unfold len. lia.
  - unfold len. lia.
  - intros i Hi. by rewrite aget_nat.
Qed.

(** ** Insertion: the new nodes *)

Section insert_nodes.
Context {V : Type}.
Abbreviation Node := (ArtNode V).
Implicit Types n c : Node.

Lemma IsMatch_true n (k : list byte) :
  IsMatch n k = true ↔ nodeType n = LEAF ∧ key n = k.
Proof.
  unfold IsMatch. destruct (decide (nodeType n ≠ LEAF)) as [H|H].
  - split; [done|]. by intros [? _].
  - rewrite bool_decide_eq_true. split; [|by intros [_ ?]].
    intros ?. split; [|done]. by destruct (decide (nodeType n = LEAF)).
Qed.

Lemma IsMatch_false n (k : list byte) :
  nodeType n = LEAF → IsMatch n k = false → key n ≠ k.
Proof.
  intros Hty Hm E. assert (IsMatch n k = true) by (by apply IsMatch_true). congruence.
Qed.

Lemma prefix_ext (p kk q0 : list byte) (m : nat) (b : byte) :
  p `prefix_of` kk → take m (drop (length p) kk) = q0 →
  drop (length p) kk !! m = Some b →
  (p ++ q0 ++ [b]) `prefix_of` kk.
Proof.
  intros Hp <- Hb. rewrite (prefix_of_drop p kk Hp) at 2.
  apply prefix_app. exists (drop (S m) (drop (length p) kk)).
  rewrite <- app_assoc. simpl. symmetry. by apply take_drop_middle.
Qed.

Lemma leaves_ext n n' :
  node_ok n → node_ok n' → (∀ b, child n' b = child n b) →
  (∀ b c, child n b = Some c → is_Some (eachHelper c)) →
  leaves n' = leaves n.
Proof.
  intros Hok Hok' Hsame Hall.
  rewrite (leaves_inner n Hok Hall), (leaves_inner n' Hok').
  - unfold kids. by rewrite (tab_ext (child n') (child n) Hsame).
  - intros b c. rewrite Hsame. apply Hall.
Qed.

Lemma concat_Permutation {A} (l1 l2 : list (list A)) :
  l1 ≡ₚ l2 → concat l1 ≡ₚ concat l2.
Proof.
  induction 1 as [|x l1 l2 _ IH|x y l|l1 l2 l3 _ IH1 _ IH2]; simpl.
  - done.
  - by rewrite IH.
  - rewrite !app_assoc. f_equiv. apply Permutation_app_comm.
  - by rewrite IH1.
Qed.

Lemma leaves_two n' (b1 b2 : byte) c1 c2 :
  node_ok n' → b1 ≠ b2 →
  (∀ b, child n' b = if decide (b = b2) then Some c2
                     else if decide (b = b1) then Some c1 else None) →
  is_Some (eachHelper c1) → is_Some (eachHelper c2) →
  leaves n' ≡ₚ leaves c2 ++ leaves c1.
Proof.
  intros Hok Hne Hch H1 H2.
  rewrite (leaves_inner n' Hok).
  2:{ intros b c. rewrite Hch. repeat case_decide; by intros [= <-]. }
  assert (kids n' ≡ₚ [(b2, c2); (b1, c1)]) as Hk.
  { apply NoDup_Permutation.
    - apply key_lt_NoDup, kids_sorted_tab.
    - apply NoDup_cons. split; [|apply NoDup_singleton].
      intros ?%list_elem_of_singleton. congruence.
    - intros [b c]. unfold kids. rewrite elem_of_tab, Hch.
      rewrite elem_of_cons, list_elem_of_singleton. split.
      + repeat case_decide; intros [= <-]; subst; auto.
      + intros [[= -> ->]|[= -> ->]].
        * by rewrite decide_True.
        * rewrite decide_False by done. by rewrite decide_True. }
  rewrite (concat_Permutation _ (leaves <$> [(b2, c2); (b1, c1)].*2)).
  - simpl. by rewrite app_nil_r.
  - by rewrite Hk.
Qed.

End insert_nodes.

(** ** Insertion: splitting a leaf or a compressed path *)

Section insert_split.
Context {V : Type}.
Abbreviation Node := (ArtNode V).
Implicit Types n c : Node.

Lemma insertHelper_unfold n (k : list byte) (v : option V) (depth tsize : Z) :
  insertHelper n k v depth tsize =
  if IsLeaf n then
    if IsMatch n k then Some (n, tsize)
    else
      limit ← LongestCommonPrefix n (NewLeafNode k v) depth;
      ksuf ← asuffix k depth;
      b1 ← aget (key n) (depth + limit);
      newNode4 ← AddChild (set_prefix (set_prefixLen NewNode4 limit)
                             (memcpy (make 10 x00) ksuf (Z.min limit MAX_PREFIX_LEN))) b1 n;
      b2 ← aget k (depth + prefixLen newNode4);
      newNode4 ← AddChild newNode4 b2 (NewLeafNode k v);
      Some (newNode4, tsize + 1)
  else
    step ← (if decide (prefixLen n ≠ 0) then
              mismatch ← PrefixMismatch n k depth;
              if decide (mismatch ≠ prefixLen n) then
                newNode4 ← insert_split n k v depth mismatch;
                Some (inl (newNode4, tsize + 1))
              else Some (inr (depth + prefixLen n))
            else Some (inr depth));
    match step with
    | inl r => Some r
    | inr depth =>
        kb ← aget k depth;
        next ← FindChild n kb;
        let add :=
          n' ← AddChild n kb (NewLeafNode k v);
          Some (n', tsize + 1) in
        match next with
        | Some i =>
            r ← at_index (insert_sub k v (depth + 1) tsize) (children n) i;
            match r with
            | Some rec =>
                '(c', tsize') ← rec;
                cs' ← aset (children n) i (Some c');
                Some (set_children n cs', tsize')
            | None => add
            end
        | None => add
        end
    end.
Proof. destruct n. reflexivity. Qed.

Lemma NewLeaf_wf (p k : list byte) (v : option V) :
  p `prefix_of` k → wf p (NewLeafNode k v).
Proof. intros. by apply wf_leaf. Qed.

Lemma leaves_NewLeaf (k : list byte) (v : option V) :
  leaves (NewLeafNode k v) = [NewLeafNode k v].
Proof. by apply leaves_leaf. Qed.

(** An existing leaf is replaced by a NODE4 holding it and the new leaf. *)
Lemma insertHelper_leaf p n (k : list byte) (v : option V) (s : Z) :
  nodeType n = LEAF → children n = [] → p `prefix_of` key n → p `prefix_of` k →
  key n ≠ k →
  match insertHelper n k v (Z.of_nat (length p)) s with
  | Some (n', s') => s' = s + 1 ∧ wf p n' ∧ leaves n' ≡ₚ NewLeafNode k v :: leaves n
  | None => key n `prefix_of` k ∨ k `prefix_of` key n
  end.
Proof.
  intros Hty Hcs Hpn Hpk Hne.
  rewrite insertHelper_unfold, (IsLeaf_true n Hty).
  assert (IsMatch n k = false) as ->.
  { destruct (IsMatch n k) eqn:E; [|done]. apply IsMatch_true in E as [_ ?]. done. }
  rewrite (LongestCommonPrefix_spec n k v p Hpn Hpk). obind.
  set (Y := drop (length p) (key n)). set (X := drop (length p) k). set (m := lcp Y X).
  pose proof (prefix_length _ _ Hpn) as Hln. pose proof (prefix_length _ _ Hpk) as Hlk.
  assert (asuffix k (Z.of_nat (length p)) = Some X) as ->.
  { apply asuffix_Some. split; [unfold len; lia|]. by rewrite Nat2Z.id. }
  obind. replace (Z.of_nat (length p) + Z.of_nat m) with (Z.of_nat (length p + m)) by lia.
  rewrite aget_nat.
  pose proof (lcp_le_l Y X) as HmY. pose proof (lcp_le_r Y X) as HmX. fold m in HmY, HmX.
  pose proof (lcp_take Y X) as Htake. fold m in Htake.
  destruct (key n !! (length p + m)%nat) as [b1|] eqn:Hb1.
  2:{ left. apply lookup_ge_None in Hb1.
      assert (m = length Y) as Hm by (unfold Y in *; rewrite length_drop in *; lia).
      apply lcp_prefix_of in Hm. rewrite (prefix_of_drop p (key n) Hpn), (prefix_of_drop p k Hpk).
      by apply prefix_app. }
  obind.
  destruct (pfx_new_leaf (make 10 x00) X m eq_refl HmX) as [HlenP HtakeP].
  destruct (NewNode4_two (Z.of_nat m) _ b1 n HlenP ltac:(lia)) as (n1 & -> & Hpl1 & Hsecond).
  obind. rewrite Hpl1.
  replace (Z.of_nat (length p) + Z.of_nat m) with (Z.of_nat (length p + m)) by lia.
  rewrite aget_nat.
  destruct (k !! (length p + m)%nat) as [b2|] eqn:Hb2.
  2:{ right. apply lookup_ge_None in Hb2.
      assert (m = length X) as Hm by (unfold X in *; rewrite length_drop in *; lia).
      assert (lcp X Y = length X) as Hm'.
      { apply lcp_unique; [by rewrite <- Hm|lia|lia|by left]. }
      apply lcp_prefix_of in Hm'. rewrite (prefix_of_drop p (key n) Hpn), (prefix_of_drop p k Hpk).
      by apply prefix_app. }
  obind.
  assert (Y !! m = Some b1) as HY by (unfold Y; by rewrite lookup_drop).
  assert (X !! m = Some b2) as HX by (unfold X; by rewrite lookup_drop).
  assert (b1 ≠ b2) as Hb by (by apply (lcp_differ Y X)).
  destruct (Hsecond b2 (NewLeafNode k v) Hb) as (n' & -> & Hok & Hmin & Hch & Hp' & Hpl').
  split; [done|]. split.
  - apply (wf_inner p (take m X) n'); [done|done| |].
    + split; [unfold len; rewrite Hpl', length_take; lia|]. by rewrite Hp'.
    + intros b c. rewrite Hch. destruct (decide (b = b2)) as [->|].
      * intros [= <-]. apply NewLeaf_wf. by apply (prefix_ext p k _ m).
      * destruct (decide (b = b1)) as [->|]; [|done]. intros [= <-].
        apply wf_leaf; [done| |done]. by apply (prefix_ext p (key n) _ m).
  - rewrite (leaves_two n' b1 b2 n (NewLeafNode k v) Hok Hb Hch).
    + by rewrite leaves_NewLeaf.
    + by rewrite eachHelper_leaf.
    + by rewrite eachHelper_leaf.
Qed.

Lemma Minimum_key_set_prefixLen n (x : Z) :
  Minimum_key (set_prefixLen n x) = Minimum_key n.
Proof.
  unfold Minimum_key.
  rewrite (Minimum_unfold (set_prefixLen n x)), (Minimum_unfold n). cbv zeta.
  change (nodeType (set_prefixLen n x)) with (nodeType n).
  destruct (nodeType n); reflexivity.
Qed.

(** The node [current] after [insertHelper] has cut its compressed path
    behind position [m]. *)
Lemma split_current p q n (m : nat) :
  node_ok n → MinSize n ≤ count n → pfx_ok q n →
  (∀ b c, child n b = Some c → wf (p ++ q ++ [b]) c) →
  (m < length q)%nat →
  ∃ (b : byte) P',
    q !! m = Some b ∧ length P' = 10%nat
    ∧ take 10 (drop (S m) q) = take (length (drop (S m) q)) P'
    ∧ (if decide (prefixLen n < MAX_PREFIX_LEN) then
         b ← aget (prefix n) (Z.of_nat m);
         let current' := set_prefixLen n (prefixLen n - (Z.of_nat m + 1)) in
         _ ← asuffix (prefix current') (Z.of_nat m + 1);
         p ← memmove (prefix current') (fun d j => aget d (Z.of_nat m + 1 + j))
               (Z.min (prefixLen current') MAX_PREFIX_LEN);
         Some (b, set_prefix current' p)
       else
         let current' := set_prefixLen n (prefixLen n - (Z.of_nat m + 1)) in
         minKey ← Minimum_key current';
         b ← aget minKey (Z.of_nat (length p) + Z.of_nat m);
         src ← asuffix minKey (Z.of_nat (length p) + Z.of_nat m + 1);
         p ← memmove (prefix current') (fun _ j => aget src j)
               (Z.min (prefixLen current') MAX_PREFIX_LEN);
         Some (b, set_prefix current' p))
      = Some (b, set_prefix (set_prefixLen n (prefixLen n - (Z.of_nat m + 1))) P').
Proof.
  intros Hok Hmin Hq Hch Hm. pose proof Hq as [Hlen Htake].
  pose proof Hok as (HlP & _). unfold len in Hlen.
  destruct (lookup_lt_is_Some_2 q m Hm) as [b Hb]. exists b.
  cbv zeta.
  change (prefix (set_prefixLen n (prefixLen n - (Z.of_nat m + 1)))) with (prefix n).
  change (prefixLen (set_prefixLen n (prefixLen n - (Z.of_nat m + 1))))
    with (prefixLen n - (Z.of_nat m + 1)).
  rewrite <- Hlen.
  destruct (decide (Z.of_nat (length q) < MAX_PREFIX_LEN)) as [Hshort|Hlong].
  - unfold MAX_PREFIX_LEN in Hshort.
    destruct (pfx_split_short (prefix n) q m HlP Hm ltac:(lia) Htake) as (P' & HP' & Hl' & Ht').
    exists P'. split; [done|]. split; [done|]. split; [done|].
    rewrite aget_nat, (pfx_ok_lookup q n m Hq Hm ltac:(lia)), Hb. obind.
    assert (is_Some (asuffix (prefix n) (Z.of_nat m + 1))) as [? ->].
    { eexists. apply asuffix_Some. split; [unfold len; lia|done]. }
    obind. rewrite HP'. done.
  - destruct (Minimum_key_inner p q n Hok Hmin Hch) as (mk & Hmk & Hpre & Hlt).
    assert (Minimum_key (set_prefixLen n (Z.of_nat (length q) - (Z.of_nat m + 1))) = Some mk) as ->.
    { by rewrite Minimum_key_set_prefixLen. }
    obind. rewrite length_app in Hlt.
    destruct Hpre as [r Hr].
    assert (drop (length p + S m) mk = drop (S m) q ++ r) as Hsrc.
    { rewrite Hr, <- app_assoc, drop_app_add', drop_app_le by lia. done. }
    destruct (pfx_split_long (prefix n) q (drop (length p + S m) mk) m HlP Hm)
      as (P' & HP' & Hl' & Ht'); [rewrite Hsrc; by eexists|].
    exists P'. split; [done|]. split; [done|]. split; [done|].
    replace (Z.of_nat (length p) + Z.of_nat m) with (Z.of_nat (length p + m)) by lia.
    rewrite aget_nat.
    assert (mk !! (length p + m)%nat = Some b) as ->.
    { rewrite Hr, <- app_assoc, lookup_app_r by lia.
      replace (length p + m - length p)%nat with m by lia.
      by rewrite lookup_app_l by lia. }
    obind.
    assert (asuffix mk (Z.of_nat (length p + m) + 1) = Some (drop (length p + S m) mk)) as ->.
    { apply asuffix_Some. split; [unfold len; lia|]. f_equal. lia. }
    obind. rewrite HP'. done.
Qed.

End insert_split.

(** ** Insertion *)

Section insert.
Context {V : Type}.
Abbreviation Node := (ArtNode V).
Implicit Types n c : Node.

Lemma prefix_snoc (pp k : list byte) (b : byte) :
  pp `prefix_of` k → k !! length pp = Some b → (pp ++ [b]) `prefix_of` k.
Proof.
  intros Hp Hb. apply (prefix_ext pp k [] 0 b Hp); [done|].
  by rewrite lookup_drop, Nat.add_0_r.
Qed.

Lemma prefix_byte_inj (pp k : list byte) (a b : byte) :
  (pp ++ [a]) `prefix_of` k → (pp ++ [b]) `prefix_of` k → a = b.
Proof.
  intros [r1 ->] [r2 E]. rewrite <- !app_assoc in E.
  apply app_inv_head in E. by injection E.
Qed.

Lemma inner_has_leaf p q n :
  node_ok n → MinSize n ≤ count n →
  (∀ b c, child n b = Some c → wf (p ++ q ++ [b]) c) →
  ∃ l, l ∈ leaves n ∧ (p ++ q) `prefix_of` key l ∧ (length (p ++ q) < length (key l))%nat.
Proof.
  intros Hok Hmin Hch.
  destruct (kids_nonempty n Hok Hmin) as (b & c & rest & Hk).
  pose proof (kids_head_child n b c rest Hk) as Hc.
  destruct (Minimum_wf _ c (Hch b c Hc)) as (l & _ & Hl).
  destruct (wf_leaves_prefix _ c (Hch b c Hc) l Hl) as [_ Hpre].
  exists l. split; [eapply leaves_child; eauto using wf_inner_total|].
  destruct Hpre as [r ->]. split.
  - exists ([b] ++ r). by rewrite <- !app_assoc.
  - rewrite !length_app. simpl. lia.
Qed.

Lemma conflict_short p q n (k : list byte) :
  node_ok n → MinSize n ≤ count n →
  (∀ b c, child n b = Some c → wf (p ++ q ++ [b]) c) →
  k `prefix_of` (p ++ q) → conflict k n.
Proof.
  intros Hok Hmin Hch Hk.
  destruct (inner_has_leaf p q n Hok Hmin Hch) as (l & Hl & Hpre & Hlen).
  exists l. split; [done|]. split.
  - intros E. apply prefix_length in Hk. rewrite E in Hlen. lia.
  - right. by etrans.
Qed.

Lemma insert_split_spec p q n (k : list byte) (v : option V) (m : nat) :
  node_ok n → MinSize n ≤ count n → pfx_ok q n →
  (∀ b c, child n b = Some c → wf (p ++ q ++ [b]) c) →
  p `prefix_of` k → m = lcp q (drop (length p) k) → (m < length q)%nat →
  match insert_split n k v (Z.of_nat (length p)) (Z.of_nat m) with
  | Some n' => wf p n' ∧ leaves n' ≡ₚ NewLeafNode k v :: leaves n
  | None => k `prefix_of` (p ++ q)
  end.
Proof.
  intros Hok Hmin Hq Hch Hpk Hm Hlt. pose proof Hq as [Hlen Htake].
  pose proof Hok as (HlP & Hp0 & _). unfold len in Hlen.
  set (X := drop (length p) k) in *.
  pose proof (lcp_le_r q X) as HmX. pose proof (lcp_take q X) as Hlt'.
  rewrite <- Hm in HmX, Hlt'.
  destruct (split_current p q n m Hok Hmin Hq Hch Hlt) as (b & P' & Hb & HlP' & HtP' & Hcur).
  cbv zeta in Hcur. unfold insert_split. cbv zeta. rewrite Hcur. obind.
  set (cur := set_prefix (set_prefixLen n (prefixLen n - (Z.of_nat m + 1))) P').
  destruct (pfx_new_split (make 10 x00) (prefix n) q m eq_refl HlP ltac:(lia) Htake)
    as [HlenP HtakeP].
  change (prefix (set_prefixLen NewNode4 (Z.of_nat m))) with (@make byte 10 x00).
  destruct (NewNode4_two (Z.of_nat m) _ b cur HlenP ltac:(lia)) as (n1 & -> & Hpl1 & Hsecond).
  obind.
  replace (Z.of_nat (length p) + Z.of_nat m) with (Z.of_nat (length p + m)) by lia.
  rewrite aget_nat.
  destruct (k !! (length p + m)%nat) as [kb|] eqn:Hkb.
  2:{ apply lookup_ge_None in Hkb. pose proof (prefix_length _ _ Hpk).
      assert (m = length X) as HmX' by (unfold X in *; rewrite length_drop in *; lia).
      rewrite (prefix_of_drop p k Hpk). apply prefix_app. fold X.
      rewrite <- (firstn_all X), <- HmX', <- Hlt'. apply prefix_take. }
  obind.
  assert (X !! m = Some kb) as HX by (unfold X; by rewrite lookup_drop).
  assert (b ≠ kb) as Hne by (subst m; by apply (lcp_differ q X)).
  destruct (Hsecond kb (NewLeafNode k v) Hne) as (n' & -> & Hok' & Hmin' & Hch' & Hp' & Hpl').
  assert (node_ok cur) as Hokc.
  { apply (node_ok_ext n cur); try done. simpl. lia. }
  assert (∀ b', child cur b' = child n b') as Hsame by (intros; by apply child_ext).
  assert (wf (p ++ take m q ++ [b]) cur) as Hwfc.
  { apply (wf_inner _ (drop (S m) q) cur); [done| | |].
    - rewrite (count_ext n cur Hsame). done.
    - split; [|done]. unfold len. rewrite length_drop. simpl. lia.
    - intros b' c. rewrite Hsame. intros Hc.
      replace ((p ++ take m q ++ [b]) ++ drop (S m) q ++ [b']) with (p ++ q ++ [b']);
        [by apply Hch|].
      rewrite <- (take_drop_middle q m b Hb) at 1. by rewrite <- !app_assoc. }
  split.
  - apply (wf_inner p (take m q) n'); [done|done| |].
    + split; [unfold len; rewrite Hpl', length_take; lia|]. by rewrite Hp'.
    + intros b' c. rewrite Hch'. destruct (decide (b' = kb)) as [->|].
      * intros [= <-]. apply NewLeaf_wf. by apply (prefix_ext p k _ m).
      * destruct (decide (b' = b)) as [->|]; [|done]. by intros [= <-].
  - rewrite (leaves_two n' b kb cur (NewLeafNode k v) Hok' Hne Hch').
    + rewrite leaves_NewLeaf. simpl. f_equiv.
      rewrite (leaves_ext n cur Hok Hokc Hsame); [done|]. eapply wf_inner_total, Hch.
    + eapply wf_each_total, Hwfc.
    + by rewrite eachHelper_leaf.
Qed.

(** The last part of [insertHelper]: the child under the next key byte. *)
Lemma insert_descend p q n (k : list byte) (v : option V) (s : Z) :
  node_ok n → MinSize n ≤ count n → pfx_ok q n →
  (∀ b c, child n b = Some c → wf (p ++ q ++ [b]) c) →
  (∀ b c, child n b = Some c → (p ++ q ++ [b]) `prefix_of` k →
     insert_post (p ++ q ++ [b]) c k v s
       (insertHelper c k v (Z.of_nat (length (p ++ q ++ [b]))) s)) →
  (p ++ q) `prefix_of` k →
  insert_post p n k v s
    (kb ← aget k (Z.of_nat (length (p ++ q)));
     next ← FindChild n kb;
     match next with
     | Some i =>
         r ← at_index (insert_sub k v (Z.of_nat (length (p ++ q)) + 1) s) (children n) i;
         match r with
         | Some rec =>
             '(c', tsize') ← rec;
             cs' ← aset (children n) i (Some c');
             Some (set_children n cs', tsize')
         | None => n' ← AddChild n kb (NewLeafNode k v); Some (n', s + 1)
         end
     | None => n' ← AddChild n kb (NewLeafNode k v); Some (n', s + 1)
     end).
Proof.
  intros Hok Hmin Hq Hch IH Hpk.
  pose proof (wf_inner_total p q n Hch) as Htot.
  rewrite aget_nat.
  destruct (k !! length (p ++ q)) as [kb|] eqn:Hkb.
  2:{ apply lookup_ge_None in Hkb. simpl.
      apply (conflict_short p q n k Hok Hmin Hch).
      destruct Hpk as [r ->]. rewrite length_app in Hkb.
      assert (r = []) as -> by (destruct r; [done|simpl in Hkb; lia]).
      by rewrite app_nil_r. }
  obind.
  assert ((p ++ q ++ [kb]) `prefix_of` k) as Hpk'.
  { rewrite app_assoc. by apply prefix_snoc. }
  assert (∀ l, l ∈ leaves n → key l = k → ∃ c, child n kb = Some c ∧ l ∈ leaves c) as Hunder.
  { intros l Hl E.
    destruct (wf_inner_leaves_prefix p q n l Hok Hch Hl) as (b2 & c2 & Hc2 & Hl2 & Hpre2).
    rewrite E in Hpre2. rewrite !app_assoc in Hpre2, Hpk'.
    rewrite (prefix_byte_inj _ _ _ _ Hpre2 Hpk') in Hc2. eauto. }
  destruct (child n kb) as [c|] eqn:Hc.
  - (* recurse *)
    destruct (FindChild_present n kb c Hok Hc) as (i & HF & Hi). rewrite HF. obind.
    rewrite at_index_fmap, Hi. simpl.
    replace (Z.of_nat (length (p ++ q)) + 1) with (Z.of_nat (length (p ++ q ++ [kb])))
      by (rewrite !length_app; simpl; lia).
    specialize (IH kb c Hc Hpk').
    destruct (insertHelper c k v _ s) as [[c' s']|]; simpl in IH |- *.
    + pose proof (aget_lt _ _ _ Hi) as Hir.
      rewrite aset_ok by done. simpl.
      destruct IH as [(-> & -> & l & Hl & Hkl)|(-> & Hwf' & Hfresh & Hperm)].
      * left. rewrite list_insert_id by (by apply aget_Some in Hi as [_ ?]).
        rewrite set_children_id. split; [done|]. split; [done|].
        exists l. split; [|done]. by eapply leaves_child.
      * right. split; [done|].
        destruct (set_child_ok n kb i c c' Hok HF Hi) as [Hok' Hch'].
        set (n' := set_children n (<[Z.to_nat i:=Some c']> (children n))) in *.
        split; [|split].
        -- apply (wf_inner p q n'); [done| |done|].
           ++ rewrite (count_replace n n' kb c c' Hc Hch'). done.
           ++ intros b c0. rewrite Hch'. destruct (decide (b = kb)) as [->|]; [|apply Hch].
              by intros [= <-].
        -- intros l Hl E. destruct (Hunder l Hl E) as (c0 & [= <-] & Hl0). by eapply Hfresh.
        -- destruct (leaves_update n n' kb (Some c') Hok Hok' Htot) as (L1 & L2 & E1 & E2);
             [intros ? [= <-]; by eapply wf_each_total|done|].
           rewrite Hc in E1. simpl in E1, E2. rewrite E1, E2, Hperm.
           simpl. by rewrite <- Permutation_middle.
    + destruct IH as (l & Hl & Hne & Hpre). exists l. split; [|done]. by eapply leaves_child.
  - (* add *)
    assert ((next ← FindChild n kb;
             match next with
             | Some i =>
                 r ← at_index (insert_sub k v (Z.of_nat (length (p ++ q)) + 1) s) (children n) i;
                 match r with
                 | Some rec =>
                     '(c', tsize') ← rec;
                     cs' ← aset (children n) i (Some c');
                     Some (set_children n cs', tsize')
                 | None => n' ← AddChild n kb (NewLeafNode k v); Some (n', s + 1)
                 end
             | None => n' ← AddChild n kb (NewLeafNode k v); Some (n', s + 1)
             end) = (n' ← AddChild n kb (NewLeafNode k v); Some (n', s + 1))) as ->.
    { destruct (FindChild_total n kb Hok) as [[i|] HF]; rewrite HF; obind; [|done].
      destruct (FindChild_slot n kb i HF) as (co & Hco & Hchild).
      rewrite Hc in Hchild. subst co. rewrite at_index_fmap, Hco. done. }
    destruct (AddChild_spec n kb (NewLeafNode k v) Hok Hc) as (n' & -> & Hok' & Hch' & Hp' & Hpl' & Hm').
    simpl. right. split; [done|].
    pose proof (count_add n n' kb _ Hc Hch') as Hcnt.
    split; [|split].
    + apply (wf_inner p q n'); [done|lia| |].
      * destruct Hq as [? ?]. split; congruence.
      * intros b c0. rewrite Hch'. destruct (decide (b = kb)) as [->|]; [|apply Hch].
        intros [= <-]. by apply NewLeaf_wf.
    + intros l Hl E. by destruct (Hunder l Hl E) as (c0 & ? & _).
    + destruct (leaves_update n n' kb (Some (NewLeafNode k v)) Hok Hok' Htot) as (L1 & L2 & E1 & E2);
        [intros ? [= <-]; by rewrite eachHelper_leaf|done|].
      rewrite Hc in E1. cbn [from_option] in E1, E2. rewrite E1, E2, leaves_NewLeaf.
      simpl. by rewrite <- Permutation_middle.
Qed.

Theorem insertHelper_spec p n :
  wf p n → ∀ (k : list byte) (v : option V) (s : Z), p `prefix_of` k →
  insert_post p n k v s (insertHelper n k v (Z.of_nat (length p)) s).
Proof.
  induction 1 as [p n Hty Hp Hc|p q n Hok Hmin Hq Hch IH]; intros k v s Hpk.
  - destruct (decide (key n = k)) as [E|Hne].
    + rewrite insertHelper_unfold, (IsLeaf_true n Hty).
      rewrite (proj2 (IsMatch_true n k)) by done. left.
      split; [done|]. split; [done|]. exists n. rewrite leaves_leaf by done.
      split; [by apply list_elem_of_singleton|done].
    + pose proof (insertHelper_leaf p n k v s Hty Hc Hp Hpk Hne) as H.
      unfold insert_post. destruct (insertHelper n k v _ s) as [[n' s']|].
      * right. destruct H as (? & ? & ?). split; [done|]. split; [done|]. split; [|done].
        intros l. rewrite leaves_leaf by done. by intros ->%list_elem_of_singleton.
      * exists n. rewrite leaves_leaf by done. split; [by apply list_elem_of_singleton|done].
  - pose proof Hq as [Hlen _]. unfold len in Hlen.
    rewrite insertHelper_unfold, (IsLeaf_false n) by (by apply node_ok_inner).
    assert (∀ l, l ∈ leaves n → key l = k → q `prefix_of` drop (length p) k) as Hqk.
    { intros l Hl E.
      destruct (wf_inner_leaves_prefix p q n l Hok Hch Hl) as (b2 & c2 & _ & _ & [r Hr]).
      rewrite <- E, Hr, <- !app_assoc, drop_app_length. by eexists. }
    assert (q `prefix_of` drop (length p) k → (p ++ q) `prefix_of` k) as Hfull.
    { intros Hq'. rewrite (prefix_of_drop p k Hpk). by apply prefix_app. }
    assert (∀ b c, child n b = Some c → (p ++ q ++ [b]) `prefix_of` k →
              insert_post (p ++ q ++ [b]) c k v s
                (insertHelper c k v (Z.of_nat (length (p ++ q ++ [b]))) s)) as IH'.
    { intros b c Hc Hpre. by apply IH. }
    destruct (decide (prefixLen n ≠ 0)) as [Hnz|Hz].
    + rewrite (PrefixMismatch_spec p q n k Hok Hmin Hq Hch Hpk). obind.
      set (m := lcp q (drop (length p) k)).
      pose proof (lcp_le_l q (drop (length p) k)) as Hmq. fold m in Hmq.
      destruct (decide (Z.of_nat m ≠ prefixLen n)) as [Hmis|Hmatch].
      * pose proof (insert_split_spec p q n k v m Hok Hmin Hq Hch Hpk eq_refl ltac:(lia)) as H.
        destruct (insert_split n k v _ _) as [n'|]; simpl.
        -- right. destruct H as [Hwf' Hperm]. split; [done|]. split; [done|]. split; [|done].
           intros l Hl E. apply (Hqk l Hl) in E. apply prefix_of_lcp in E. fold m in E. lia.
        -- by apply (conflict_short p q n k Hok Hmin Hch).
      * obind.
        assert (Z.of_nat (length p) + prefixLen n = Z.of_nat (length (p ++ q))) as ->
          by (rewrite length_app; lia).
        apply (insert_descend p q n k v s Hok Hmin Hq Hch IH').
        apply Hfull, lcp_prefix_of. fold m. lia.
    + obind.
      assert (q = []) as Hq0 by (destruct q; [done|simpl in Hlen; lia]).
      assert (Z.of_nat (length p) = Z.of_nat (length (p ++ q))) as ->
        by (rewrite Hq0, app_nil_r; done).
      apply (insert_descend p q n k v s Hok Hmin Hq Hch IH').
      apply Hfull. rewrite Hq0. apply prefix_nil.
Qed.

End insert.

(** ** Removal *)

Section remove.
Context {V : Type}.
Abbreviation Node := (ArtNode V).
Implicit Types n c : Node.

Lemma removeHelper_unfold n (k : list byte) (depth tsize : Z) :
  removeHelper n k depth tsize =
  if IsLeaf n && IsMatch n k then Some (None, tsize - 1)
  else
    step ← (if decide (prefixLen n ≠ 0) then
              mismatch ← PrefixMismatch n k depth;
              if decide (mismatch ≠ prefixLen n) then Some None
              else Some (Some (depth + prefixLen n))
            else Some (Some depth));
    match step with
    | None => Some (Some n, tsize)
    | Some depth =>
        kb ← aget k depth;
        next ← FindChild n kb;
        match next with
        | None => Some (Some n, tsize)
        | Some i =>
            r ← at_index (remove_sub k (depth + 1) tsize) (children n) i;
            match r with
            | next_nil => Some (Some n, tsize)
            | next_match =>
                n' ← RemoveChild n kb;
                Some (Some n', tsize - 1)
            | next_recurse rec =>
                '(slot', tsize') ← rec;
                cs' ← aset (children n) i slot';
                Some (Some (set_children n cs'), tsize')
            end
        end
    end.
Proof. destruct n. reflexivity. Qed.

Lemma kv_leaf n : nodeType n = LEAF → children n = [] → kv n = [(key n, value n)].
Proof. intros. unfold kv. by rewrite leaves_leaf. Qed.

Lemma wf_cases p n :
  wf p n →
  (nodeType n = LEAF ∧ p `prefix_of` key n ∧ children n = [])
  ∨ (∃ q, node_ok n ∧ MinSize n ≤ count n ∧ pfx_ok q n
          ∧ ∀ b c, child n b = Some c → wf (p ++ q ++ [b]) c).
Proof. intros [?|? q]; [left|right]; eauto 10. Qed.

(** The NODE4 that held the removed leaf and [c'] gives way to [c']. *)
Lemma collapse_spec p q n n1 (kb b' : byte) c c' rest :
  node_ok n → pfx_ok q n →
  (∀ b c, child n b = Some c → wf (p ++ q ++ [b]) c) →
  child n kb = Some c → nodeType c = LEAF → children c = [] →
  b' ≠ kb → child n b' = Some c' →
  (∀ b'', b'' ≠ kb → b'' ≠ b' → child n b'' = None) →
  sorted_view 4 n1 [(b', c')] rest → nodeType n1 = NODE4 →
  prefix n1 = prefix n → prefixLen n1 = prefixLen n →
  ∃ n', shrink n1 = Some n' ∧ wf p n' ∧ kv n ≡ₚ (key c, value c) :: kv n'.
Proof.
  intros Hok Hq Hch Hc Hcl Hcc Hne Hc' Honly Hv1 Hty1 Hp1 Hpl1.
  pose proof Hok as (HlP & Hl0 & _). pose proof Hq as [Hlen Htake].
  assert (leaves n ≡ₚ c :: leaves c') as Hleaves.
  { rewrite (leaves_two n b' kb c' c Hok Hne).
    - by rewrite (leaves_leaf c).
    - intros b. destruct (decide (b = kb)) as [->|]; [done|].
      destruct (decide (b = b')) as [->|]; [done|]. by apply Honly.
    - eapply wf_each_total, Hch, Hc'.
    - by rewrite eachHelper_leaf. }
  assert (kv n ≡ₚ (key c, value c) :: kv c') as Hkv.
  { unfold kv. by rewrite Hleaves. }
  destruct (shrink4_spec n1 b' c' rest Hv1 Hty1) as [Hleaf Hinner]; [congruence|lia|].
  destruct (wf_cases _ c' (Hch b' c' Hc')) as [(Hty' & Hpre' & Hcs')|(q' & Hok' & Hmin' & Hq' & Hch'')].
  - exists (copyMeta c' n1). split; [by apply Hleaf, IsLeaf_true|]. split.
    + apply wf_leaf; [done| |done]. simpl. etrans; [|exact Hpre']. by apply prefix_app_r.
    + rewrite Hkv. f_equiv. rewrite !kv_leaf; done.
  - pose proof Hok' as (HlP' & Hl0' & _). pose proof Hq' as [Hlen' Htake'].
    set (c'' := set_prefixLen
                  (set_prefix c' (merged_prefix (prefix n1) (prefixLen n1) b'
                                                (prefix c') (prefixLen c')))
                  (prefixLen c' + (prefixLen n1 + 1))).
    assert (node_ok c'') as Hok''.
    { apply (node_ok_ext c' c''); try done.
      - apply merged_prefix_length; [congruence|done|lia|done].
      - simpl. lia. }
    assert (∀ b, child c'' b = child c' b) as Hsame by (intros; by apply child_ext).
    exists c''. split.
    { apply Hinner; [|done..]. apply IsLeaf_false. by apply node_ok_inner. }
    split.
    + apply (wf_inner p (q ++ b' :: q') c''); [done| | |].
      * by rewrite (count_ext c' c'' Hsame).
      * split.
        -- simpl. unfold len in *. rewrite length_app. simpl. lia.
        -- simpl. rewrite Hp1, Hpl1, <- Hlen, <- Hlen'. by apply merged_prefix_ok.
      * intros b c0. rewrite Hsame. intros Hc0.
        replace (p ++ (q ++ b' :: q') ++ [b]) with ((p ++ q ++ [b']) ++ q' ++ [b])
          by (by rewrite <- !app_assoc).
        by apply Hch''.
    + rewrite Hkv. f_equiv. unfold kv.
      rewrite (leaves_ext c' c'' Hok' Hok'' Hsame); [done|]. eapply wf_inner_total, Hch''.
Qed.

End remove.

Section remove_main.
Context {V : Type}.
Abbreviation Node := (ArtNode V).
Implicit Types n c : Node.

Lemma removeHelper_None n (k : list byte) (depth s : Z) s' :
  removeHelper n k depth s = Some (None, s') → IsLeaf n && IsMatch n k = true.
Proof.
  rewrite removeHelper_unfold. destruct (IsLeaf n && IsMatch n k); [done|].
  destruct (if decide (prefixLen n ≠ 0) then _ else _) as [[d|]|]; [|done..].
  obind. destruct (aget k d) as [kb|]; [|done]. obind.
  destruct (FindChild n kb) as [[i|]|]; [|done..]. obind.
  destruct (at_index _ _ _) as [[| |[[slot' ts]|]]|]; try done; obind.
  - destruct (RemoveChild n kb); done.
  - destruct (aset _ _ _); done.
Qed.

Lemma kv_update n n' (b : byte) c (v : option Node) :
  node_ok n → node_ok n' →
  (∀ b c, child n b = Some c → is_Some (eachHelper c)) →
  (∀ c, v = Some c → is_Some (eachHelper c)) →
  child n b = Some c →
  (∀ b', child n' b' = if decide (b' = b) then v else child n b') →
  ∃ K1 K2, kv n = K1 ++ kv c ++ K2 ∧ kv n' = K1 ++ from_option kv [] v ++ K2.
Proof.
  intros Hok Hok' Htot Hv Hc Hupd.
  destruct (leaves_update n n' b v Hok Hok' Htot Hv Hupd) as (L1 & L2 & E1 & E2).
  rewrite Hc in E1. simpl in E1.
  exists ((fun l : Node => (key l, value l)) <$> L1), ((fun l : Node => (key l, value l)) <$> L2).
  unfold kv. rewrite E1, E2, !fmap_app. split; [done|]. by destruct v.
Qed.

Theorem removeHelper_spec p n :
  wf p n → ∀ (k : list byte) (s : Z), p `prefix_of` k →
  remove_post p n k s (removeHelper n k (Z.of_nat (length p)) s).
Proof.
  induction 1 as [p n Hty Hp Hc|p q n Hok Hmin Hq Hch IH]; intros k s Hpk.
  - rewrite removeHelper_unfold, (IsLeaf_true n Hty). simpl andb.
    destruct (IsMatch n k) eqn:Hm.
    + apply IsMatch_true in Hm as [_ Hk]. right. split; [done|]. split; [|done].
      exists (value n). rewrite kv_leaf by done. by rewrite Hk.
    + destruct (if decide (prefixLen n ≠ 0) then _ else _) as [[d|]|]; [|by left|done].
      obind. destruct (aget k d) as [kb|]; [|done]. obind.
      unfold FindChild. rewrite Hty. obind. by left.
  - pose proof Hq as [Hlen _]. unfold len in Hlen.
    pose proof (wf_inner_total p q n Hch) as Htot.
    rewrite removeHelper_unfold, (IsLeaf_false n) by (by apply node_ok_inner). simpl andb.
    cbv iota.
    assert (∃ st, (if decide (prefixLen n ≠ 0) then
                     mismatch ← PrefixMismatch n k (Z.of_nat (length p));
                     if decide (mismatch ≠ prefixLen n) then Some None
                     else Some (Some (Z.of_nat (length p) + prefixLen n))
                   else Some (Some (Z.of_nat (length p)))) = Some st
                ∧ (st = None ∨ (st = Some (Z.of_nat (length (p ++ q)))
                                ∧ (p ++ q) `prefix_of` k))) as (st & -> & Hst).
    { destruct (decide (prefixLen n ≠ 0)) as [Hnz|Hz].
      - rewrite (PrefixMismatch_spec p q n k Hok Hmin Hq Hch Hpk). obind.
        destruct (decide (_ ≠ prefixLen n)) as [Hmis|Hmatch]; [eauto|].
        eexists. split; [done|]. right. rewrite length_app. split; [do 2 f_equal; lia|].
        rewrite (prefix_of_drop p k Hpk). apply prefix_app, lcp_prefix_of. lia.
      - eexists. split; [done|]. right.
        assert (q = []) as -> by (destruct q; [done|simpl in Hlen; lia]).
        by rewrite app_nil_r. }
    obind. destruct Hst as [->|[-> Hpq]]; [by left|].
    rewrite aget_nat. destruct (k !! length (p ++ q)) as [kb|] eqn:Hkb; [|done]. obind.
    assert ((p ++ q ++ [kb]) `prefix_of` k) as Hpk'.
    { rewrite app_assoc. by apply prefix_snoc. }
    destruct (FindChild_total n kb Hok) as [[i|] HF]; rewrite HF; obind; [|by left].
    destruct (FindChild_slot n kb i HF) as (co & Hco & Hchild).
    rewrite at_index_fmap, Hco. simpl. destruct co as [c|]; simpl; [|by left].
    pose proof (Hch kb c Hchild) as Hwfc.
    destruct (IsLeaf c && IsMatch c k) eqn:Hmatch.
    + (* the child is the leaf to remove *)
      apply andb_true_iff in Hmatch as [_ Hm]. apply IsMatch_true in Hm as [Hcl Hck].
      assert (children c = []) as Hcc.
      { destruct (wf_cases _ c Hwfc) as [(_ & _ & ?)|(q' & Hokc & _)]; [done|].
        by apply node_ok_inner in Hokc. }
      destruct (RemoveChild_spec n kb c Hok Hmin Hchild)
        as [(n' & -> & Hok' & Hmin' & Hch' & Hp' & Hpl')
           |(n1 & b' & c' & rest & Hne & Hc' & Honly & Hv1 & Hty1 & Hp1 & Hpl1 & ->)].
      * simpl. right. split; [done|]. split.
        -- exists (value c).
           destruct (kv_update n n' kb c None Hok Hok' Htot ltac:(done) Hchild Hch')
             as (K1 & K2 & E1 & E2).
           rewrite E1, E2, kv_leaf by done. simpl. rewrite Hck.
           by rewrite <- Permutation_middle.
        -- apply (wf_inner p q n'); [done|done| |].
           ++ destruct Hq. split; congruence.
           ++ intros b c0. rewrite Hch'. destruct (decide (b = kb)); [done|apply Hch].
      * destruct (collapse_spec p q n n1 kb b' c c' rest Hok Hq Hch Hchild Hcl Hcc
                    Hne Hc' Honly Hv1 Hty1 Hp1 Hpl1) as (n' & -> & Hwf' & Hkv).
        simpl. right. split; [done|]. split; [|done].
        exists (value c). by rewrite <- Hck.
    + (* recurse *)
      simpl.
      replace (Z.of_nat (length (p ++ q)) + 1) with (Z.of_nat (length (p ++ q ++ [kb])))
        by (rewrite !length_app; simpl; lia).
      specialize (IH kb c Hchild k s Hpk').
      destruct (removeHelper c k _ s) as [[slot' s']|] eqn:Hrec; [|done].
      simpl in IH |- *. pose proof (aget_lt _ _ _ Hco) as Hir.
      rewrite aset_ok by done. simpl.
      destruct IH as [(-> & ->)|(-> & (vl & Hkv) & Hslot)].
      * left. rewrite list_insert_id by (by apply aget_Some in Hco as [_ ?]).
        by rewrite set_children_id.
      * destruct slot' as [c'|].
        2:{ apply removeHelper_None in Hrec. congruence. }
        right. split; [done|].
        destruct (set_child_ok n kb i c c' Hok HF Hco) as [Hok' Hch'].
        set (n' := set_children n (<[Z.to_nat i:=Some c']> (children n))) in *.
        split.
        -- exists vl.
           destruct (kv_update n n' kb c (Some c') Hok Hok' Htot) as (K1 & K2 & E1 & E2);
             [intros ? [= <-]; by eapply wf_each_total|done|done|].
           simpl in Hkv, E2. rewrite E1, E2, Hkv. simpl. by rewrite <- Permutation_middle.
        -- apply (wf_inner p q n'); [done| |done|].
           ++ by rewrite (count_replace n n' kb c c' Hchild Hch').
           ++ intros b c0. rewrite Hch'. destruct (decide (b = kb)) as [->|]; [|apply Hch].
              by intros [= <-].
Qed.

End remove_main.

(** ** The order of enumeration *)

Lemma lex_lt_prefix (P : list byte) (a b : byte) (k1 k2 : list byte) :
  (P ++ [a]) `prefix_of` k1 → (P ++ [b]) `prefix_of` k2 → byte_lt a b → lex_lt k1 k2.
Proof.
  intros [r1 ->] [r2 ->] Hab. induction P as [|x P IH]; simpl.
  - by left.
  - right. split; [done|]. exact IH.
Qed.

Lemma lex_lt_irrefl (k : list byte) : ¬ lex_lt k k.
Proof.
  induction k as [|x k IH]; simpl; [tauto|].
  intros [H|[_ H]]; [by apply byte_lt_irrefl in H|done].
Qed.

Lemma lex_lt_trans (a b c : list byte) : lex_lt a b → lex_lt b c → lex_lt a c.
Proof.
  revert b c. induction a as [|x a IH]; intros [|y b] [|z c]; simpl; try done.
  intros [H1|[-> H1]] [H2|[-> H2]].
  - left. by eapply byte_lt_trans.
  - by left.
  - by left.
  - right. split; [done|]. by eapply IH.
Qed.

Lemma StronglySorted_app_intro {A} (R : A → A → Prop) (l1 l2 : list A) :
  StronglySorted R l1 → StronglySorted R l2 →
  (∀ x y, x ∈ l1 → y ∈ l2 → R x y) → StronglySorted R (l1 ++ l2).
Proof.
  induction 1 as [|x l1 Hs IH Hall]; intros H2 Hc; [done|].
  simpl. constructor.
  - apply IH; [done|]. intros ? ? ? ?. apply Hc; [by right|done].
  - apply Forall_app. split; [done|]. apply Forall_forall. intros y Hy.
    apply Hc; [by left|done].
Qed.

Section order.
Context {V : Type}.
Abbreviation Node := (ArtNode V).
Implicit Types n c : Node.

Lemma sorted_concat_kids (P : list byte) (l : list (byte * Node)) :
  StronglySorted key_lt l →
  (∀ b c, (b, c) ∈ l →
     StronglySorted lex_lt (key <$> leaves c)
     ∧ ∀ x, x ∈ leaves c → (P ++ [b]) `prefix_of` key x) →
  StronglySorted lex_lt (key <$> concat (leaves <$> l.*2)).
Proof.
  induction 1 as [|[b c] l Hs IH Hall]; intros H; [constructor|].
  rewrite !fmap_cons, concat_cons, fmap_app.
  destruct (H b c ltac:(left)) as [Hsc Hpc].
  apply StronglySorted_app_intro; [done| |].
  - apply IH. intros b' c' Hin. apply H. by right.
  - intros x y Hx Hy.
    apply list_elem_of_fmap in Hx as (lx & -> & Hx).
    apply list_elem_of_fmap in Hy as (ly & -> & Hy).
    apply elem_of_concat in Hy as (L & Hy & HL).
    apply list_elem_of_fmap in HL as (c' & -> & Hc').
    apply list_elem_of_fmap in Hc' as ([b' c''] & -> & Hin).
    eapply Forall_forall in Hall; [|exact Hin].
    destruct (H b' c'' ltac:(by right)) as [_ Hpc'].
    eapply lex_lt_prefix; [by apply Hpc|by apply Hpc'|exact Hall].
Qed.

(** The leaves of a well-formed subtree come in strictly ascending order
    of their keys. *)
Lemma wf_sorted p n : wf p n → StronglySorted lex_lt (key <$> leaves n).
Proof.
  induction 1 as [p n Hty Hp Hc|p q n Hok Hmin Hq Hch IH].
  - rewrite leaves_leaf by done. repeat constructor.
  - rewrite (leaves_inner n Hok (wf_inner_total p q n Hch)).
    apply (sorted_concat_kids (p ++ q)); [apply kids_sorted_tab|].
    intros b c Hin. apply elem_of_tab in Hin. split; [by eapply IH|].
    intros x Hx. rewrite <- app_assoc. by apply (wf_leaves_prefix _ c (Hch b c Hin)).
Qed.

Lemma sorted_NoDup (l : list (list byte)) : StronglySorted lex_lt l → NoDup l.
Proof.
  induction 1 as [|x l _ IH Hall]; constructor; [|done].
  intros Hin. eapply Forall_forall in Hall; [|exact Hin]. by apply lex_lt_irrefl in Hall.
Qed.

(** No stored key is a proper prefix of another. *)
Lemma wf_prefix_free p n :
  wf p n → ∀ l1 l2, l1 ∈ leaves n → l2 ∈ leaves n →
  key l1 `prefix_of` key l2 → l1 = l2.
Proof.
  induction 1 as [p n Hty Hp Hc|p q n Hok Hmin Hq Hch IH]; intros l1 l2 H1 H2 Hpre.
  - rewrite leaves_leaf in H1, H2 by done.
    apply list_elem_of_singleton in H1, H2. congruence.
  - destruct (wf_inner_leaves_prefix p q n l1 Hok Hch H1) as (b1 & c1 & Hc1 & Hl1 & Hp1).
    destruct (wf_inner_leaves_prefix p q n l2 Hok Hch H2) as (b2 & c2 & Hc2 & Hl2 & Hp2).
    assert (b1 = b2) as <-.
    { rewrite !app_assoc in Hp1, Hp2. eapply prefix_byte_inj; [|exact Hp2]. by etrans. }
    assert (c2 = c1) as -> by congruence. by eapply IH.
Qed.

End order.

(** ** The exported operations *)

Lemma bytes_Index0_neg (k : list byte) : bytes_Index0 k < 0 ↔ x00 ∉ k.
Proof.
  induction k as [|b k IH]; simpl.
  - split; [intros _ ?%elem_of_nil; done|lia].
  - rewrite not_elem_of_cons. destruct (decide (b = x00)) as [->|Hne].
    + split; [lia|]. by intros [? _].
    + destruct (decide (bytes_Index0 k < 0)) as [Hneg|Hpos].
      * split; [|lia]. intros _. split; [done|]. by apply IH.
      * split; [lia|]. intros [_ H]. apply IH in H. lia.
Qed.

Lemma bytes_Index0_nonneg (k : list byte) : -1 ≤ bytes_Index0 k.
Proof.
  induction k as [|b k IH]; simpl; [lia|].
  destruct (decide (b = x00)); [lia|]. destruct (decide (_ < 0)); lia.
Qed.

Lemma ensure_free (k : list byte) : x00 ∉ k → ensureNullTerminatedKey k = k ++ [x00].
Proof.
  intros H. unfold ensureNullTerminatedKey. by rewrite decide_True by (by apply bytes_Index0_neg).
Qed.

Lemma ensure_has (k : list byte) : x00 ∈ k → ensureNullTerminatedKey k = k.
Proof.
  intros H. unfold ensureNullTerminatedKey. rewrite decide_False; [done|].
  intros Hneg. by apply bytes_Index0_neg in Hneg.
Qed.

Lemma ensure_idem (k : list byte) :
  ensureNullTerminatedKey (ensureNullTerminatedKey k) = ensureNullTerminatedKey k.
Proof.
  destruct (decide (x00 ∈ k)) as [H|H].
  - by rewrite !(ensure_has k H).
  - rewrite (ensure_free k H). apply ensure_has. apply elem_of_app. right. by left.
Qed.

Section operations.
Context {V : Type}.
Abbreviation Node := (ArtNode V).
Implicit Types n c : Node.
Implicit Types t : ArtTree V.

Lemma elem_of_kv n (k : list byte) (v : option V) :
  (k, v) ∈ kv n ↔ ∃ l, l ∈ leaves n ∧ key l = k ∧ value l = v.
Proof.
  unfold kv. rewrite list_elem_of_fmap. split.
  - intros (l & [= -> ->] & Hl). eauto.
  - intros (l & Hl & <- & <-). eauto.
Qed.

Lemma elem_of_kv_keys n (k : list byte) :
  k ∈ (kv n).*1 ↔ ∃ l, l ∈ leaves n ∧ key l = k.
Proof.
  rewrite list_elem_of_fmap. split.
  - intros ([k' v] & -> & H). apply elem_of_kv in H as (l & ? & ? & ?). eauto.
  - intros (l & Hl & <-). exists (key l, value l). split; [done|].
    apply elem_of_kv. eauto.
Qed.

Lemma Inv_empty : Inv (@NewArtTree V).
Proof. done. Qed.

Lemma Insert_spec t (k : list byte) (v : option V) :
  Inv t →
  match Insert t k v with
  | Some t' =>
      Inv t'
      ∧ ((t' = t ∧ ensureNullTerminatedKey k ∈ (contents t).*1)
         ∨ (tree_size t' = tree_size t + 1
            ∧ ¬ (ensureNullTerminatedKey k ∈ (contents t).*1)
            ∧ contents t' ≡ₚ (ensureNullTerminatedKey k, v) :: contents t))
  | None =>
      ∃ k', k' ∈ (contents t).*1 ∧ k' ≠ ensureNullTerminatedKey k
            ∧ ((k' `prefix_of` ensureNullTerminatedKey k)
               ∨ (ensureNullTerminatedKey k `prefix_of` k'))
  end.
Proof.
  intros HI. unfold Insert, Inv, contents in *. cbv zeta.
  set (k' := ensureNullTerminatedKey k).
  destruct t as [[r|] sz]; simpl in *.
  - destruct HI as [Hwf Hsz].
    pose proof (insertHelper_spec [] r Hwf k' v sz (prefix_nil _)) as H.
    change (Z.of_nat (length [])) with 0 in H.
    destruct (insertHelper r k' v 0 sz) as [[r' s']|]; simpl in *.
    + destruct H as [(-> & -> & l & Hl & Hk)|(-> & Hwf' & Hfresh & Hperm)].
      * split; [done|]. left. split; [done|]. apply elem_of_kv_keys. eauto.
      * assert (kv r' ≡ₚ (k', v) :: kv r) as Hkv by (unfold kv; by rewrite Hperm).
        split.
        -- split; [done|]. unfold len in *. rewrite Hkv. simpl. lia.
        -- right. split; [done|]. split; [|done].
           intros (l & Hl & Hk)%elem_of_kv_keys. by eapply Hfresh.
    + destruct H as (l & Hl & Hne & Hpre). exists (key l). split; [|done].
      apply elem_of_kv_keys. eauto.
  - split.
    + split; [apply NewLeaf_wf, prefix_nil|]. rewrite kv_leaf by done. subst sz. done.
    + right. split; [done|]. split; [by intros ?%elem_of_nil|].
      by rewrite kv_leaf.
Qed.

Lemma Remove_spec t (k : list byte) :
  Inv t →
  match Remove t k with
  | Some t' =>
      Inv t'
      ∧ (t' = t
         ∨ (tree_size t' = tree_size t - 1
            ∧ ∃ vl, contents t ≡ₚ (ensureNullTerminatedKey k, vl) :: contents t'))
  | None => True
  end.
Proof.
  intros HI. unfold Remove, Inv, contents in *. cbv zeta.
  set (k' := ensureNullTerminatedKey k).
  destruct t as [[r|] sz]; simpl in *; [|by split; [|left]].
  destruct HI as [Hwf Hsz].
  pose proof (removeHelper_spec [] r Hwf k' sz (prefix_nil _)) as H.
  change (Z.of_nat (length [])) with 0 in H.
  destruct (removeHelper r k' 0 sz) as [[r' s']|]; simpl in *; [|done].
  destruct H as [(-> & ->)|(-> & (vl & Hkv) & Hr')].
  - split; [done|]. by left.
  - assert (len (kv r) = len (from_option kv [] r') + 1) as Hlen.
    { unfold len. rewrite Hkv. simpl. lia. }
    split.
    + destruct r' as [r'|]; simpl in *; [split; [done|lia]|]. unfold len in *. simpl in *. lia.
    + right. split; [done|]. exists vl. by destruct r'.
Qed.

(** [Search] finds exactly the stored pairs. *)
Lemma Search_stored t (k : list byte) (v : option V) :
  Inv t → (ensureNullTerminatedKey k, v) ∈ contents t → Search t k = Some v.
Proof.
  intros HI Hin. unfold Search, Inv, contents in *. cbv zeta.
  set (k' := ensureNullTerminatedKey k) in *.
  destruct (root t) as [r|]; [|by apply elem_of_nil in Hin].
  destruct HI as [Hwf _]. apply elem_of_kv in Hin as (l & Hl & Hk & Hv).
  simpl. pose proof (searchHelper_found [] r Hwf l Hl (prefix_nil _)) as Hs.
  change (Z.of_nat (length [])) with 0 in Hs. rewrite Hk in Hs. rewrite Hs. simpl.
  destruct (wf_leaves_prefix [] r Hwf l Hl) as [Hty _].
  rewrite (proj2 (IsMatch_true l k')) by done. by rewrite Hv.
Qed.

Lemma Search_sound t (k : list byte) (v : V) :
  Inv t → Search t k = Some (Some v) → (ensureNullTerminatedKey k, Some v) ∈ contents t.
Proof.
  intros HI. unfold Search, Inv, contents in *. cbv zeta.
  set (k' := ensureNullTerminatedKey k) in *.
  destruct (root t) as [r|]; [|done]. destruct HI as [Hwf _]. simpl.
  destruct (searchHelper r k' 0) as [[x|]|] eqn:Hs; simpl; [|done..].
  destruct (IsMatch x k') eqn:Hm; [|done]. intros [= Hv].
  apply IsMatch_true in Hm as [Hty Hk].
  apply elem_of_kv. exists x. split; [|done].
  by apply (searchHelper_sound [] r Hwf k' 0 x Hs).
Qed.

Lemma Each_spec t :
  Inv t →
  ∃ nodes, Each t = Some nodes
    ∧ contents t = (fun l : Node => (key l, value l))
                     <$> filter (fun x : Node => Is_true (IsLeaf x)) nodes
    ∧ tree_size t = len (filter (fun x : Node => Is_true (IsLeaf x)) nodes)
    ∧ StronglySorted lex_lt (key <$> filter (fun x : Node => Is_true (IsLeaf x)) nodes).
Proof.
  intros HI. unfold Each, EachChanFrom, Inv, contents in *.
  destruct (root t) as [r|].
  - destruct HI as [Hwf Hsz]. pose proof (wf_sorted [] r Hwf) as Hs.
    destruct (wf_each_total [] r Hwf) as [nodes Hn]. exists nodes.
    unfold kv, leaves in *. rewrite Hn in *. simpl in *.
    split; [done|]. split; [done|]. split; [|done].
    rewrite Hsz. unfold len. by rewrite length_fmap.
  - exists []. split; [done|]. split; [done|]. split; [done|]. constructor.
Qed.

Lemma step_Inv t (o : Op V) t' : Inv t → step t o = Some t' → Inv t'.
Proof.
  intros HI. destruct o as [k v|k|k|k|]; simpl.
  - pose proof (Insert_spec t k v HI) as H. destruct (Insert t k v); [|done].
    intros [= <-]. by destruct H.
  - pose proof (Remove_spec t k HI) as H. destruct (Remove t k); [|done].
    intros [= <-]. by destruct H.
  - destruct (Search t k); [|done]. by intros [= <-].
  - destruct (PrefixSearch t k); [|done]. by intros [= <-].
  - destruct (Each t); [|done]. by intros [= <-].
Qed.

Lemma run_Inv (ops : list (Op V)) : ∀ t t', Inv t → run t ops = Some t' → Inv t'.
Proof.
  induction ops as [|o ops IH]; intros t t' HI; simpl.
  - by intros [= <-].
  - destruct (step t o) as [t1|] eqn:Hs; [|done]. simpl.
    apply IH. by eapply step_Inv.
Qed.

Lemma reachable_Inv (ops : list (Op V)) t : run NewArtTree ops = Some t → Inv t.
Proof. apply run_Inv, Inv_empty. Qed.

End operations.

(** ** Sequences of operations *)

Lemma terminated_prefix (a b : list byte) :
  terminated a → terminated b → a `prefix_of` b → a = b.
Proof.
  intros (a0 & Ha & ->) (b0 & Hb & ->) [r Hr].
  destruct r as [|x r]; [by rewrite app_nil_r in Hr|]. exfalso.
  assert (length a0 < length b0)%nat as Hlt.
  { apply (f_equal length) in Hr. rewrite !length_app in Hr. simpl in Hr. lia. }
  apply Hb. apply list_elem_of_lookup. exists (length a0).
  assert ((b0 ++ [x00]) !! length a0 = Some x00) as H.
  { rewrite Hr, <- app_assoc. by rewrite lookup_app_r, Nat.sub_diag by lia. }
  by rewrite lookup_app_l in H by lia.
Qed.

Lemma ensure_inj (k k' : list byte) :
  x00 ∉ k → x00 ∉ k' → ensureNullTerminatedKey k = ensureNullTerminatedKey k' → k = k'.
Proof.
  intros H H'. rewrite (ensure_free k H), (ensure_free k' H'). by intros ?%app_inv_tail.
Qed.

Section sequences.
Context {V : Type}.
Abbreviation Node := (ArtNode V).
Implicit Types t : ArtTree V.
Implicit Types ops : list (Op V).


Lemma Inv_prefix_free t (k1 k2 : list byte) :
  Inv t → k1 ∈ (contents t).*1 → k2 ∈ (contents t).*1 → k1 `prefix_of` k2 → k1 = k2.
Proof.
  unfold Inv, contents. destruct (root t) as [r|]; [|by intros _ ?%elem_of_nil].
  intros [Hwf _] (l1 & H1 & <-)%elem_of_kv_keys (l2 & H2 & <-)%elem_of_kv_keys Hpre.
  by rewrite (wf_prefix_free [] r Hwf l1 l2 H1 H2 Hpre).
Qed.


(** Every stored key was stored before or comes from an insertion. *)
Lemma run_keys_bound ops :
  ∀ t t', Inv t → run t ops = Some t' →
  ∀ kk : list byte, kk ∈ (contents t').*1 →
    kk ∈ (contents t).*1
    ∨ ∃ k v, OpInsert k v ∈ ops ∧ ensureNullTerminatedKey k = kk.
Proof.
  induction ops as [|o ops IH]; intros t t' HI Hrun kk Hin; simpl in Hrun.
  - injection Hrun as <-. by left.
  - destruct (step t o) as [t1|] eqn:Hs; [|done]. simpl in Hrun.
    destruct (IH t1 t' (step_Inv t o t1 HI Hs) Hrun kk Hin) as [H1|(k & v & Hk & E)].
    2:{ right. exists k, v. split; [by right|done]. }
    destruct o as [k w|k|k|k|]; simpl in Hs.
    + pose proof (Insert_spec t k w HI) as H. rewrite Hs in H.
      destruct H as [_ [[-> _]|(_ & _ & Hp)]]; [by left|].
      rewrite Hp in H1. simpl in H1. apply elem_of_cons in H1 as [->|?]; [|by left].
      right. exists k, w. split; [left|done].
    + pose proof (Remove_spec t k HI) as H. rewrite Hs in H.
      destruct H as [_ [->|(_ & vl & Hp)]]; [by left|]. left. rewrite Hp. simpl. by right.
    + destruct (Search t k); [|done]. injection Hs as <-. by left.
    + destruct (PrefixSearch t k); [|done]. injection Hs as <-. by left.
    + destruct (Each t); [|done]. injection Hs as <-. by left.
Qed.


End sequences.

(** ** The specification's claims *)

Section claims.
Context {V : Type}.
Abbreviation Node := (ArtNode V).
Implicit Types t : ArtTree V.
Implicit Types ops : list (Op V).

Lemma wf_preorder p (n : Node) :
  wf p n → ∃ nodes, eachHelper n = Some nodes ∧ preorder n nodes.
Proof.
  induction 1 as [p n Hty Hp Hc|p q n Hok Hmin Hq Hch IH].
  - exists [n]. split; [by apply eachHelper_leaf|by constructor].
  - eexists. split; [apply (eachHelper_inner n Hok (wf_inner_total p q n Hch))|].
    rewrite <- list_fmap_compose.
    constructor; [by apply node_ok_inner|].
    apply Forall2_fmap_r, Forall_Forall2_diag, Forall_forall.
    intros [b c] Hin. apply elem_of_tab in Hin.
    destruct (IH b c Hin) as (nodes & Hn & Hpre).
    change (preorder c (default [] (eachHelper c))). by rewrite Hn.
Qed.


(** C5: inserting a key that the tree stores returns the tree as it was,
    value and size included. *)
Theorem C5_duplicate_insert ops t (k : list byte) (v v' : option V) :
  run NewArtTree ops = Some t →
  (ensureNullTerminatedKey k, v) ∈ contents t →
  Insert t k v' = Some t.
Proof.
  intros Hrun Hin. pose proof (reachable_Inv ops t Hrun) as HI.
  assert (ensureNullTerminatedKey k ∈ (contents t).*1) as Hk.
  { apply list_elem_of_fmap. by exists (ensureNullTerminatedKey k, v). }
  pose proof (Insert_spec t k v' HI) as H.
  destruct (Insert t k v') as [t'|].
  - destruct H as [_ [[-> _]|(_ & Hfresh & _)]]; done.
  - exfalso. destruct H as (k' & Hin' & Hne & [Hpre|Hpre]).
    + by apply Hne, (Inv_prefix_free t).
    + apply Hne. symmetry. by apply (Inv_prefix_free t).
Qed.

(** C6: on every tree that a sequence of operations has built, Each hands
    over the nodes in pre-order, the children of a node in the ascending
    order of their key bytes whatever the node's type, and the keys of the
    leaves among them ascend strictly in the lexicographic order. *)
Theorem C6_each_order ops t :
  run NewArtTree ops = Some t →
  ∃ nodes, Each t = Some nodes
    ∧ match root t with Some r => preorder r nodes | None => nodes = [] end
    ∧ (∀ n : Node, StronglySorted key_lt (kids n))
    ∧ StronglySorted lex_lt (key <$> filter (fun x : Node => Is_true (IsLeaf x)) nodes).
Proof.
  intros Hrun. pose proof (reachable_Inv ops t Hrun) as HI.
  destruct (Each_spec t HI) as (nodes & HE & _ & _ & Hs). exists nodes.
  split; [done|]. split; [|split; [apply kids_sorted_tab|done]].
  unfold Each, EachChanFrom, Inv in *. destruct (root t) as [r|]; [|by injection HE].
  destruct HI as [Hwf _]. destruct (wf_preorder [] r Hwf) as (nodes' & Hn & Hp). congruence.
Qed.

(** C8: after every sequence of operations that returns, the size field
    of the tree is the number of leaves among the nodes that Each hands
    over. *)
Theorem C8_size ops t :
  run NewArtTree ops = Some t →
  ∃ nodes, Each t = Some nodes
    ∧ tree_size t = len (filter (fun x : Node => Is_true (IsLeaf x)) nodes).
Proof.
  intros Hrun. pose proof (reachable_Inv ops t Hrun) as HI.
  destruct (Each_spec t HI) as (nodes & HE & _ & Hsz & _). eauto.
Qed.

(** C9: the root is a NODE16 after the keys 0x00..0x04, a NODE48 after
    0x00..0x10, a NODE256 after 0x00..0x30, and a NODE16 again when any
    one key of the seventeen is removed. *)
Theorem C9_shapes :
  root_type (run (@NewArtTree V) (insert_all (single_keys 5))) = Some NODE16
  ∧ root_type (run (@NewArtTree V) (insert_all (single_keys 17))) = Some NODE48
  ∧ root_type (run (@NewArtTree V) (insert_all (single_keys 49))) = Some NODE256
  ∧ (fun k => root_type (run (@NewArtTree V) (insert_all (single_keys 17) ++ [OpRemove k])))
      <$> single_keys 17
    = replicate 17 (Some NODE16).
Proof. repeat split; vm_compute; reflexivity. Qed.

(** C2 (the code panics): Remove indexes its key out of range after an
    earlier Remove has left a leaf with the prefix fields of its parent. *)
Theorem C2_remove_panics :
  let a11 := bytes_of "aaaaaaaaaaa" in
  let ops : list (Op V) :=
    [OpInsert (a11 ++ bytes_of "b") None; OpInsert (a11 ++ bytes_of "c") None;
     OpRemove (a11 ++ bytes_of "c"); OpInsert (bytes_of "az") None] in
  (t ← run NewArtTree ops; Some (contents t))
  = Some [(a11 ++ bytes_of "b" ++ [x00], None); (bytes_of "az" ++ [x00], None)]
  ∧ (t ← run NewArtTree ops; Remove t (a11 ++ bytes_of "a")) = None.
Proof. split; vm_compute; reflexivity. Qed.

(** C3 (the code diverges): PrefixSearch returns the value of a key that
    does not start with the prefix. *)
Theorem C3_prefix_search_stale (v1 v2 v3 : option V) :
  let ops : list (Op V) :=
    [OpInsert (bytes_of "ab") v1; OpInsert (bytes_of "ac") v2;
     OpRemove (bytes_of "ac"); OpInsert (bytes_of "b") v3] in
  (t ← run NewArtTree ops; Some (contents t))
  = Some [(bytes_of "ab" ++ [x00], v1); (bytes_of "b" ++ [x00], v3)]
  ∧ (t ← run NewArtTree ops; PrefixSearch t (bytes_of "aa")) = Some [v1].
Proof. split; vm_compute; reflexivity. Qed.

End claims.

(** ** The claims at the worked examples *)

Lemma example_run : run NewArtTree example_ops = Some example_tree.
Proof. vm_compute. reflexivity. Defined.

Lemma round_trip_run : run NewArtTree round_trip_ops = Some round_trip_tree.
Proof. vm_compute. reflexivity. Defined.

Lemma example_contents :
  contents example_tree
  = [(bytes_of "a" ++ [x00], Some "a"%string); (bytes_of "aa" ++ [x00], Some "aa"%string)].
Proof. vm_compute. reflexivity. Defined.

Lemma insert_keys_free {V} (ops : list (Op V)) :
  Forall (fun o => match o with OpInsert k _ => x00 ∉ k | _ => True end) ops →
  ∀ k v, OpInsert k v ∈ ops → x00 ∉ k.
Proof. intros H k v Hin. eapply Forall_forall in H; [|exact Hin]. exact H. Qed.



Lemma C5_duplicate_insert_witness :
  run NewArtTree example_ops = Some example_tree
  ∧ Insert example_tree (bytes_of "a") (Some "other"%string) = Some example_tree.
Proof.
  split; [exact example_run|].
  apply (C5_duplicate_insert example_ops example_tree (bytes_of "a") (Some "a"%string)
           (Some "other"%string) example_run).
  rewrite example_contents. left.
Defined.

Lemma C6_each_order_witness :
  run NewArtTree example_ops = Some example_tree
  ∧ ∃ nodes, Each example_tree = Some nodes
      ∧ match root example_tree with Some r => preorder r nodes | None => nodes = [] end
      ∧ (∀ n : ArtNode string, StronglySorted key_lt (kids n))
      ∧ StronglySorted lex_lt
          (key <$> filter (fun x : ArtNode string => Is_true (IsLeaf x)) nodes).
Proof. split; [exact example_run|]. exact (C6_each_order example_ops example_tree example_run). Defined.

Lemma C8_size_witness :
  run NewArtTree round_trip_ops = Some round_trip_tree
  ∧ ∃ nodes, Each round_trip_tree = Some nodes
      ∧ tree_size round_trip_tree
        = len (filter (fun x : ArtNode string => Is_true (IsLeaf x)) nodes).
Proof. split; [exact round_trip_run|]. exact (C8_size round_trip_ops round_trip_tree round_trip_run). Defined.

(** * Further properties of the tree operations *)

Lemma kv_lt_sorted {A} (l : list (list byte * A)) :
  StronglySorted lex_lt l.*1 → StronglySorted kv_lt l.
Proof.
  induction l as [|x l IH]; [constructor|]. rewrite fmap_cons.
  intros [Hall Hs]%StronglySorted_cons. constructor; [by apply IH|].
  apply Forall_forall. intros y Hy. eapply Forall_forall in Hall; [exact Hall|].
  apply list_elem_of_fmap. by exists y.
Qed.

Lemma kv_lt_unique {A} (l1 l2 : list (list byte * A)) :
  StronglySorted kv_lt l1 → StronglySorted kv_lt l2 → l1 ≡ₚ l2 → l1 = l2.
Proof.
  apply StronglySorted_unique_strong. intros x1 x2 _ _ H1 H2. exfalso.
  eapply lex_lt_irrefl, lex_lt_trans; [exact H1|exact H2].
Qed.

Lemma NoDup_fst_unique {A B} (l : list (A * B)) (k : A) (v v' : B) :
  NoDup l.*1 → (k, v) ∈ l → (k, v') ∈ l → v = v'.
Proof.
  induction l as [|[k0 v0] l IH]; [by intros _ ?%elem_of_nil|].
  rewrite fmap_cons. intros [Hnotin Hnd]%NoDup_cons.
  assert (∀ w, (k0, w) ∈ l → False) as Hno.
  { intros w Hw. apply Hnotin. apply list_elem_of_fmap. by exists (k0, w). }
  intros [[= -> ->]|H1]%elem_of_cons [[= <-]|H2]%elem_of_cons.
  - done.
  - by apply Hno in H2.
  - simplify_eq. by apply Hno in H1.
  - by apply IH.
Qed.

Section more.
Context {V : Type}.
Abbreviation Node := (ArtNode V).
Implicit Types n c : Node.
Implicit Types t : ArtTree V.
Implicit Types ops : list (Op V).

Lemma kv_keys n : (kv n).*1 = key <$> leaves n.
Proof. unfold kv. by rewrite <- list_fmap_compose. Qed.

Lemma Inv_sorted t : Inv t → StronglySorted lex_lt (contents t).*1.
Proof.
  unfold Inv, contents. destruct (root t) as [r|]; [|constructor].
  intros [Hwf _]. rewrite kv_keys. exact (wf_sorted [] r Hwf).
Qed.

Lemma Inv_size t : Inv t → tree_size t = len (contents t).
Proof. unfold Inv, contents. destruct (root t); [by intros [_ ?]|done]. Qed.

Lemma Inv_value_unique t (k : list byte) (v v' : option V) :
  Inv t → (k, v) ∈ contents t → (k, v') ∈ contents t → v = v'.
Proof.
  intros HI. apply NoDup_fst_unique, sorted_NoDup, Inv_sorted, HI.
Qed.

(** A stored key is removed without a panic. *)
Lemma removeHelper_found p n :
  wf p n → ∀ l (s : Z), l ∈ leaves n → p `prefix_of` key l →
  ∃ r, removeHelper n (key l) (Z.of_nat (length p)) s = Some (r, s - 1).
Proof.
  induction 1 as [p n Hty Hp Hc|p q n Hok Hmin Hq Hch IH]; intros l s Hl Hpk.
  - rewrite leaves_leaf in Hl by done. apply list_elem_of_singleton in Hl as ->.
    rewrite removeHelper_unfold, (IsLeaf_true n Hty).
    rewrite (proj2 (IsMatch_true n (key n))) by done. simpl. eauto.
  - destruct (wf_inner_leaves_prefix p q n l Hok Hch Hl) as (b & c & Hc & Hlc & Hpre).
    pose proof Hq as [Hlen _]. unfold len in Hlen.
    rewrite removeHelper_unfold, (IsLeaf_false n) by (by apply node_ok_inner). simpl andb.
    cbv iota.
    assert (q `prefix_of` drop (length p) (key l)) as Hqk.
    { destruct Hpre as [r ->]. rewrite <- !app_assoc, drop_app_length. by eexists. }
    assert ((if decide (prefixLen n ≠ 0) then
               mismatch ← PrefixMismatch n (key l) (Z.of_nat (length p));
               if decide (mismatch ≠ prefixLen n) then Some None
               else Some (Some (Z.of_nat (length p) + prefixLen n))
             else Some (Some (Z.of_nat (length p))))
            = Some (Some (Z.of_nat (length (p ++ q))))) as ->.
    { rewrite length_app. destruct (decide (prefixLen n ≠ 0)) as [Hnz|Hz].
      - rewrite (PrefixMismatch_spec p q n (key l) Hok Hmin Hq Hch Hpk). obind.
        rewrite (prefix_of_lcp _ _ Hqk). rewrite decide_False by lia. do 2 f_equal. lia.
      - do 2 f_equal. lia. }
    obind. rewrite (prefix_of_aget (p ++ q) (key l) b) by (by rewrite <- app_assoc). obind.
    destruct (FindChild_present n b c Hok Hc) as (i & HF & Hi). rewrite HF. obind.
    rewrite at_index_fmap, Hi. simpl.
    destruct (IsLeaf c && IsMatch c (key l)) eqn:Hmatch.
    + destruct (RemoveChild_spec n b c Hok Hmin Hc)
        as [(n' & -> & _)|(n1 & b' & c' & rest & Hne & Hc' & Honly & Hv1 & Hty1 & Hp1 & Hpl1 & ->)].
      * simpl. eauto.
      * apply andb_true_iff in Hmatch as [_ Hm]. apply IsMatch_true in Hm as [Hcl Hck].
        assert (children c = []) as Hcc.
        { destruct (wf_cases _ c (Hch b c Hc)) as [(_ & _ & ?)|(q' & Hokc & _)]; [done|].
          by apply node_ok_inner in Hokc. }
        destruct (collapse_spec p q n n1 b b' c c' rest Hok Hq Hch Hc Hcl Hcc
                    Hne Hc' Honly Hv1 Hty1 Hp1 Hpl1) as (n' & -> & _).
        simpl. eauto.
    + simpl.
      replace (Z.of_nat (length (p ++ q)) + 1) with (Z.of_nat (length (p ++ q ++ [b])))
        by (rewrite !length_app; simpl; lia).
      destruct (IH b c Hc l s Hlc Hpre) as (r & ->). simpl.
      rewrite aset_ok by (by eapply aget_lt). simpl. eauto.
Qed.

Lemma Remove_stored_Inv t (k : list byte) (v : option V) :
  Inv t → (ensureNullTerminatedKey k, v) ∈ contents t →
  ∃ t', Remove t k = Some t' ∧ Inv t'
        ∧ tree_size t' = tree_size t - 1
        ∧ contents t ≡ₚ (ensureNullTerminatedKey k, v) :: contents t'.
Proof.
  intros HI Hin. pose proof (Remove_spec t k HI) as Hspec.
  assert (∃ t', Remove t k = Some t' ∧ tree_size t' = tree_size t - 1) as (t' & HR & Hsz).
  { unfold Remove, Inv, contents in *. cbv zeta.
    destruct (root t) as [r|]; [|by apply elem_of_nil in Hin].
    destruct HI as [Hwf _]. apply elem_of_kv in Hin as (l & Hl & Hk & _).
    destruct (removeHelper_found [] r Hwf l (tree_size t) Hl (prefix_nil _)) as (r' & Hr).
    change (Z.of_nat (length [])) with 0 in Hr. rewrite Hk in Hr. rewrite Hr. simpl. eauto. }
  rewrite HR in Hspec. destruct Hspec as [HI' [->|(_ & vl & Hp)]]; [lia|].
  exists t'. split; [done|]. split; [done|]. split; [done|].
  assert (vl = v) as ->; [|done].
  apply (Inv_value_unique t (ensureNullTerminatedKey k)); [done| |done].
  rewrite Hp. left.
Qed.

End more.

Section tree_properties.
Context {V : Type}.
Abbreviation Node := (ArtNode V).
Implicit Types t : ArtTree V.
Implicit Types ops : list (Op V).

(** Insert, when it returns: a stored key leaves the tree as it is, a new
    key adds exactly its pair and one to the size. *)
Theorem Insert_effect ops t (k : list byte) (v : option V) t' :
  run NewArtTree ops = Some t → Insert t k v = Some t' →
  (ensureNullTerminatedKey k ∈ (contents t).*1 ∧ t' = t)
  ∨ (¬ (ensureNullTerminatedKey k ∈ (contents t).*1)
     ∧ tree_size t' = tree_size t + 1
     ∧ contents t' ≡ₚ (ensureNullTerminatedKey k, v) :: contents t).
Proof.
  intros Hrun HIns. pose proof (Insert_spec t k v (reachable_Inv ops t Hrun)) as H.
  rewrite HIns in H. destruct H as [_ [[-> ?]|(? & ? & ?)]]; [by left|by right].
Qed.

(** Insert panics only when a stored key is a proper prefix of the new
    key as normalized, or the other way round. *)
Theorem Insert_panics_only_on_prefix ops t (k : list byte) (v : option V) :
  run NewArtTree ops = Some t → Insert t k v = None →
  ∃ k', k' ∈ (contents t).*1 ∧ k' ≠ ensureNullTerminatedKey k
        ∧ ((k' `prefix_of` ensureNullTerminatedKey k)
           ∨ (ensureNullTerminatedKey k `prefix_of` k')).
Proof.
  intros Hrun HIns. pose proof (Insert_spec t k v (reachable_Inv ops t Hrun)) as H.
  by rewrite HIns in H.
Qed.

(** Remove of a stored key returns, takes exactly that pair out of the
    tree and one off the size. *)
Theorem Remove_stored ops t (k : list byte) (v : option V) :
  run NewArtTree ops = Some t → (ensureNullTerminatedKey k, v) ∈ contents t →
  ∃ t', Remove t k = Some t'
        ∧ tree_size t' = tree_size t - 1
        ∧ contents t ≡ₚ (ensureNullTerminatedKey k, v) :: contents t'
        ∧ ¬ (ensureNullTerminatedKey k ∈ (contents t').*1).
Proof.
  intros Hrun Hin. pose proof (reachable_Inv ops t Hrun) as HI.
  destruct (Remove_stored_Inv t k v HI Hin) as (t' & HR & HI' & Hsz & Hp).
  exists t'. split; [done|]. split; [done|]. split; [done|].
  pose proof (sorted_NoDup _ (Inv_sorted t HI)) as Hnd.
  rewrite Hp in Hnd. simpl in Hnd. by apply NoDup_cons in Hnd as [? _].
Qed.

(** Remove of a key that is not stored, when it returns, returns the tree
    as it was. *)
Theorem Remove_absent ops t (k : list byte) t' :
  run NewArtTree ops = Some t → ¬ (ensureNullTerminatedKey k ∈ (contents t).*1) →
  Remove t k = Some t' → t' = t.
Proof.
  intros Hrun Hnot HR. pose proof (Remove_spec t k (reachable_Inv ops t Hrun)) as H.
  rewrite HR in H. destruct H as [_ [->|(_ & vl & Hp)]]; [done|].
  exfalso. apply Hnot. rewrite Hp. left.
Qed.

(** The stored keys are pairwise distinct, and none is a prefix of another. *)
Theorem stored_keys_prefix_free ops t :
  run NewArtTree ops = Some t →
  NoDup (contents t).*1
  ∧ ∀ k1 k2 : list byte, k1 ∈ (contents t).*1 → k2 ∈ (contents t).*1 →
      k1 `prefix_of` k2 → k1 = k2.
Proof.
  intros Hrun. pose proof (reachable_Inv ops t Hrun) as HI. split.
  - by apply sorted_NoDup, Inv_sorted.
  - intros k1 k2. by apply Inv_prefix_free.
Qed.

(** PrefixSearch with the empty prefix returns all values in the strictly
    ascending order of their keys; on the empty tree every prefix gives the
    empty sequence. *)
Theorem PrefixSearch_empty_prefix ops t :
  run NewArtTree ops = Some t →
  PrefixSearchChan t [] = Some (contents t)
  ∧ PrefixSearch t [] = Some (contents t).*2
  ∧ StronglySorted lex_lt (contents t).*1
  ∧ ∀ k : list byte, PrefixSearch (@NewArtTree V) k = Some [].
Proof.
  intros Hrun. pose proof (reachable_Inv ops t Hrun) as HI.
  assert (PrefixSearchChan t [] = Some (contents t)) as Hchan.
  { unfold PrefixSearchChan, searchFrom, contents, Inv in *.
    destruct (root t) as [r|]; [|done]. destruct HI as [Hwf _].
    rewrite searchHelper_unfold. cbv zeta. rewrite decide_True by (unfold len; simpl; lia).
    simpl. unfold EachChanResultFrom, EachChanFrom, kv, leaves.
    destruct (wf_each_total [] r Hwf) as [nodes ->]. done. }
  split; [done|]. split; [|split; [by apply Inv_sorted|done]].
  unfold PrefixSearch. unfold PrefixSearchChan in Hchan.
  destruct (searchFrom (root t) []) as [start|]; [|done]. simpl in *.
  by rewrite Hchan.
Qed.

(** EachChanResult delivers every stored pair once, in the strictly
    ascending order of the keys, and as many pairs as the size says. *)
Theorem EachChanResult_sorted ops t :
  run NewArtTree ops = Some t →
  ∃ res, EachChanResult t = Some res
    ∧ StronglySorted lex_lt res.*1
    ∧ tree_size t = len res
    ∧ ∀ (k : list byte) (v : V), (ensureNullTerminatedKey k, Some v) ∈ res ↔
        Search t k = Some (Some v).
Proof.
  intros Hrun. pose proof (reachable_Inv ops t Hrun) as HI.
  exists (contents t). split; [|split; [by apply Inv_sorted|split; [by apply Inv_size|]]].
  - unfold EachChanResult, EachChanResultFrom, EachChanFrom, contents, Inv in *.
    destruct (root t) as [r|]; [|done]. destruct HI as [Hwf _].
    unfold kv, leaves. destruct (wf_each_total [] r Hwf) as [nodes ->]. done.
  - intros k v. split; [by apply Search_stored|by apply Search_sound].
Qed.

(** Insert of a new key followed by Remove of it restores the stored
    pairs and the size. *)
Theorem Insert_then_Remove ops t (k : list byte) (v : option V) t1 :
  run NewArtTree ops = Some t → ¬ (ensureNullTerminatedKey k ∈ (contents t).*1) →
  Insert t k v = Some t1 →
  ∃ t2, Remove t1 k = Some t2 ∧ contents t2 = contents t ∧ tree_size t2 = tree_size t.
Proof.
  intros Hrun Hnot HIns. pose proof (reachable_Inv ops t Hrun) as HI.
  pose proof (Insert_spec t k v HI) as H. rewrite HIns in H.
  destruct H as [HI1 [[_ ?]|(Hsz & _ & Hp)]]; [done|].
  destruct (Remove_stored_Inv t1 k v HI1) as (t2 & HR & HI2 & Hsz2 & Hp2);
    [rewrite Hp; left|].
  exists t2. split; [done|]. split; [|lia].
  apply kv_lt_unique; [by apply kv_lt_sorted, Inv_sorted..|].
  rewrite Hp in Hp2. by apply Permutation_cons_inv in Hp2.
Qed.

Lemma inserts_contents (kvs : list (list byte * option V)) :
  ∀ t, Inv t →
  (∀ e, e ∈ kvs → x00 ∉ e.1) → NoDup kvs.*1 →
  (∀ e, e ∈ kvs → ¬ (e.1 ++ [x00] ∈ (contents t).*1)) →
  (∀ kk, kk ∈ (contents t).*1 → terminated kk) →
  ∃ t', run t (inserts kvs) = Some t' ∧ Inv t'
        ∧ contents t' ≡ₚ (stored_pair <$> kvs) ++ contents t.
Proof.
  induction kvs as [|[k v] kvs IH]; intros t HI Hfree Hnd Hnew Hterm.
  - exists t. done.
  - rewrite fmap_cons in Hnd. apply NoDup_cons in Hnd as [Hk Hnd].
    assert (x00 ∉ k) as Hk0 by (apply (Hfree (k, v)); left).
    pose proof (ensure_free k Hk0) as Hens.
    pose proof (Insert_spec t k v HI) as H. simpl.
    destruct (Insert t k v) as [t1|]; simpl.
    + destruct H as [HI1 [[_ Hin]|(_ & _ & Hp)]].
      { exfalso. apply (Hnew (k, v)); [left|]. simpl. by rewrite <- Hens. }
      rewrite Hens in Hp.
      destruct (IH t1 HI1) as (t' & Hrun & HI' & Hp'); [| | | |].
      * intros e He. apply Hfree. by right.
      * done.
      * intros e He. rewrite Hp. simpl. intros [E|Hin]%elem_of_cons.
        -- apply app_inv_tail in E. apply Hk. apply list_elem_of_fmap. by exists e.
        -- apply (Hnew e); [by right|done].
      * intros kk. rewrite Hp. simpl. intros [->|?]%elem_of_cons; [by exists k|by apply Hterm].
      * exists t'. split; [done|]. split; [done|].
        rewrite Hp', Hp. simpl. unfold stored_pair at 2. simpl.
        by rewrite Permutation_middle.
    + exfalso. destruct H as (k' & Hin & Hne & [Hpre|Hpre]).
      * apply Hne. apply terminated_prefix; [by apply Hterm|by exists k|done].
      * apply Hne. symmetry. apply terminated_prefix; [by exists k|by apply Hterm|done].
Qed.

(** Inserting pairs with distinct keys free of zero bytes, in whatever
    order, gives the same enumeration: the pairs under their terminated
    keys, sorted. *)
Theorem inserts_any_order (kvs kvs' : list (list byte * option V)) :
  (∀ e, e ∈ kvs → x00 ∉ e.1) → NoDup kvs.*1 → kvs ≡ₚ kvs' →
  ∃ t t', run NewArtTree (inserts kvs) = Some t
          ∧ run NewArtTree (inserts kvs') = Some t'
          ∧ contents t ≡ₚ stored_pair <$> kvs
          ∧ contents t' = contents t
          ∧ tree_size t = Z.of_nat (length kvs).
Proof.
  intros Hfree Hnd Hperm.
  destruct (inserts_contents kvs NewArtTree Inv_empty Hfree Hnd) as (t & Hrun & HI & Hp);
    [by intros ? _ ?%elem_of_nil|by intros ? ?%elem_of_nil|].
  destruct (inserts_contents kvs' NewArtTree Inv_empty) as (t' & Hrun' & HI' & Hp');
    [|by rewrite <- Hperm|by intros ? _ ?%elem_of_nil|by intros ? ?%elem_of_nil|].
  { intros e He. apply Hfree. by rewrite Hperm. }
  rewrite app_nil_r in Hp, Hp'.
  exists t, t'. split; [done|]. split; [done|]. split; [done|]. split.
  - apply kv_lt_unique; [by apply kv_lt_sorted, Inv_sorted..|].
    by rewrite Hp, Hp', Hperm.
  - rewrite (Inv_size t HI). unfold len. by rewrite Hp, length_fmap.
Qed.

End tree_properties.

(** ** The least and the greatest leaf *)

Lemma list_snoc_cases {A} (l : list A) : l = [] ∨ ∃ l' x, l = l' ++ [x].
Proof.
  induction l as [|x l IH]; [by left|]. right.
  destruct IH as [->|(l' & y & ->)]; [by exists [], x|by exists (x :: l'), y].
Qed.

Section extremes.
Context {V : Type}.
Abbreviation Node := (ArtNode V).
Implicit Types n c : Node.
Implicit Types t : ArtTree V.

Lemma Maximum_unfold n :
  Maximum n =
    let sub := fun c : option Node =>
                 match c with
                 | Some c' => Maximum c'
                 | None => Some None
                 end in
    match nodeType n with
    | LEAF => Some (Some n)
    | NODE4 | NODE16 => r ← at_index sub (children n) (u8 (size n - 1)); r
    | NODE48 =>
        i ← last_nonzero (S (length (keys n))) (len (keys n) - 1) (keys n);
        k ← aget (keys n) i;
        r ← at_index sub (children n) (b2z k - 1); r
    | NODE256 =>
        i ← last_nonnil (length (children n)) (len (children n) - 1) (children n);
        r ← at_index sub (children n) i; r
    end.
Proof. destruct n. reflexivity. Qed.

Lemma kids_last_child n (b : byte) c rest :
  kids n = rest ++ [(b, c)] → child n b = Some c.
Proof.
  unfold kids. intros Hk. apply elem_of_tab. rewrite Hk. apply elem_of_app. right. left.
Qed.

Lemma sorted_snoc_Forall (rest : list (byte * Node)) x :
  StronglySorted key_lt (rest ++ [x]) → Forall (fun y => key_lt y x) rest.
Proof.
  induction rest as [|y rest IH]; [constructor|]. simpl.
  intros [Hall Hs]%StronglySorted_cons. constructor; [|by apply IH].
  eapply Forall_forall in Hall; [exact Hall|]. apply elem_of_app. right. left.
Qed.

Lemma kids_last_greatest n (b : byte) c rest (b' : byte) :
  kids n = rest ++ [(b, c)] → byte_lt b b' → child n b' = None.
Proof.
  intros Hk Hlt. destruct (child n b') as [c'|] eqn:E; [|done].
  apply elem_of_tab in E. fold (kids n) in E. rewrite Hk in E.
  pose proof (kids_sorted_tab n) as Hs. rewrite Hk in Hs.
  apply sorted_snoc_Forall in Hs.
  apply elem_of_app in E as [E|E].
  - eapply Forall_forall in Hs; [|exact E]. unfold key_lt, byte_lt in *. simpl in *. lia.
  - apply list_elem_of_singleton in E. injection E as -> ->. by apply byte_lt_irrefl in Hlt.
Qed.

Lemma Maximum_sorted cap n es rest (b : byte) c es' :
  sorted_view cap n es rest → (cap ≤ 16)%nat → es = es' ++ [(b, c)] →
  (at_index (fun c : option Node => match c with Some c' => Maximum c' | None => Some None end)
     (children n) (u8 (size n - 1)) ≫= id) = Maximum c.
Proof.
  intros Hv Hcap ->. pose proof Hv as (Hk&Hlen&Hc&Hle&Hsz&Hs).
  pose proof (len_nonneg es'). rewrite length_app in Hle. simpl in Hle.
  assert (u8 (size n - 1) = len es') as ->.
  { rewrite Hsz. unfold len in *. rewrite length_app. simpl. rewrite u8_small; lia. }
  rewrite at_index_fmap.
  rewrite (sorted_view_children_l cap n _ rest (len es') Hv)
    by (unfold len in *; rewrite length_app; simpl; lia).
  rewrite fmap_app. unfold len. rewrite aget_nat.
  rewrite lookup_app_r by (rewrite length_fmap; lia).
  rewrite length_fmap, Nat.sub_diag. done.
Qed.

Lemma last_nonzero_spec (ks : list byte) (target : nat) :
  ∀ fuel (start : nat),
    (∀ j, (target < j ≤ start)%nat → ks !! j = Some x00) →
    (∃ k, ks !! target = Some k ∧ k ≠ x00) →
    (target ≤ start)%nat → (start - target < fuel)%nat →
    last_nonzero fuel (Z.of_nat start) ks = Some (Z.of_nat target).
Proof.
  induction fuel as [|fuel IH]; intros start Hz (k & Hk & Hne) Hle Hfuel; [lia|].
  simpl. rewrite aget_nat.
  destruct (decide (start = target)) as [->|Hneq].
  - rewrite Hk. obind. by rewrite decide_False.
  - rewrite (Hz start) by lia. obind. rewrite decide_True by done.
    replace (Z.of_nat start - 1) with (Z.of_nat (start - 1)) by lia.
    apply IH; [|eauto|lia|lia]. intros j Hj. apply Hz. lia.
Qed.

Lemma last_nonnil_spec (cs : list (option Node)) (target : nat) :
  ∀ fuel (start : nat),
    (∀ j, (target < j ≤ start)%nat → cs !! j = Some None) →
    (target = 0%nat ∨ ∃ c, cs !! target = Some (Some c)) →
    (target ≤ start < 256)%nat → (start - target < fuel)%nat →
    last_nonnil fuel (Z.of_nat start) cs = Some (Z.of_nat target).
Proof.
  induction fuel as [|fuel IH]; intros start Hz Ht Hle Hfuel; [lia|].
  simpl. destruct (decide (Z.of_nat start > 0)) as [Hpos|Hzero].
  - rewrite u8_small by lia. rewrite aget_nat.
    destruct (decide (start = target)) as [->|Hneq].
    + destruct Ht as [->|(c & ->)]; [lia|done].
    + rewrite (Hz start) by lia. obind.
      replace (Z.of_nat start - 1) with (Z.of_nat (start - 1)) by lia.
      destruct (decide (start - 1 = target)%nat) as [E|NE].
      * destruct fuel as [|fuel'].
        -- simpl. do 2 f_equal. lia.
        -- apply IH; [|done|lia|lia]. intros j Hj. apply Hz. lia.
      * apply IH; [|done|lia|lia]. intros j Hj. apply Hz. lia.
  - do 2 f_equal. lia.
Qed.

Lemma Maximum_kids n (b : byte) c rest :
  node_ok n → kids n = rest ++ [(b, c)] → Maximum n = Maximum c.
Proof.
  intros Hok Hk. rewrite Maximum_unfold. cbv zeta.
  pose proof (kids_last_child n b c rest Hk) as Hcb.
  pose proof (b2z_range b) as Hbr.
  destruct (node_ok_cases n Hok) as [(Hty & es & r & Hv)|[(Hty & es & r & Hv)|
    [(Hty & Hcore & _)|(Hty & Hl & _)]]]; rewrite Hty.
  - rewrite (kids_sorted 4 n es r Hv) in Hk; [|lia|by left].
    pose proof (Maximum_sorted 4 n es r b c rest Hv ltac:(lia) Hk) as H.
    destruct (at_index _ _ _) as [x|]; [|done]. exact H.
  - rewrite (kids_sorted 16 n es r Hv) in Hk; [|lia|by right].
    pose proof (Maximum_sorted 16 n es r b c rest Hv ltac:(lia) Hk) as H.
    destruct (at_index _ _ _) as [x|]; [|done]. exact H.
  - pose proof Hcore as (Hlk & Hlc & HA & HB).
    destruct (keys48_total n b Hlk) as [ki Hki].
    destruct (child48 n b ki Hcore Hty Hki) as [(_ & Hn & _)|(Hne & c' & Hc & Hs & _)];
      [congruence|].
    rewrite Hcb in Hs. injection Hs as <-.
    unfold len. rewrite Hlk.
    pose proof (last_nonzero_spec (keys n) (Z.to_nat (b2z b)) 257 255) as Hf.
    change (Z.of_nat 255) with 255 in Hf.
    change (Z.of_nat 256 - 1) with 255. rewrite Hf.
    + rewrite Z2Nat.id by lia. obind. rewrite Hki. obind.
      rewrite at_index_fmap, Hc. done.
    + intros j Hj.
      assert (child n (z2b (Z.of_nat j)) = None) as Hnone.
      { apply (kids_last_greatest n b c rest); [done|]. unfold byte_lt.
        rewrite z2b_range_id by lia. lia. }
      apply child48_None in Hnone; [|done..]. rewrite z2b_range_id in Hnone by lia.
      by rewrite aget_nat in Hnone.
    + exists ki. split; [|done]. by apply aget_Some in Hki as [_ Hki].
    + lia.
    + lia.
  - unfold len. rewrite Hl.
    pose proof (child256_lookup n b Hty Hl) as Hc. rewrite Hcb in Hc.
    pose proof (last_nonnil_spec (children n) (Z.to_nat (b2z b)) 256 255) as Hf.
    change (Z.of_nat 255) with 255 in Hf.
    change (Z.of_nat 256 - 1) with 255. rewrite Hf.
    + rewrite Z2Nat.id by lia. obind. rewrite at_index_fmap, Hc. done.
    + intros j Hj.
      assert (child n (z2b (Z.of_nat j)) = None) as Hnone.
      { apply (kids_last_greatest n b c rest); [done|]. unfold byte_lt.
        rewrite z2b_range_id by lia. lia. }
      pose proof (child256_lookup n (z2b (Z.of_nat j)) Hty Hl) as Hj'.
      rewrite z2b_range_id, aget_nat, Hnone in Hj' by lia. done.
    + right. exists c. by apply aget_Some in Hc as [_ Hc].
    + lia.
    + lia.
Qed.

Lemma Minimum_head p n :
  wf p n → ∃ l rest, leaves n = l :: rest ∧ Minimum n = Some (Some l).
Proof.
  induction 1 as [p n Hty Hp Hc|p q n Hok Hmin Hq Hch IH].
  - exists n, []. rewrite leaves_leaf by done. split; [done|].
    rewrite Minimum_unfold. cbv zeta. by rewrite Hty.
  - destruct (kids_nonempty n Hok Hmin) as (b & c & rest & Hk).
    pose proof (kids_head_child n b c rest Hk) as Hc.
    destruct (IH b c Hc) as (l & rest' & Hl & Hm).
    rewrite (leaves_inner n Hok (wf_inner_total p q n Hch)), Hk.
    rewrite (Minimum_kids n b c rest Hok Hk).
    rewrite !fmap_cons, concat_cons. simpl. rewrite Hl. simpl. eauto.
Qed.

Lemma Maximum_last p n :
  wf p n → ∃ l init, leaves n = init ++ [l] ∧ Maximum n = Some (Some l).
Proof.
  induction 1 as [p n Hty Hp Hc|p q n Hok Hmin Hq Hch IH].
  - exists n, []. rewrite leaves_leaf by done. split; [done|].
    rewrite Maximum_unfold. cbv zeta. by rewrite Hty.
  - destruct (kids_nonempty n Hok Hmin) as (b0 & c0 & rest0 & Hk0).
    destruct (list_snoc_cases (kids n)) as [E|(rest & [b c] & Hk)]; [by rewrite E in Hk0|].
    pose proof (kids_last_child n b c rest Hk) as Hc.
    destruct (IH b c Hc) as (l & init & Hl & Hm).
    rewrite (leaves_inner n Hok (wf_inner_total p q n Hch)), Hk.
    rewrite (Maximum_kids n b c rest Hok Hk).
    rewrite !fmap_app, concat_app. simpl. rewrite Hl, app_nil_r, app_assoc. eauto.
Qed.

(** Minimum returns the leaf with the least stored key. *)
Theorem Minimum_least (ops : list (Op V)) t r :
  run NewArtTree ops = Some t → root t = Some r →
  ∃ l, Minimum r = Some (Some l)
       ∧ (key l, value l) ∈ contents t
       ∧ ∀ k : list byte, k ∈ (contents t).*1 → k = key l ∨ lex_lt (key l) k.
Proof.
  intros Hrun Hr. pose proof (reachable_Inv ops t Hrun) as HI.
  pose proof (Inv_sorted t HI) as Hs.
  unfold Inv, contents in *. rewrite Hr in *. destruct HI as [Hwf _].
  destruct (Minimum_head [] r Hwf) as (l & rest & Hl & Hm). exists l.
  split; [done|]. rewrite kv_keys in *. rewrite Hl in Hs. split.
  - apply elem_of_kv. exists l. rewrite Hl. split; [left|done].
  - rewrite Hl. rewrite fmap_cons in *. intros k [->|Hk]%elem_of_cons; [by left|right].
    apply StronglySorted_cons in Hs as [Hall _].
    eapply Forall_forall in Hall; [exact Hall|done].
Qed.

Lemma sorted_snoc_lex (init : list (list byte)) x :
  StronglySorted lex_lt (init ++ [x]) → Forall (fun y => lex_lt y x) init.
Proof.
  induction init as [|y init IH]; [constructor|]. simpl.
  intros [Hall Hs]%StronglySorted_cons. constructor; [|by apply IH].
  eapply Forall_forall in Hall; [exact Hall|]. apply elem_of_app. right. left.
Qed.

(** Maximum returns the leaf with the greatest stored key. *)
Theorem Maximum_greatest (ops : list (Op V)) t r :
  run NewArtTree ops = Some t → root t = Some r →
  ∃ l, Maximum r = Some (Some l)
       ∧ (key l, value l) ∈ contents t
       ∧ ∀ k : list byte, k ∈ (contents t).*1 → k = key l ∨ lex_lt k (key l).
Proof.
  intros Hrun Hr. pose proof (reachable_Inv ops t Hrun) as HI.
  pose proof (Inv_sorted t HI) as Hs.
  unfold Inv, contents in *. rewrite Hr in *. destruct HI as [Hwf _].
  destruct (Maximum_last [] r Hwf) as (l & init & Hl & Hm). exists l.
  split; [done|]. rewrite kv_keys in *. rewrite Hl in Hs. split.
  - apply elem_of_kv. exists l. rewrite Hl. split; [|done]. apply elem_of_app. right. left.
  - rewrite Hl. rewrite fmap_app in *. simpl in *.
    intros k [Hk|Hk]%elem_of_app; [right|left; by apply list_elem_of_singleton in Hk].
    apply sorted_snoc_lex in Hs. eapply Forall_forall in Hs; [exact Hs|done].
Qed.

End extremes.

(** ** Nodes and arrays *)

(** [memcpy] copies as many bytes as the count and both lengths allow,
    and leaves the rest and the length of the destination alone. *)
Theorem memcpy_closed_form (dest src : list byte) (numBytes : Z) :
  let m := Z.to_nat (Z.min numBytes (Z.min (len src) (len dest))) in
  memcpy dest src numBytes = take m src ++ drop m dest
  ∧ length (memcpy dest src numBytes) = length dest.
Proof. split; [apply memcpy_spec|apply memcpy_length]. Qed.

Lemma memmove_from_panic (src : list byte) (numBytes : Z) :
  ∀ (m : nat) fuel (i : nat) (dest : list byte),
    (m = Z.to_nat (Z.min (len src) (len dest)) - i)%nat →
    (i ≤ Z.to_nat (Z.min (len src) (len dest)))%nat →
    Z.min (len src) (len dest) < numBytes → (m < fuel)%nat →
    memmove_from fuel (Z.of_nat i) dest (fun _ j => aget src j) numBytes = None.
Proof.
  unfold len. induction m as [|m IH]; intros fuel i dest Hm Hi Hn Hfuel.
  - destruct fuel; [lia|]. simpl. rewrite decide_True by lia. rewrite aget_nat.
    destruct (src !! i) as [x|] eqn:Hx; [|done]. obind.
    apply lookup_lt_Some in Hx. unfold aset. rewrite decide_False; [done|]. unfold len. lia.
  - destruct fuel; [lia|]. simpl. rewrite decide_True by lia. rewrite aget_nat.
    destruct (lookup_lt_is_Some_2 src i) as [x ->]; [lia|]. obind.
    rewrite aset_nat by lia. obind.
    replace (Z.of_nat i + 1) with (Z.of_nat (S i)) by lia.
    apply IH; rewrite ?length_insert; lia.
Qed.

(** [memmove] from another array copies [numBytes] bytes if both arrays
    are that long, and panics otherwise. *)
Theorem memmove_copies (dest src : list byte) (numBytes : Z) :
  0 ≤ numBytes →
  memmove dest (fun _ j => aget src j) numBytes
  = if decide (numBytes ≤ Z.min (len src) (len dest))
    then Some (take (Z.to_nat numBytes) src ++ drop (Z.to_nat numBytes) dest)
    else None.
Proof.
  intros Hn. destruct (decide _) as [Hle|Hgt].
  - apply memmove_spec; [lia|lia|]. intros i _. by rewrite aget_nat.
  - unfold memmove.
    apply (memmove_from_panic src numBytes (Z.to_nat (Z.min (len src) (len dest)))
             (Z.to_nat numBytes) 0%nat dest); unfold len in *; lia.
Qed.

(** [memmove] within one array, the source window lying [off] bytes ahead
    of the destination: the bytes move down by [off]. *)
Theorem memmove_overlap (P : list byte) (off cnt : Z) :
  0 ≤ off → 0 ≤ cnt → off + cnt ≤ len P →
  memmove P (fun d j => aget d (off + j)) cnt
  = Some (take (Z.to_nat cnt) (drop (Z.to_nat off) P) ++ drop (Z.to_nat cnt) P).
Proof.
  intros Hoff Hcnt Hlen. unfold len in *.
  apply memmove_spec; [unfold len; lia|unfold len; rewrite length_drop; lia|].
  intros i Hi.
  replace (off + Z.of_nat i) with (Z.of_nat (Z.to_nat off + i)) by lia.
  rewrite aget_nat, lookup_drop.
  destruct (decide (Z.to_nat off = 0)%nat) as [E|NE].
  - rewrite E. simpl. rewrite lookup_app_r by (rewrite length_take, length_drop; lia).
    rewrite length_take, length_drop, lookup_drop. f_equal. lia.
  - rewrite lookup_app_r by (rewrite length_take, length_drop; lia).
    rewrite length_take, length_drop, lookup_drop. f_equal. lia.
Qed.

(** [ensureNullTerminatedKey] keeps the key as a prefix, always yields a
    key with a zero byte, is idempotent, and sends different keys without
    zero byte to different keys. *)
Theorem ensure_properties (k : list byte) :
  k `prefix_of` ensureNullTerminatedKey k
  ∧ x00 ∈ ensureNullTerminatedKey k
  ∧ ensureNullTerminatedKey (ensureNullTerminatedKey k) = ensureNullTerminatedKey k
  ∧ ∀ k' : list byte, x00 ∉ k → x00 ∉ k' →
      ensureNullTerminatedKey k = ensureNullTerminatedKey k' → k = k'.
Proof.
  split; [|split; [|split; [apply ensure_idem|intros k'; apply ensure_inj]]].
  - destruct (decide (x00 ∈ k)) as [H|H].
    + by rewrite ensure_has.
    + rewrite ensure_free by done. by apply prefix_app_r.
  - destruct (decide (x00 ∈ k)) as [H|H].
    + by rewrite ensure_has.
    + rewrite ensure_free by done. apply elem_of_app. right. left.
Qed.

Section nodes.
Context {V : Type}.
Abbreviation Node := (ArtNode V).
Implicit Types n c : Node.

(** [LongestCommonPrefix] is the length of the longest common prefix of
    what the two keys hold from [depth] on. *)
Theorem LongestCommonPrefix_lcp n other (depth : Z) :
  0 ≤ depth ≤ Z.min (len (key n)) (len (key other)) →
  LongestCommonPrefix n other depth
  = Some (Z.of_nat (lcp (drop (Z.to_nat depth) (key n))
                        (drop (Z.to_nat depth) (key other)))).
Proof.
  intros Hd. unfold LongestCommonPrefix, len in *.
  destruct (LongestCommonPrefix_from_spec (key n) (key other) (Z.to_nat depth)
              (Z.min (len (key n)) (len (key other)) - Z.of_nat (Z.to_nat depth)) eq_refl
              (Z.to_nat (Z.min (len (key n)) (len (key other)) - Z.of_nat (Z.to_nat depth))) 0)
    as [H|[Hneg _]]; unfold len in *; [lia|done|lia|lia|lia| |lia].
  rewrite Z2Nat.id in H by lia. exact H.
Qed.

Lemma count_le_MaxSize n : node_ok n → count n ≤ MaxSize n.
Proof.
  intros Hok.
  destruct (node_ok_cases n Hok) as [(Hty & es & r & Hv)|[(Hty & es & r & Hv)|
    [(Hty & Hcore & Hsz & Hocc)|(Hty & Hl & _)]]]; unfold MaxSize; rewrite Hty.
  - rewrite (count_sorted 4 n es r Hv); [|lia|by left].
    destruct Hv as (_&_&_&Hle&_). unfold len, NODE4MAX. lia.
  - rewrite (count_sorted 16 n es r Hv); [|lia|by right].
    destruct Hv as (_&_&_&Hle&_). unfold len, NODE16MAX. lia.
  - pose proof (occupied_le n) as H. destruct Hcore as (_ & Hlc & _).
    unfold len in H. rewrite Hlc in H. unfold NODE48MAX. lia.
  - pose proof (count_range n). unfold NODE256MAX. lia.
Qed.

(** [AddChild] under a byte that has no child: the node, grown to the
    next type if it was full, holds the new child under that byte and the
    children it had under the others; its prefix fields are unchanged. *)
Theorem AddChild_adds n (b : byte) c :
  node_ok n → child n b = None →
  ∃ n', AddChild n b c = Some n' ∧ node_ok n'
        ∧ (∀ b', child n' b' = if decide (b' = b) then Some c else child n b')
        ∧ count n' = count n + 1
        ∧ prefix n' = prefix n ∧ prefixLen n' = prefixLen n.
Proof.
  intros Hok Hnone.
  destruct (AddChild_spec n b c Hok Hnone) as (n' & HA & Hok' & Hc' & Hp & Hpl & _).
  exists n'. split; [done|]. split; [done|]. split; [done|].
  split; [by apply (count_add n n' b c)|done].
Qed.

Lemma kids_two n (b1 b2 : byte) c1 c2 :
  b1 ≠ b2 →
  (∀ b, child n b = if decide (b = b2) then Some c2
                    else if decide (b = b1) then Some c1 else None) →
  count n = 2.
Proof.
  intros Hne Hch.
  assert (kids n ≡ₚ [(b2, c2); (b1, c1)]) as Hk.
  { apply NoDup_Permutation.
    - apply key_lt_NoDup, kids_sorted_tab.
    - apply NoDup_cons. split; [|apply NoDup_singleton].
      intros ?%list_elem_of_singleton. congruence.
    - intros [b c]. unfold kids. rewrite elem_of_tab, Hch.
      rewrite elem_of_cons, list_elem_of_singleton. split.
      + repeat case_decide; intros [= <-]; subst; auto.
      + intros [[= -> ->]|[= -> ->]].
        * by rewrite decide_True.
        * rewrite decide_False by done. by rewrite decide_True. }
  unfold count, len. by rewrite Hk.
Qed.

(** [RemoveChild] of one of at least three children: the node, shrunk to
    the smaller type if it fell below its minimum, holds the other
    children under their bytes; its prefix fields are unchanged. *)
Theorem RemoveChild_removes n (b : byte) c :
  node_ok n → MinSize n ≤ count n → 3 ≤ count n → child n b = Some c →
  ∃ n', RemoveChild n b = Some n' ∧ node_ok n'
        ∧ (∀ b', child n' b' = if decide (b' = b) then None else child n b')
        ∧ count n' = count n - 1 ∧ MinSize n' ≤ count n'
        ∧ prefix n' = prefix n ∧ prefixLen n' = prefixLen n.
Proof.
  intros Hok Hmin H3 Hc.
  destruct (RemoveChild_spec n b c Hok Hmin Hc)
    as [(n' & HR & Hok' & Hmin' & Hch' & Hp & Hpl)
       |(n1 & b' & c' & rest & Hne & Hc' & Honly & _)].
  - exists n'. split; [done|]. split; [done|]. split; [done|].
    split; [by apply (count_remove n n' b c)|done].
  - exfalso. assert (count n = 2); [|lia].
    apply (kids_two n b' b c' c Hne). intros b0.
    destruct (decide (b0 = b)) as [->|]; [done|].
    destruct (decide (b0 = b')) as [->|]; [done|]. by apply Honly.
Qed.

(** [grow] of a full node: the next larger type with the same children
    and prefix fields. *)
Theorem grow_keeps_children n :
  node_ok n → size n = MaxSize n → nodeType n ≠ NODE256 →
  ∃ n', grow n = Some n' ∧ node_ok n'
        ∧ (∀ b, child n' b = child n b)
        ∧ MaxSize n < MaxSize n'
        ∧ prefix n' = prefix n ∧ prefixLen n' = prefixLen n.
Proof.
  intros Hok Hfull Hty256. pose proof Hok as (Hpl & Hp0 & _).
  destruct (node_ok_cases n Hok) as [(Hty & es & r & Hv)|[(Hty & es & r & Hv)|
    [(Hty & Hsh)|(Hty & _)]]]; [| | |done]; unfold MaxSize in *; rewrite Hty in *.
  - pose proof Hv as (_&_&_&_&Hsz&_).
    destruct (grow4_spec n es r Hv Hty) as (n' & Hg & Hv' & Hty' & Hp' & Hpl').
    { unfold len, NODE4MAX in *. lia. }
    exists n'. split; [done|]. split.
    { split; [congruence|]. split; [lia|]. rewrite Hty'. by eexists _, _. }
    split.
    { intros b. rewrite (child_sorted 16 n' es _ b Hv'); [|lia|by right].
      by rewrite (child_sorted 4 n es r b Hv); [|lia|by left]. }
    rewrite Hty'. done.
  - pose proof Hv as (_&_&_&_&Hsz&_).
    destruct (grow16_spec n es r Hv Hty) as (n' & Hg & Hsh' & Hty' & Hc' & Hp' & Hpl').
    { unfold len, NODE16MAX in *. lia. }
    exists n'. split; [done|]. split.
    { split; [congruence|]. split; [lia|]. by rewrite Hty'. }
    split; [done|]. rewrite Hty'. done.
  - destruct (grow48_spec n Hsh Hty) as (n' & Hg & Hsh' & Hty' & Hc' & Hp' & Hpl').
    exists n'. split; [done|]. split.
    { split; [congruence|]. split; [lia|]. by rewrite Hty'. }
    split; [done|]. rewrite Hty'. done.
Qed.

(** [shrink] of a NODE16, NODE48 or NODE256 that has fallen below its
    minimum: the next smaller type with the same children and prefix
    fields. *)
Theorem shrink_keeps_children n :
  node_ok n → count n = MinSize n - 1 → nodeType n ≠ NODE4 →
  ∃ n', shrink n = Some n' ∧ node_ok n'
        ∧ (∀ b, child n' b = child n b)
        ∧ MaxSize n' < MaxSize n
        ∧ prefix n' = prefix n ∧ prefixLen n' = prefixLen n.
Proof.
  intros Hok Hcnt Hty4. pose proof Hok as (Hpl & Hp0 & _).
  destruct (node_ok_cases n Hok) as [(Hty & _)|[(Hty & es & r & Hv)|
    [(Hty & Hsh)|(Hty & Hsh)]]]; [done|..]; unfold MinSize, MaxSize in *; rewrite Hty in *.
  - rewrite (count_sorted 16 n es r Hv) in Hcnt; [|lia|by right].
    destruct (shrink16_spec n es r Hv Hty) as (n' & Hs & Hv' & Hty' & Hp' & Hpl').
    { unfold len, NODE16MIN in *. lia. }
    exists n'. split; [done|]. split.
    { split; [congruence|]. split; [lia|]. rewrite Hty'. by eexists _, _. }
    split.
    { intros b. rewrite (child_sorted 4 n' es _ b Hv'); [|lia|by left].
      by rewrite (child_sorted 16 n es r b Hv); [|lia|by right]. }
    rewrite Hty'. done.
  - destruct (shrink48_spec n Hsh Hty) as (n' & rest & Hs & Hv' & Hty' & Hp' & Hpl').
    { unfold NODE48MIN in *. lia. }
    exists n'. split; [done|]. split.
    { split; [congruence|]. split; [lia|]. rewrite Hty'. by eexists _, _. }
    split.
    { intros b. rewrite (child_sorted 16 n' _ _ b Hv'); [|lia|by right].
      apply child_alookup_kids. }
    rewrite Hty'. done.
  - destruct (shrink256_spec n Hsh Hty) as (n' & Hs & Hsh' & Hty' & Hc' & Hp' & Hpl').
    { unfold NODE256MIN in *. lia. }
    exists n'. split; [done|]. split.
    { split; [congruence|]. split; [lia|]. by rewrite Hty'. }
    split; [done|]. rewrite Hty'. done.
Qed.

(** [shrink] of a NODE4 left with one inner child: the child takes the
    node's place under the joined compressed path, of which it stores the
    length and the first ten bytes. *)
Theorem shrink4_merges_paths n (b : byte) c rest (q q' : list byte) :
  sorted_view 4 n [(b, c)] rest → nodeType n = NODE4 → nodeType c ≠ LEAF →
  length (prefix n) = 10%nat → length (prefix c) = 10%nat →
  pfx_ok q n → pfx_ok q' c →
  ∃ n', shrink n = Some n'
        ∧ pfx_ok (q ++ b :: q') n' ∧ length (prefix n') = 10%nat
        ∧ keys n' = keys c ∧ children n' = children c
        ∧ size n' = size c ∧ nodeType n' = nodeType c.
Proof.
  intros Hv Hty Hc Hl Hl' [Hlen Htake] [Hlen' Htake'].
  pose proof (len_nonneg q). pose proof (len_nonneg q').
  destruct (shrink4_spec n b c rest Hv Hty Hl ltac:(lia)) as [_ Hinner].
  eexists. split; [apply Hinner; [by apply IsLeaf_false|done|lia]|].
  split; [|split; [|done]].
  - split.
    + simpl. unfold len in *. rewrite length_app. simpl. lia.
    + simpl. rewrite <- Hlen, <- Hlen'. by apply merged_prefix_ok.
  - simpl. apply merged_prefix_length; (done || lia).
Qed.

End nodes.

(** ** The nodes of a tree *)

Section tree_nodes.
Context {V : Type}.
Abbreviation Node := (ArtNode V).
Implicit Types n c x : Node.
Implicit Types t : ArtTree V.

Lemma size_count n : node_ok n → size n = u8 (count n).
Proof.
  intros Hok. pose proof (count_le_MaxSize n Hok) as Hmax. pose proof (count_range n).
  destruct (node_ok_cases n Hok) as [(Hty & es & r & Hv)|[(Hty & es & r & Hv)|
    [(Hty & Hcore & Hsz & Hocc)|(Hty & Hl & Hsz)]]]; unfold MaxSize in Hmax; rewrite Hty in Hmax.
  - pose proof (count_sorted 4 n es r Hv ltac:(lia) ltac:(by left)) as Hcs. rewrite Hcs in *.
    destruct Hv as (_&_&_&_&->&_). unfold NODE4MAX in *. by rewrite u8_small by lia.
  - pose proof (count_sorted 16 n es r Hv ltac:(lia) ltac:(by right)) as Hcs. rewrite Hcs in *.
    destruct Hv as (_&_&_&_&->&_). unfold NODE16MAX in *. by rewrite u8_small by lia.
  - unfold NODE48MAX in *. by rewrite u8_small by lia.
  - done.
Qed.

Lemma wf_nodes p n :
  wf p n → ∀ x, x ∈ default [] (eachHelper n) →
  nodeType x = LEAF ∨ (node_ok x ∧ MinSize x ≤ count x).
Proof.
  induction 1 as [p n Hty Hp Hc|p q n Hok Hmin Hq Hch IH]; intros x Hx.
  - rewrite eachHelper_leaf in Hx by done. apply list_elem_of_singleton in Hx as ->. by left.
  - rewrite (eachHelper_inner n Hok (wf_inner_total p q n Hch)) in Hx. simpl in Hx.
    apply elem_of_cons in Hx as [->|Hx]; [by right|].
    apply elem_of_concat in Hx as (L & Hx & HL).
    apply list_elem_of_fmap in HL as (c & -> & Hc).
    apply list_elem_of_fmap in Hc as ([b c'] & -> & Hc).
    apply elem_of_tab in Hc. by eapply IH.
Qed.

(** Every inner node that Each hands over has at least the minimum and at
    most the maximum number of children of its type, and its size field is
    that number as a uint8. *)
Theorem node_capacity (ops : list (Op V)) t nodes :
  run NewArtTree ops = Some t → Each t = Some nodes →
  ∀ x, x ∈ nodes →
    nodeType x = LEAF
    ∨ (MinSize x ≤ count x ≤ MaxSize x ∧ size x = u8 (count x)
       ∧ length (prefix x) = 10%nat).
Proof.
  intros Hrun HE x Hx. pose proof (reachable_Inv ops t Hrun) as HI.
  unfold Each, EachChanFrom, Inv in *. destruct (root t) as [r|].
  - destruct HI as [Hwf _].
    assert (x ∈ default [] (eachHelper r)) as Hx' by (by rewrite HE).
    destruct (wf_nodes [] r Hwf x Hx') as [?|[Hok Hmin]]; [by left|right].
    split; [split; [done|by apply count_le_MaxSize]|]. split; [by apply size_count|].
    by destruct Hok.
  - injection HE as <-. by apply elem_of_nil in Hx.
Qed.

(** The root is nil exactly when the size is zero, and the size is never
    negative. *)
Theorem empty_iff_nil_root (ops : list (Op V)) t :
  run NewArtTree ops = Some t →
  (root t = None ↔ tree_size t = 0) ∧ 0 ≤ tree_size t.
Proof.
  intros Hrun. pose proof (reachable_Inv ops t Hrun) as HI.
  unfold Inv in HI. destruct (root t) as [r|].
  - destruct HI as [Hwf Hsz]. destruct (Minimum_head [] r Hwf) as (l & rest & Hl & _).
    unfold kv, len in Hsz. rewrite Hl in Hsz. simpl in Hsz. split; [split; [done|lia]|lia].
  - split; [done|lia].
Qed.

Lemma root_inner_ok (ops : list (Op V)) t r :
  run NewArtTree ops = Some t → root t = Some r → nodeType r ≠ LEAF →
  node_ok r ∧ MinSize r ≤ count r.
Proof.
  intros Hrun Hr Hty. pose proof (reachable_Inv ops t Hrun) as HI.
  unfold Inv in HI. rewrite Hr in HI. destruct HI as [Hwf _].
  destruct (wf_cases [] r Hwf) as [(? & _)|(q & ? & ? & _)]; done.
Qed.

End tree_nodes.

(** ** Prefix search on trees that have seen no Remove *)

Lemma lcp_comm (a b : list byte) : lcp a b = lcp b a.
Proof.
  revert b. induction a as [|x a IH]; intros [|y b]; simpl; try done.
  destruct (decide (x = y)) as [->|Hne].
  - rewrite decide_True by done. by rewrite IH.
  - by rewrite decide_False by done.
Qed.

Lemma lcp_common_prefix (a b c : list byte) :
  a `prefix_of` c → b `prefix_of` c → lcp a b = (length a `min` length b)%nat.
Proof.
  intros Ha Hb. destruct (prefix_weak_total a b c Ha Hb) as [H|H].
  - rewrite (prefix_of_lcp a b H). apply prefix_length in H. lia.
  - rewrite lcp_comm, (prefix_of_lcp b a H). apply prefix_length in H. lia.
Qed.

Lemma filter_all {A} (P : A → Prop) `{!∀ x, Decision (P x)} (l : list A) :
  Forall P l → filter P l = l.
Proof.
  induction 1 as [|x l Hx _ IH]; [done|]. by rewrite filter_cons_True, IH.
Qed.

Lemma filter_none {A} (P : A → Prop) `{!∀ x, Decision (P x)} (l : list A) :
  Forall (fun x => ¬ P x) l → filter P l = [].
Proof.
  induction 1 as [|x l Hx _ IH]; [done|]. by rewrite filter_cons_False.
Qed.

Section prefix_search.
Context {V : Type}.
Abbreviation Node := (ArtNode V).
Implicit Types n c l : Node.
Implicit Types t : ArtTree V.
Implicit Types k p q : list byte.

Lemma kv_inner n :
  node_ok n → (∀ b c, child n b = Some c → is_Some (eachHelper c)) →
  kv n = concat (kv <$> (kids n).*2).
Proof.
  intros Hok Hall. unfold kv at 1. rewrite (leaves_inner n Hok Hall).
  generalize (kids n).*2. intros cs. induction cs as [|c cs IH]; [done|].
  rewrite !fmap_cons, !concat_cons, fmap_app, IH. done.
Qed.

Lemma with_prefix_app {A} k (l1 l2 : list (list byte * A)) :
  with_prefix k (l1 ++ l2) = with_prefix k l1 ++ with_prefix k l2.
Proof. apply filter_app. Qed.

(** Under an inner node only the child for the next byte of [k] has keys
    that start with [k]. *)
Lemma with_prefix_kids p q n k (kb : byte) :
  node_ok n → (∀ b c, child n b = Some c → wf (p ++ q ++ [b]) c) →
  (p ++ q ++ [kb]) `prefix_of` k →
  with_prefix k (kv n) = from_option (fun c => with_prefix k (kv c)) [] (child n kb).
Proof.
  intros Hok Hch Hk. rewrite (kv_inner n Hok (wf_inner_total p q n Hch)).
  assert (∀ es : list (byte * Node),
            (∀ e, e ∈ es → e ∈ kids n ∧ e.1 ≠ kb) →
            with_prefix k (concat (kv <$> es.*2)) = []) as Hother.
  { intros es Hes. induction es as [|[b c] es IH]; [done|].
    rewrite !fmap_cons, concat_cons, with_prefix_app.
    rewrite IH by (intros e He; apply Hes; by right). rewrite app_nil_r.
    destruct (Hes (b, c)) as [Hin Hne]; [by left|]. apply elem_of_tab in Hin.
    apply filter_none, Forall_forall. intros [k' v'] (l & Hl & <- & _)%elem_of_kv Hpre.
    destruct (wf_leaves_prefix _ c (Hch b c Hin) l Hl) as [_ Hl'].
    apply Hne. simpl in *.
    apply (prefix_byte_inj (p ++ q) (key l)); rewrite <- app_assoc; [done|].
    by etrans. }
  destruct (tab_split (child n) kb) as (l1 & l2 & H1 & H2 & Hsplit).
  specialize (Hsplit (child n) (fun _ _ => eq_refl)). fold (kids n) in Hsplit.
  assert (∀ e, e ∈ l1 ∨ e ∈ l2 → e ∈ kids n ∧ e.1 ≠ kb) as Hrest.
  { intros e He. split.
    - rewrite Hsplit, !elem_of_app. tauto.
    - intros E. destruct He as [He|He].
      + eapply (Forall_forall (fun e => byte_lt e.1 kb)) in H1; [|exact He].
        rewrite E in H1. by apply byte_lt_irrefl in H1.
      + eapply (Forall_forall (fun e => byte_lt kb e.1)) in H2; [|exact He].
        rewrite E in H2. by apply byte_lt_irrefl in H2. }
  rewrite Hsplit, !fmap_app, !concat_app, !with_prefix_app.
  rewrite (Hother l1) by (intros e He; apply Hrest; by left).
  rewrite (Hother l2) by (intros e He; apply Hrest; by right).
  rewrite app_nil_r. simpl.
  destruct (child n kb) as [c|]; simpl; [by rewrite app_nil_r|done].
Qed.

Lemma with_prefix_all p n k :
  wf p n → k `prefix_of` p → with_prefix k (kv n) = kv n.
Proof.
  intros Hwf Hk. apply filter_all, Forall_forall.
  intros [k' v'] (l & Hl & <- & _)%elem_of_kv. simpl.
  destruct (wf_leaves_prefix p n Hwf l Hl) as [_ H]. by etrans.
Qed.

Lemma with_prefix_all_inner p q n k :
  node_ok n → (∀ b c, child n b = Some c → wf (p ++ q ++ [b]) c) →
  k `prefix_of` p ++ q → with_prefix k (kv n) = kv n.
Proof.
  intros Hok Hch Hk. apply filter_all, Forall_forall.
  intros [k' v'] (l & Hl & <- & _)%elem_of_kv. simpl.
  destruct (wf_inner_leaves_prefix p q n l Hok Hch Hl) as (b & c & _ & _ & H).
  etrans; [exact Hk|]. etrans; [|exact H]. rewrite app_assoc. by apply prefix_app_r.
Qed.

Lemma each_result_wf p n : wf p n → EachChanResultFrom (Some n) = Some (kv n).
Proof.
  intros Hwf. unfold EachChanResultFrom, EachChanFrom, kv, leaves.
  destruct (wf_each_total p n Hwf) as [nodes ->]. done.
Qed.

(** [searchHelper] on a subtree whose leaves are fresh finds the node
    under which exactly the keys starting with [k] lie. *)
Lemma searchHelper_prefix p n :
  wf p n → fresh n → ∀ k, p `prefix_of` k →
  ∃ r, searchHelper n k (Z.of_nat (length p)) = Some r
       ∧ EachChanResultFrom r = Some (with_prefix k (kv n)).
Proof.
  induction 1 as [p n Hty Hp Hc|p q n Hok Hmin Hq Hch IH]; intros Hfresh k Hpk.
  - pose proof (prefix_length _ _ Hpk) as Hlen.
    rewrite searchHelper_unfold. cbv zeta. rewrite (kv_leaf n Hty Hc).
    assert (EachChanResultFrom (Some n) = Some [(key n, value n)]) as Hres.
    { rewrite (each_result_wf p n) by (by apply wf_leaf). by rewrite kv_leaf. }
    destruct (decide (Z.of_nat (length p) > len k - 1)) as [Hd|Hd].
    { exists (Some n). split; [done|]. rewrite Hres. f_equal. symmetry.
      apply filter_all. constructor; [|done]. simpl.
      assert (k = p) as ->; [|done].
      destruct Hpk as [r ->]. unfold len in Hd.
      rewrite length_app in Hd. destruct r; [by rewrite app_nil_r|simpl in Hd; lia]. }
    rewrite (IsLeaf_true n Hty).
    destruct (decide (k `prefix_of` key n)) as [Hkn|Hkn].
    { pose proof (prefix_length _ _ Hkn).
      rewrite bool_decide_eq_true_2 by (unfold len; lia).
      rewrite bool_decide_eq_true_2.
      2:{ destruct Hkn as [r ->]. by rewrite take_app_length. }
      simpl. exists (Some n). split; [done|]. rewrite Hres. f_equal. symmetry.
      apply filter_all. by constructor. }
    rewrite (bool_decide_eq_false_2 (k = take (length k) (key n)))
      by (intros E; apply Hkn; rewrite E; apply prefix_take).
    rewrite andb_false_r. cbv iota.
    assert (prefixLen n = 0) as Hpl.
    { apply Hfresh. rewrite leaves_leaf by done. by apply list_elem_of_singleton. }
    unfold PrefixMismatch. rewrite Hpl. simpl.
    rewrite Z.add_0_r, decide_False by done.
    rewrite aget_nat. destruct (lookup_lt_is_Some_2 k (length p)) as [kb ->].
    { unfold len in Hd. lia. }
    obind. unfold FindChild. rewrite Hty. obind.
    exists None. split; [done|]. unfold EachChanResultFrom. simpl. f_equal. symmetry.
    apply filter_none. by constructor.
  - pose proof (prefix_length _ _ Hpk) as Hlen. pose proof Hq as [Hql _].
    assert (wf p n) as Hwf by (by eapply wf_inner).
    rewrite searchHelper_unfold. cbv zeta.
    destruct (decide (Z.of_nat (length p) > len k - 1)) as [Hd|Hd].
    { exists (Some n). split; [done|]. rewrite (each_result_wf p n Hwf). f_equal. symmetry.
      apply (with_prefix_all p n k Hwf).
      assert (k = p) as ->; [|done].
      destruct Hpk as [r ->]. unfold len in Hd. rewrite length_app in Hd.
      destruct r; [by rewrite app_nil_r|simpl in Hd; lia]. }
    rewrite (IsLeaf_false n) by (by apply node_ok_inner). simpl andb. cbv iota.
    rewrite (PrefixMismatch_spec p q n k Hok Hmin Hq Hch Hpk). obind.
    set (kd := drop (length p) k).
    assert (k = p ++ kd) as Ek by (by apply prefix_of_drop).
    assert (length k = length p + length kd)%nat as Elen.
    { rewrite Ek at 1. by rewrite length_app. }
    pose proof (lcp_le_l q kd) as Hm1. pose proof (lcp_le_r q kd) as Hm2.
    destruct (decide (Z.of_nat (lcp q kd) = prefixLen n)) as [Hm|Hm].
    + assert (q `prefix_of` kd) as Hqk.
      { apply lcp_prefix_of. unfold len in Hql. lia. }
      assert ((p ++ q) `prefix_of` k) as Hpqk.
      { rewrite Ek. by apply prefix_app. }
      destruct (decide (Z.of_nat (length p) + prefixLen n > len k - 1)) as [Hd2|Hd2].
      { exists (Some n). split; [done|]. rewrite (each_result_wf p n Hwf). f_equal. symmetry.
        apply (with_prefix_all_inner p q n k Hok Hch).
        assert (k = p ++ q) as ->; [|done].
        destruct Hpqk as [r Er]. rewrite Er. unfold len in *.
        assert (length k = length (p ++ q) + length r)%nat as E
          by (rewrite Er at 1; by rewrite length_app).
        rewrite length_app in E.
        destruct r; [by rewrite app_nil_r|simpl in E; lia]. }
      replace (Z.of_nat (length p) + prefixLen n) with (Z.of_nat (length (p ++ q)))
        by (rewrite length_app; unfold len in Hql; lia).
      rewrite aget_nat. destruct (lookup_lt_is_Some_2 k (length (p ++ q))) as [kb Hkb].
      { rewrite length_app. unfold len in *. lia. }
      rewrite Hkb. obind.
      assert ((p ++ q ++ [kb]) `prefix_of` k) as Hnext.
      { rewrite app_assoc. by apply prefix_snoc. }
      rewrite (with_prefix_kids p q n k kb Hok Hch Hnext).
      destruct (FindChild_total n kb Hok) as [[i|] HF]; rewrite HF; obind.
      * destruct (FindChild_slot n kb i HF) as (co & Hco & Hchild).
        rewrite at_index_fmap, Hco, Hchild. simpl. destruct co as [c|]; simpl.
        -- replace (Z.of_nat (length (p ++ q)) + 1) with (Z.of_nat (length (p ++ q ++ [kb])))
             by (rewrite !length_app; simpl; lia).
           apply (IH kb c Hchild); [|done].
           intros l Hl. apply Hfresh.
           eapply leaves_child; eauto using wf_inner_total.
        -- by exists None.
      * apply FindChild_none in HF. rewrite HF. simpl. by exists None.
    + destruct (decide (Z.of_nat (lcp q kd) = len k - Z.of_nat (length p))) as [Hm'|Hm'].
      * exists (Some n). split; [done|]. rewrite (each_result_wf p n Hwf). f_equal. symmetry.
        apply (with_prefix_all_inner p q n k Hok Hch).
        rewrite Ek. apply prefix_app.
        apply lcp_prefix_of. rewrite lcp_comm. unfold len in Hm'. lia.
      * exists None. split; [done|]. unfold EachChanResultFrom. simpl. f_equal. symmetry.
        apply filter_none, Forall_forall.
        intros [k' v'] (l & Hl & <- & _)%elem_of_kv Hkl. simpl in Hkl.
        destruct (wf_inner_leaves_prefix p q n l Hok Hch Hl) as (b & c & _ & _ & Hpre).
        assert (q `prefix_of` drop (length p) (key l)) as Hq1.
        { destruct Hpre as [r ->]. rewrite <- !app_assoc, drop_app_length. by eexists. }
        assert (kd `prefix_of` drop (length p) (key l)) as Hq2.
        { destruct Hkl as [r ->]. rewrite Ek, <- !app_assoc, drop_app_length. by eexists. }
        pose proof (lcp_common_prefix q kd _ Hq1 Hq2) as Hmin'.
        unfold len in *. lia.
Qed.

Lemma Insert_fresh t k (v : option V) t' :
  Inv t → fresh_tree t → Insert t k v = Some t' → fresh_tree t'.
Proof.
  unfold Insert, Inv, fresh_tree. cbv zeta.
  set (k' := ensureNullTerminatedKey k).
  destruct t as [[r|] sz]; simpl.
  - intros [Hwf _] Hf.
    pose proof (insertHelper_spec [] r Hwf k' v sz (prefix_nil _)) as H.
    change (Z.of_nat (length [])) with 0 in H.
    destruct (insertHelper r k' v 0 sz) as [[r' s']|]; simpl in *; [|done].
    intros [= <-]. simpl.
    destruct H as [(-> & _)|(_ & _ & _ & Hperm)]; [done|].
    intros l Hl. rewrite Hperm in Hl. apply elem_of_cons in Hl as [->|Hl]; [done|].
    by apply Hf.
  - intros _ _ [= <-]. simpl. intros l Hl.
    rewrite leaves_leaf in Hl by done. by apply list_elem_of_singleton in Hl as ->.
Qed.

Lemma run_fresh (ops : list (Op V)) :
  ∀ t t', Inv t → fresh_tree t → (∀ k, ¬ (OpRemove k ∈ ops)) →
          run t ops = Some t' → fresh_tree t'.
Proof.
  induction ops as [|o ops IH]; intros t t' HI Hf Hno; simpl.
  - by intros [= <-].
  - destruct (step t o) as [t1|] eqn:Hs; [|done]. simpl.
    assert (∀ k, ¬ (OpRemove k ∈ ops)) as Hno' by (intros k' H; apply (Hno k'); by right).
    apply IH; [by eapply step_Inv| |done].
    destruct o as [k v|k|k|k|]; simpl in Hs.
    + by eapply Insert_fresh.
    + exfalso. apply (Hno k). by left.
    + destruct (Search t k); [|done]. by injection Hs as <-.
    + destruct (PrefixSearch t k); [|done]. by injection Hs as <-.
    + destruct (Each t); [|done]. by injection Hs as <-.
Qed.

(** On a tree that has seen no Remove, PrefixSearch returns, and what it
    returns are the values of exactly the stored keys that start with the
    given bytes, in the order of the enumeration. *)
Theorem PrefixSearch_without_remove (ops : list (Op V)) t k :
  (∀ k', ¬ (OpRemove k' ∈ ops)) → run NewArtTree ops = Some t →
  PrefixSearchChan t k = Some (with_prefix k (contents t))
  ∧ PrefixSearch t k = Some (with_prefix k (contents t)).*2.
Proof.
  intros Hno Hrun. pose proof (reachable_Inv ops t Hrun) as HI.
  pose proof (run_fresh ops NewArtTree t Inv_empty I Hno Hrun) as Hf.
  unfold PrefixSearch, PrefixSearchChan, searchFrom, contents, Inv, fresh_tree in *.
  destruct (root t) as [r|]; [|done]. destruct HI as [Hwf _].
  destruct (searchHelper_prefix [] r Hwf Hf k (prefix_nil _)) as (res & Hs & He).
  change (Z.of_nat (length [])) with 0 in Hs. rewrite Hs. simpl. rewrite He. done.
Qed.

(** On a tree that has seen no Remove, Search returns: the stored value,
    or nil for a key that is not stored. *)
Theorem Search_without_remove (ops : list (Op V)) t k :
  (∀ k', ¬ (OpRemove k' ∈ ops)) → run NewArtTree ops = Some t →
  ∃ r, Search t k = Some r
       ∧ ((ensureNullTerminatedKey k, r) ∈ contents t
          ∨ (r = None ∧ ¬ (ensureNullTerminatedKey k ∈ (contents t).*1))).
Proof.
  intros Hno Hrun. pose proof (reachable_Inv ops t Hrun) as HI.
  pose proof (run_fresh ops NewArtTree t Inv_empty I Hno Hrun) as Hf.
  destruct (decide (ensureNullTerminatedKey k ∈ (contents t).*1)) as [Hin|Hout].
  - apply list_elem_of_fmap in Hin as ([k' v] & Hk & Hin). simpl in Hk. subst k'.
    exists v. split; [by apply Search_stored|by left].
  - exists None. split; [|by right].
    unfold Search, searchFrom, contents, Inv, fresh_tree in *. cbv zeta.
    set (kk := ensureNullTerminatedKey k) in *.
    destruct (root t) as [r|]; [|done]. destruct HI as [Hwf _].
    destruct (searchHelper_prefix [] r Hwf Hf kk (prefix_nil _)) as (res & Hs & _).
    change (Z.of_nat (length [])) with 0 in Hs. rewrite Hs. simpl.
    destruct res as [x|]; [|done].
    destruct (IsMatch x kk) eqn:Hm; [|done]. exfalso.
    apply IsMatch_true in Hm as [Hty Hk]. apply Hout.
    apply elem_of_kv_keys. exists x. split; [|done].
    by apply (searchHelper_sound [] r Hwf kk 0 x).
Qed.

Lemma zero_prefix_terminated (k kk : list byte) :
  x00 ∈ k → k `prefix_of` kk → terminated kk → k = kk.
Proof.
  intros Hz [r Hr] (k0 & Hk0 & ->).
  destruct r as [|x r]; [by rewrite app_nil_r in Hr|]. exfalso.
  assert (length k ≤ length k0)%nat as Hlen.
  { apply (f_equal length) in Hr. rewrite !length_app in Hr. simpl in Hr. lia. }
  apply Hk0. apply (f_equal (take (length k))) in Hr.
  rewrite take_app_le, take_app_length in Hr by done.
  apply (subseteq_take (length k)). by rewrite Hr.
Qed.

(** [removeHelper] returns on a subtree whose leaves are fresh and whose
    keys have their only zero byte at the end. *)
Lemma removeHelper_total p n :
  wf p n → fresh n → (∀ l, l ∈ leaves n → terminated (key l)) →
  ∀ k (s : Z), p `prefix_of` k → x00 ∈ k →
  is_Some (removeHelper n k (Z.of_nat (length p)) s).
Proof.
  induction 1 as [p n Hty Hp Hc|p q n Hok Hmin Hq Hch IH]; intros Hfresh Hterm k s Hpk Hz.
  - pose proof (prefix_length _ _ Hpk) as Hlen.
    assert (n ∈ leaves n) as Hn.
    { rewrite leaves_leaf by done. by apply list_elem_of_singleton. }
    rewrite removeHelper_unfold, (IsLeaf_true n Hty). simpl andb.
    destruct (IsMatch n k) eqn:Hm; [done|].
    rewrite decide_False by (rewrite (Hfresh n Hn); lia). obind.
    rewrite aget_nat. destruct (lookup_lt_is_Some_2 k (length p)) as [kb ->].
    { destruct (decide (length p < length k)%nat) as [|Hge]; [done|]. exfalso.
      apply (IsMatch_false n k Hty Hm). symmetry.
      apply zero_prefix_terminated; [done| |by apply Hterm].
      assert (k = p) as ->; [|done].
      destruct Hpk as [r ->]. rewrite length_app in Hge.
      destruct r; [by rewrite app_nil_r|simpl in Hge; lia]. }
    obind. unfold FindChild. rewrite Hty. obind. done.
  - assert (wf p n) as Hwf by (by eapply wf_inner).
    destruct (decide (k ∈ (kv n).*1)) as [Hin|Hout].
    { apply elem_of_kv_keys in Hin as (l & Hl & <-).
      destruct (removeHelper_found p n Hwf l s Hl Hpk) as (r & ->). done. }
    pose proof Hq as [Hql _]. unfold len in Hql.
    pose proof (wf_inner_total p q n Hch) as Htot.
    rewrite removeHelper_unfold, (IsLeaf_false n) by (by apply node_ok_inner). simpl andb.
    cbv iota.
    set (kd := drop (length p) k).
    assert (k = p ++ kd) as Ek by (by apply prefix_of_drop).
    assert ((if decide (prefixLen n ≠ 0) then
               mismatch ← PrefixMismatch n k (Z.of_nat (length p));
               if decide (mismatch ≠ prefixLen n) then Some None
               else Some (Some (Z.of_nat (length p) + prefixLen n))
             else Some (Some (Z.of_nat (length p)))) = Some None
            ∨ ((if decide (prefixLen n ≠ 0) then
                  mismatch ← PrefixMismatch n k (Z.of_nat (length p));
                  if decide (mismatch ≠ prefixLen n) then Some None
                  else Some (Some (Z.of_nat (length p) + prefixLen n))
                else Some (Some (Z.of_nat (length p))))
               = Some (Some (Z.of_nat (length (p ++ q))))
               ∧ (p ++ q) `prefix_of` k)) as [->|[-> Hpqk]]; [|done|].
    { destruct (decide (prefixLen n ≠ 0)) as [Hnz|Hz0].
      - rewrite (PrefixMismatch_spec p q n k Hok Hmin Hq Hch Hpk). obind. fold kd.
        destruct (decide (Z.of_nat (lcp q kd) ≠ prefixLen n)) as [|Heq]; [by left|].
        right. split; [rewrite length_app; do 2 f_equal; lia|].
        rewrite Ek. apply prefix_app, lcp_prefix_of. lia.
      - right. assert (q = []) as ->.
        { destruct q; [done|simpl in Hql; lia]. }
        rewrite app_nil_r. done. }
    obind.
    rewrite aget_nat. destruct (lookup_lt_is_Some_2 k (length (p ++ q))) as [kb Hkb].
    { pose proof (prefix_length _ _ Hpqk) as Hlen.
      destruct (decide (length (p ++ q) < length k)%nat) as [|Hge]; [done|]. exfalso.
      assert (k = p ++ q) as E.
      { destruct Hpqk as [r Er]. rewrite Er in Hge. rewrite !length_app in Hge.
        destruct r; [by rewrite app_nil_r in Er|simpl in Hge; lia]. }
      destruct (inner_has_leaf p q n Hok Hmin Hch) as (l & Hl & Hpre & Hlt).
      rewrite <- E in Hpre, Hlt.
      rewrite (zero_prefix_terminated k (key l) Hz Hpre (Hterm l Hl)) in Hlt. lia. }
    rewrite Hkb. obind.
    destruct (FindChild_total n kb Hok) as [[i|] HF]; rewrite HF; obind; [|done].
    destruct (FindChild_slot n kb i HF) as (co & Hco & Hchild).
    rewrite at_index_fmap, Hco. simpl. destruct co as [c|]; simpl; [|done].
    assert (∀ l, l ∈ leaves c → l ∈ leaves n) as Hsub.
    { intros l Hl. by eapply leaves_child. }
    destruct (IsLeaf c && IsMatch c k) eqn:Hm.
    { exfalso. apply andb_true_iff in Hm as [_ Hm]. apply IsMatch_true in Hm as [Hty Hk].
      apply Hout. apply elem_of_kv_keys. exists c. split; [|done]. apply Hsub.
      destruct (wf_cases _ c (Hch kb c Hchild)) as [(_ & _ & Hcc)|(q' & Hok' & _)].
      - rewrite leaves_leaf by done. by apply list_elem_of_singleton.
      - by apply node_ok_inner in Hok'. }
    replace (Z.of_nat (length (p ++ q)) + 1) with (Z.of_nat (length (p ++ q ++ [kb])))
      by (rewrite !length_app; simpl; lia).
    destruct (IH kb c Hchild) with (k := k) (s := s) as [[slot' ts'] ->].
    + intros l Hl. by apply Hfresh, Hsub.
    + intros l Hl. by apply Hterm, Hsub.
    + rewrite app_assoc. by apply prefix_snoc.
    + done.
    + obind. apply aget_lt in Hco. rewrite aset_ok by done. done.
Qed.

(** After inserts of keys without zero bytes and no Remove so far, Remove
    of any key returns. *)
Theorem Remove_returns_first (ops : list (Op V)) t k :
  (∀ k', ¬ (OpRemove k' ∈ ops)) → (∀ k' v, OpInsert k' v ∈ ops → ¬ (x00 ∈ k')) →
  run NewArtTree ops = Some t →
  ∃ t', Remove t k = Some t'.
Proof.
  intros Hno Hfree Hrun. pose proof (reachable_Inv ops t Hrun) as HI.
  pose proof (run_fresh ops NewArtTree t Inv_empty I Hno Hrun) as Hf.
  assert (∀ kk, kk ∈ (contents t).*1 → terminated kk) as Hterm.
  { intros kk Hin.
    destruct (run_keys_bound ops NewArtTree t Inv_empty Hrun kk Hin) as [H|(k' & v & Ho & <-)].
    - by apply elem_of_nil in H.
    - exists k'. split; [by eapply Hfree|]. apply ensure_free. by eapply Hfree. }
  unfold Remove, contents, Inv, fresh_tree in *. cbv zeta.
  destruct (root t) as [r|]; [|eauto]. destruct HI as [Hwf _].
  destruct (removeHelper_total [] r Hwf Hf) with (k := ensureNullTerminatedKey k)
    (s := tree_size t) as [[r' s'] Hr].
  - intros l Hl. apply Hterm. apply elem_of_kv_keys. eauto.
  - apply prefix_nil.
  - destruct (decide (x00 ∈ k)) as [H|H]; [by rewrite ensure_has|].
    rewrite ensure_free by done. apply elem_of_app. right. left.
  - change (Z.of_nat (length [])) with 0 in Hr. rewrite Hr. simpl. eauto.
Qed.

(** When every inserted key is free of zero bytes, Insert of such a key
    returns, whatever was removed before, and the tree then stores the key. *)
Theorem Insert_returns_zero_free (ops : list (Op V)) t k (v : option V) :
  (∀ k' v', OpInsert k' v' ∈ ops → ¬ (x00 ∈ k')) → run NewArtTree ops = Some t →
  ¬ (x00 ∈ k) →
  ∃ t', Insert t k v = Some t' ∧ ensureNullTerminatedKey k ∈ (contents t').*1.
Proof.
  intros Hfree Hrun Hk. pose proof (reachable_Inv ops t Hrun) as HI.
  assert (∀ kk, kk ∈ (contents t).*1 → terminated kk) as Hterm.
  { intros kk Hin.
    destruct (run_keys_bound ops NewArtTree t Inv_empty Hrun kk Hin) as [H|(k' & v' & Ho & <-)].
    - by apply elem_of_nil in H.
    - exists k'. split; [by eapply Hfree|]. apply ensure_free. by eapply Hfree. }
  assert (terminated (ensureNullTerminatedKey k)) as Htk.
  { exists k. split; [done|]. by apply ensure_free. }
  pose proof (Insert_spec t k v HI) as H.
  destruct (Insert t k v) as [t1|].
  - exists t1. split; [done|]. destruct H as [_ [[-> Hin]|(_ & _ & Hp)]]; [done|].
    rewrite Hp. rewrite fmap_cons. left.
  - exfalso. destruct H as (k' & Hin & Hne & [Hpre|Hpre]).
    + apply Hne. by apply terminated_prefix; [apply Hterm| |].
    + apply Hne. symmetry. by apply terminated_prefix; [|apply Hterm|].
Qed.

End prefix_search.

(** ** The claims on Search, on key normalization and on the read-only frame *)

Section search_claims.
Context {V : Type}.
Abbreviation Node := (ArtNode V).
Implicit Types n c l : Node.
Implicit Types t : ArtTree V.
Implicit Types ops : list (Op V).
Implicit Types k p q : list byte.

(** A stored key that starts with [k] is below the node that
    [searchHelper] returns for [k], stale leaves or not. *)
Lemma searchHelper_complete p n :
  wf p n → ∀ l k, l ∈ leaves n → k `prefix_of` key l → p `prefix_of` k →
  ∃ r, searchHelper n k (Z.of_nat (length p)) = Some (Some r)
       ∧ l ∈ leaves r ∧ is_Some (eachHelper r).
Proof.
  induction 1 as [p n Hty Hp Hc|p q n Hok Hmin Hq Hch IH]; intros l k Hl Hkl Hpk.
  - assert (wf p n) as Hwf by (by apply wf_leaf).
    pose proof Hl as Hl'. rewrite leaves_leaf in Hl' by done.
    apply list_elem_of_singleton in Hl' as ->.
    pose proof (prefix_length _ _ Hkl) as Hlen.
    exists n. split; [|split; [done|by eapply wf_each_total]].
    rewrite searchHelper_unfold. cbv zeta.
    destruct (decide _); [done|]. rewrite (IsLeaf_true n Hty).
    rewrite bool_decide_eq_true_2 by (unfold len; lia).
    rewrite bool_decide_eq_true_2; [done|].
    destruct Hkl as [r ->]. by rewrite take_app_length.
  - assert (wf p n) as Hwf by (by eapply wf_inner).
    pose proof (wf_each_total p n Hwf) as Htot.
    destruct (wf_inner_leaves_prefix p q n l Hok Hch Hl) as (b & c & Hc & Hlc & Hpre).
    pose proof Hq as [Hql _]. unfold len in Hql.
    rewrite searchHelper_unfold. cbv zeta.
    destruct (decide (Z.of_nat (length p) > len k - 1)) as [Hd|Hd]; [by exists n|].
    rewrite (IsLeaf_false n) by (by apply node_ok_inner). simpl andb. cbv iota.
    rewrite (PrefixMismatch_spec p q n k Hok Hmin Hq Hch Hpk). obind.
    set (kd := drop (length p) k).
    assert (k = p ++ kd) as Ek by (by apply prefix_of_drop).
    assert (length k = length p + length kd)%nat as Elen.
    { rewrite Ek at 1. by rewrite length_app. }
    assert (q `prefix_of` drop (length p) (key l)) as Hq1.
    { destruct Hpre as [r ->]. rewrite <- !app_assoc, drop_app_length. by eexists. }
    assert (kd `prefix_of` drop (length p) (key l)) as Hq2.
    { destruct Hkl as [r ->]. rewrite Ek, <- !app_assoc, drop_app_length. by eexists. }
    pose proof (lcp_common_prefix q kd _ Hq1 Hq2) as Hmin'.
    destruct (decide (Z.of_nat (lcp q kd) = prefixLen n)) as [Hm|Hm].
    + destruct (decide (Z.of_nat (length p) + prefixLen n > len k - 1)) as [Hd2|Hd2];
        [by exists n|].
      assert (q `prefix_of` kd) as Hqk by (apply lcp_prefix_of; lia).
      assert ((p ++ q) `prefix_of` k) as Hpqk by (rewrite Ek; by apply prefix_app).
      assert (k !! length (p ++ q) = Some b) as Hkb.
      { assert (length (p ++ q) < length k)%nat as Hlt
          by (rewrite length_app; unfold len in *; lia).
        rewrite <- (prefix_of_lookup k (key l)) by done.
        rewrite (prefix_of_lookup (p ++ q ++ [b]) (key l))
          by (rewrite ?length_app; simpl; done || lia).
        rewrite app_assoc. by rewrite lookup_app_r, Nat.sub_diag by lia. }
      replace (Z.of_nat (length p) + prefixLen n) with (Z.of_nat (length (p ++ q)))
        by (rewrite length_app; lia).
      rewrite aget_nat, Hkb. obind.
      destruct (FindChild_present n b c Hok Hc) as (i & -> & Hi). obind.
      rewrite at_index_fmap, Hi. simpl.
      replace (Z.of_nat (length (p ++ q)) + 1) with (Z.of_nat (length (p ++ q ++ [b])))
        by (rewrite !length_app; simpl; lia).
      apply (IH b c Hc l k Hlc Hkl). rewrite app_assoc. by apply prefix_snoc.
    + rewrite decide_True by (unfold len; lia). by exists n.
Qed.

Lemma PrefixSearch_complete t k (sk : list byte) (v : option V) :
  Inv t → (sk, v) ∈ contents t → k `prefix_of` sk →
  ∃ res, PrefixSearch t k = Some res ∧ v ∈ res.
Proof.
  intros HI Hin Hk. unfold PrefixSearch, searchFrom, contents, Inv in *.
  destruct (root t) as [r|]; [|by apply elem_of_nil in Hin]. destruct HI as [Hwf _].
  apply elem_of_kv in Hin as (l & Hl & <- & <-).
  destruct (searchHelper_complete [] r Hwf l k Hl Hk (prefix_nil _))
    as (x & Hs & Hlx & [nodes Hn]).
  change (Z.of_nat (length [])) with 0 in Hs. rewrite Hs. simpl.
  unfold EachChanResultFrom, EachChanFrom. rewrite Hn. simpl. eexists. split; [done|].
  unfold leaves in Hlx. rewrite Hn in Hlx. simpl in Hlx.
  apply list_elem_of_fmap. exists (key l, value l). split; [done|].
  apply list_elem_of_fmap. by exists l.
Qed.

(** C7: [ensureNullTerminatedKey] appends one zero byte to exactly the
    keys that hold none, and on every tree that a sequence of operations
    has built Insert stores, Search looks up and Remove removes the key so
    normalized, while PrefixSearch takes its argument as it is: it returns
    the value of every stored key that starts with the very bytes given,
    and of no other key if the tree has seen no Remove. *)
Theorem C7_normalization ops t k :
  run NewArtTree ops = Some t →
  ensureNullTerminatedKey k = (if decide (x00 ∈ k) then k else k ++ [x00])
  ∧ (∀ t0 (v : option V),
       Insert t0 k v = Insert t0 (ensureNullTerminatedKey k) v
       ∧ Search t0 k = Search t0 (ensureNullTerminatedKey k)
       ∧ Remove t0 k = Remove t0 (ensureNullTerminatedKey k))
  ∧ (∀ (v : option V) t', Insert t k v = Some t' →
       (ensureNullTerminatedKey k ∈ (contents t).*1 ∧ t' = t)
       ∨ (¬ (ensureNullTerminatedKey k ∈ (contents t).*1)
          ∧ contents t' ≡ₚ (ensureNullTerminatedKey k, v) :: contents t))
  ∧ (∀ v : option V, (ensureNullTerminatedKey k, v) ∈ contents t → Search t k = Some v)
  ∧ (∀ v : V, Search t k = Some (Some v) → (ensureNullTerminatedKey k, Some v) ∈ contents t)
  ∧ (∀ v : option V, (ensureNullTerminatedKey k, v) ∈ contents t →
       ∃ t', Remove t k = Some t'
             ∧ contents t ≡ₚ (ensureNullTerminatedKey k, v) :: contents t')
  ∧ (∀ t', Remove t k = Some t' →
       t' = t ∨ ∃ v, contents t ≡ₚ (ensureNullTerminatedKey k, v) :: contents t')
  ∧ (∀ (sk : list byte) (v : option V), (sk, v) ∈ contents t → k `prefix_of` sk →
       ∃ res, PrefixSearch t k = Some res ∧ v ∈ res)
  ∧ ((∀ k', ¬ (OpRemove k' ∈ ops)) →
       PrefixSearch t k = Some (with_prefix k (contents t)).*2).
Proof.
  intros Hrun. pose proof (reachable_Inv ops t Hrun) as HI.
  split; [|split; [|split; [|split; [|split; [|split; [|split; [|split]]]]]]].
  - destruct (decide (x00 ∈ k)); [by apply ensure_has|by apply ensure_free].
  - intros t0 v. unfold Insert, Search, Remove. cbv zeta. by rewrite !ensure_idem.
  - intros v t' Hins. pose proof (Insert_spec t k v HI) as H. rewrite Hins in H.
    destruct H as [_ [[-> Hin]|(_ & Hout & Hp)]]; [by left|by right].
  - intros v Hin. by apply Search_stored.
  - intros v Hs. by apply Search_sound.
  - intros v Hin. destruct (Remove_stored_Inv t k v HI Hin) as (t' & Hr & _ & _ & Hp).
    by exists t'.
  - intros t' Hr. pose proof (Remove_spec t k HI) as H. rewrite Hr in H.
    destruct H as [_ [->|[_ H]]]; [by left|by right].
  - intros sk v Hin Hk. by apply (PrefixSearch_complete t k sk v).
  - intros Hno. pose proof (run_fresh ops NewArtTree t Inv_empty I Hno Hrun) as Hf.
    unfold PrefixSearch, searchFrom, contents, Inv, fresh_tree in *.
    destruct (root t) as [r|]; [|done]. destruct HI as [Hwf _].
    destruct (searchHelper_prefix [] r Hwf Hf k (prefix_nil _)) as (res & Hs & He).
    change (Z.of_nat (length [])) with 0 in Hs. rewrite Hs. simpl. rewrite He. done.
Qed.

(** C4 (the code panics): Search of a key that is not stored indexes the
    compressed path out of range at a leaf that an earlier Remove has left
    with the prefix fields of its parent, where it should return nil. *)
Theorem C4_search_panics (v1 v2 v3 : option V) :
  let a11 := bytes_of "aaaaaaaaaaa" in
  let ops : list (Op V) :=
    [OpInsert (a11 ++ bytes_of "a") v1; OpInsert (a11 ++ bytes_of "b") v2;
     OpRemove (a11 ++ bytes_of "b"); OpInsert (bytes_of "aaz") v3] in
  (t ← run NewArtTree ops; Some (contents t))
  = Some [(a11 ++ bytes_of "a" ++ [x00], v1); (bytes_of "aaz" ++ [x00], v3)]
  ∧ (t ← run NewArtTree ops; Search t (a11 ++ bytes_of "aa")) = None.
Proof. split; vm_compute; reflexivity. Qed.

(** Where Search does leave the tree alone: on a key slice in an array of
    the caller, and on a key slice that holds a zero byte. *)
Lemma ensure_slice_frame (m : Mem V) (s : Slice) m1 s1 :
  ensureNullTerminatedKey_slice m s = Some (m1, s1) →
  (∃ a, s_base s = Own a) ∨ (∃ bs, slice_bytes m s = Some bs ∧ x00 ∈ bs) →
  m_tree m1 = m_tree m.
Proof.
  unfold ensureNullTerminatedKey_slice. intros He Hcase.
  destruct (slice_bytes m s) as [bs|]; [|done]. simpl in He.
  destruct (decide (bytes_Index0 bs < 0)) as [Hneg|Hpos]; [|by injection He as <- _].
  destruct Hcase as [[a Ha]|(bs' & [= <-] & Hz)]; [|by apply bytes_Index0_neg in Hneg].
  unfold append_zero in He. destruct (decide (s_len s < s_cap s)).
  - unfold mem_store in He. rewrite Ha in He.
    destruct (m_own m !! a) as [arr|]; [|done]. simpl in He.
    destruct (aset arr _ _) as [arr'|]; [|done]. simpl in He. by injection He as <- _.
  - destruct (slice_bytes m s); [|done]. simpl in He. by injection He as <- _.
Qed.

Lemma Search_slice_frame (m : Mem V) (s : Slice) m' (res : option V) :
  Search_slice m s = Some (m', res) →
  (∃ a, s_base s = Own a) ∨ (∃ bs, slice_bytes m s = Some bs ∧ x00 ∈ bs) →
  m_tree m' = m_tree m.
Proof.
  unfold Search_slice. intros Hs Hcase.
  destruct (ensureNullTerminatedKey_slice m s) as [[m1 s1]|] eqn:He; [|done].
  simpl in Hs. rewrite <- (ensure_slice_frame m s m1 s1 He Hcase).
  destruct (slice_bytes m1 s1) as [k|]; [|done]. simpl in Hs.
  destruct (searchFrom (root (m_tree m1)) k) as [[x|]|]; simpl in Hs;
    [|by injection Hs as <- _|done].
  destruct (IsMatch x k); by injection Hs as <- _.
Qed.

(** C10 (the code writes): Search appends the terminator in place to the
    key slice it is given; on a slice of a [Result.Key] that ends before
    a byte of the key, the zero byte lands in the key array of the leaf,
    and the tree no longer holds the key it stored. *)
Theorem C10_search_writes (v : option V) :
  let t0 : ArtTree V := mkArtTree (Some (NewLeafNode (bytes_of "abc" ++ [x00]) v)) 1 in
  let m0 := mkMem t0 [] in
  Insert NewArtTree (bytes_of "abc") v = Some t0
  ∧ contents t0 = [(bytes_of "abc" ++ [x00], v)]
  ∧ Search t0 (bytes_of "abc") = Some v
  ∧ (r ← Result_Key m0 []; slice_bytes m0 r) = Some (bytes_of "abc" ++ [x00])
  ∧ (r ← Result_Key m0 []; s ← reslice r 0 1; slice_bytes m0 s) = Some (bytes_of "a")
  ∧ (r ← Result_Key m0 []; s ← reslice r 0 1;
     '(m1, res) ← Search_slice m0 s;
     Some (res, contents (m_tree m1), Search (m_tree m1) (bytes_of "abc")))
    = Some (None, [(bytes_of "a" ++ [x00] ++ bytes_of "c" ++ [x00], v)], Some None).
Proof. repeat split; vm_compute; reflexivity. Qed.

End search_claims.

Lemma C7_normalization_witness :
  run NewArtTree example_ops = Some example_tree
  ∧ (ensureNullTerminatedKey (bytes_of "a"), Some "a"%string) ∈ contents example_tree
  ∧ Search example_tree (bytes_of "a") = Some (Some "a"%string)
  ∧ (∃ t', Remove example_tree (bytes_of "a") = Some t'
           ∧ contents example_tree
             ≡ₚ (ensureNullTerminatedKey (bytes_of "a"), Some "a"%string) :: contents t')
  ∧ PrefixSearch example_tree (bytes_of "a")
    = Some (with_prefix (bytes_of "a") (contents example_tree)).*2.
Proof.
  assert ((ensureNullTerminatedKey (bytes_of "a"), Some "a"%string) ∈ contents example_tree)
    as Hin by (rewrite example_contents; left).
  assert (∀ k', ¬ (OpRemove k' ∈ example_ops)) as Hno.
  { intros k' H. repeat (apply elem_of_cons in H as [H|H]; [discriminate H|]).
    by apply elem_of_nil in H. }
  destruct (C7_normalization example_ops example_tree (bytes_of "a") example_run)
    as (_ & _ & _ & HS & _ & HR & _ & _ & HP).
  split; [exact example_run|]. split; [exact Hin|]. split; [exact (HS _ Hin)|].
  split; [exact (HR _ Hin)|exact (HP Hno)].
Defined.

(** ** The further properties at worked examples *)

Lemma example_root_eq : root example_tree = Some example_root.
Proof. vm_compute. reflexivity. Defined.

Lemma example_each : Each example_tree = Some example_nodes.
Proof. vm_compute. reflexivity. Defined.

Lemma example_insert_b :
  Insert example_tree (bytes_of "b") (Some "b"%string) = Some example_tree_b.
Proof. vm_compute. reflexivity. Defined.

Lemma zero_run : run NewArtTree zero_ops = Some zero_tree.
Proof. vm_compute. reflexivity. Defined.

Lemma abc_run : run NewArtTree abc_ops = Some abc_tree.
Proof. vm_compute. reflexivity. Defined.

Lemma abcd_run : run NewArtTree abcd_ops = Some abcd_tree.
Proof. vm_compute. reflexivity. Defined.

Lemma example_fresh_b :
  ¬ (ensureNullTerminatedKey (bytes_of "b") ∈ (contents example_tree).*1).
Proof. rewrite example_contents. by apply (bool_decide_unpack _). Defined.

Lemma Insert_effect_witness :
  run NewArtTree example_ops = Some example_tree
  ∧ Insert example_tree (bytes_of "b") (Some "b"%string) = Some example_tree_b
  ∧ ((ensureNullTerminatedKey (bytes_of "b") ∈ (contents example_tree).*1
      ∧ example_tree_b = example_tree)
     ∨ (¬ (ensureNullTerminatedKey (bytes_of "b") ∈ (contents example_tree).*1)
        ∧ tree_size example_tree_b = tree_size example_tree + 1
        ∧ contents example_tree_b
          ≡ₚ (ensureNullTerminatedKey (bytes_of "b"), Some "b"%string)
             :: contents example_tree)).
Proof.
  split; [exact example_run|]. split; [exact example_insert_b|].
  exact (Insert_effect example_ops example_tree (bytes_of "b") (Some "b"%string)
           example_tree_b example_run example_insert_b).
Defined.

Lemma Insert_panics_only_on_prefix_witness :
  run NewArtTree zero_ops = Some zero_tree
  ∧ Insert zero_tree [x00; x01] None = None
  ∧ ∃ k', k' ∈ (contents zero_tree).*1 ∧ k' ≠ ensureNullTerminatedKey [x00; x01]
          ∧ ((k' `prefix_of` ensureNullTerminatedKey [x00; x01])
             ∨ (ensureNullTerminatedKey [x00; x01] `prefix_of` k')).
Proof.
  assert (Insert zero_tree [x00; x01] None = None) as H by (vm_compute; reflexivity).
  split; [exact zero_run|]. split; [exact H|].
  exact (Insert_panics_only_on_prefix zero_ops zero_tree [x00; x01] None zero_run H).
Defined.

Lemma example_stored_a :
  (ensureNullTerminatedKey (bytes_of "a"), Some "a"%string) ∈ contents example_tree.
Proof. rewrite example_contents. left. Defined.

Lemma Remove_stored_witness :
  run NewArtTree example_ops = Some example_tree
  ∧ (ensureNullTerminatedKey (bytes_of "a"), Some "a"%string) ∈ contents example_tree
  ∧ ∃ t', Remove example_tree (bytes_of "a") = Some t'
          ∧ tree_size t' = tree_size example_tree - 1
          ∧ contents example_tree
            ≡ₚ (ensureNullTerminatedKey (bytes_of "a"), Some "a"%string) :: contents t'
          ∧ ¬ (ensureNullTerminatedKey (bytes_of "a") ∈ (contents t').*1).
Proof.
  split; [exact example_run|]. split; [exact example_stored_a|].
  exact (Remove_stored example_ops example_tree (bytes_of "a") (Some "a"%string)
           example_run example_stored_a).
Defined.

Lemma Remove_absent_witness :
  run NewArtTree example_ops = Some example_tree
  ∧ ¬ (ensureNullTerminatedKey (bytes_of "b") ∈ (contents example_tree).*1)
  ∧ Remove example_tree (bytes_of "b") = Some example_tree
  ∧ example_tree = example_tree.
Proof.
  assert (Remove example_tree (bytes_of "b") = Some example_tree) as H
    by (vm_compute; reflexivity).
  split; [exact example_run|]. split; [exact example_fresh_b|]. split; [exact H|].
  exact (Remove_absent example_ops example_tree (bytes_of "b") example_tree
           example_run example_fresh_b H).
Defined.

Lemma stored_keys_prefix_free_witness :
  run NewArtTree example_ops = Some example_tree
  ∧ NoDup (contents example_tree).*1
  ∧ ∀ k1 k2 : list byte, k1 ∈ (contents example_tree).*1 → k2 ∈ (contents example_tree).*1 →
      k1 `prefix_of` k2 → k1 = k2.
Proof.
  split; [exact example_run|].
  exact (stored_keys_prefix_free example_ops example_tree example_run).
Defined.

Lemma PrefixSearch_empty_prefix_witness :
  run NewArtTree example_ops = Some example_tree
  ∧ PrefixSearchChan example_tree [] = Some (contents example_tree)
  ∧ PrefixSearch example_tree [] = Some (contents example_tree).*2
  ∧ StronglySorted lex_lt (contents example_tree).*1
  ∧ ∀ k : list byte, PrefixSearch (@NewArtTree string) k = Some [].
Proof.
  split; [exact example_run|].
  exact (PrefixSearch_empty_prefix example_ops example_tree example_run).
Defined.

Lemma EachChanResult_sorted_witness :
  run NewArtTree example_ops = Some example_tree
  ∧ ∃ res, EachChanResult example_tree = Some res
      ∧ StronglySorted lex_lt res.*1
      ∧ tree_size example_tree = len res
      ∧ ∀ (k : list byte) (v : string), (ensureNullTerminatedKey k, Some v) ∈ res ↔
          Search example_tree k = Some (Some v).
Proof.
  split; [exact example_run|].
  exact (EachChanResult_sorted example_ops example_tree example_run).
Defined.

Lemma Insert_then_Remove_witness :
  run NewArtTree example_ops = Some example_tree
  ∧ ¬ (ensureNullTerminatedKey (bytes_of "b") ∈ (contents example_tree).*1)
  ∧ Insert example_tree (bytes_of "b") (Some "b"%string) = Some example_tree_b
  ∧ ∃ t2, Remove example_tree_b (bytes_of "b") = Some t2
          ∧ contents t2 = contents example_tree ∧ tree_size t2 = tree_size example_tree.
Proof.
  split; [exact example_run|]. split; [exact example_fresh_b|].
  split; [exact example_insert_b|].
  exact (Insert_then_Remove example_ops example_tree (bytes_of "b") (Some "b"%string)
           example_tree_b example_run example_fresh_b example_insert_b).
Defined.

Lemma swapped_free : ∀ e, e ∈ swapped_pairs → x00 ∉ e.1.
Proof.
  intros e He. assert (Forall (fun e : list byte * option string => x00 ∉ e.1) swapped_pairs) as H
    by (repeat constructor; by apply (bool_decide_unpack _)).
  eapply Forall_forall in H; [exact H|exact He].
Defined.

Lemma inserts_any_order_witness :
  (∀ e, e ∈ swapped_pairs → x00 ∉ e.1) ∧ NoDup swapped_pairs.*1
  ∧ swapped_pairs ≡ₚ ordered_pairs
  ∧ ∃ t t', run NewArtTree (inserts swapped_pairs) = Some t
            ∧ run NewArtTree (inserts ordered_pairs) = Some t'
            ∧ contents t ≡ₚ stored_pair <$> swapped_pairs
            ∧ contents t' = contents t
            ∧ tree_size t = Z.of_nat (length swapped_pairs).
Proof.
  assert (NoDup swapped_pairs.*1) as Hnd by (by apply (bool_decide_unpack _)).
  assert (swapped_pairs ≡ₚ ordered_pairs) as Hp by apply perm_swap.
  split; [exact swapped_free|]. split; [exact Hnd|]. split; [exact Hp|].
  exact (inserts_any_order swapped_pairs ordered_pairs swapped_free Hnd Hp).
Defined.

Lemma Minimum_least_witness :
  run NewArtTree example_ops = Some example_tree ∧ root example_tree = Some example_root
  ∧ ∃ l, Minimum example_root = Some (Some l)
         ∧ (key l, value l) ∈ contents example_tree
         ∧ ∀ k : list byte, k ∈ (contents example_tree).*1 → k = key l ∨ lex_lt (key l) k.
Proof.
  split; [exact example_run|]. split; [exact example_root_eq|].
  exact (Minimum_least example_ops example_tree example_root example_run example_root_eq).
Defined.

Lemma Maximum_greatest_witness :
  run NewArtTree example_ops = Some example_tree ∧ root example_tree = Some example_root
  ∧ ∃ l, Maximum example_root = Some (Some l)
         ∧ (key l, value l) ∈ contents example_tree
         ∧ ∀ k : list byte, k ∈ (contents example_tree).*1 → k = key l ∨ lex_lt k (key l).
Proof.
  split; [exact example_run|]. split; [exact example_root_eq|].
  exact (Maximum_greatest example_ops example_tree example_root example_run example_root_eq).
Defined.

Lemma memmove_copies_witness :
  0 ≤ 2
  ∧ memmove (bytes_of "hello") (fun _ j => aget (bytes_of "xyz") j) 2
    = if decide (2 ≤ Z.min (len (bytes_of "xyz")) (len (bytes_of "hello")))
      then Some (take (Z.to_nat 2) (bytes_of "xyz") ++ drop (Z.to_nat 2) (bytes_of "hello"))
      else None.
Proof.
  split; [lia|]. apply (memmove_copies (bytes_of "hello") (bytes_of "xyz") 2). lia.
Defined.

Lemma memmove_overlap_witness :
  0 ≤ 2 ∧ 0 ≤ 3 ∧ 2 + 3 ≤ len (bytes_of "abcdef")
  ∧ memmove (bytes_of "abcdef") (fun d j => aget d (2 + j)) 3
    = Some (take (Z.to_nat 3) (drop (Z.to_nat 2) (bytes_of "abcdef"))
            ++ drop (Z.to_nat 3) (bytes_of "abcdef")).
Proof.
  assert (2 + 3 ≤ len (bytes_of "abcdef")) as H by (vm_compute; discriminate).
  split; [lia|]. split; [lia|]. split; [exact H|].
  apply (memmove_overlap (bytes_of "abcdef") 2 3); [lia|lia|exact H].
Defined.

Lemma LongestCommonPrefix_lcp_witness :
  0 ≤ 1 ≤ Z.min (len (key (NewLeafNode (bytes_of "abc") (@None string))))
                (len (key (NewLeafNode (bytes_of "abd") (@None string))))
  ∧ LongestCommonPrefix (NewLeafNode (bytes_of "abc") (@None string))
                        (NewLeafNode (bytes_of "abd") None) 1
    = Some (Z.of_nat (lcp (drop (Z.to_nat 1) (bytes_of "abc"))
                          (drop (Z.to_nat 1) (bytes_of "abd")))).
Proof.
  assert (0 ≤ 1 ≤ Z.min (len (key (NewLeafNode (bytes_of "abc") (@None string))))
                        (len (key (NewLeafNode (bytes_of "abd") (@None string))))) as H
    by (vm_compute; split; discriminate).
  split; [exact H|].
  exact (LongestCommonPrefix_lcp (NewLeafNode (bytes_of "abc") None)
           (NewLeafNode (bytes_of "abd") None) 1 H).
Defined.

Lemma NewNode4_node_ok : node_ok (@NewNode4 string).
Proof. exact (NewNode4_ok 0 (make 10 x00) eq_refl ltac:(lia)). Defined.

Lemma AddChild_adds_witness :
  node_ok (@NewNode4 string) ∧ child (@NewNode4 string) x01 = None
  ∧ ∃ n', AddChild NewNode4 x01 (NewLeafNode [x01; x00] None) = Some n' ∧ node_ok n'
      ∧ (∀ b', child n' b' = if decide (b' = x01) then Some (NewLeafNode [x01; x00] None)
                             else child (@NewNode4 string) b')
      ∧ count n' = count (@NewNode4 string) + 1
      ∧ prefix n' = prefix (@NewNode4 string) ∧ prefixLen n' = prefixLen (@NewNode4 string).
Proof.
  assert (child (@NewNode4 string) x01 = None) as H by (vm_compute; reflexivity).
  split; [exact NewNode4_node_ok|]. split; [exact H|].
  exact (AddChild_adds NewNode4 x01 (NewLeafNode [x01; x00] None) NewNode4_node_ok H).
Defined.

Lemma abc_root_eq : root abc_tree = Some abc_node.
Proof. vm_compute. reflexivity. Defined.

Lemma abcd_root_eq : root abcd_tree = Some abcd_node.
Proof. vm_compute. reflexivity. Defined.

Lemma abc_node_ok : node_ok abc_node ∧ MinSize abc_node ≤ count abc_node.
Proof. apply (root_inner_ok abc_ops abc_tree abc_node abc_run abc_root_eq). discriminate. Defined.

Lemma abcd_node_ok : node_ok abcd_node ∧ MinSize abcd_node ≤ count abcd_node.
Proof. apply (root_inner_ok abcd_ops abcd_tree abcd_node abcd_run abcd_root_eq). discriminate. Defined.

Lemma RemoveChild_removes_witness :
  node_ok abc_node ∧ MinSize abc_node ≤ count abc_node ∧ 3 ≤ count abc_node
  ∧ child abc_node (z2b 98) = Some (NewLeafNode (bytes_of "b" ++ [x00]) None)
  ∧ ∃ n', RemoveChild abc_node (z2b 98) = Some n' ∧ node_ok n'
      ∧ (∀ b', child n' b' = if decide (b' = z2b 98) then None else child abc_node b')
      ∧ count n' = count abc_node - 1 ∧ MinSize n' ≤ count n'
      ∧ prefix n' = prefix abc_node ∧ prefixLen n' = prefixLen abc_node.
Proof.
  assert (3 ≤ count abc_node) as H3 by (vm_compute; discriminate).
  assert (child abc_node (z2b 98) = Some (NewLeafNode (bytes_of "b" ++ [x00]) None)) as Hc
    by (vm_compute; reflexivity).
  split; [exact (proj1 abc_node_ok)|]. split; [exact (proj2 abc_node_ok)|].
  split; [exact H3|]. split; [exact Hc|].
  exact (RemoveChild_removes abc_node (z2b 98) _ (proj1 abc_node_ok) (proj2 abc_node_ok) H3 Hc).
Defined.

Lemma grow_keeps_children_witness :
  node_ok abcd_node ∧ size abcd_node = MaxSize abcd_node ∧ nodeType abcd_node ≠ NODE256
  ∧ ∃ n', grow abcd_node = Some n' ∧ node_ok n'
      ∧ (∀ b, child n' b = child abcd_node b)
      ∧ MaxSize abcd_node < MaxSize n'
      ∧ prefix n' = prefix abcd_node ∧ prefixLen n' = prefixLen abcd_node.
Proof.
  assert (size abcd_node = MaxSize abcd_node) as Hf by (vm_compute; reflexivity).
  assert (nodeType abcd_node ≠ NODE256) as Ht by discriminate.
  split; [exact (proj1 abcd_node_ok)|]. split; [exact Hf|]. split; [exact Ht|].
  exact (grow_keeps_children abcd_node (proj1 abcd_node_ok) Hf Ht).
Defined.

Lemma abcd_node16_ok : node_ok abcd_node16.
Proof.
  pose proof (proj1 abcd_node_ok) as Hok. pose proof Hok as (Hpl & Hp0 & _).
  assert (size abcd_node = 4) as Hfull by reflexivity.
  destruct (node_ok_cases abcd_node Hok) as [(Hty & es & r & Hv)|[(Hty & _)|
    [(Hty & _)|(Hty & _)]]]; [|discriminate..].
  pose proof Hv as (_&_&_&_&Hsz&_).
  destruct (grow4_spec abcd_node es r Hv Hty) as (n' & Hg & Hv' & Hty' & Hp' & Hpl').
  { unfold len, NODE4MAX in *. lia. }
  assert (grow abcd_node = Some abcd_node16) as E by (vm_compute; reflexivity).
  rewrite E in Hg. injection Hg as <-.
  split; [congruence|]. split; [lia|]. rewrite Hty'. by eexists _, _.
Qed.

Lemma shrink_keeps_children_witness :
  node_ok abcd_node16 ∧ count abcd_node16 = MinSize abcd_node16 - 1
  ∧ nodeType abcd_node16 ≠ NODE4
  ∧ ∃ n', shrink abcd_node16 = Some n' ∧ node_ok n'
      ∧ (∀ b, child n' b = child abcd_node16 b)
      ∧ MaxSize n' < MaxSize abcd_node16
      ∧ prefix n' = prefix abcd_node16 ∧ prefixLen n' = prefixLen abcd_node16.
Proof.
  assert (count abcd_node16 = MinSize abcd_node16 - 1) as Hc by (vm_compute; reflexivity).
  assert (nodeType abcd_node16 ≠ NODE4) as Ht by discriminate.
  split; [exact abcd_node16_ok|]. split; [exact Hc|]. split; [exact Ht|].
  exact (shrink_keeps_children abcd_node16 abcd_node16_ok Hc Ht).
Defined.

Lemma lone_parent_view : sorted_view 4 lone_parent [(z2b 120, abc_node)] [x00; x00; x00].
Proof.
  split; [reflexivity|]. split; [reflexivity|]. split; [reflexivity|].
  split; [simpl; lia|]. split; [reflexivity|]. repeat constructor.
Defined.

Lemma shrink4_merges_paths_witness :
  sorted_view 4 lone_parent [(z2b 120, abc_node)] [x00; x00; x00]
  ∧ nodeType lone_parent = NODE4 ∧ nodeType abc_node ≠ LEAF
  ∧ length (prefix lone_parent) = 10%nat ∧ length (prefix abc_node) = 10%nat
  ∧ pfx_ok [] lone_parent ∧ pfx_ok [] abc_node
  ∧ ∃ n', shrink lone_parent = Some n'
      ∧ pfx_ok ([] ++ z2b 120 :: []) n' ∧ length (prefix n') = 10%nat
      ∧ keys n' = keys abc_node ∧ children n' = children abc_node
      ∧ size n' = size abc_node ∧ nodeType n' = nodeType abc_node.
Proof.
  assert (nodeType abc_node ≠ LEAF) as Ht by discriminate.
  assert (pfx_ok [] lone_parent) as H1 by (split; reflexivity).
  assert (pfx_ok [] abc_node) as H2 by (split; reflexivity).
  split; [exact lone_parent_view|]. split; [reflexivity|]. split; [exact Ht|].
  split; [reflexivity|]. split; [reflexivity|]. split; [exact H1|]. split; [exact H2|].
  exact (shrink4_merges_paths lone_parent (z2b 120) abc_node [x00; x00; x00] [] []
           lone_parent_view eq_refl Ht eq_refl eq_refl H1 H2).
Defined.

Lemma node_capacity_witness :
  run NewArtTree example_ops = Some example_tree ∧ Each example_tree = Some example_nodes
  ∧ example_root ∈ example_nodes
  ∧ (nodeType example_root = LEAF
     ∨ (MinSize example_root ≤ count example_root ≤ MaxSize example_root
        ∧ size example_root = u8 (count example_root)
        ∧ length (prefix example_root) = 10%nat)).
Proof.
  assert (example_root ∈ example_nodes) as H by left.
  split; [exact example_run|]. split; [exact example_each|]. split; [exact H|].
  exact (node_capacity example_ops example_tree example_nodes example_run example_each
           example_root H).
Defined.

Lemma empty_iff_nil_root_witness :
  run NewArtTree example_ops = Some example_tree
  ∧ (root example_tree = None ↔ tree_size example_tree = 0) ∧ 0 ≤ tree_size example_tree.
Proof.
  split; [exact example_run|].
  exact (empty_iff_nil_root example_ops example_tree example_run).
Defined.

Lemma ensure_properties_witness :
  ¬ (x00 ∈ bytes_of "ab") ∧ ¬ (x00 ∈ bytes_of "ab")
  ∧ ensureNullTerminatedKey (bytes_of "ab") = ensureNullTerminatedKey (bytes_of "ab")
  ∧ bytes_of "ab" = bytes_of "ab".
Proof.
  assert (x00 ∉ bytes_of "ab") as H by (by apply (bool_decide_unpack _)).
  split; [exact H|]. split; [exact H|]. split; [reflexivity|].
  exact (proj2 (proj2 (proj2 (ensure_properties (bytes_of "ab")))) (bytes_of "ab") H H eq_refl).
Defined.

Lemma prefix_run : run NewArtTree prefix_ops = Some prefix_tree.
Proof. vm_compute. reflexivity. Defined.

Lemma prefix_no_remove : ∀ k', ¬ (OpRemove k' ∈ prefix_ops).
Proof.
  intros k' H. repeat (apply elem_of_cons in H as [H|H]; [discriminate H|]).
  by apply elem_of_nil in H.
Defined.

Lemma prefix_keys_free : ∀ k' v', OpInsert k' v' ∈ prefix_ops → ¬ (x00 ∈ k').
Proof. apply insert_keys_free. repeat constructor; by apply (bool_decide_unpack _). Defined.

Lemma PrefixSearch_without_remove_witness :
  (∀ k', ¬ (OpRemove k' ∈ prefix_ops)) ∧ run NewArtTree prefix_ops = Some prefix_tree
  ∧ PrefixSearchChan prefix_tree (bytes_of "a")
    = Some (with_prefix (bytes_of "a") (contents prefix_tree))
  ∧ PrefixSearch prefix_tree (bytes_of "a")
    = Some (with_prefix (bytes_of "a") (contents prefix_tree)).*2.
Proof.
  split; [exact prefix_no_remove|]. split; [exact prefix_run|].
  exact (PrefixSearch_without_remove prefix_ops prefix_tree (bytes_of "a")
           prefix_no_remove prefix_run).
Defined.

Lemma Search_without_remove_witness :
  (∀ k', ¬ (OpRemove k' ∈ prefix_ops)) ∧ run NewArtTree prefix_ops = Some prefix_tree
  ∧ ∃ r, Search prefix_tree (bytes_of "a") = Some r
      ∧ ((ensureNullTerminatedKey (bytes_of "a"), r) ∈ contents prefix_tree
         ∨ (r = None ∧ ¬ (ensureNullTerminatedKey (bytes_of "a") ∈ (contents prefix_tree).*1))).
Proof.
  split; [exact prefix_no_remove|]. split; [exact prefix_run|].
  exact (Search_without_remove prefix_ops prefix_tree (bytes_of "a")
           prefix_no_remove prefix_run).
Defined.

Lemma Remove_returns_first_witness :
  (∀ k', ¬ (OpRemove k' ∈ prefix_ops))
  ∧ (∀ k' v', OpInsert k' v' ∈ prefix_ops → ¬ (x00 ∈ k'))
  ∧ run NewArtTree prefix_ops = Some prefix_tree
  ∧ ∃ t', Remove prefix_tree (bytes_of "a") = Some t'.
Proof.
  split; [exact prefix_no_remove|]. split; [exact prefix_keys_free|].
  split; [exact prefix_run|].
  exact (Remove_returns_first prefix_ops prefix_tree (bytes_of "a")
           prefix_no_remove prefix_keys_free prefix_run).
Defined.

Lemma round_trip_keys_free : ∀ k' v', OpInsert k' v' ∈ round_trip_ops → ¬ (x00 ∈ k').
Proof. apply insert_keys_free. repeat constructor; by apply (bool_decide_unpack _). Defined.

Lemma Insert_returns_zero_free_witness :
  (∀ k' v', OpInsert k' v' ∈ round_trip_ops → ¬ (x00 ∈ k'))
  ∧ run NewArtTree round_trip_ops = Some round_trip_tree
  ∧ ¬ (x00 ∈ bytes_of "a")
  ∧ ∃ t', Insert round_trip_tree (bytes_of "a") (Some "again"%string) = Some t'
          ∧ ensureNullTerminatedKey (bytes_of "a") ∈ (contents t').*1.
Proof.
  assert (¬ (x00 ∈ bytes_of "a")) as H by (by apply (bool_decide_unpack _)).
  split; [exact round_trip_keys_free|]. split; [exact round_trip_run|]. split; [exact H|].
  exact (Insert_returns_zero_free round_trip_ops round_trip_tree (bytes_of "a")
           (Some "again"%string) round_trip_keys_free round_trip_run H).
Defined.
